(** * Grammarkdown front end: symbol tables, binder and parser

    A shallow embedding of [src/symbols.ts], [src/lib/binder.ts], the
    parser source and the helpers of the core module it uses, followed by
    the properties the specification states about them and by further
    properties of the code.  Mutable objects are modelled by explicit state passing;
    objects that are shared between several owners (symbols, diagnostic
    sinks, tag maps, cancellation sources) live in stores and are named by
    references, so that aliasing is visible in the model. *)

From Stdlib Require Import String List Bool Arith Lia.
From stdpp Require Import gmap strings list fin_maps.

Set Default Proof Using "Type".

(** ** Exceptions and the state/exception monad

    JavaScript code either returns a value or throws.  [OperationCanceled]
    is what [throwIfCancellationRequested] throws, [TypeError] is what a
    property access on [undefined] throws.  [OutOfFuel] is not a JavaScript
    exception: it marks the point where a bounded unrolling of a loop was
    too short, and is never confused with a result. *)

Inductive Exn := OperationCanceled | TypeError | OutOfFuel.

Inductive Result (A : Type) :=
| Ok (a : A)
| Throw (e : Exn).
Arguments Ok {A} a.
Arguments Throw {A} e.

Definition M (S A : Type) : Type := S -> Result A * S.

Definition ret {S A} (a : A) : M S A := fun s => (Ok a, s).

Definition bind {S A B} (m : M S A) (f : A -> M S B) : M S B :=
  fun s => match m s with
           | (Ok a, s') => f a s'
           | (Throw e, s') => (Throw e, s')
           end.

Definition throw {S A} (e : Exn) : M S A := fun s => (Throw e, s).
Definition gets {S A} (f : S -> A) : M S A := fun s => (Ok (f s), s).
Definition modify {S} (f : S -> S) : M S unit := fun s => (Ok tt, f s).

(** [try { m } finally { cleanup }]: the clean-up runs on every exit and the
    outcome of [m] is kept (the clean-up blocks of the source only assign
    fields and cannot throw). *)
Definition finally {S A} (m : M S A) (cleanup : S -> S) : M S A :=
  fun s => let '(r, s') := m s in (r, cleanup s').

Declare Scope js_scope.
Delimit Scope js_scope with js.
Notation "'let*' x ':=' c1 'in' c2" := (bind c1 (fun x => c2))
  (at level 10, x pattern, c1 at level 100, c2 at level 200) : js_scope.
Notation "c1 ';;' c2" := (bind c1 (fun _ => c2))
  (at level 100, c2 at level 200, right associativity) : js_scope.
Local Open Scope js_scope.

Definition when {S} (b : bool) (m : M S unit) : M S unit := if b then m else ret tt.

(** A JavaScript string is truthy when it is not empty; [undefined] is falsy. *)
Definition truthy (name : string) : bool := negb (String.eqb name EmptyString).
Definition truthy_opt (name : option string) : bool :=
  match name with Some n => truthy n | None => false end.

(** ** Cancellation tokens

    [CancellationToken] comes from the [prex] package.  The code only ever
    calls [throwIfCancellationRequested] on it.  A token is a reference to a
    cancellation source; the store records, per source, how many more polls
    succeed before the request becomes visible ([0]: already cancelled).
    [CancellationToken.none] and sources without an entry never cancel. *)

Module CancellationToken.
Inductive t := none | source (i : nat).
Definition throwIfCancellationRequested (tok : t) (polls : gmap nat nat)
  : Result unit * gmap nat nat :=
  match tok with
  | none => (Ok tt, polls)
  | source i =>
      match polls !! i with
      | Some 0 => (Throw OperationCanceled, polls)
      | Some (S n) => (Ok tt, <[i := n]> polls)
      | None => (Ok tt, polls)
      end
  end.
End CancellationToken.
Abbreviation CancellationToken := CancellationToken.t.

(** ** Syntax kinds ([tokens.ts] is not part of the sources at hand)

    Modelled from the spec: the [SyntaxKind] enumeration of [tokens.ts],
    restricted to the members the parser and binder name.  The enumeration is
    numeric in the source; [Unknown] is its zero and the only falsy member,
    the keywords form the range [FirstKeyword .. LastKeyword] and the prose
    tokens the range [FirstProseFragment .. LastProseFragment]. *)

Module SyntaxKind.
Inductive t :=
| Unknown
| HtmlOpenTagTrivia | HtmlCloseTagTrivia
| EndOfFileToken | LineTerminatorToken | IndentToken | DedentToken
| StringLiteral | Terminal | UnicodeCharacterLiteral
| ProseHead | ProseMiddle | ProseTail | ProseFull
| AtToken | OpenBraceToken | CloseBraceToken
| OpenBracketToken | OpenBracketGreaterThanToken | CloseBracketToken
| GreaterThanToken | OpenParenToken | CloseParenToken
| ColonToken | ColonColonToken | ColonColonColonToken
| CommaToken | PlusToken | TildeToken | QuestionToken
| EqualsToken | EqualsEqualsToken | ExclamationEqualsToken | NotEqualToToken
| LessThanMinusToken | ElementOfToken | LessThanExclamationToken | NotAnElementOfToken
| ButKeyword | DefineKeyword | EmptyKeyword | FalseKeyword | GoalKeyword
| HereKeyword | ImportKeyword | LexicalKeyword | LookaheadKeyword | NoKeyword
| NotKeyword | OfKeyword | OneKeyword | OrKeyword | ThroughKeyword | TrueKeyword
| Identifier | LinkReference
| SourceFile | UnicodeCharacterRange | ButNotSymbol
| Prose | PlaceholderSymbol | InvalidSymbol
| EmptyAssertion | LookaheadAssertion | LexicalGoalAssertion | NoSymbolHereAssertion
| ParameterValueAssertion | ProseAssertion | InvalidAssertion
| SymbolSet | SymbolSpan | Nonterminal | OneOfSymbol
| ParameterList | ArgumentList | Argument | OneOfList
| RightHandSide | RightHandSideList
| Production | Import | Define
| ParameterNode.

Definition code (k : t) : nat :=
  match k with
  | Unknown => 0
  | HtmlOpenTagTrivia => 1 | HtmlCloseTagTrivia => 2
  | EndOfFileToken => 3 | LineTerminatorToken => 4 | IndentToken => 5 | DedentToken => 6
  | StringLiteral => 7 | Terminal => 8 | UnicodeCharacterLiteral => 9
  | ProseHead => 10 | ProseMiddle => 11 | ProseTail => 12 | ProseFull => 13
  | AtToken => 14 | OpenBraceToken => 15 | CloseBraceToken => 16
  | OpenBracketToken => 17 | OpenBracketGreaterThanToken => 18 | CloseBracketToken => 19
  | GreaterThanToken => 20 | OpenParenToken => 21 | CloseParenToken => 22
  | ColonToken => 23 | ColonColonToken => 24 | ColonColonColonToken => 25
  | CommaToken => 26 | PlusToken => 27 | TildeToken => 28 | QuestionToken => 29
  | EqualsToken => 30 | EqualsEqualsToken => 31 | ExclamationEqualsToken => 32
  | NotEqualToToken => 33 | LessThanMinusToken => 34 | ElementOfToken => 35
  | LessThanExclamationToken => 36 | NotAnElementOfToken => 37
  | ButKeyword => 38 | DefineKeyword => 39 | EmptyKeyword => 40 | FalseKeyword => 41
  | GoalKeyword => 42 | HereKeyword => 43 | ImportKeyword => 44 | LexicalKeyword => 45
  | LookaheadKeyword => 46 | NoKeyword => 47 | NotKeyword => 48 | OfKeyword => 49
  | OneKeyword => 50 | OrKeyword => 51 | ThroughKeyword => 52 | TrueKeyword => 53
  | Identifier => 54 | LinkReference => 55
  | SourceFile => 56 | UnicodeCharacterRange => 57 | ButNotSymbol => 58
  | Prose => 59 | PlaceholderSymbol => 60 | InvalidSymbol => 61
  | EmptyAssertion => 62 | LookaheadAssertion => 63 | LexicalGoalAssertion => 64
  | NoSymbolHereAssertion => 65 | ParameterValueAssertion => 66 | ProseAssertion => 67
  | InvalidAssertion => 68
  | SymbolSet => 69 | SymbolSpan => 70 | Nonterminal => 71 | OneOfSymbol => 72
  | ParameterList => 73 | ArgumentList => 74 | Argument => 75 | OneOfList => 76
  | RightHandSide => 77 | RightHandSideList => 78
  | Production => 79 | Import => 80 | Define => 81
  | ParameterNode => 82
  end.

Definition eqb (a b : t) : bool := Nat.eqb (code a) (code b).

Definition FirstKeyword := ButKeyword.
Definition LastKeyword := TrueKeyword.
Definition FirstProseFragment := ProseHead.
Definition LastProseFragment := ProseFull.

(** [kind >= lo && kind <= hi] on the numeric enumeration. *)
Definition inRange (lo hi k : t) : bool :=
  Nat.leb (code lo) (code k) && Nat.leb (code k) (code hi).
End SyntaxKind.
Abbreviation SyntaxKind := SyntaxKind.t.
Infix "=k" := SyntaxKind.eqb (at level 70, no associativity).

(** ** Nodes ([nodes.ts] is not part of the sources at hand)

    Modelled from the spec: a node owns an identity [id], a kind, a half-open
    text range [pos .. end_), optional leading and trailing markup trivia
    and its child nodes.  [children] lists the children that are present, in
    the order [forEachChild] visits them (the order of the constructor
    arguments in the parser); [text] is the decoded text of identifiers and
    literals.  The [name] of a production or parameter is its first child. *)

Module HtmlTrivia.
Record t := mk { kind : SyntaxKind; tagName : string; pos : nat; end_ : nat }.
End HtmlTrivia.
Abbreviation HtmlTrivia := HtmlTrivia.t.

Module Node.
#[local] Unset Elimination Schemes.
Inductive t :=
| mk (id : nat) (kind : SyntaxKind) (pos end_ : nat) (text : option string)
     (leadingHtmlTrivia trailingHtmlTrivia : option (list HtmlTrivia))
     (children : list t).
#[local] Set Elimination Schemes.

Definition id (n : t) : nat := let 'mk i _ _ _ _ _ _ _ := n in i.
Definition kind (n : t) : SyntaxKind := let 'mk _ k _ _ _ _ _ _ := n in k.
Definition pos (n : t) : nat := let 'mk _ _ p _ _ _ _ _ := n in p.
Definition end_ (n : t) : nat := let 'mk _ _ _ e _ _ _ _ := n in e.
Definition text (n : t) : option string := let 'mk _ _ _ _ x _ _ _ := n in x.
Definition leadingHtmlTrivia (n : t) := let 'mk _ _ _ _ _ l _ _ := n in l.
Definition trailingHtmlTrivia (n : t) := let 'mk _ _ _ _ _ _ r _ := n in r.
Definition children (n : t) : list t := let 'mk _ _ _ _ _ _ _ c := n in c.

Definition name (n : t) : option t := head (children n).
Definition firstChild (n : t) : option t := head (children n).
Definition lastChild (n : t) : option t := last (children n).

(** Object identity of nodes is identity of their [id]s. *)
Definition same (a b : t) : bool := Nat.eqb (id a) (id b).
End Node.
Abbreviation Node := Node.t.

(** A [SourceFile] is the root node together with what the parser records
    about the file; [parseDiagnostics] names the file's own diagnostic sink. *)
Module SourceFile.
Record t := mk {
  node : Node;
  filename : string;
  text : string;
  imports : list string;
  parseDiagnostics : option nat
}.
End SourceFile.
Abbreviation SourceFile := SourceFile.t.

(** ** Symbols and symbol tables ([src/symbols.ts]) *)

Module SymbolKind.
Inductive t := SourceFile | Production | Parameter_.
Definition code (k : t) : nat :=
  match k with SourceFile => 0 | Production => 1 | Parameter_ => 2 end.
Definition of_code (n : nat) : option t :=
  match n with 0 => Some SourceFile | 1 => Some Production | 2 => Some Parameter_ | _ => None end.
#[global] Instance eq_dec : EqDecision t.
Proof. solve_decision. Defined.
#[global] Instance countable : Countable t :=
  inj_countable code of_code (fun k => match k with SourceFile | Production | Parameter_ => eq_refl end).
End SymbolKind.
Abbreviation SymbolKind := SymbolKind.t.

(** A [Symbol] object.  [parent] is a reference to another symbol.  The
    [locals] field of the class is never read or written by the code and is
    left out.  Symbols are mutable ([declareSymbol] assigns [parent]) and
    shared by every table that lists them, so they live in a store and are
    referred to by [id]. *)
Module Symbol.
Record t := mk { id : nat; name : string; kind : SymbolKind; parent : option nat }.
Definition with_parent (p : option nat) (s : t) : t := mk (id s) (name s) (kind s) p.
End Symbol.
Abbreviation Symbol := Symbol.t.

(** The module-level counter [nextSymbolId] and the symbols created so far. *)
Record SymbolHeap := mkSymbolHeap {
  nextSymbolId : nat;
  symbolObjects : gmap nat Symbol
}.

Definition initialSymbolHeap : SymbolHeap := mkSymbolHeap 0 ∅.

(** [new Symbol(kind, name)]: [id = ++nextSymbolId]. *)
Definition new_Symbol (kind : SymbolKind) (name : string) (h : SymbolHeap) : nat * SymbolHeap :=
  let i := S (nextSymbolId h) in
  (i, mkSymbolHeap i (<[i := Symbol.mk i name kind None]> (symbolObjects h))).

(** [symbol.parent = parent] *)
Definition set_parent (symbol : nat) (parent : option nat) (h : SymbolHeap) : SymbolHeap :=
  mkSymbolHeap (nextSymbolId h) (alter (Symbol.with_parent parent) symbol (symbolObjects h)).

Module SymbolTable.
Record t := mk { nameMap : option (gmap SymbolKind (gmap string nat)) }.

Definition new : t := mk None.

Definition isEmpty (this : t) : bool :=
  match nameMap this with None => true | Some _ => false end.

(** [getSymbols(kind, create)] returns the per-kind map, creating the outer
    and the inner map on demand when [create] is set. *)
Definition getSymbols (kind : SymbolKind) (create : bool) (this : t)
  : option (gmap string nat) * t :=
  match nameMap this with
  | None =>
      if negb create then (None, this)
      else (Some ∅, mk (Some {[ kind := ∅ ]}))
  | Some nm =>
      match nm !! kind with
      | Some symbols => (Some symbols, this)
      | None =>
          if create then (Some ∅, mk (Some (<[kind := ∅]> nm)))
          else (None, this)
      end
  end.

(** [symbols.set(name, symbol)] on the map [getSymbols] returned for [kind]. *)
Definition setSymbol (kind : SymbolKind) (name : string) (symbol : nat) (this : t) : t :=
  match nameMap this with
  | None => this
  | Some nm =>
      mk (Some (<[kind := <[name := symbol]> (default ∅ (nm !! kind))]> nm))
  end.

Definition resolveSymbol (name : string) (kind : SymbolKind) (this : t) : option nat :=
  if truthy name then
    match fst (getSymbols kind false this) with
    | Some symbols => symbols !! name
    | None => None
    end
  else None.

(** [copyFrom(other)]: every entry of [other] is set in [this]; entries of
    [this] under other names are kept, and [this.nameMap] is created when
    the first kind is copied.  ([other === this] returns early in the
    source; copying a table into itself changes nothing either.) *)
Definition copyFrom (other : t) (this : t) : t :=
  match nameMap other with
  | None => this
  | Some onm =>
      mk (map_fold
            (fun kind otherSymbols acc =>
               let nm := default ∅ acc in
               Some (<[kind := otherSymbols ∪ default ∅ (nm !! kind)]> nm))
            (nameMap this) onm)
  end.

Definition declareSymbol (name : option string) (kind : SymbolKind) (parent : option nat)
    (this : t) (h : SymbolHeap) : nat * t * SymbolHeap :=
  let '(symbol, this', h') :=
    match name with
    | Some n =>
        if truthy n then
          let '(symbols, this1) := getSymbols kind true this in
          match default ∅ symbols !! n with
          | Some symbol => (symbol, this1, h)
          | None =>
              let '(symbol, h1) := new_Symbol kind n h in
              (symbol, setSymbol kind n symbol this1, h1)
          end
        else
          let '(symbol, h1) := new_Symbol kind "*missing*" h in (symbol, this, h1)
    | None =>
        let '(symbol, h1) := new_Symbol kind "*missing*" h in (symbol, this, h1)
    end in
  (symbol, this', set_parent symbol parent h').
End SymbolTable.
Abbreviation SymbolTable := SymbolTable.t.

(** ** The binding table ([src/lib/binder.ts], class [BindingTable])

    The side tables are JavaScript arrays indexed by node or symbol id and
    created on first use; they are modelled as optional finite maps.  A
    symbol-table object is reachable from the binder in two ways only: as
    [globals], or as the local scope of a symbol; [ScopeRef] names it. *)

Inductive ScopeRef := GlobalScope | LocalScope (container : nat).

Module BindingTable.
Record t := mk {
  globals : SymbolTable;
  parentNodes : option (gmap nat Node);
  nodeMap : option (gmap nat nat);
  symbolReferences : option (gmap nat (list Node));
  symbolLocals : option (gmap nat SymbolTable);
  symbolDeclarations : option (gmap nat (list Node))
}.

Definition new : t := mk SymbolTable.new None None None None None.

Definition setParent (node parent : option Node) (this : t) : t :=
  match node, parent with
  | Some node, Some parent =>
      mk (globals this)
         (Some (<[Node.id node := parent]> (default ∅ (parentNodes this))))
         (nodeMap this) (symbolReferences this) (symbolLocals this) (symbolDeclarations this)
  | _, _ => this
  end.

Definition hasParent (node : option Node) (this : t) : bool :=
  match node, parentNodes this with
  | Some node, Some parents => bool_decide (is_Some (parents !! Node.id node))
  | _, _ => false
  end.

Definition getParent (node : option Node) (this : t) : option Node :=
  match node, parentNodes this with
  | Some node, Some parents => parents !! Node.id node
  | _, _ => None
  end.

(** The [for] loop of [getAncestor], unrolled at most [fuel] times. *)
Fixpoint getAncestor_loop (fuel : nat) (parent : option Node) (kind : SyntaxKind) (this : t)
  : Result (option Node) :=
  match fuel with
  | 0 => Throw OutOfFuel
  | S fuel' =>
      match parent with
      | None => Ok None
      | Some p =>
          if Node.kind p =k kind then Ok (Some p)
          else getAncestor_loop fuel' (getParent (Some p) this) kind this
      end
  end.

Definition getAncestor (fuel : nat) (node : option Node) (kind : SyntaxKind) (this : t)
  : Result (option Node) :=
  getAncestor_loop fuel (getParent node this) kind this.

Definition setSymbolForNode (node : Node) (symbol : nat) (this : t) : t :=
  mk (globals this) (parentNodes this)
     (Some (<[Node.id node := symbol]> (default ∅ (nodeMap this))))
     (symbolReferences this) (symbolLocals this) (symbolDeclarations this).

(** [indexOf(node) === -1] compares object identities. *)
Definition indexOf_is_minus1 (node : Node) (nodes : list Node) : bool :=
  negb (existsb (Node.same node) nodes).

Definition addReferenceToSymbol (symbol : nat) (node : Node) (this : t) : t :=
  let refs := default ∅ (symbolReferences this) in
  let old := default [] (refs !! symbol) in
  let new := if indexOf_is_minus1 node old then old ++ [node] else old in
  mk (globals this) (parentNodes this) (nodeMap this)
     (Some (<[symbol := new]> refs))
     (symbolLocals this) (symbolDeclarations this).

Definition setSymbol (node : option Node) (symbol : option nat) (this : t) : t :=
  match node, symbol with
  | Some node, Some symbol =>
      addReferenceToSymbol symbol node (setSymbolForNode node symbol this)
  | _, _ => this
  end.

Definition hasSymbol (node : option Node) (this : t) : bool :=
  match node, nodeMap this with
  | Some node, Some nm => bool_decide (is_Some (nm !! Node.id node))
  | _, _ => false
  end.

Definition getSymbol (node : option Node) (this : t) : option nat :=
  match node, nodeMap this with
  | Some node, Some nm => nm !! Node.id node
  | _, _ => None
  end.

(** [node.name] is typed [Identifier] for productions and parameters; a
    declaration without a name child is outside the typed domain and
    records no reference. *)
Definition addDeclarationToSymbol (symbol : option nat) (node : option Node) (this : t) : t :=
  match symbol, node with
  | Some symbol, Some node =>
      let decls := default ∅ (symbolDeclarations this) in
      let declarations := default [] (decls !! symbol) in
      let this1 :=
        mk (globals this) (parentNodes this) (nodeMap this) (symbolReferences this)
           (symbolLocals this) (Some (<[symbol := declarations ++ [node]]> decls)) in
      let this2 := setSymbolForNode node symbol this1 in
      if negb (Node.kind node =k SyntaxKind.SourceFile) then
        match Node.name node with
        | Some name => addReferenceToSymbol symbol name this2
        | None => this2
        end
      else this2
  | _, _ => this
  end.

Definition getDeclarations (symbol : option nat) (this : t) : list Node :=
  match symbol, symbolDeclarations this with
  | Some symbol, Some decls => default [] (decls !! symbol)
  | _, _ => []
  end.

Definition getReferences (symbol : option nat) (this : t) : list Node :=
  match symbol, symbolReferences this with
  | Some symbol, Some refs => default [] (refs !! symbol)
  | _, _ => []
  end.

(** [getScope(container)] creates the local scope of [container] on first
    use and returns (a reference to) it. *)
Definition getScope (container : nat) (this : t) : ScopeRef * t :=
  let locals := default ∅ (symbolLocals this) in
  match locals !! container with
  | Some _ =>
      (LocalScope container,
       mk (globals this) (parentNodes this) (nodeMap this) (symbolReferences this)
          (Some locals) (symbolDeclarations this))
  | None =>
      (LocalScope container,
       mk (globals this) (parentNodes this) (nodeMap this) (symbolReferences this)
          (Some (<[container := SymbolTable.new]> locals)) (symbolDeclarations this))
  end.

(** The [while (location)] loop of [resolveSymbol], unrolled at most [fuel]
    times. *)
Fixpoint resolveSymbol_loop (fuel : nat) (locals : gmap nat SymbolTable)
    (location : option Node) (name : string) (meaning : SymbolKind) (this : t)
  : Result (option nat) :=
  match fuel with
  | 0 => Throw OutOfFuel
  | S fuel' =>
      match location with
      | None => Ok None
      | Some loc =>
          if Node.kind loc =k SyntaxKind.SourceFile then
            Ok (SymbolTable.resolveSymbol name meaning (globals this))
          else
            let symbol := getSymbol (Some loc) this in
            let scope := match symbol with Some s => locals !! s | None => None end in
            match scope ≫= SymbolTable.resolveSymbol name meaning with
            | Some result => Ok (Some result)
            | None => resolveSymbol_loop fuel' locals (getParent (Some loc) this) name meaning this
            end
      end
  end.

Definition resolveSymbol (fuel : nat) (location : option Node) (name : string)
    (meaning : SymbolKind) (this : t) : Result (option nat) :=
  match symbolLocals this with
  | Some locals => resolveSymbol_loop fuel locals location name meaning this
  | None => Ok None
  end.

(** Reading and writing the symbol table a [ScopeRef] names. *)
Definition readScope (r : ScopeRef) (this : t) : option SymbolTable :=
  match r with
  | GlobalScope => Some (globals this)
  | LocalScope i => symbolLocals this ≫= (.!! i)
  end.

Definition writeScope (r : ScopeRef) (table : SymbolTable) (this : t) : t :=
  match r with
  | GlobalScope =>
      mk table (parentNodes this) (nodeMap this) (symbolReferences this)
         (symbolLocals this) (symbolDeclarations this)
  | LocalScope i =>
      mk (globals this) (parentNodes this) (nodeMap this) (symbolReferences this)
         (Some (<[i := table]> (default ∅ (symbolLocals this)))) (symbolDeclarations this)
  end.
End BindingTable.
Abbreviation BindingTable := BindingTable.t.

(** ** The binder ([src/lib/binder.ts], class [Binder])

    The record holds the fields of a [Binder], the [BindingTable] it was
    constructed with, and the two stores the code reaches through module
    state: the symbols and the cancellation sources. *)

Module Binder.
Record t := mk {
  parentNode : option Node;
  parentSymbol : option nat;
  bindings : BindingTable;
  scope : ScopeRef;
  cancellationToken : CancellationToken;
  symbolHeap : SymbolHeap;
  polls : gmap nat nat
}.

Definition new (bindings : BindingTable) (cancellationToken : CancellationToken)
    (h : SymbolHeap) (polls : gmap nat nat) : t :=
  mk None None bindings GlobalScope cancellationToken h polls.

Definition throwIfCancellationRequested : M t unit :=
  fun this =>
    let '(r, p) := CancellationToken.throwIfCancellationRequested (cancellationToken this) (polls this) in
    (r, mk (parentNode this) (parentSymbol this) (bindings this) (scope this)
           (cancellationToken this) (symbolHeap this) p).

Definition with_bindings (f : BindingTable -> BindingTable) (this : t) : t :=
  mk (parentNode this) (parentSymbol this) (f (bindings this)) (scope this)
     (cancellationToken this) (symbolHeap this) (polls this).

Definition with_context (pn : option Node) (ps : option nat) (sc : ScopeRef) (this : t) : t :=
  mk pn ps (bindings this) sc (cancellationToken this) (symbolHeap this) (polls this).

(** [this.bindings.getScope(symbol)] *)
Definition getScope (container : nat) : M t ScopeRef :=
  fun this =>
    let '(r, b) := BindingTable.getScope container (bindings this) in
    (Ok r, with_bindings (fun _ => b) this).

(** [this.scope.declareSymbol(name, kind, this.parentSymbol)] followed by
    [this.bindings.addDeclarationToSymbol(symbol, declaration)]. *)
Definition declareSymbol (name : option string) (declaration : Node) (kind : SymbolKind)
  : M t nat :=
  fun this =>
    match BindingTable.readScope (scope this) (bindings this) with
    | None => (Throw TypeError, this)
    | Some table =>
        let '(symbol, table', h') :=
          SymbolTable.declareSymbol name kind (parentSymbol this) table (symbolHeap this) in
        let b1 := BindingTable.writeScope (scope this) table' (bindings this) in
        let b2 := BindingTable.addDeclarationToSymbol (Some symbol) (Some declaration) b1 in
        (Ok symbol,
         mk (parentNode this) (parentSymbol this) b2 (scope this)
            (cancellationToken this) h' (polls this))
    end.

(** [forEachChild(parentNode, child => this.bind(child))] *)
Definition forEachChild (node : Node) (cb : Node -> M t unit) : M t unit :=
  (fix each (cs : list Node) : M t unit :=
     match cs with
     | [] => ret tt
     | c :: cs' => cb c ;; each cs'
     end) (Node.children node).

Definition bindChildren (bind : Node -> M t unit)
    (parentNode' : Node) (parentSymbol' : option nat) (scope' : ScopeRef) : M t unit :=
  let* saveParentNode := gets parentNode in
  let* saveParentSymbol := gets parentSymbol in
  let* saveScope := gets scope in
  modify (with_context (Some parentNode') parentSymbol' scope') ;;
  forEachChild parentNode' bind ;;
  modify (with_context saveParentNode saveParentSymbol saveScope).

(** [node.name.text]; reading [text] of a missing name throws. *)
Definition name_text (node : Node) : M t (option string) :=
  match Node.name node with
  | Some name => ret (Node.text name)
  | None => throw TypeError
  end.

Definition bindProduction (bind : Node -> M t unit) (node : Node) : M t unit :=
  let* name := name_text node in
  let* symbol := declareSymbol name node SymbolKind.Production in
  let* scope := getScope symbol in
  bindChildren bind node (Some symbol) scope.

Definition bindParameter (bind : Node -> M t unit) (node : Node) : M t unit :=
  let* name := name_text node in
  let* symbol := declareSymbol name node SymbolKind.Parameter_ in
  let* parentSymbol := gets parentSymbol in
  let* scope := gets scope in
  bindChildren bind node parentSymbol scope.

Fixpoint bind (node : Node) : M t unit :=
  let* parent := gets parentNode in
  modify (with_bindings (BindingTable.setParent (Some node) parent)) ;;
  match Node.kind node with
  | SyntaxKind.Production => bindProduction bind node
  | SyntaxKind.ParameterNode => bindParameter bind node
  | _ =>
      let* parentSymbol := gets parentSymbol in
      let* scope := gets scope in
      bindChildren bind node parentSymbol scope
  end.

Definition scopeResolves (name : string) (kind : SymbolKind) (this : t) : option nat :=
  BindingTable.readScope (scope this) (bindings this) ≫= SymbolTable.resolveSymbol name kind.

Definition bindSourceFile (file : SourceFile) : M t unit :=
  throwIfCancellationRequested ;;
  let* bound := gets (scopeResolves (SourceFile.filename file) SymbolKind.SourceFile) in
  match bound with
  | Some _ => ret tt (* skip files that have already been bound. *)
  | None =>
      let* symbol := declareSymbol (Some (SourceFile.filename file)) (SourceFile.node file)
                                   SymbolKind.SourceFile in
      let* scope := gets scope in
      bindChildren bind (SourceFile.node file) (Some symbol) scope
  end.
End Binder.
Abbreviation Binder := Binder.t.

(** ** Diagnostics ([diagnostics.ts] is not part of the sources at hand)

    Modelled from the spec: a diagnostic sink records positioned messages
    in order.  The parser names three messages; the argument that
    [formatList] or [tokenToString] renders is kept as the kinds it is
    built from.  [NullDiagnosticMessages.instance] is the discard sink: a
    report to it records nothing.  Sinks are shared (the parser, its
    scanner and the finished source file refer to the same object), so they
    live in a store. *)

Module Diagnostics.
Inductive t :=
| Production_expected
| _0_expected (expected : list SyntaxKind)
| Unexpected_token_0_ (token : SyntaxKind)
| Lexical (code : nat).
End Diagnostics.

Module Diagnostic.
Record t := mk { pos : nat; message : Diagnostics.t }.
End Diagnostic.
Abbreviation Diagnostic := Diagnostic.t.

Module DiagnosticMessages.
Inductive t := NullInstance | Sink (ref : nat).
Definition report (this : t) (pos : nat) (message : Diagnostics.t)
    (sinks : gmap nat (list Diagnostic)) : gmap nat (list Diagnostic) :=
  match this with
  | NullInstance => sinks
  | Sink r => <[r := default [] (sinks !! r) ++ [Diagnostic.mk pos message]]> sinks
  end.
End DiagnosticMessages.
Abbreviation DiagnosticMessages := DiagnosticMessages.t.

(** ** The scanner ([scanner.ts] is not part of the sources at hand)

    Modelled from the spec: [scan()] returns the next classified token and
    advances the internal position; [getStartPos()] and [getTokenPos()]
    expose the offset where the scan of the current token started and the
    offset of its first character; [getTokenValue()] and [getTokenText()]
    return its decoded and raw text; [getHtmlTrivia()] drains the markup
    trivia collected before the current token.  Lexing itself is taken as
    given: [lex text] is the stream of tokens the scanner produces for
    [text], each with the width of the trivia skipped before it, its own
    width, its decoded value, the markup trivia before it and the lexical
    errors the scanner reports when it scans it.  Past the end of the stream
    every scan yields [EndOfFileToken]. *)

Module ScannedToken.
Record t := mk {
  kind : SyntaxKind;
  leading : nat;
  width : nat;
  value : option string;
  htmlTrivia : option (list HtmlTrivia);
  errors : list Diagnostics.t
}.
End ScannedToken.
Abbreviation ScannedToken := ScannedToken.t.

Definition Lexer : Type := string -> list ScannedToken.

Module Scanner.
Record t := mk {
  filename : string;
  text : string;
  rest : list ScannedToken;
  pos : nat;
  startPos : nat;
  tokenPos : nat;
  token : SyntaxKind;
  tokenValue : option string;
  htmlTrivia : option (list HtmlTrivia);
  diagnostics : DiagnosticMessages;
  cancellationToken : CancellationToken
}.

Definition new (lex : Lexer) (filename text : string) (diagnostics : DiagnosticMessages)
    (cancellationToken : CancellationToken) : t :=
  mk filename text (lex text) 0 0 0 SyntaxKind.Unknown None None diagnostics cancellationToken.

Definition getStartPos (this : t) : nat := startPos this.
Definition getTokenPos (this : t) : nat := tokenPos this.
Definition getTokenValue (this : t) : option string := tokenValue this.
Definition getTokenText (this : t) : string :=
  substring (tokenPos this) (pos this - tokenPos this) (text this).

(** The position and token state [speculate] saves and restores. *)
Definition restore (saved : t) (this : t) : t :=
  mk (filename this) (text this) (rest saved) (pos saved) (startPos saved) (tokenPos saved)
     (token saved) (tokenValue saved) (htmlTrivia saved)
     (diagnostics this) (cancellationToken this).

Definition with_diagnostics (d : DiagnosticMessages) (this : t) : t :=
  mk (filename this) (text this) (rest this) (pos this) (startPos this) (tokenPos this)
     (token this) (tokenValue this) (htmlTrivia this) d (cancellationToken this).

(** One [scan()], after the cancellation poll: the new scanner and the
    lexical errors to report at the token. *)
Definition advance (this : t) : t * list Diagnostics.t :=
  match rest this with
  | [] =>
      (mk (filename this) (text this) [] (String.length (text this)) (pos this)
          (String.length (text this)) SyntaxKind.EndOfFileToken None None
          (diagnostics this) (cancellationToken this), [])
  | tk :: rest' =>
      let tokenPos' := pos this + ScannedToken.leading tk in
      (mk (filename this) (text this) rest' (tokenPos' + ScannedToken.width tk) (pos this)
          tokenPos' (ScannedToken.kind tk) (ScannedToken.value tk) (ScannedToken.htmlTrivia tk)
          (diagnostics this) (cancellationToken this),
       ScannedToken.errors tk)
  end.

Definition drainHtmlTrivia (this : t) : t :=
  mk (filename this) (text this) (rest this) (pos this) (startPos this) (tokenPos this)
     (token this) (tokenValue this) None (diagnostics this) (cancellationToken this).
End Scanner.
Abbreviation Scanner := Scanner.t.

(** ** The parser: contexts and state *)

Module ParsingContext.
Inductive t :=
| SourceElements
| Parameters
| BracketedParameters
| Arguments_
| BracketedArguments
| RightHandSideListIndented
| SymbolSet
| OneOfList
| OneOfListIndented
| OneOfSymbolList
| NoSymbolHere.
End ParsingContext.
Abbreviation ParsingContext := ParsingContext.t.

(** [enum SkipWhitespace]: the two flag bits. *)
Module SkipWhitespace.
Record t := mk { LineTerminator : bool; Indentation : bool }.
Definition None_ : t := mk false false.
Definition All : t := mk true true.
Definition or (a b : t) : t :=
  mk (LineTerminator a || LineTerminator b) (Indentation a || Indentation b).
End SkipWhitespace.
Abbreviation SkipWhitespace := SkipWhitespace.t.

(** The fields of a [Parser] and the stores its code reaches: diagnostic
    sinks, the [Map] objects held in [tags], the cancellation sources and
    the counter that numbers nodes.  The scanner and the import list are
    only ever replaced as a whole while another reference to them is alive,
    so the record holds them by value.  Outside [parseSourceFile] the fields
    of the source are [undefined]; the private methods run inside [parse]
    only, which assigns every field before use. *)
Module Parser.
Record t := mk {
  scanner : Scanner;
  token : SyntaxKind;
  imports : list string;
  diagnostics : DiagnosticMessages;
  parsingContext : ParsingContext;
  cancellationToken : CancellationToken;
  tags : option nat;
  tagsOffset : nat;
  sinks : gmap nat (list Diagnostic);
  nextSink : nat;
  tagMaps : gmap nat (gmap nat (list HtmlTrivia));
  nextTagMap : nat;
  polls : gmap nat nat;
  nextNodeId : nat
}.

Definition set_scanner (x : Scanner) (p : t) : t :=
  mk x (token p) (imports p) (diagnostics p) (parsingContext p) (cancellationToken p)
     (tags p) (tagsOffset p) (sinks p) (nextSink p) (tagMaps p) (nextTagMap p) (polls p)
     (nextNodeId p).
Definition set_token (x : SyntaxKind) (p : t) : t :=
  mk (scanner p) x (imports p) (diagnostics p) (parsingContext p) (cancellationToken p)
     (tags p) (tagsOffset p) (sinks p) (nextSink p) (tagMaps p) (nextTagMap p) (polls p)
     (nextNodeId p).
Definition set_imports (x : list string) (p : t) : t :=
  mk (scanner p) (token p) x (diagnostics p) (parsingContext p) (cancellationToken p)
     (tags p) (tagsOffset p) (sinks p) (nextSink p) (tagMaps p) (nextTagMap p) (polls p)
     (nextNodeId p).
Definition set_diagnostics (x : DiagnosticMessages) (p : t) : t :=
  mk (scanner p) (token p) (imports p) x (parsingContext p) (cancellationToken p)
     (tags p) (tagsOffset p) (sinks p) (nextSink p) (tagMaps p) (nextTagMap p) (polls p)
     (nextNodeId p).
Definition set_parsingContext (x : ParsingContext) (p : t) : t :=
  mk (scanner p) (token p) (imports p) (diagnostics p) x (cancellationToken p)
     (tags p) (tagsOffset p) (sinks p) (nextSink p) (tagMaps p) (nextTagMap p) (polls p)
     (nextNodeId p).
Definition set_cancellationToken (x : CancellationToken) (p : t) : t :=
  mk (scanner p) (token p) (imports p) (diagnostics p) (parsingContext p) x
     (tags p) (tagsOffset p) (sinks p) (nextSink p) (tagMaps p) (nextTagMap p) (polls p)
     (nextNodeId p).
Definition set_tags (x : option nat) (p : t) : t :=
  mk (scanner p) (token p) (imports p) (diagnostics p) (parsingContext p) (cancellationToken p)
     x (tagsOffset p) (sinks p) (nextSink p) (tagMaps p) (nextTagMap p) (polls p)
     (nextNodeId p).
Definition set_tagsOffset (x : nat) (p : t) : t :=
  mk (scanner p) (token p) (imports p) (diagnostics p) (parsingContext p) (cancellationToken p)
     (tags p) x (sinks p) (nextSink p) (tagMaps p) (nextTagMap p) (polls p)
     (nextNodeId p).
Definition set_sinks (x : gmap nat (list Diagnostic)) (p : t) : t :=
  mk (scanner p) (token p) (imports p) (diagnostics p) (parsingContext p) (cancellationToken p)
     (tags p) (tagsOffset p) x (nextSink p) (tagMaps p) (nextTagMap p) (polls p)
     (nextNodeId p).
Definition set_tagMaps (x : gmap nat (gmap nat (list HtmlTrivia))) (p : t) : t :=
  mk (scanner p) (token p) (imports p) (diagnostics p) (parsingContext p) (cancellationToken p)
     (tags p) (tagsOffset p) (sinks p) (nextSink p) x (nextTagMap p) (polls p)
     (nextNodeId p).
Definition set_polls (x : gmap nat nat) (p : t) : t :=
  mk (scanner p) (token p) (imports p) (diagnostics p) (parsingContext p) (cancellationToken p)
     (tags p) (tagsOffset p) (sinks p) (nextSink p) (tagMaps p) (nextTagMap p) x
     (nextNodeId p).

(** A parser that has not parsed anything yet, in given stores. *)
Definition new (polls : gmap nat nat) : t :=
  mk (Scanner.new (fun _ => []) EmptyString EmptyString DiagnosticMessages.NullInstance CancellationToken.none)
     SyntaxKind.Unknown [] DiagnosticMessages.NullInstance ParsingContext.SourceElements
     CancellationToken.none None 0 ∅ 0 ∅ 0 polls 0.
End Parser.
Abbreviation Parser := Parser.t.

(** The monad of parser methods. *)
Definition P (A : Type) : Type := M Parser A.

(** Truthiness of the results a speculation callback may return. *)
Class JsTruthy (T : Type) := js_truthy : T -> bool.
#[global] Instance JsTruthy_bool : JsTruthy bool := fun b => b.
#[global] Instance JsTruthy_option {A} : JsTruthy (option A) :=
  fun o => match o with Some _ => true | None => false end.
#[global] Instance JsTruthy_nat : JsTruthy nat := fun n => negb (Nat.eqb n 0).
#[global] Instance JsTruthy_string : JsTruthy string := truthy.
#[global] Instance JsTruthy_unit : JsTruthy unit := fun _ => false.

(** *** Primitive steps *)

Definition new_DiagnosticMessages : P DiagnosticMessages :=
  fun p =>
    let r := Parser.nextSink p in
    (Ok (DiagnosticMessages.Sink r),
     Parser.mk (Parser.scanner p) (Parser.token p) (Parser.imports p) (Parser.diagnostics p)
       (Parser.parsingContext p) (Parser.cancellationToken p) (Parser.tags p)
       (Parser.tagsOffset p) (<[r := []]> (Parser.sinks p)) (S r) (Parser.tagMaps p)
       (Parser.nextTagMap p) (Parser.polls p) (Parser.nextNodeId p)).

(** [this.diagnostics.report(pos, message, ...)] *)
Definition report (pos : nat) (message : Diagnostics.t) : P unit :=
  modify (fun p =>
    Parser.set_sinks (DiagnosticMessages.report (Parser.diagnostics p) pos message (Parser.sinks p)) p).

Definition throwIfCancellationRequested (tok : CancellationToken) : P unit :=
  fun p =>
    let '(r, polls') := CancellationToken.throwIfCancellationRequested tok (Parser.polls p) in
    (r, Parser.set_polls polls' p).

(** [this.scanner.scan()]: the scanner polls its cancellation token, moves to
    the next token and reports that token's lexical errors to its own
    sink. *)
Definition scan : P SyntaxKind :=
  let* sc := gets Parser.scanner in
  throwIfCancellationRequested (Scanner.cancellationToken sc) ;;
  let '(sc', errors) := Scanner.advance sc in
  modify (fun p =>
    Parser.set_sinks
      (fold_left (fun sinks e => DiagnosticMessages.report (Scanner.diagnostics sc')
                                   (Scanner.tokenPos sc') e sinks)
                 errors (Parser.sinks p))
      (Parser.set_scanner sc' p)) ;;
  ret (Scanner.token sc').

Definition getStartPos : P nat := gets (fun p => Scanner.getStartPos (Parser.scanner p)).
Definition getTokenPos : P nat := gets (fun p => Scanner.getTokenPos (Parser.scanner p)).
Definition getTokenValue : P (option string) :=
  gets (fun p => Scanner.getTokenValue (Parser.scanner p)).
Definition getTokenText : P string := gets (fun p => Scanner.getTokenText (Parser.scanner p)).

Definition getHtmlTrivia : P (option (list HtmlTrivia)) :=
  let* sc := gets Parser.scanner in
  modify (Parser.set_scanner (Scanner.drainHtmlTrivia sc)) ;;
  ret (Scanner.htmlTrivia sc).

(** Modelled from the spec: [Scanner.speculate(callback, isLookahead)] runs
    [callback] against the saved scanner position and state and restores
    them if [isLookahead] is set or the callback returns a falsy result.
    While the callback runs the scanner's own reports go to the discard
    sink as well, as the spec says of both forms of speculation. *)
Definition Scanner_speculate {T} `{JsTruthy T} (callback : P T) (isLookahead : bool) : P T :=
  let* saved := gets Parser.scanner in
  modify (fun p => Parser.set_scanner
                     (Scanner.with_diagnostics DiagnosticMessages.NullInstance (Parser.scanner p)) p) ;;
  let* result := callback in
  modify (fun p => Parser.set_scanner
                     (Scanner.with_diagnostics (Scanner.diagnostics saved) (Parser.scanner p)) p) ;;
  when (negb (js_truthy result) || isLookahead)
       (modify (fun p => Parser.set_scanner (Scanner.restore saved (Parser.scanner p)) p)) ;;
  ret result.

(** *** Markup trivia (free functions of the parser source) *)

Definition matched (possibleOpenTag possibleCloseTag : HtmlTrivia) : bool :=
  (HtmlTrivia.kind possibleOpenTag =k SyntaxKind.HtmlOpenTagTrivia)
  && (HtmlTrivia.kind possibleCloseTag =k SyntaxKind.HtmlCloseTagTrivia)
  && String.eqb (HtmlTrivia.tagName possibleOpenTag) (HtmlTrivia.tagName possibleCloseTag).

(** The loop of [trimTrivia] at index [i = length before]: [before] holds
    [trivia.slice(0, i)] reversed, [l] is [trivia.slice(i)]. *)
Fixpoint trimTrivia_loop (before l : list HtmlTrivia) (result : option (list HtmlTrivia))
  : option (list HtmlTrivia) :=
  match l with
  | a :: ((b :: _) as tl) =>
      if matched a b then
        trimTrivia_loop (a :: before) tl
          (Some (match result with Some r => r | None => rev before end))
      else
        trimTrivia_loop (a :: before) tl
          (match result with Some r => Some (r ++ [a]) | None => None end)
  | _ => result
  end.

Definition trimTrivia (trivia : option (list HtmlTrivia)) : option (list HtmlTrivia) :=
  match trivia with
  | Some l =>
      match trimTrivia_loop [] l None with
      | Some result => Some result
      | None => Some l
      end
  | None => None
  end.

(** [(node.leadingHtmlTrivia || (node.leadingHtmlTrivia = [])).unshift(tag)] *)
Definition unshift_opt (tag : HtmlTrivia) (l : option (list HtmlTrivia)) :=
  Some (tag :: default [] l).
Definition push_opt (tag : HtmlTrivia) (l : option (list HtmlTrivia)) :=
  Some (default [] l ++ [tag]).

(** The [pop] loop of [attachHtmlTrivia] on the reversed array: moves the
    open tags at the end of [leadingTags] to the front of the node's leading
    trivia. *)
Fixpoint attachLeading (revTags : list HtmlTrivia) (leading : option (list HtmlTrivia))
  : list HtmlTrivia * option (list HtmlTrivia) :=
  match revTags with
  | tag :: revTags' =>
      if HtmlTrivia.kind tag =k SyntaxKind.HtmlOpenTagTrivia
      then attachLeading revTags' (unshift_opt tag leading)
      else (revTags, leading)
  | [] => ([], leading)
  end.

(** The [shift] loop: moves the close tags at the front of [trailingTags] to
    the end of the node's trailing trivia. *)
Fixpoint attachTrailing (tags : list HtmlTrivia) (trailing : option (list HtmlTrivia))
  : list HtmlTrivia * option (list HtmlTrivia) :=
  match tags with
  | tag :: tags' =>
      if HtmlTrivia.kind tag =k SyntaxKind.HtmlCloseTagTrivia
      then attachTrailing tags' (push_opt tag trailing)
      else (tags, trailing)
  | [] => ([], trailing)
  end.

Definition with_trivia (leading trailing : option (list HtmlTrivia)) (n : Node) : Node :=
  Node.mk (Node.id n) (Node.kind n) (Node.pos n) (Node.end_ n) (Node.text n)
          leading trailing (Node.children n).

Definition with_range (pos end_ : nat) (n : Node) : Node :=
  Node.mk (Node.id n) (Node.kind n) pos end_ (Node.text n)
          (Node.leadingHtmlTrivia n) (Node.trailingHtmlTrivia n) (Node.children n).

Definition with_children (children : list Node) (n : Node) : Node :=
  Node.mk (Node.id n) (Node.kind n) (Node.pos n) (Node.end_ n) (Node.text n)
          (Node.leadingHtmlTrivia n) (Node.trailingHtmlTrivia n) children.

(** [attachHtmlTrivia(node, tags.get(node.pos), tags.get(node.end))] on the
    map [tags]; the arrays stored in the map are updated in place, and when
    [node.pos = node.end] both arguments are the same array. *)
Definition attachHtmlTrivia (node : Node) (tags : gmap nat (list HtmlTrivia))
  : Node * gmap nat (list HtmlTrivia) :=
  let '(node1, tags1) :=
    match tags !! Node.pos node with
    | Some leadingTags =>
        let '(revRest, leading) := attachLeading (rev leadingTags) (Node.leadingHtmlTrivia node) in
        (with_trivia leading (Node.trailingHtmlTrivia node) node,
         <[Node.pos node := rev revRest]> tags)
    | None => (node, tags)
    end in
  match tags1 !! Node.end_ node1 with
  | Some trailingTags =>
      let '(rest, trailing) := attachTrailing trailingTags (Node.trailingHtmlTrivia node1) in
      (with_trivia (Node.leadingHtmlTrivia node1) trailing node1,
       <[Node.end_ node1 := rest]> tags1)
  | None => (node1, tags1)
  end.

(** The [while] loop of [promoteLeadingHtmlTrivia]: [leadingTag] is the tag
    shifted off, [rest] what is left of the child's leading trivia. *)
Fixpoint promoteLeading_loop (leadingTag : HtmlTrivia) (rest : list HtmlTrivia)
    (trailingTag : option HtmlTrivia) (parentLeading : option (list HtmlTrivia))
  : option HtmlTrivia * list HtmlTrivia * option (list HtmlTrivia) :=
  if match trailingTag with
     | None => true
     | Some t => negb (matched leadingTag t)
     end
  then
    match rest with
    | next :: rest' => promoteLeading_loop next rest' trailingTag (push_opt leadingTag parentLeading)
    | [] => (None, [], push_opt leadingTag parentLeading)
    end
  else (Some leadingTag, rest, parentLeading).

Definition concat_opt (a b : option (list HtmlTrivia)) : option (list HtmlTrivia) :=
  match a with Some a' => Some (a' ++ default [] b) | None => b end.

(** Returns the updated parent trivia and child. *)
Definition promoteLeadingHtmlTrivia (parentLeading : option (list HtmlTrivia)) (firstChild : Node)
  : option (list HtmlTrivia) * Node :=
  match Node.leadingHtmlTrivia firstChild with
  | Some leading =>
      match Node.trailingHtmlTrivia firstChild with
      | Some trailing =>
          let trailingTag := last trailing in
          let trailing1 := removelast trailing in
          match leading with
          | [] =>
              (parentLeading,
               with_trivia (Some [])
                 (Some (match trailingTag with Some t => t :: trailing1 | None => trailing1 end))
                 firstChild)
          | leadingTag :: rest =>
              let '(stopped, rest', parentLeading') :=
                promoteLeading_loop leadingTag rest trailingTag parentLeading in
              (parentLeading',
               with_trivia
                 (Some (match stopped with Some t => t :: rest' | None => rest' end))
                 (Some (match trailingTag with Some t => t :: trailing1 | None => trailing1 end))
                 firstChild)
          end
      | None =>
          (match parentLeading with
           | Some pl => Some (pl ++ leading)
           | None => Some leading
           end,
           with_trivia None (Node.trailingHtmlTrivia firstChild) firstChild)
      end
  | None => (parentLeading, firstChild)
  end.

(** The [while] loop of [promoteTrailingHtmlTrivia]: [trailingTag] is the
    tag popped off, [revRest] what is left of the child's trailing trivia,
    reversed. *)
Fixpoint promoteTrailing_loop (trailingTag : HtmlTrivia) (revRest : list HtmlTrivia)
    (leadingTag : option HtmlTrivia) (parentTrailing : option (list HtmlTrivia))
  : option HtmlTrivia * list HtmlTrivia * option (list HtmlTrivia) :=
  if match leadingTag with
     | None => true
     | Some l => negb (matched l trailingTag)
     end
  then
    match revRest with
    | next :: revRest' =>
        promoteTrailing_loop next revRest' leadingTag (unshift_opt trailingTag parentTrailing)
    | [] => (None, [], unshift_opt trailingTag parentTrailing)
    end
  else (Some trailingTag, revRest, parentTrailing).

Definition promoteTrailingHtmlTrivia (parentTrailing : option (list HtmlTrivia)) (lastChild : Node)
  : option (list HtmlTrivia) * Node :=
  match Node.trailingHtmlTrivia lastChild with
  | Some trailing =>
      match Node.leadingHtmlTrivia lastChild with
      | Some leading =>
          let leadingTag := head leading in
          let leading1 := tail leading in
          let leading' := match leadingTag with Some t => t :: leading1 | None => leading1 end in
          match rev trailing with
          | [] => (parentTrailing, with_trivia (Some leading') (Some []) lastChild)
          | trailingTag :: revRest =>
              let '(stopped, revRest', parentTrailing') :=
                promoteTrailing_loop trailingTag revRest leadingTag parentTrailing in
              (parentTrailing',
               with_trivia (Some leading')
                 (Some (match stopped with
                        | Some t => t :: rev revRest'
                        | None => rev revRest'
                        end))
                 lastChild)
          end
      | None =>
          (match parentTrailing with
           | Some pt => Some (trailing ++ pt)
           | None => Some trailing
           end,
           with_trivia (Node.leadingHtmlTrivia lastChild) None lastChild)
      end
  | None => (parentTrailing, lastChild)
  end.

Definition promoteAllHtmlTrivia (parent onlyChild : Node) : Node :=
  let leading :=
    match Node.leadingHtmlTrivia onlyChild with
    | Some cl =>
        match Node.leadingHtmlTrivia parent with
        | Some pl => Some (pl ++ cl)
        | None => Some cl
        end
    | None => Node.leadingHtmlTrivia parent
    end in
  let trailing :=
    match Node.trailingHtmlTrivia onlyChild with
    | Some ct =>
        match Node.trailingHtmlTrivia parent with
        | Some pt => Some (ct ++ pt)
        | None => Some ct
        end
    | None => Node.trailingHtmlTrivia parent
    end in
  with_children [with_trivia None None onlyChild] (with_trivia leading trailing parent).

(** [promoteHtmlTrivia(parent, parent.firstChild, parent.lastChild)]; the
    children are updated in place, so the parent is rebuilt around them. *)
Definition promoteHtmlTrivia (parent : Node) : Node :=
  match Node.children parent with
  | [] => parent
  | [onlyChild] => promoteAllHtmlTrivia parent onlyChild
  | firstChild :: others =>
      let '(leading, firstChild') :=
        promoteLeadingHtmlTrivia (Node.leadingHtmlTrivia parent) firstChild in
      let lastChild := default firstChild (last others) in
      let '(trailing, lastChild') :=
        promoteTrailingHtmlTrivia (Node.trailingHtmlTrivia parent) lastChild in
      with_children (firstChild' :: removelast others ++ [lastChild'])
                    (with_trivia leading trailing parent)
  end.

(** ** The parser methods *)

(** [new X(...)]: a node object gets its identity when it is constructed;
    its range is assigned by [finishNode]. *)
Definition new_node (kind : SyntaxKind) (text : option string) (children : list Node) : P Node :=
  fun p =>
    let i := S (Parser.nextNodeId p) in
    (Ok (Node.mk i kind 0 0 text None None children),
     Parser.mk (Parser.scanner p) (Parser.token p) (Parser.imports p) (Parser.diagnostics p)
       (Parser.parsingContext p) (Parser.cancellationToken p) (Parser.tags p)
       (Parser.tagsOffset p) (Parser.sinks p) (Parser.nextSink p) (Parser.tagMaps p)
       (Parser.nextTagMap p) (Parser.polls p) i).

(** An optional child, as a list of children. *)
Definition opt (child : option Node) : list Node :=
  match child with Some c => [c] | None => [] end.

Definition nextToken : P SyntaxKind :=
  let* token := scan in
  modify (Parser.set_token token) ;;
  let* raw := getHtmlTrivia in
  match trimTrivia raw with
  | Some htmlTrivia =>
      let* tags := gets Parser.tags in
      let* ref :=
        match tags with
        | Some ref => ret ref
        | None =>
            (* this.tags = new Map<number, HtmlTrivia[]>() *)
            fun p =>
              let r := Parser.nextTagMap p in
              (Ok r,
               Parser.mk (Parser.scanner p) (Parser.token p) (Parser.imports p)
                 (Parser.diagnostics p) (Parser.parsingContext p) (Parser.cancellationToken p)
                 (Some r) (Parser.tagsOffset p) (Parser.sinks p) (Parser.nextSink p)
                 (<[r := ∅]> (Parser.tagMaps p)) (S r) (Parser.polls p) (Parser.nextNodeId p))
        end in
      let* startPos := getStartPos in
      modify (fun p =>
        Parser.set_tagMaps
          (<[ref := <[startPos := htmlTrivia]> (default ∅ (Parser.tagMaps p !! ref))]>
             (Parser.tagMaps p)) p) ;;
      gets Parser.token
  | None => gets Parser.token
  end.

Definition speculate {T} `{JsTruthy T} (callback : P T) (isLookahead : bool) : P T :=
  let* saveToken := gets Parser.token in
  let* saveParsingContext := gets Parser.parsingContext in
  let* saveDiagnostics := gets Parser.diagnostics in
  modify (Parser.set_diagnostics DiagnosticMessages.NullInstance) ;;
  let* result := Scanner_speculate callback isLookahead in
  modify (Parser.set_diagnostics saveDiagnostics) ;;
  when (negb (js_truthy result) || isLookahead)
       (modify (Parser.set_token saveToken) ;;
        modify (Parser.set_parsingContext saveParsingContext)) ;;
  ret result.

Definition lookahead {T} `{JsTruthy T} (callback : P T) : P T :=
  speculate callback (* isLookahead *) true.

Definition tryParse {T} `{JsTruthy T} (callback : P T) : P T :=
  speculate callback (* isLookahead *) false.

Definition isWhitespaceToken (skip : SkipWhitespace) (token : SyntaxKind) : bool :=
  match token with
  | SyntaxKind.LineTerminatorToken => SkipWhitespace.LineTerminator skip
  | SyntaxKind.IndentToken | SyntaxKind.DedentToken => SkipWhitespace.Indentation skip
  | _ => false
  end.

Definition isWhitespace (skip : SkipWhitespace) : P bool :=
  gets (fun p => isWhitespaceToken skip (Parser.token p)).

Definition isEOF : P bool :=
  gets (fun p => Parser.token p =k SyntaxKind.EndOfFileToken).

(** The two skipping loops run [nextToken] until a token of the wanted kind or
    the end of file shows up; the scanner reaches the end of file after as
    many scans as its stream has tokens left, which bounds the loops. *)
Fixpoint skipUntil_loop (n : nat) (isRecoveryToken : SyntaxKind -> bool) : P unit :=
  let* token := gets Parser.token in
  let* eof := isEOF in
  if negb (isRecoveryToken token) && negb eof then
    match n with
    | 0 => throw OutOfFuel
    | S n' => nextToken ;; skipUntil_loop n' isRecoveryToken
    end
  else ret tt.

Definition skipUntil (isRecoveryToken : SyntaxKind -> bool) : P unit :=
  let* sc := gets Parser.scanner in
  skipUntil_loop (S (length (Scanner.rest sc))) isRecoveryToken.

Fixpoint skipWhitespace_loop (n : nat) (skip : SkipWhitespace) : P unit :=
  let* ws := isWhitespace skip in
  if ws then
    match n with
    | 0 => throw OutOfFuel
    | S n' => nextToken ;; skipWhitespace_loop n' skip
    end
  else ret tt.

Definition skipWhitespace (skip : SkipWhitespace) : P unit :=
  let* sc := gets Parser.scanner in
  skipWhitespace_loop (S (length (Scanner.rest sc))) skip.

Definition readTokenValue (token : SyntaxKind) : P (option string) :=
  let* current := gets Parser.token in
  if current =k token then
    let* text := getTokenValue in
    nextToken ;;
    ret text
  else ret None.

Definition readTokenText (token : SyntaxKind) : P (option string) :=
  let* current := gets Parser.token in
  if current =k token then
    let* text := getTokenText in
    nextToken ;;
    ret (Some text)
  else ret None.

Definition finishNode (node : Node) (fullStart : nat) : P Node :=
  let* end_ := getStartPos in
  let node1 := with_range fullStart end_ node in
  let* tags := gets Parser.tags in
  let* node2 :=
    match tags with
    | Some ref =>
        fun p =>
          let '(n', m') := attachHtmlTrivia node1 (default ∅ (Parser.tagMaps p !! ref)) in
          (Ok n', Parser.set_tagMaps (<[ref := m']> (Parser.tagMaps p)) p)
    | None => ret node1
    end in
  ret (promoteHtmlTrivia node2).

Definition parseToken (token : SyntaxKind) : P (option Node) :=
  let* current := gets Parser.token in
  if current =k token then
    let* fullStart := getStartPos in
    nextToken ;;
    let* node := new_node token None [] in
    let* node := finishNode node fullStart in
    ret (Some node)
  else ret None.

Definition parseAnyToken (predicate : SyntaxKind -> bool) : P (option Node) :=
  let* token := gets Parser.token in
  if predicate token then
    let* fullStart := getStartPos in
    nextToken ;;
    let* node := new_node token None [] in
    let* node := finishNode node fullStart in
    ret (Some node)
  else ret None.

Definition parseOptional (token : SyntaxKind) : P bool :=
  let* current := gets Parser.token in
  if current =k token then nextToken ;; ret true
  else ret false.

(** *** Token predicates *)

Definition canBeIdentifier (kind : SyntaxKind) : bool :=
  if kind =k SyntaxKind.Identifier then true
  else SyntaxKind.inRange SyntaxKind.FirstKeyword SyntaxKind.LastKeyword kind.

Definition isLeadingArgumentToken (token : SyntaxKind) : bool :=
  (token =k SyntaxKind.QuestionToken) || (token =k SyntaxKind.PlusToken)
  || (token =k SyntaxKind.TildeToken).

Definition isStartOfParameter (token : SyntaxKind) : bool := canBeIdentifier token.

Definition isStartOfArgument (token : SyntaxKind) : bool :=
  isLeadingArgumentToken token || canBeIdentifier token.

Definition isStartOfSymbolSpan (token : SyntaxKind) : bool :=
  match token with
  | SyntaxKind.UnicodeCharacterLiteral
  | SyntaxKind.Terminal
  | SyntaxKind.Identifier
  | SyntaxKind.OpenBracketToken
  | SyntaxKind.OpenBracketGreaterThanToken
  | SyntaxKind.GreaterThanToken
  | SyntaxKind.AtToken => true
  | _ => false
  end.

Definition isStartOfRightHandSide (token : SyntaxKind) : bool := isStartOfSymbolSpan token.

Definition isStartOfSourceElement (token : SyntaxKind) : bool :=
  match token with
  | SyntaxKind.AtToken | SyntaxKind.Identifier => true
  | SyntaxKind.ColonToken | SyntaxKind.ColonColonToken | SyntaxKind.ColonColonColonToken
  | SyntaxKind.OpenParenToken => true
  | _ => false
  end.

Definition isSourceElementsRecoveryToken (token : SyntaxKind) : bool :=
  token =k SyntaxKind.LineTerminatorToken.

Definition isParametersRecoveryToken (token : SyntaxKind) : bool :=
  (token =k SyntaxKind.CommaToken) || (token =k SyntaxKind.Identifier)
  || (token =k SyntaxKind.CloseParenToken) || (token =k SyntaxKind.ColonToken)
  || (token =k SyntaxKind.ColonColonToken) || (token =k SyntaxKind.ColonColonColonToken)
  || (token =k SyntaxKind.LineTerminatorToken).

Definition isBracketedParametersRecoveryToken (token : SyntaxKind) : bool :=
  (token =k SyntaxKind.CommaToken) || (token =k SyntaxKind.Identifier)
  || (token =k SyntaxKind.CloseBracketToken) || (token =k SyntaxKind.ColonToken)
  || (token =k SyntaxKind.ColonColonToken) || (token =k SyntaxKind.ColonColonColonToken)
  || (token =k SyntaxKind.LineTerminatorToken).

Definition isArgumentsRecoveryToken (token : SyntaxKind) : bool :=
  (token =k SyntaxKind.CommaToken) || (token =k SyntaxKind.QuestionToken)
  || (token =k SyntaxKind.Identifier) || (token =k SyntaxKind.CloseParenToken)
  || (token =k SyntaxKind.LineTerminatorToken).

Definition isBracketedArgumentsRecoveryToken (token : SyntaxKind) : bool :=
  (token =k SyntaxKind.CommaToken) || (token =k SyntaxKind.QuestionToken)
  || (token =k SyntaxKind.Identifier) || (token =k SyntaxKind.CloseBracketToken)
  || (token =k SyntaxKind.LineTerminatorToken).

Definition isRightHandSideListIndentedRecoveryToken (token : SyntaxKind) : bool :=
  (token =k SyntaxKind.DedentToken) || (token =k SyntaxKind.LineTerminatorToken).

Definition isSymbolSetRecoveryToken (token : SyntaxKind) : bool :=
  (token =k SyntaxKind.CommaToken) || (token =k SyntaxKind.Terminal)
  || (token =k SyntaxKind.CloseBraceToken) || (token =k SyntaxKind.LineTerminatorToken).

Definition isOneOfListRecoveryToken (token : SyntaxKind) : bool :=
  (token =k SyntaxKind.Terminal) || (token =k SyntaxKind.LineTerminatorToken).

Definition isOneOfListIndentedRecoveryToken (token : SyntaxKind) : bool :=
  (token =k SyntaxKind.Terminal) || (token =k SyntaxKind.LineTerminatorToken).

Definition isOneOfSymbolListRecoveryToken (token : SyntaxKind) : bool :=
  (token =k SyntaxKind.OrKeyword) || (token =k SyntaxKind.Terminal)
  || (token =k SyntaxKind.Identifier) || (token =k SyntaxKind.OpenBracketToken)
  || (token =k SyntaxKind.QuestionToken) || (token =k SyntaxKind.LineTerminatorToken).

Definition isNoSymbolHereRecoveryToken (token : SyntaxKind) : bool :=
  (token =k SyntaxKind.OrKeyword) || (token =k SyntaxKind.HereKeyword)
  || (token =k SyntaxKind.Terminal) || (token =k SyntaxKind.Identifier)
  || (token =k SyntaxKind.CloseBracketToken) || (token =k SyntaxKind.QuestionToken)
  || (token =k SyntaxKind.LineTerminatorToken).

Definition isInvalidSymbolRecoveryToken (token : SyntaxKind) : bool :=
  (token =k SyntaxKind.OpenBracketToken) || (token =k SyntaxKind.Terminal)
  || (token =k SyntaxKind.Identifier) || (token =k SyntaxKind.LineTerminatorToken).

Definition isInvalidConstraintTailRecoveryToken (token : SyntaxKind) : bool :=
  (token =k SyntaxKind.CloseBracketToken) || (token =k SyntaxKind.LineTerminatorToken)
  || (token =k SyntaxKind.Terminal) || (token =k SyntaxKind.Identifier).

Definition isProductionSeparatorToken (token : SyntaxKind) : bool :=
  (token =k SyntaxKind.ColonToken) || (token =k SyntaxKind.ColonColonToken)
  || (token =k SyntaxKind.ColonColonColonToken).

Definition isParameterOperatorToken (token : SyntaxKind) : bool :=
  (token =k SyntaxKind.PlusToken) || (token =k SyntaxKind.TildeToken).

Definition isBooleanLiteralToken (token : SyntaxKind) : bool :=
  (token =k SyntaxKind.TrueKeyword) || (token =k SyntaxKind.FalseKeyword).

Definition isLookaheadOperatorToken (token : SyntaxKind) : bool :=
  (token =k SyntaxKind.EqualsToken) || (token =k SyntaxKind.EqualsEqualsToken)
  || (token =k SyntaxKind.ExclamationEqualsToken) || (token =k SyntaxKind.NotEqualToToken)
  || (token =k SyntaxKind.LessThanMinusToken) || (token =k SyntaxKind.ElementOfToken)
  || (token =k SyntaxKind.LessThanExclamationToken)
  || (token =k SyntaxKind.NotAnElementOfToken).

(** *** List parsing: the per-context switches *)

Definition shouldParseElement : P bool :=
  gets (fun p =>
    let token := Parser.token p in
    match Parser.parsingContext p with
    | ParsingContext.SourceElements => isStartOfSourceElement token
    | ParsingContext.Parameters | ParsingContext.BracketedParameters =>
        isStartOfParameter token
    | ParsingContext.Arguments_ | ParsingContext.BracketedArguments =>
        isStartOfArgument token
    | ParsingContext.RightHandSideListIndented => isStartOfRightHandSide token
    | ParsingContext.SymbolSet =>
        (token =k SyntaxKind.Terminal) || (token =k SyntaxKind.Identifier)
        || (token =k SyntaxKind.UnicodeCharacterLiteral)
    | ParsingContext.OneOfList | ParsingContext.OneOfListIndented =>
        (token =k SyntaxKind.Terminal) || (token =k SyntaxKind.UnicodeCharacterLiteral)
    | ParsingContext.OneOfSymbolList =>
        (token =k SyntaxKind.Terminal) || (token =k SyntaxKind.Identifier)
        || (token =k SyntaxKind.UnicodeCharacterLiteral)
    | ParsingContext.NoSymbolHere =>
        (token =k SyntaxKind.Terminal) || (token =k SyntaxKind.Identifier)
        || (token =k SyntaxKind.UnicodeCharacterLiteral)
    end).

Definition shouldSkipWhitespace : P SkipWhitespace :=
  gets (fun p =>
    match Parser.parsingContext p with
    | ParsingContext.SourceElements =>
        SkipWhitespace.or (SkipWhitespace.mk true false) (SkipWhitespace.mk false true)
    | ParsingContext.Parameters | ParsingContext.BracketedParameters
    | ParsingContext.Arguments_ | ParsingContext.BracketedArguments
    | ParsingContext.SymbolSet =>
        SkipWhitespace.or (SkipWhitespace.mk true false) (SkipWhitespace.mk false true)
    | ParsingContext.RightHandSideListIndented => SkipWhitespace.mk true false
    | ParsingContext.OneOfList => SkipWhitespace.None_
    | ParsingContext.OneOfListIndented => SkipWhitespace.mk true false
    | ParsingContext.OneOfSymbolList => SkipWhitespace.None_
    | ParsingContext.NoSymbolHere => SkipWhitespace.None_
    end).

Definition shouldConsumeCloseToken : P bool :=
  gets (fun p =>
    match Parser.parsingContext p with
    | ParsingContext.Parameters | ParsingContext.BracketedParameters
    | ParsingContext.Arguments_ | ParsingContext.BracketedArguments
    | ParsingContext.SymbolSet | ParsingContext.OneOfListIndented
    | ParsingContext.RightHandSideListIndented | ParsingContext.NoSymbolHere => false
    | _ => true
    end).

Definition skipLineTerminator : P unit :=
  let* token := gets Parser.token in
  if token =k SyntaxKind.LineTerminatorToken then nextToken ;; ret tt else ret tt.

Definition recover : P unit :=
  let* context := gets Parser.parsingContext in
  match context with
  | ParsingContext.SourceElements => skipUntil isSourceElementsRecoveryToken
  | ParsingContext.Parameters => skipUntil isParametersRecoveryToken ;; skipLineTerminator
  | ParsingContext.BracketedParameters =>
      skipUntil isBracketedParametersRecoveryToken ;; skipLineTerminator
  | ParsingContext.Arguments_ => skipUntil isArgumentsRecoveryToken ;; skipLineTerminator
  | ParsingContext.BracketedArguments =>
      skipUntil isBracketedArgumentsRecoveryToken ;; skipLineTerminator
  | ParsingContext.RightHandSideListIndented =>
      skipUntil isRightHandSideListIndentedRecoveryToken
  | ParsingContext.SymbolSet => skipUntil isSymbolSetRecoveryToken ;; skipLineTerminator
  | ParsingContext.OneOfList => skipUntil isOneOfListRecoveryToken
  | ParsingContext.OneOfListIndented =>
      skipUntil isOneOfListIndentedRecoveryToken ;; skipLineTerminator
  | ParsingContext.OneOfSymbolList => skipUntil isOneOfSymbolListRecoveryToken
  | ParsingContext.NoSymbolHere => skipUntil isNoSymbolHereRecoveryToken
  end.

Definition reportDiagnostics : P unit :=
  let* context := gets Parser.parsingContext in
  let* pos := getTokenPos in
  match context with
  | ParsingContext.SourceElements => report pos Diagnostics.Production_expected
  | ParsingContext.Parameters | ParsingContext.Arguments_ =>
      report pos (Diagnostics._0_expected [SyntaxKind.CommaToken; SyntaxKind.CloseParenToken])
  | ParsingContext.BracketedParameters | ParsingContext.BracketedArguments =>
      report pos (Diagnostics._0_expected [SyntaxKind.CommaToken; SyntaxKind.CloseBracketToken])
  | ParsingContext.SymbolSet =>
      report pos (Diagnostics._0_expected [SyntaxKind.CommaToken; SyntaxKind.CloseBraceToken])
  | ParsingContext.OneOfList =>
      report pos (Diagnostics._0_expected [SyntaxKind.Terminal; SyntaxKind.LineTerminatorToken])
  | ParsingContext.OneOfListIndented =>
      report pos (Diagnostics._0_expected [SyntaxKind.Terminal; SyntaxKind.DedentToken])
  | ParsingContext.RightHandSideListIndented => report pos Diagnostics.Production_expected
  | ParsingContext.OneOfSymbolList | ParsingContext.NoSymbolHere => ret tt
  end.

Definition hasCloseToken : P bool :=
  gets (fun p =>
    match Parser.parsingContext p with
    | ParsingContext.OneOfSymbolList | ParsingContext.NoSymbolHere => false
    | _ => true
    end).

Definition isOnCloseToken : P bool :=
  gets (fun p =>
    let token := Parser.token p in
    match Parser.parsingContext p with
    | ParsingContext.SourceElements => token =k SyntaxKind.EndOfFileToken
    | ParsingContext.Parameters | ParsingContext.Arguments_ =>
        token =k SyntaxKind.CloseParenToken
    | ParsingContext.BracketedParameters | ParsingContext.BracketedArguments =>
        token =k SyntaxKind.CloseBracketToken
    | ParsingContext.RightHandSideListIndented =>
        (token =k SyntaxKind.DedentToken) || (token =k SyntaxKind.EndOfFileToken)
    | ParsingContext.SymbolSet => token =k SyntaxKind.CloseBraceToken
    | ParsingContext.OneOfList =>
        (token =k SyntaxKind.DedentToken) || (token =k SyntaxKind.LineTerminatorToken)
        || (token =k SyntaxKind.EndOfFileToken)
    | ParsingContext.OneOfListIndented =>
        (token =k SyntaxKind.DedentToken) || (token =k SyntaxKind.EndOfFileToken)
    | ParsingContext.OneOfSymbolList => false
    | ParsingContext.NoSymbolHere => token =k SyntaxKind.HereKeyword
    end).

Definition parseCloseToken : P bool :=
  let* on := isOnCloseToken in
  if on then nextToken ;; ret true else ret false.

Definition hasSeparator : P bool :=
  gets (fun p =>
    match Parser.parsingContext p with
    | ParsingContext.SourceElements | ParsingContext.OneOfList
    | ParsingContext.OneOfListIndented => false
    | _ => true
    end).

Definition isOnSeparator : P bool :=
  gets (fun p =>
    let token := Parser.token p in
    match Parser.parsingContext p with
    | ParsingContext.Parameters | ParsingContext.BracketedParameters
    | ParsingContext.Arguments_ | ParsingContext.BracketedArguments
    | ParsingContext.SymbolSet => token =k SyntaxKind.CommaToken
    | ParsingContext.RightHandSideListIndented => token =k SyntaxKind.LineTerminatorToken
    | ParsingContext.OneOfSymbolList | ParsingContext.NoSymbolHere =>
        token =k SyntaxKind.OrKeyword
    | ParsingContext.SourceElements | ParsingContext.OneOfList
    | ParsingContext.OneOfListIndented => false
    end).

Definition parseSeparator : P bool :=
  let* on := isOnSeparator in
  if on then nextToken ;; ret true else ret false.

(** *** The list loop

    One run of the body of the [while] loop of [parseList], after the test
    [!this.isEOF()]: the new [result] array and whether the loop goes on
    ([true]) or was left by [break] ([false]). *)
Definition parseList_iteration
    (parseElement : ParsingContext -> P (option Node))
    (listContext : ParsingContext)
    (hasCloseToken hasSeparator shouldConsumeCloseToken : bool)
    (whitespaceToSkip : SkipWhitespace)
    (result : option (list Node)) : P (option (list Node) * bool) :=
  let* ct := gets Parser.cancellationToken in
  throwIfCancellationRequested ct ;;
  skipWhitespace whitespaceToSkip ;;
  let* should := shouldParseElement in
  let* (parsed, result) :=
    if should then
      let result := Some (default [] result) in
      let* element := parseElement listContext in
      match element with
      | Some element => ret (true, Some (default [] result ++ [element]))
      | None => recover ;; ret (true, result)
      end
    else ret (false, result) in
  let* closed :=
    if hasCloseToken then
      if shouldConsumeCloseToken then parseCloseToken else isOnCloseToken
    else ret false in
  if closed then ret (result, false)
  else
    let* separated := if hasSeparator then parseSeparator else ret parsed in
    if negb separated then
      if negb hasCloseToken then ret (result, false)
      else reportDiagnostics ;; recover ;; ret (result, true)
    else ret (result, true).

Fixpoint parseList_loop (fuel : nat)
    (parseElement : ParsingContext -> P (option Node))
    (listContext : ParsingContext)
    (hasCloseToken hasSeparator shouldConsumeCloseToken : bool)
    (whitespaceToSkip : SkipWhitespace)
    (result : option (list Node)) : P (option (list Node)) :=
  let* eof := isEOF in
  if eof then ret result
  else
    match fuel with
    | 0 => throw OutOfFuel
    | S fuel' =>
        let* (result, continue) :=
          parseList_iteration parseElement listContext hasCloseToken hasSeparator
            shouldConsumeCloseToken whitespaceToSkip result in
        if continue then
          parseList_loop fuel' parseElement listContext hasCloseToken hasSeparator
            shouldConsumeCloseToken whitespaceToSkip result
        else ret result
    end.

Definition parseList_with (fuel : nat)
    (parseElement : ParsingContext -> P (option Node))
    (listContext : ParsingContext) (result : option (list Node)) : P (option (list Node)) :=
  let* saveContext := gets Parser.parsingContext in
  modify (Parser.set_parsingContext listContext) ;;
  let* hasCloseToken := hasCloseToken in
  let* hasSeparator := hasSeparator in
  let* shouldConsumeCloseToken := shouldConsumeCloseToken in
  let* whitespaceToSkip := shouldSkipWhitespace in
  let* result :=
    parseList_loop fuel parseElement listContext hasCloseToken hasSeparator
      shouldConsumeCloseToken whitespaceToSkip result in
  modify (Parser.set_parsingContext saveContext) ;;
  ret result.

(** *** The grammar

    The methods call each other recursively.  The three methods through
    which every cycle passes are taken from a record [K] that stands for
    the calls one level further down; [parser] below ties the knot.  [fuel]
    bounds the loops of the methods at this level. *)

Record Knots := mkKnots {
  k_parseElement : ParsingContext -> P (option Node);
  k_parseSymbol : P Node;
  k_parseSymbolSpanRest : P Node
}.

Section Grammar.
Variable fuel : nat.
Variable K : Knots.

Definition parseList (listContext : ParsingContext) (result : option (list Node))
  : P (option (list Node)) :=
  parseList_with fuel (k_parseElement K) listContext result.

Definition parseIdentifier : P Node :=
  let* fullStart := getStartPos in
  let* token := gets Parser.token in
  let* text := if canBeIdentifier token then readTokenValue token else ret None in
  let* node := new_node SyntaxKind.Identifier text [] in
  finishNode node fullStart.

Definition parseUnicodeCharacterLiteral (allowOptional : bool) : P Node :=
  let* fullStart := getStartPos in
  let* text := readTokenText SyntaxKind.UnicodeCharacterLiteral in
  let* questionToken :=
    if allowOptional then parseToken SyntaxKind.QuestionToken else ret None in
  let* node := new_node SyntaxKind.UnicodeCharacterLiteral text (opt questionToken) in
  finishNode node fullStart.

Definition parseProseFragmentLiteral (token : SyntaxKind) : P Node :=
  let* fullStart := getStartPos in
  let* text := readTokenValue token in
  let* node := new_node token text [] in
  finishNode node fullStart.

Definition parseTerminal (allowOptional : bool) : P Node :=
  let* fullStart := getStartPos in
  let* text := readTokenValue SyntaxKind.Terminal in
  let* questionToken :=
    if allowOptional then parseToken SyntaxKind.QuestionToken else ret None in
  let* node := new_node SyntaxKind.Terminal text (opt questionToken) in
  finishNode node fullStart.

Definition parseParameter : P Node :=
  let* fullStart := getStartPos in
  let* name := parseIdentifier in
  let* node := new_node SyntaxKind.ParameterNode None [name] in
  finishNode node fullStart.

Definition parseParameterListTail (openToken : Node) (parsingContext : ParsingContext)
    (closeTokenKind : SyntaxKind) : P Node :=
  let* elements := parseList parsingContext None in
  let* closeToken := parseToken closeTokenKind in
  let* node := new_node SyntaxKind.ParameterList None
                 ([openToken] ++ default [] elements ++ opt closeToken) in
  finishNode node (Node.pos openToken).

Definition tryParseParameterList : P (option Node) :=
  let* openParenToken := parseToken SyntaxKind.OpenParenToken in
  match openParenToken with
  | Some openParenToken =>
      let* node := parseParameterListTail openParenToken ParsingContext.Parameters
                     SyntaxKind.CloseParenToken in
      ret (Some node)
  | None =>
      let* openBracketToken := parseToken SyntaxKind.OpenBracketToken in
      match openBracketToken with
      | Some openBracketToken =>
          let* node := parseParameterListTail openBracketToken
                         ParsingContext.BracketedParameters SyntaxKind.CloseBracketToken in
          ret (Some node)
      | None => ret None
      end
  end.

Definition parseOneOfList (oneKeyword : Node) : P Node :=
  let* ofKeyword := parseToken SyntaxKind.OfKeyword in
  parseOptional SyntaxKind.LineTerminatorToken ;;
  let* openIndentToken := parseToken SyntaxKind.IndentToken in
  let* terminals :=
    parseList (match openIndentToken with
               | Some _ => ParsingContext.OneOfListIndented
               | None => ParsingContext.OneOfList
               end) None in
  let* closeIndentToken := parseToken SyntaxKind.DedentToken in
  let* node := new_node SyntaxKind.OneOfList None
                 ([oneKeyword] ++ opt ofKeyword ++ opt openIndentToken
                  ++ default [] terminals ++ opt closeIndentToken) in
  finishNode node (Node.pos oneKeyword).

Definition parseSymbolSetTail (openBraceToken : Node) : P Node :=
  let* terminals := parseList ParsingContext.SymbolSet None in
  let* closeBraceToken := parseToken SyntaxKind.CloseBraceToken in
  let* node := new_node SyntaxKind.SymbolSet None
                 ([openBraceToken] ++ default [] terminals ++ opt closeBraceToken) in
  finishNode node (Node.pos openBraceToken).

Definition parseSymbolSpanRestOrSymbolSet : P Node :=
  let* openBraceToken := parseToken SyntaxKind.OpenBraceToken in
  match openBraceToken with
  | Some openBraceToken => parseSymbolSetTail openBraceToken
  | None => k_parseSymbolSpanRest K
  end.

Definition parseEmptyAssertionTail (openBracketToken emptyKeyword : Node) : P Node :=
  let* closeBracketToken := parseToken SyntaxKind.CloseBracketToken in
  let* node := new_node SyntaxKind.EmptyAssertion None
                 ([openBracketToken; emptyKeyword] ++ opt closeBracketToken) in
  finishNode node (Node.pos openBracketToken).

Definition parseLookaheadAssertionTail (openBracketToken lookaheadKeyword : Node) : P Node :=
  let* operatorToken := parseAnyToken isLookaheadOperatorToken in
  let* lookahead := parseSymbolSpanRestOrSymbolSet in
  let* closeBracketToken := parseToken SyntaxKind.CloseBracketToken in
  let* node := new_node SyntaxKind.LookaheadAssertion None
                 ([openBracketToken; lookaheadKeyword] ++ opt operatorToken ++ [lookahead]
                  ++ opt closeBracketToken) in
  finishNode node (Node.pos openBracketToken).

Definition parseNoSymbolHereAssertionTail (openBracketToken noKeyword : Node) : P Node :=
  let* symbols := parseList ParsingContext.NoSymbolHere None in
  let* hereKeyword := parseToken SyntaxKind.HereKeyword in
  let* closeBracketToken := parseToken SyntaxKind.CloseBracketToken in
  let* node := new_node SyntaxKind.NoSymbolHereAssertion None
                 ([openBracketToken; noKeyword] ++ default [] symbols ++ opt hereKeyword
                  ++ opt closeBracketToken) in
  finishNode node (Node.pos openBracketToken).

Definition parseLexicalGoalAssertionTail (openBracketToken lexicalKeyword : Node) : P Node :=
  let* goalKeyword := parseToken SyntaxKind.GoalKeyword in
  let* symbol := parseIdentifier in
  let* closeBracketToken := parseToken SyntaxKind.CloseBracketToken in
  let* node := new_node SyntaxKind.LexicalGoalAssertion None
                 ([openBracketToken; lexicalKeyword] ++ opt goalKeyword ++ [symbol]
                  ++ opt closeBracketToken) in
  finishNode node (Node.pos openBracketToken).

Definition parseParameterValueAssertionTail (openBracketToken operatorToken : Node) : P Node :=
  let* name := parseIdentifier in
  let* closeBracketToken := parseToken SyntaxKind.CloseBracketToken in
  let* node := new_node SyntaxKind.ParameterValueAssertion None
                 ([openBracketToken; operatorToken; name] ++ opt closeBracketToken) in
  finishNode node (Node.pos openBracketToken).

Definition parseInvalidAssertionTail (openBracketToken : Node) : P Node :=
  let* fullStart := getStartPos in
  skipUntil isInvalidConstraintTailRecoveryToken ;;
  let* closeBracketToken := parseToken SyntaxKind.CloseBracketToken in
  let* node := new_node SyntaxKind.InvalidAssertion None
                 ([openBracketToken] ++ opt closeBracketToken) in
  finishNode node fullStart.

Definition parseAssertion (openBracketToken : Node) : P Node :=
  let* emptyKeyword := parseToken SyntaxKind.EmptyKeyword in
  match emptyKeyword with
  | Some emptyKeyword => parseEmptyAssertionTail openBracketToken emptyKeyword
  | None =>
  let* lookaheadKeyword := parseToken SyntaxKind.LookaheadKeyword in
  match lookaheadKeyword with
  | Some lookaheadKeyword => parseLookaheadAssertionTail openBracketToken lookaheadKeyword
  | None =>
  let* noKeyword := parseToken SyntaxKind.NoKeyword in
  match noKeyword with
  | Some noKeyword => parseNoSymbolHereAssertionTail openBracketToken noKeyword
  | None =>
  let* lexicalKeyword := parseToken SyntaxKind.LexicalKeyword in
  match lexicalKeyword with
  | Some lexicalKeyword => parseLexicalGoalAssertionTail openBracketToken lexicalKeyword
  | None =>
  let* operatorToken := parseAnyToken isParameterOperatorToken in
  match operatorToken with
  | Some operatorToken => parseParameterValueAssertionTail openBracketToken operatorToken
  | None => parseInvalidAssertionTail openBracketToken
  end end end end end.

Definition parseArgument : P Node :=
  let* fullStart := getStartPos in
  let* operatorToken := parseAnyToken isLeadingArgumentToken in
  let* name := parseIdentifier in
  let* node := new_node SyntaxKind.Argument None (opt operatorToken ++ [name]) in
  finishNode node fullStart.

Definition parseArgumentListTail (openToken : Node) (parsingContext : ParsingContext)
    (closeTokenKind : SyntaxKind) : P Node :=
  let* elements := parseList parsingContext None in
  let* closeToken := parseToken closeTokenKind in
  let* node := new_node SyntaxKind.ArgumentList None
                 ([openToken] ++ default [] elements ++ opt closeToken) in
  finishNode node (Node.pos openToken).

Definition nextTokenIsArgument : P bool :=
  nextToken ;;
  let* token := gets Parser.token in
  ret (isLeadingArgumentToken token || (token =k SyntaxKind.Identifier)).

Definition isStartOfArgumentList : P bool :=
  let* token := gets Parser.token in
  if token =k SyntaxKind.OpenBracketToken then lookahead nextTokenIsArgument
  else ret false.

Definition tryParseArgumentList : P (option Node) :=
  let* openParenToken := parseToken SyntaxKind.OpenParenToken in
  match openParenToken with
  | Some openParenToken =>
      let* node := parseArgumentListTail openParenToken ParsingContext.Arguments_
                     SyntaxKind.CloseParenToken in
      ret (Some node)
  | None =>
      let* start := isStartOfArgumentList in
      if start then
        let* openBracketToken := parseToken SyntaxKind.OpenBracketToken in
        match openBracketToken with
        | Some openBracketToken =>
            let* node := parseArgumentListTail openBracketToken
                           ParsingContext.BracketedArguments SyntaxKind.CloseBracketToken in
            ret (Some node)
        | None => ret None
        end
      else ret None
  end.

Definition parseNonterminal (allowArgumentList allowOptional : bool) : P Node :=
  let* fullStart := getStartPos in
  let* name := parseIdentifier in
  let* argumentList := if allowArgumentList then tryParseArgumentList else ret None in
  let* questionToken :=
    if allowOptional then parseToken SyntaxKind.QuestionToken else ret None in
  let* node := new_node SyntaxKind.Nonterminal None
                 ([name] ++ opt argumentList ++ opt questionToken) in
  finishNode node fullStart.

(** The [while (this.token)] loop of [parseProseFragments]; every round that
    does not leave the loop consumes a token. *)
Fixpoint parseProseFragments_loop (n : nat) (fragments : option (list Node))
  : P (option (list Node)) :=
  let* token := gets Parser.token in
  if token =k SyntaxKind.Unknown then ret fragments
  else if token =k SyntaxKind.ProseFull then
    let* fragment := parseProseFragmentLiteral token in
    ret (Some (default [] fragments ++ [fragment]))
  else
    let continue (fragment : P Node) : P (option (list Node)) :=
      match n with
      | 0 => throw OutOfFuel
      | S n' =>
          let* fragment := fragment in
          parseProseFragments_loop n' (Some (default [] fragments ++ [fragment]))
      end in
    if SyntaxKind.inRange SyntaxKind.FirstProseFragment SyntaxKind.LastProseFragment token
    then continue (parseProseFragmentLiteral token)
    else if token =k SyntaxKind.Terminal then continue (parseTerminal false)
    else if token =k SyntaxKind.Identifier then continue (parseNonterminal false false)
    else ret fragments.

Definition parseProseFragments : P (option (list Node)) :=
  parseProseFragments_loop fuel None.

Definition parseProse (greaterThanToken : Node) : P Node :=
  let* fragments := parseProseFragments in
  let* node := new_node SyntaxKind.Prose None ([greaterThanToken] ++ default [] fragments) in
  finishNode node (Node.pos greaterThanToken).

Definition parseProseAssertion (openBracketToken : Node) : P Node :=
  let* fragments := parseProseFragments in
  let* closeBracketToken := parseToken SyntaxKind.CloseBracketToken in
  let* node := new_node SyntaxKind.ProseAssertion None
                 ([openBracketToken] ++ default [] fragments ++ opt closeBracketToken) in
  finishNode node (Node.pos openBracketToken).

Definition parseOneOfSymbol (oneKeyword : Node) : P Node :=
  let* ofKeyword := parseToken SyntaxKind.OfKeyword in
  let* symbols := parseList ParsingContext.OneOfSymbolList None in
  let* node := new_node SyntaxKind.OneOfSymbol None
                 ([oneKeyword] ++ opt ofKeyword ++ default [] symbols) in
  finishNode node (Node.pos oneKeyword).

Definition parsePlaceholderSymbol (placeholderToken : Node) : P Node :=
  let* node := new_node SyntaxKind.PlaceholderSymbol None [placeholderToken] in
  finishNode node (Node.pos placeholderToken).

Definition parseInvalidSymbol : P Node :=
  let* fullStart := getStartPos in
  let* node := new_node SyntaxKind.InvalidSymbol None [] in
  skipUntil isInvalidSymbolRecoveryToken ;;
  finishNode node fullStart.

Definition parseUnicodeCharacterRangeTail (left_ throughKeyword : Node) : P Node :=
  let* right_ := parseUnicodeCharacterLiteral false in
  let* node := new_node SyntaxKind.UnicodeCharacterRange None [left_; throughKeyword; right_] in
  finishNode node (Node.pos left_).

Definition parseUnicodeCharacterRangeOrHigher (allowOptional : bool) : P Node :=
  let* symbol := parseUnicodeCharacterLiteral allowOptional in
  if negb allowOptional then
    let* throughKeyword := parseToken SyntaxKind.ThroughKeyword in
    match throughKeyword with
    | Some throughKeyword => parseUnicodeCharacterRangeTail symbol throughKeyword
    | None => ret symbol
    end
  else ret symbol.

Definition parsePrimarySymbol (allowOptional : bool) : P Node :=
  let* token := gets Parser.token in
  match token with
  | SyntaxKind.UnicodeCharacterLiteral => parseUnicodeCharacterRangeOrHigher allowOptional
  | SyntaxKind.Terminal => parseTerminal allowOptional
  | SyntaxKind.Identifier => parseNonterminal true allowOptional
  | _ =>
      let* placeholderToken := parseToken SyntaxKind.AtToken in
      match placeholderToken with
      | Some placeholderToken => parsePlaceholderSymbol placeholderToken
      | None => parseInvalidSymbol
      end
  end.

Definition parseUnarySymbol : P Node :=
  let* oneKeyword := parseToken SyntaxKind.OneKeyword in
  match oneKeyword with
  | Some oneKeyword => parseOneOfSymbol oneKeyword
  | None => parsePrimarySymbol true
  end.

Definition parseButNotSymbolTail (left_ : Node) (butKeyword notKeyword : option Node) : P Node :=
  let* right_ := k_parseSymbol K in
  let* node := new_node SyntaxKind.ButNotSymbol None
                 ([left_] ++ opt butKeyword ++ opt notKeyword ++ [right_]) in
  finishNode node (Node.pos left_).

Definition parseSymbol : P Node :=
  let* openBracketToken := parseToken SyntaxKind.OpenBracketToken in
  match openBracketToken with
  | Some openBracketToken => parseAssertion openBracketToken
  | None =>
      let* openBracketGreaterThanToken := parseToken SyntaxKind.OpenBracketGreaterThanToken in
      match openBracketGreaterThanToken with
      | Some openBracketGreaterThanToken => parseProseAssertion openBracketGreaterThanToken
      | None =>
          let* symbol := parseUnarySymbol in
          let* butKeyword := parseToken SyntaxKind.ButKeyword in
          let* notKeyword := parseToken SyntaxKind.NotKeyword in
          match butKeyword, notKeyword with
          | None, None => ret symbol
          | _, _ => parseButNotSymbolTail symbol butKeyword notKeyword
          end
      end
  end.

Definition tryParseSymbolSpan : P (option Node) :=
  let* token := gets Parser.token in
  if isStartOfSymbolSpan token then
    let* node := k_parseSymbolSpanRest K in
    ret (Some node)
  else ret None.

Definition parseSymbolSpanRest : P Node :=
  let* fullStart := getStartPos in
  let* symbol := parseSymbol in
  let* next := tryParseSymbolSpan in
  let* node := new_node SyntaxKind.SymbolSpan None ([symbol] ++ opt next) in
  finishNode node fullStart.

Definition parseSymbolSpan : P Node :=
  let* greaterThanToken := parseToken SyntaxKind.GreaterThanToken in
  match greaterThanToken with
  | Some greaterThanToken =>
      let* symbol := parseProse greaterThanToken in
      let* node := new_node SyntaxKind.SymbolSpan None [symbol] in
      finishNode node (Node.pos greaterThanToken)
  | None => parseSymbolSpanRest
  end.

Definition parseLinkReference : P (option Node) :=
  let* token := gets Parser.token in
  if token =k SyntaxKind.LinkReference then
    let* fullStart := getStartPos in
    let* text := readTokenValue SyntaxKind.LinkReference in
    let* node := new_node SyntaxKind.LinkReference text [] in
    let* node := finishNode node fullStart in
    ret (Some node)
  else ret None.

(** [stableSort(node.trailingHtmlTrivia, trivia => trivia.pos)]: a stable
    insertion sort by position. *)
Fixpoint insertByPos (x : HtmlTrivia) (l : list HtmlTrivia) : list HtmlTrivia :=
  match l with
  | [] => [x]
  | y :: l' =>
      if Nat.ltb (HtmlTrivia.pos x) (HtmlTrivia.pos y) then x :: l
      else y :: insertByPos x l'
  end.
Definition stableSortByPos (l : list HtmlTrivia) : list HtmlTrivia :=
  fold_left (fun sorted x => insertByPos x sorted) l [].

Definition parseRightHandSide : P Node :=
  let* fullStart := getStartPos in
  let* head := parseSymbolSpan in
  let* reference := parseLinkReference in
  let* node := new_node SyntaxKind.RightHandSide None ([head] ++ opt reference) in
  let* context := gets Parser.parsingContext in
  let* parsedLineTerminator :=
    match context with
    | ParsingContext.RightHandSideListIndented => ret false
    | _ => parseOptional SyntaxKind.LineTerminatorToken
    end in
  let* node := finishNode node fullStart in
  (* Fix order due to newline *)
  match parsedLineTerminator, Node.trailingHtmlTrivia node with
  | true, Some trailing =>
      ret (with_trivia (Node.leadingHtmlTrivia node) (Some (stableSortByPos trailing)) node)
  | _, _ => ret node
  end.

Definition parseRightHandSideList : P Node :=
  let* fullStart := getStartPos in
  let* openIndentToken := parseToken SyntaxKind.IndentToken in
  let* elements :=
    match openIndentToken with
    | Some _ =>
        let* elements := parseList ParsingContext.RightHandSideListIndented None in
        ret (default [] elements)
    | None => ret []
    end in
  let* closeIndentToken := parseToken SyntaxKind.DedentToken in
  let* node := new_node SyntaxKind.RightHandSideList None
                 (opt openIndentToken ++ elements ++ opt closeIndentToken) in
  finishNode node fullStart.

Definition parseBody : P Node :=
  let* oneKeyword := parseToken SyntaxKind.OneKeyword in
  match oneKeyword with
  | Some oneKeyword => parseOneOfList oneKeyword
  | None =>
      let* token := gets Parser.token in
      if token =k SyntaxKind.LineTerminatorToken then
        nextToken ;; parseRightHandSideList
      else parseRightHandSide
  end.

Definition parseProduction : P Node :=
  let* fullStart := getStartPos in
  let* name := parseIdentifier in
  let* parameters := tryParseParameterList in
  let* colonToken := parseAnyToken isProductionSeparatorToken in
  let* body := parseBody in
  let* node := new_node SyntaxKind.Production None
                 ([name] ++ opt parameters ++ opt colonToken ++ [body]) in
  finishNode node fullStart.

Definition parseStringLiteral : P (option Node) :=
  let* token := gets Parser.token in
  if token =k SyntaxKind.StringLiteral then
    let* fullStart := getStartPos in
    let* text := getTokenValue in
    let* node := new_node SyntaxKind.StringLiteral text [] in
    nextToken ;;
    let* node := finishNode node fullStart in
    ret (Some node)
  else ret None.

Definition parseImport (atToken importKeyword : Node) : P Node :=
  let* path := parseStringLiteral in
  let* node := new_node SyntaxKind.Import None ([atToken; importKeyword] ++ opt path) in
  let* node := finishNode node (Node.pos atToken) in
  match path with
  | Some path =>
      match Node.text path with
      | Some text =>
          if truthy text
          then modify (fun p => Parser.set_imports (Parser.imports p ++ [text]) p) ;; ret node
          else ret node
      | None => ret node
      end
  | None => ret node
  end.

Definition parseDefine (atToken defineKeyword : Node) : P Node :=
  let* key := parseIdentifier in
  let* valueToken := parseAnyToken isBooleanLiteralToken in
  let* node := new_node SyntaxKind.Define None
                 ([atToken; defineKeyword; key] ++ opt valueToken) in
  finishNode node (Node.pos atToken).

Definition parseMetaElement (atToken : Node) : P (option Node) :=
  let* importKeyword := parseToken SyntaxKind.ImportKeyword in
  match importKeyword with
  | Some importKeyword =>
      let* node := parseImport atToken importKeyword in
      ret (Some node)
  | None =>
      let* defineKeyword := parseToken SyntaxKind.DefineKeyword in
      match defineKeyword with
      | Some defineKeyword =>
          let* node := parseDefine atToken defineKeyword in
          ret (Some node)
      | None =>
          let* pos := getTokenPos in
          report pos (Diagnostics._0_expected [SyntaxKind.ImportKeyword; SyntaxKind.DefineKeyword]) ;;
          ret None
      end
  end.

Definition parseSourceElement : P (option Node) :=
  let* token := gets Parser.token in
  if token =k SyntaxKind.Identifier then
    let* node := parseProduction in
    ret (Some node)
  else
    let* atToken := parseToken SyntaxKind.AtToken in
    match atToken with
    | Some atToken => parseMetaElement atToken
    | None =>
        let* pos := getTokenPos in
        let* token := gets Parser.token in
        report pos (Diagnostics.Unexpected_token_0_ token) ;;
        ret None
    end.

Definition parseElement (listContext : ParsingContext) : P (option Node) :=
  match listContext with
  | ParsingContext.SourceElements => parseSourceElement
  | ParsingContext.Parameters | ParsingContext.BracketedParameters =>
      let* node := parseParameter in ret (Some node)
  | ParsingContext.Arguments_ | ParsingContext.BracketedArguments =>
      let* node := parseArgument in ret (Some node)
  | ParsingContext.RightHandSideListIndented =>
      let* node := parseRightHandSide in ret (Some node)
  | ParsingContext.SymbolSet =>
      let* node := parseSymbolSpan in ret (Some node)
  | ParsingContext.OneOfList | ParsingContext.OneOfListIndented =>
      let* node := parseTerminal false in ret (Some node)
  | ParsingContext.OneOfSymbolList | ParsingContext.NoSymbolHere =>
      let* node := parsePrimarySymbol false in ret (Some node)
  end.

Definition parseSourceElementList (elements : option (list Node)) : P (option (list Node)) :=
  parseList ParsingContext.SourceElements elements.

End Grammar.

(** The methods at recursion depth [n]: at depth [0] every recursive call
    is out of fuel. *)
Fixpoint parser (n : nat) : Knots :=
  match n with
  | 0 => mkKnots (fun _ => throw OutOfFuel) (throw OutOfFuel) (throw OutOfFuel)
  | S n' =>
      let K := parser n' in
      mkKnots (parseElement n' K) (parseSymbol n' K) (parseSymbolSpanRest n' K)
  end.

(** *** Entry points *)

Definition parse (fuel : nat) (lex : Lexer) (filename text : string)
    (cancellationToken : CancellationToken) : P SourceFile :=
  (* const sourceFile = new SourceFile(filename, text, elements) *)
  let* sourceFile := new_node SyntaxKind.SourceFile None [] in
  modify (Parser.set_imports []) ;;
  let* diagnostics := new_DiagnosticMessages in
  modify (Parser.set_diagnostics diagnostics) ;;
  modify (Parser.set_cancellationToken cancellationToken) ;;
  modify (Parser.set_parsingContext ParsingContext.SourceElements) ;;
  modify (Parser.set_tagsOffset 0) ;;
  modify (Parser.set_scanner (Scanner.new lex filename text diagnostics cancellationToken)) ;;
  nextToken ;;
  let* elements := parseSourceElementList fuel (parser fuel) (Some []) in
  let* imports := gets Parser.imports in
  ret (SourceFile.mk
         (with_children (default [] elements)
            (with_range 0 (String.length text) sourceFile))
         filename text imports
         (match diagnostics with
          | DiagnosticMessages.Sink r => Some r
          | DiagnosticMessages.NullInstance => None
          end)).

Definition parseSourceFile (fuel : nat) (lex : Lexer) (filename text : string)
    (cancellationToken : CancellationToken) : P SourceFile :=
  throwIfCancellationRequested cancellationToken ;;
  let* savedImports := gets Parser.imports in
  let* savedDiagnostics := gets Parser.diagnostics in
  let* savedCancellationToken := gets Parser.cancellationToken in
  let* savedScanner := gets Parser.scanner in
  let* savedParsingContext := gets Parser.parsingContext in
  let* savedTags := gets Parser.tags in
  let* savedTagsOffset := gets Parser.tagsOffset in
  finally
    (parse fuel lex filename text cancellationToken)
    (fun p =>
       Parser.set_tagsOffset savedTagsOffset
         (Parser.set_tags savedTags
            (Parser.set_parsingContext savedParsingContext
               (Parser.set_scanner savedScanner
                  (Parser.set_cancellationToken savedCancellationToken
                     (Parser.set_diagnostics savedDiagnostics
                        (Parser.set_imports savedImports p))))))).

(** * Helpers of the core module

    The parser source imports [Range], [last] and [stableSort] from the core
    module.  JavaScript numbers are modelled by integers: the line and
    character numbers of positions and the elements searched by
    [binarySearch] are whole numbers in every use, and [NaN] does not occur. *)

(** ** Positions *)

Module Position.
Record t := mk { line : Z; character : Z }.

Definition create (line character : Z) : t := mk line character.

Definition clone (position : t) : t := create (line position) (character position).

Definition compare (left right : t) : Z :=
  if (line left <? line right)%Z then (-1)%Z
  else if (line left >? line right)%Z then 1%Z
  else if (character left <? character right)%Z then (-1)%Z
  else if (character left >? character right)%Z then 1%Z
  else 0%Z.

Definition equals (left right : t) : bool :=
  (line left =? line right)%Z && (character left =? character right)%Z.
End Position.
Abbreviation Position := Position.t.

(** ** Ranges *)

Module Range.
Record t := mk { start : Position; end_ : Position }.

Definition create (start end_ : Position) : t := mk start end_.

Definition clone (range : t) : t :=
  create (Position.clone (start range)) (Position.clone (end_ range)).

Definition collapseToStart (range : t) : t := create (start range) (start range).

Definition collapseToEnd (range : t) : t := create (end_ range) (end_ range).

Definition isCollapsed (range : t) : bool :=
  (Position.compare (start range) (end_ range) >=? 0)%Z.

Definition contains (left right : t) : bool :=
  (Position.compare (start left) (start right) <=? 0)%Z
  && (Position.compare (end_ left) (end_ right) >=? 0)%Z.

Definition containsPosition (range : t) (position : Position) : bool :=
  (Position.compare (start range) position <=? 0)%Z
  && (Position.compare (end_ range) position >=? 0)%Z.

Definition intersects (left right : t) : bool :=
  containsPosition left (start right) || containsPosition left (end_ right).

Definition equals (left right : t) : bool :=
  Position.equals (start left) (start right) && Position.equals (end_ left) (end_ right).
End Range.
Abbreviation Range := Range.t.

(** ** Text changes (the [TextChange] namespace of the parser source)

    [applyChange] needs the [LineMap] of the diagnostics module, which is not
    part of the sources at hand, and is left out. *)

Module TextChange.
Record t := mk { range : Range; text : string }.

Definition create (text : string) (range : Range) : t := mk range text.

Definition clone (change : t) : t := create (text change) (Range.clone (range change)).

Definition isUnchanged (change : t) : bool :=
  Nat.eqb (String.length (text change)) 0 && Range.isCollapsed (range change).
End TextChange.
Abbreviation TextChange := TextChange.t.

(** ** Iterables

    An iterable is [undefined], the shared [emptyIterable], an array, or
    another iterable object, given by the items its iterator yields. *)

Module Iterable.
Inductive t (T : Type) :=
| Undefined
| EmptyIterable
| Array (items : list T)
| Other (items : list T).
Arguments Undefined {T}.
Arguments EmptyIterable {T}.
Arguments Array {T} items.
Arguments Other {T} items.
End Iterable.
Abbreviation Iterable := Iterable.t.

(** ** Binary search

    [array[middle]] is [undefined] outside the array; [undefined === value]
    and [undefined > value] are both false, which sends the search to the
    upper half.  [>>] and [~] work on the 32-bit integer of their operand.
    The loop is bounded by the length of the array, which the interval
    between [low] and [high] never exceeds. *)

Module Core.
Definition toInt32 (x : Z) : Z := ((x + 2 ^ 31) mod 2 ^ 32 - 2 ^ 31)%Z.

Definition element (array : list Z) (index : Z) : option Z :=
  if (0 <=? index)%Z then array !! Z.to_nat index else None.

Fixpoint binarySearch_loop (fuel : nat) (array : list Z) (value low high : Z) : option Z :=
  if (low <=? high)%Z then
    match fuel with
    | 0 => None
    | S fuel' =>
        let middle := (low + Z.shiftr (toInt32 (high - low)) 1)%Z in
        match element array middle with
        | Some midValue =>
            if (midValue =? value)%Z then Some middle
            else if (midValue >? value)%Z then
              binarySearch_loop fuel' array value low (middle - 1)%Z
            else binarySearch_loop fuel' array value (middle + 1)%Z high
        | None => binarySearch_loop fuel' array value (middle + 1)%Z high
        end
    end
  else Some (Z.lnot (toInt32 low)).

(** [None]: the bound on the loop was too short. *)
Definition binarySearch (array : list Z) (value : Z) : option Z :=
  binarySearch_loop (S (length array)) array value 0%Z (Z.of_nat (length array) - 1)%Z.

(** ** First, last and only item *)

Definition first {T} (iterable : Iterable T) : option T :=
  match iterable with
  | Iterable.Undefined => None
  | Iterable.EmptyIterable => None
  | Iterable.Array items => if Nat.ltb 0 (length items) then items !! 0 else None
  | Iterable.Other items =>
      (* for (const item of iterable) return item; *)
      match items with
      | item :: _ => Some item
      | [] => None
      end
  end.

(** [for (const item of iterable) last = item;] *)
Fixpoint last_loop {T} (items : list T) (last : option T) : option T :=
  match items with
  | item :: rest => last_loop rest (Some item)
  | [] => last
  end.

Definition last {T} (iterable : Iterable T) : option T :=
  match iterable with
  | Iterable.Undefined => None
  | Iterable.EmptyIterable => None
  | Iterable.Array items =>
      if Nat.ltb 0 (length items) then items !! (length items - 1) else None
  | Iterable.Other items => last_loop items None
  end.

(** [for (const item of iterable) { if (!first) return undefined; only = item; }] *)
Fixpoint only_loop {T} (items : list T) (only : option T) (first : bool) : option T :=
  match items with
  | item :: rest => if negb first then None else only_loop rest (Some item) first
  | [] => only
  end.

Definition only {T} (iterable : Iterable T) : option T :=
  match iterable with
  | Iterable.Undefined => None
  | Iterable.EmptyIterable => None
  | Iterable.Array items => if Nat.eqb (length items) 1 then items !! 0 else None
  | Iterable.Other items => only_loop items None true
  end.
End Core.

(** * Specification-level notions for the binder *)

(** The symbol listed under [(k, n)] in a table, if any. *)
Definition entry (k : SymbolKind) (n : string) (t : SymbolTable) : option nat :=
  nm ← SymbolTable.nameMap t; m ← nm !! k; m !! n.

(** [mentions s t]: some entry of [t] refers to the symbol [s]. *)
Definition mentions (s : nat) (t : SymbolTable) : Prop :=
  exists k n, entry k n t = Some s.

(** Every symbol a table lists, and every symbol object, was created by
    [new Symbol], hence carries an id the counter has already passed. *)
Definition table_allocated (h : SymbolHeap) (t : SymbolTable) : Prop :=
  forall s, mentions s t -> s <= nextSymbolId h.

Definition heap_wf (h : SymbolHeap) : Prop :=
  forall i, is_Some (symbolObjects h !! i) -> i <= nextSymbolId h.

(** A family of symbol tables and the operations the code offers on them. *)
Inductive TableOp :=
| OpDeclare (table : nat) (name : option string) (kind : SymbolKind) (parent : option nat)
| OpCopyFrom (table other : nat)
| OpNew.

Definition runTableOp (w : list SymbolTable * SymbolHeap) (op : TableOp)
  : list SymbolTable * SymbolHeap :=
  match op with
  | OpDeclare i name kind parent =>
      match w.1 !! i with
      | Some t =>
          let '(_, t', h') := SymbolTable.declareSymbol name kind parent t w.2 in
          (<[i := t']> w.1, h')
      | None => w
      end
  | OpCopyFrom i j =>
      match w.1 !! i, w.1 !! j with
      | Some t, Some other => (<[i := SymbolTable.copyFrom other t]> w.1, w.2)
      | _, _ => w
      end
  | OpNew => (w.1 ++ [SymbolTable.new], w.2)
  end.

Definition runTableOps (ops : list TableOp) (w : list SymbolTable * SymbolHeap) :=
  fold_left runTableOp ops w.

(** The mutating operations of a [BindingTable]; [OpWriteScope] stands for
    any update made through a symbol table obtained from it. *)
Inductive BindingOp :=
| OpSetParent (node parent : option Node)
| OpSetSymbol (node : option Node) (symbol : option nat)
| OpAddDeclaration (symbol : option nat) (node : option Node)
| OpGetScope (container : nat)
| OpWriteScope (scope : ScopeRef) (table : SymbolTable).

Definition runBindingOp (bt : BindingTable) (op : BindingOp) : BindingTable :=
  match op with
  | OpSetParent node parent => BindingTable.setParent node parent bt
  | OpSetSymbol node symbol => BindingTable.setSymbol node symbol bt
  | OpAddDeclaration symbol node => BindingTable.addDeclarationToSymbol symbol node bt
  | OpGetScope container => (BindingTable.getScope container bt).2
  | OpWriteScope scope table => BindingTable.writeScope scope table bt
  end.

Definition runBindingOps (ops : list BindingOp) (bt : BindingTable) : BindingTable :=
  fold_left runBindingOp ops bt.

(** The declaration sites of [s] among a sequence of operations, in order. *)
Definition declarationSites (s : nat) (ops : list BindingOp) : list Node :=
  flat_map (fun op =>
              match op with
              | OpAddDeclaration (Some s') (Some node) => if Nat.eqb s s' then [node] else []
              | _ => []
              end) ops.

(** The ancestors [resolveSymbol] visits from [location]: the node itself,
    then its parents, up to and including the first [SourceFile] node. *)
Inductive walk (bt : BindingTable) : option Node -> list Node -> Prop :=
| walk_none : walk bt None []
| walk_file n :
    (Node.kind n =k SyntaxKind.SourceFile) = true -> walk bt (Some n) [n]
| walk_up n path :
    (Node.kind n =k SyntaxKind.SourceFile) = false ->
    walk bt (BindingTable.getParent (Some n) bt) path ->
    walk bt (Some n) (n :: path).

(** The scope consulted at a visited node, in the words of the spec: the
    file-global scope at a [SourceFile] node, otherwise the private local
    scope of the node's symbol, when the node has a symbol with a scope. *)
Definition scopeAt (bt : BindingTable) (n : Node) : option SymbolTable :=
  if Node.kind n =k SyntaxKind.SourceFile then Some (BindingTable.globals bt)
  else
    s ← BindingTable.getSymbol (Some n) bt;
    locals ← BindingTable.symbolLocals bt;
    locals !! s.

(** First match along a path. *)
Fixpoint firstMatch (bt : BindingTable) (path : list Node) (name : string)
    (meaning : SymbolKind) : option nat :=
  match path with
  | [] => None
  | n :: rest =>
      match scopeAt bt n ≫= SymbolTable.resolveSymbol name meaning with
      | Some s => Some s
      | None => firstMatch bt rest name meaning
      end
  end.

(** No declaration is recorded for a symbol id that is still to be created. *)
Definition declarations_allocated (b : Binder) : Prop :=
  forall i, nextSymbolId (Binder.symbolHeap b) < i ->
            BindingTable.getDeclarations (Some i) (Binder.bindings b) = [].

(** Concrete nodes used in examples. *)
Definition identifier (id : nat) (text : option string) : Node :=
  Node.mk id SyntaxKind.Identifier 0 0 text None None [].
Definition production (id : nat) (name : Node) : Node :=
  Node.mk id SyntaxKind.Production 0 0 None None None [name].
Definition emptyFile (id : nat) (filename : string) : SourceFile :=
  SourceFile.mk (Node.mk id SyntaxKind.SourceFile 0 0 None None None []) filename EmptyString [] None.

(** The tree of the one-production grammar [A(a) : ...]: the production
    [A], its parameter list and the parameter [a]. *)
Definition sampleParameterName : Node := identifier 6 (Some "a").
Definition sampleParameter : Node :=
  Node.mk 5 SyntaxKind.ParameterNode 0 0 None None None [sampleParameterName].
Definition sampleParameterList : Node :=
  Node.mk 4 SyntaxKind.ParameterList 0 0 None None None [sampleParameter].
Definition sampleProduction : Node :=
  Node.mk 2 SyntaxKind.Production 0 0 None None None
    [identifier 3 (Some "A"); sampleParameterList].
Definition sampleTree : SourceFile :=
  SourceFile.mk (Node.mk 1 SyntaxKind.SourceFile 0 0 None None None [sampleProduction])
    "a.grammar" "A(a) : " [] None.

Definition freshBinder : Binder :=
  Binder.new BindingTable.new CancellationToken.none initialSymbolHeap ∅.

(** A symbol that no table mentions, and that the counter has passed, stays
    unmentioned whatever is declared or copied afterwards. *)
Definition unlisted (s : nat) (w : list SymbolTable * SymbolHeap) : Prop :=
  Forall (fun t => ~ mentions s t) w.1 /\ s <= nextSymbolId w.2.

(** The file symbols of the global scope. *)
Definition fileEntry (fn : string) (b : Binder) : option nat :=
  entry SymbolKind.SourceFile fn (BindingTable.globals (Binder.bindings b)).

(** A computation keeps the file symbols of the global scope. *)
Definition keeps_files {A} (m : M Binder A) : Prop :=
  forall b r b', m b = (r, b') -> forall fn, fileEntry fn b' = fileEntry fn b.

(** The [default] case of the [switch] in [bind]. *)
Definition bindOther (node : Node) : M Binder unit :=
  let* parentSymbol := gets Binder.parentSymbol in
  let* scope := gets Binder.scope in
  Binder.bindChildren Binder.bind node parentSymbol scope.

(** What the binder owns apart from the poll counters of the cancellation
    sources. *)
Definition sameBinding (b b' : Binder) : Prop :=
  Binder.bindings b' = Binder.bindings b /\
  Binder.symbolHeap b' = Binder.symbolHeap b /\
  Binder.scope b' = Binder.scope b /\
  Binder.parentNode b' = Binder.parentNode b /\
  Binder.parentSymbol b' = Binder.parentSymbol b.

(** The chain of parents of a node in the side table, nearest first. *)
Inductive ancestors (bt : BindingTable) : option Node -> list Node -> Prop :=
| ancestors_none node :
    BindingTable.getParent node bt = None -> ancestors bt node []
| ancestors_parent node p path :
    BindingTable.getParent node bt = Some p ->
    ancestors bt (Some p) path ->
    ancestors bt node (p :: path).

(** ** Relations between the binder states before and after a method *)

(** [preserves R m]: however [m] ends, by returning or by throwing, the
    states before and after are related by [R]. *)
Definition preserves {A} (R : Binder -> Binder -> Prop) (m : M Binder A) : Prop :=
  forall b r b', m b = (r, b') -> R b b'.

(** The binding table was changed through its own operations only. *)
Definition byTableOperations (b b' : Binder) : Prop :=
  exists ops, Binder.bindings b' = runBindingOps ops (Binder.bindings b).

(** The request of the binder's cancellation token is visible. *)
Definition bindingCancelled (b : Binder) : Prop :=
  match Binder.cancellationToken b with
  | CancellationToken.source i => Binder.polls b !! i = Some 0
  | CancellationToken.none => False
  end.

(** The context of the binder: what [bindChildren] saves and restores. *)
Definition bindingContext (b : Binder) : option Node * option nat * ScopeRef :=
  (Binder.parentNode b, Binder.parentSymbol b, Binder.scope b).

(** The loop of [forEachChild] over the children that are left. *)
Fixpoint bindEach (cb : Node -> M Binder unit) (cs : list Node) : M Binder unit :=
  match cs with
  | [] => ret tt
  | c :: cs' => cb c ;; bindEach cb cs'
  end.

(** The nodes of a tree, parents first. *)
Fixpoint descendants (n : Node) : list Node :=
  match n with
  | Node.mk _ _ _ _ _ _ _ children => n :: flat_map descendants children
  end.

(** What [bind] leaves behind for the tree below [node]: the node has the
    parent the binder was at, every node below it has its tree parent, no
    other node's parent is touched, and the binder is back in the context it
    was in. *)
Definition bindsParents (node : Node) : Prop :=
  forall b b',
    Binder.bind node b = (Ok tt, b') ->
    NoDup (Node.id <$> descendants node) ->
    (forall pn, Binder.parentNode b = Some pn ->
                BindingTable.getParent (Some node) (Binder.bindings b') = Some pn) /\
    (forall p c, p ∈ descendants node -> c ∈ Node.children p ->
                 BindingTable.getParent (Some c) (Binder.bindings b') = Some p) /\
    (forall n, Node.id n ∉ Node.id <$> descendants node ->
               BindingTable.getParent (Some n) (Binder.bindings b') =
               BindingTable.getParent (Some n) (Binder.bindings b)) /\
    bindingContext b' = bindingContext b.

(** Scopes only gain entries and symbols only gain declarations: every
    scope that exists still exists and lists what it listed, and the
    declarations of every symbol begin with what they held. *)
Definition scopesGrow (b b' : Binder) : Prop :=
  (forall r table,
      BindingTable.readScope r (Binder.bindings b) = Some table ->
      exists table',
        BindingTable.readScope r (Binder.bindings b') = Some table' /\
        forall k n s, entry k n table = Some s -> entry k n table' = Some s) /\
  (forall s, BindingTable.getDeclarations (Some s) (Binder.bindings b)
             `prefix_of` BindingTable.getDeclarations (Some s) (Binder.bindings b')).

(** The text of the name of a production or parameter. *)
Definition declaredName (node : Node) : option string :=
  name ← Node.name node; Node.text name.

(** * Specification-level notions for the parser *)

(** ** Sample inputs

    The token streams of a few texts, as the scanner produces them: kind,
    width of the blanks before the token, width of the token, decoded
    value. *)
Definition tk (kind : SyntaxKind) (leading width : nat) (value : option string) : ScannedToken :=
  ScannedToken.mk kind leading width value None [].

Definition insTag : HtmlTrivia := HtmlTrivia.mk SyntaxKind.HtmlOpenTagTrivia "ins" 0 5.

Definition sampleLexer : Lexer := fun text =>
  if String.eqb text "A : `x`" then
    [tk SyntaxKind.Identifier 0 1 (Some "A"); tk SyntaxKind.ColonToken 1 1 None;
     tk SyntaxKind.Terminal 1 3 (Some "x")]
  else if String.eqb text "A : [junk]" then
    [tk SyntaxKind.Identifier 0 1 (Some "A"); tk SyntaxKind.ColonToken 1 1 None;
     tk SyntaxKind.OpenBracketToken 1 1 None; tk SyntaxKind.Identifier 0 4 (Some "junk");
     tk SyntaxKind.CloseBracketToken 0 1 None]
  else if String.eqb text "A(a, b) : B[a]" then
    [tk SyntaxKind.Identifier 0 1 (Some "A"); tk SyntaxKind.OpenParenToken 0 1 None;
     tk SyntaxKind.Identifier 0 1 (Some "a"); tk SyntaxKind.CommaToken 0 1 None;
     tk SyntaxKind.Identifier 1 1 (Some "b"); tk SyntaxKind.CloseParenToken 0 1 None;
     tk SyntaxKind.ColonToken 1 1 None; tk SyntaxKind.Identifier 1 1 (Some "B");
     tk SyntaxKind.OpenBracketToken 0 1 None; tk SyntaxKind.Identifier 0 1 (Some "a");
     tk SyntaxKind.CloseBracketToken 0 1 None]
  else if String.eqb text "A :: one of B or : C" then
    [tk SyntaxKind.Identifier 0 1 (Some "A"); tk SyntaxKind.ColonColonToken 1 2 None;
     tk SyntaxKind.OneKeyword 1 3 None; tk SyntaxKind.OfKeyword 1 2 None;
     tk SyntaxKind.Identifier 1 1 (Some "B"); tk SyntaxKind.OrKeyword 1 2 None;
     tk SyntaxKind.ColonToken 1 1 None; tk SyntaxKind.Identifier 1 1 (Some "C")]
  else if String.eqb text "<ins>B" then
    [ScannedToken.mk SyntaxKind.Identifier 5 1 (Some "B") (Some [insTag]) []]
  else [].

(** ** Text ranges *)

Definition rangeWithin (parent child : Node) : bool :=
  Nat.leb (Node.pos parent) (Node.pos child) && Nat.leb (Node.end_ child) (Node.end_ parent).

(** Every node below and including [n] has [pos <= end] and contains the
    ranges of its children. *)
Fixpoint wellRanged (n : Node) : bool :=
  match n with
  | Node.mk _ _ pos end_ _ _ _ children =>
      Nat.leb pos end_
      && forallb (fun c => rangeWithin n c && wellRanged c) children
  end.

(** The nodes of a tree, parents first. *)
Fixpoint subnodes (n : Node) : list Node :=
  match n with
  | Node.mk _ _ _ _ _ _ _ children => n :: flat_map subnodes children
  end.

(** ** Scanner position *)

(** What [Scanner.speculate] saves: the position and the current token. *)
Definition scannerPosition (p : Parser)
  : list ScannedToken * nat * nat * nat * SyntaxKind * option string * option (list HtmlTrivia) :=
  let sc := Parser.scanner p in
  (Scanner.rest sc, Scanner.pos sc, Scanner.startPos sc, Scanner.tokenPos sc,
   Scanner.token sc, Scanner.tokenValue sc, Scanner.htmlTrivia sc).

(** The state of a parser in the middle of [parse]: the fields [parse]
    assigns, then a number of tokens read. *)
Definition startParse (lex : Lexer) (filename text : string) : P unit :=
  let* diagnostics := new_DiagnosticMessages in
  modify (Parser.set_diagnostics diagnostics) ;;
  modify (Parser.set_scanner (Scanner.new lex filename text diagnostics CancellationToken.none)) ;;
  nextToken ;;
  ret tt.

Definition midParse : Parser :=
  ((startParse sampleLexer "a.grammar" "A : `x`" ;; nextToken) (Parser.new ∅)).2.

(** A source of cancellation requests is cancelled in a parser state. *)
Definition cancellationRequested (tok : CancellationToken) (p : Parser) : Prop :=
  match tok with
  | CancellationToken.source i => Parser.polls p !! i = Some 0
  | CancellationToken.none => False
  end.

(** ** Relations between the parser states before and after a method *)

(** [ensures R Rt m]: whenever [m] returns, the states before and after are
    related by [R]; whenever it throws, by [Rt]. *)
Definition ensures {A} (R Rt : Parser -> Parser -> Prop) (m : P A) : Prop :=
  forall p r p', m p = (r, p') ->
    match r with Ok _ => R p p' | Throw _ => Rt p p' end.

Definition keepsContext (p p' : Parser) : Prop :=
  Parser.parsingContext p' = Parser.parsingContext p.

Definition anyState (p p' : Parser) : Prop := True.

(** The sinks that are not a diagnostics target of the parser or of its
    scanner hold what they held. *)
Definition sinkFrame (p p' : Parser) : Prop :=
  forall ref,
    Parser.diagnostics p <> DiagnosticMessages.Sink ref ->
    Scanner.diagnostics (Parser.scanner p) <> DiagnosticMessages.Sink ref ->
    Parser.sinks p' !! ref = Parser.sinks p !! ref.

Definition sameTargets (p p' : Parser) : Prop :=
  Parser.diagnostics p' = Parser.diagnostics p /\
  Scanner.diagnostics (Parser.scanner p') = Scanner.diagnostics (Parser.scanner p).

(** A callback reports through [this.diagnostics] and the scanner only: it
    leaves every other sink alone, and when it returns the two targets are
    the ones it found. *)
Definition withinTargets (p p' : Parser) : Prop := sinkFrame p p' /\ sameTargets p p'.

Definition reportsToTargets {T} (fn : P T) : Prop := ensures withinTargets sinkFrame fn.

(** The state in which a speculation callback starts: both diagnostics
    targets are the discard sink. *)
Definition speculationStart (p : Parser) : Parser :=
  let p1 := Parser.set_diagnostics DiagnosticMessages.NullInstance p in
  Parser.set_scanner
    (Scanner.with_diagnostics DiagnosticMessages.NullInstance (Parser.scanner p1)) p1.

(** ** The list policy of a parsing context

    What the per-context methods of the parser decide, as one table: the
    whitespace [shouldSkipWhitespace] lets the loop skip, the tokens at
    which [shouldParseElement] starts an element, the close token of
    [hasCloseToken] and [isOnCloseToken], whether [shouldConsumeCloseToken]
    has it consumed, the separator of [hasSeparator] and [isOnSeparator],
    the tokens at which [recover] stops and whether it then steps over a
    line terminator, and the message of [reportDiagnostics]. *)
Module ListPolicy.
Record t := mk {
  insignificant : SkipWhitespace;
  startsElement : SyntaxKind -> bool;
  closeToken : option (SyntaxKind -> bool);
  consumesCloseToken : bool;
  separator : option SyntaxKind;
  recoveryToken : SyntaxKind -> bool;
  recoverySkipsLineTerminator : bool;
  expected : option Diagnostics.t
}.
End ListPolicy.
Abbreviation ListPolicy := ListPolicy.t.

Definition policy_of (context : ParsingContext) : ListPolicy :=
  let allWhitespace :=
    SkipWhitespace.or (SkipWhitespace.mk true false) (SkipWhitespace.mk false true) in
  let lineTerminators := SkipWhitespace.mk true false in
  let symbolStart := fun token =>
    (token =k SyntaxKind.Terminal) || (token =k SyntaxKind.Identifier)
    || (token =k SyntaxKind.UnicodeCharacterLiteral) in
  let terminalStart := fun token =>
    (token =k SyntaxKind.Terminal) || (token =k SyntaxKind.UnicodeCharacterLiteral) in
  match context with
  | ParsingContext.SourceElements =>
      ListPolicy.mk allWhitespace isStartOfSourceElement
        (Some (fun token => token =k SyntaxKind.EndOfFileToken)) true
        None isSourceElementsRecoveryToken false
        (Some Diagnostics.Production_expected)
  | ParsingContext.Parameters =>
      ListPolicy.mk allWhitespace isStartOfParameter
        (Some (fun token => token =k SyntaxKind.CloseParenToken)) false
        (Some SyntaxKind.CommaToken) isParametersRecoveryToken true
        (Some (Diagnostics._0_expected [SyntaxKind.CommaToken; SyntaxKind.CloseParenToken]))
  | ParsingContext.BracketedParameters =>
      ListPolicy.mk allWhitespace isStartOfParameter
        (Some (fun token => token =k SyntaxKind.CloseBracketToken)) false
        (Some SyntaxKind.CommaToken) isBracketedParametersRecoveryToken true
        (Some (Diagnostics._0_expected [SyntaxKind.CommaToken; SyntaxKind.CloseBracketToken]))
  | ParsingContext.Arguments_ =>
      ListPolicy.mk allWhitespace isStartOfArgument
        (Some (fun token => token =k SyntaxKind.CloseParenToken)) false
        (Some SyntaxKind.CommaToken) isArgumentsRecoveryToken true
        (Some (Diagnostics._0_expected [SyntaxKind.CommaToken; SyntaxKind.CloseParenToken]))
  | ParsingContext.BracketedArguments =>
      ListPolicy.mk allWhitespace isStartOfArgument
        (Some (fun token => token =k SyntaxKind.CloseBracketToken)) false
        (Some SyntaxKind.CommaToken) isBracketedArgumentsRecoveryToken true
        (Some (Diagnostics._0_expected [SyntaxKind.CommaToken; SyntaxKind.CloseBracketToken]))
  | ParsingContext.RightHandSideListIndented =>
      ListPolicy.mk lineTerminators isStartOfRightHandSide
        (Some (fun token =>
                 (token =k SyntaxKind.DedentToken) || (token =k SyntaxKind.EndOfFileToken)))
        false
        (Some SyntaxKind.LineTerminatorToken) isRightHandSideListIndentedRecoveryToken false
        (Some Diagnostics.Production_expected)
  | ParsingContext.SymbolSet =>
      ListPolicy.mk allWhitespace symbolStart
        (Some (fun token => token =k SyntaxKind.CloseBraceToken)) false
        (Some SyntaxKind.CommaToken) isSymbolSetRecoveryToken true
        (Some (Diagnostics._0_expected [SyntaxKind.CommaToken; SyntaxKind.CloseBraceToken]))
  | ParsingContext.OneOfList =>
      ListPolicy.mk SkipWhitespace.None_ terminalStart
        (Some (fun token =>
                 (token =k SyntaxKind.DedentToken) || (token =k SyntaxKind.LineTerminatorToken)
                 || (token =k SyntaxKind.EndOfFileToken)))
        true
        None isOneOfListRecoveryToken false
        (Some (Diagnostics._0_expected [SyntaxKind.Terminal; SyntaxKind.LineTerminatorToken]))
  | ParsingContext.OneOfListIndented =>
      ListPolicy.mk lineTerminators terminalStart
        (Some (fun token =>
                 (token =k SyntaxKind.DedentToken) || (token =k SyntaxKind.EndOfFileToken)))
        false
        None isOneOfListIndentedRecoveryToken true
        (Some (Diagnostics._0_expected [SyntaxKind.Terminal; SyntaxKind.DedentToken]))
  | ParsingContext.OneOfSymbolList =>
      ListPolicy.mk SkipWhitespace.None_ symbolStart
        None true
        (Some SyntaxKind.OrKeyword) isOneOfSymbolListRecoveryToken false
        None
  | ParsingContext.NoSymbolHere =>
      ListPolicy.mk SkipWhitespace.None_ symbolStart
        None false
        (Some SyntaxKind.OrKeyword) isNoSymbolHereRecoveryToken false
        None
  end.

(** *** The loop of [parseList], told by the policy

    The steps of one iteration in the words of the specification, driven by
    the policy of the list's context instead of the parser's current
    context. *)
Definition elementStarts (policy : ListPolicy) : P bool :=
  gets (fun p => ListPolicy.startsElement policy (Parser.token p)).

Definition skipToRecovery (policy : ListPolicy) : P unit :=
  if ListPolicy.recoverySkipsLineTerminator policy
  then skipUntil (ListPolicy.recoveryToken policy) ;; skipLineTerminator
  else skipUntil (ListPolicy.recoveryToken policy).

Definition matchCloseToken (policy : ListPolicy) : P bool :=
  match ListPolicy.closeToken policy with
  | Some isCloseToken =>
      if ListPolicy.consumesCloseToken policy then
        let* on := gets (fun p => isCloseToken (Parser.token p)) in
        if on then nextToken ;; ret true else ret false
      else gets (fun p => isCloseToken (Parser.token p))
  | None => ret false
  end.

Definition matchSeparator (separator : SyntaxKind) : P bool :=
  let* on := gets (fun p => Parser.token p =k separator) in
  if on then nextToken ;; ret true else ret false.

Definition reportExpected (policy : ListPolicy) : P unit :=
  let* pos := getTokenPos in
  match ListPolicy.expected policy with
  | Some message => report pos message
  | None => ret tt
  end.

(** The part of an iteration up to the close token; [rest] is what happens
    when the close token is not matched. *)
Definition iteration_upto_close (policy : ListPolicy)
    (rest : bool -> option (list Node) -> P (option (list Node) * bool))
    (parseElement : P (option Node)) (result : option (list Node))
  : P (option (list Node) * bool) :=
  let* ct := gets Parser.cancellationToken in
  throwIfCancellationRequested ct ;;
  skipWhitespace (ListPolicy.insignificant policy) ;;
  let* starts := elementStarts policy in
  let* (parsed, result) :=
    if starts then
      let* element := parseElement in
      match element with
      | Some element => ret (true, Some (default [] result ++ [element]))
      | None => skipToRecovery policy ;; ret (true, Some (default [] result))
      end
    else ret (false, result) in
  let* closed := matchCloseToken policy in
  if closed then ret (result, false) else rest parsed result.

(** What the parser does after an unmatched close token: the loop goes on
    after a separator, or after an element where the context has no
    separator; otherwise a context without close token ends the list
    silently, and a context with one reports what it expected and skips to
    its recovery tokens. *)
Definition rest_by_policy (policy : ListPolicy) (parsed : bool) (result : option (list Node))
  : P (option (list Node) * bool) :=
  let* separated :=
    match ListPolicy.separator policy with
    | Some separator => matchSeparator separator
    | None => ret parsed
    end in
  if separated then ret (result, true)
  else
    match ListPolicy.closeToken policy with
    | None => ret (result, false)
    | Some _ => reportExpected policy ;; skipToRecovery policy ;; ret (result, true)
    end.

(** The same step as the specification tells it: when neither an element,
    a separator nor a close token matched, report and skip to a recovery
    token; the loop goes on in every case. *)
Definition rest_as_claimed (policy : ListPolicy) (parsed : bool) (result : option (list Node))
  : P (option (list Node) * bool) :=
  let* separated :=
    match ListPolicy.separator policy with
    | Some separator => matchSeparator separator
    | None => ret false
    end in
  if parsed || separated then ret (result, true)
  else reportExpected policy ;; skipToRecovery policy ;; ret (result, true).

Definition iteration_by_policy (policy : ListPolicy) :=
  iteration_upto_close policy (rest_by_policy policy).

Definition iteration_as_claimed (policy : ListPolicy) :=
  iteration_upto_close policy (rest_as_claimed policy).

Fixpoint loop_by_policy (fuel : nat) (policy : ListPolicy) (parseElement : P (option Node))
    (result : option (list Node)) : P (option (list Node)) :=
  let* eof := isEOF in
  if eof then ret result
  else
    match fuel with
    | 0 => throw OutOfFuel
    | S fuel' =>
        let* (result, continue) := iteration_by_policy policy parseElement result in
        if continue then loop_by_policy fuel' policy parseElement result
        else ret result
    end.

Definition parseList_by_policy (fuel : nat) (policy : ListPolicy)
    (parseElement : P (option Node)) (listContext : ParsingContext)
    (result : option (list Node)) : P (option (list Node)) :=
  let* saveContext := gets Parser.parsingContext in
  modify (Parser.set_parsingContext listContext) ;;
  let* result := loop_by_policy fuel policy parseElement result in
  modify (Parser.set_parsingContext saveContext) ;;
  ret result.

(** Two computations do the same in every state whose parsing context is
    [context]. *)
Definition agree {A} (context : ParsingContext) (m m' : P A) : Prop :=
  forall p, Parser.parsingContext p = context -> m p = m' p.

(** The parser in the list of a one-of symbol, at the colon of
    "A :: one of B or : C". *)
Definition atColonInOneOfSymbolList : Parser :=
  Parser.set_parsingContext ParsingContext.OneOfSymbolList
    ((startParse sampleLexer "a.grammar" "A :: one of B or : C" ;;
      nextToken ;; nextToken ;; nextToken ;; nextToken ;; nextToken ;; nextToken)
       (Parser.new ∅)).2.

(** The seven fields the clean-up block assigns. *)
Definition savedFields (p : Parser) :=
  (Parser.imports p, Parser.diagnostics p, Parser.cancellationToken p, Parser.scanner p,
   Parser.parsingContext p, Parser.tags p, Parser.tagsOffset p).

(** * Further specification-level notions *)

(** What the trivia functions leave of a node: everything but the trivia
    of the node and of its children. *)
Definition sameShape (n n' : Node) : Prop :=
  Node.id n' = Node.id n /\ Node.kind n' = Node.kind n /\
  Node.pos n' = Node.pos n /\ Node.end_ n' = Node.end_ n /\
  Node.text n' = Node.text n /\ length (Node.children n') = length (Node.children n).

(** Every sink holds what it held, possibly followed by further messages. *)
Definition sinksGrow (p p' : Parser) : Prop :=
  forall ref messages,
    Parser.sinks p !! ref = Some messages ->
    exists more, Parser.sinks p' !! ref = Some (messages ++ more).

(** ** Markup trivia *)

(** Some tag of the array is directly followed by its close tag. *)
Fixpoint hasMatchedPair (l : list HtmlTrivia) : bool :=
  match l with
  | a :: ((b :: _) as tl) => matched a b || hasMatchedPair tl
  | _ => false
  end.

(** The array without its last tag and without the tags that are directly
    followed by their close tag. *)
Fixpoint unmatchedHeads (l : list HtmlTrivia) : list HtmlTrivia :=
  match l with
  | a :: ((b :: _) as tl) => if matched a b then unmatchedHeads tl else a :: unmatchedHeads tl
  | _ => []
  end.

Definition leadingOf (n : Node) : list HtmlTrivia := default [] (Node.leadingHtmlTrivia n).
Definition trailingOf (n : Node) : list HtmlTrivia := default [] (Node.trailingHtmlTrivia n).

Definition isOpenTag (tag : HtmlTrivia) : Prop :=
  HtmlTrivia.kind tag = SyntaxKind.HtmlOpenTagTrivia.
Definition isCloseTag (tag : HtmlTrivia) : Prop :=
  HtmlTrivia.kind tag = SyntaxKind.HtmlCloseTagTrivia.

Definition sampleOpen : HtmlTrivia := HtmlTrivia.mk SyntaxKind.HtmlOpenTagTrivia "ins" 0 5.
Definition sampleClose : HtmlTrivia := HtmlTrivia.mk SyntaxKind.HtmlCloseTagTrivia "ins" 5 11.
Definition sampleOther : HtmlTrivia := HtmlTrivia.mk SyntaxKind.HtmlOpenTagTrivia "del" 11 16.

(** ** The order of positions *)

Definition notAfter (p q : Position) : Prop := (Position.compare p q <= 0)%Z.
Definition strictlyBefore (p q : Position) : Prop := Position.compare p q = (-1)%Z.

(** ** Sorted arrays *)

Definition sortedAscending (array : list Z) : Prop :=
  forall i j x y, i < j -> array !! i = Some x -> array !! j = Some y -> (x <= y)%Z.

(** * Properties of the symbol tables *)

Section SymbolTableFacts.
Implicit Types (t : SymbolTable) (h : SymbolHeap) (k : SymbolKind) (n : string).

Lemma resolveSymbol_entry n k t :
  SymbolTable.resolveSymbol n k t = if truthy n then entry k n t else None.
Proof.
  unfold SymbolTable.resolveSymbol, entry, SymbolTable.getSymbols.
  destruct (truthy n); [|done].
  destruct t as [[nm|]]; simpl; [|done].
  destruct (nm !! k); done.
Qed.

Lemma entry_getSymbols k k' n' create t :
  entry k' n' (SymbolTable.getSymbols k create t).2 = entry k' n' t.
Proof.
  unfold SymbolTable.getSymbols, entry.
  destruct t as [[nm|]]; simpl.
  - destruct (nm !! k) eqn:E; simpl; [done|].
    destruct create; simpl; [|done].
    destruct (decide (k = k')) as [->|Hne].
    + rewrite lookup_insert_eq, E. done.
    + rewrite lookup_insert_ne by done. done.
  - destruct create; simpl; [|done].
    destruct (decide (k = k')) as [->|Hne].
    + rewrite lookup_singleton_eq. done.
    + rewrite lookup_singleton_ne by done. done.
Qed.

Lemma getSymbols_lookup k n t :
  default ∅ (SymbolTable.getSymbols k true t).1 !! n = entry k n t.
Proof.
  unfold SymbolTable.getSymbols, entry.
  destruct t as [[nm|]]; simpl; [|done].
  destruct (nm !! k) eqn:E; simpl; done.
Qed.

Lemma getSymbols_create_nameMap k t :
  is_Some (SymbolTable.nameMap (SymbolTable.getSymbols k true t).2).
Proof.
  unfold SymbolTable.getSymbols. destruct t as [[nm|]]; simpl; [|eauto].
  destruct (nm !! k); simpl; eauto.
Qed.

Lemma entry_setSymbol k n s k' n' t :
  is_Some (SymbolTable.nameMap t) ->
  entry k' n' (SymbolTable.setSymbol k n s t) =
  if decide (k = k' /\ n = n') then Some s else entry k' n' t.
Proof.
  intros [nm Hnm]. unfold SymbolTable.setSymbol, entry. rewrite Hnm. simpl.
  destruct (decide (k = k')) as [->|Hk].
  - rewrite lookup_insert_eq. simpl.
    destruct (decide (n = n')) as [->|Hn].
    + rewrite lookup_insert_eq. rewrite decide_True by done. done.
    + rewrite lookup_insert_ne by done. rewrite decide_False by tauto.
      destruct (nm !! k'); done.
  - rewrite lookup_insert_ne by done. rewrite decide_False by tauto. done.
Qed.

(** What [declareSymbol] does for a usable name ... *)
Lemma declareSymbol_named n k p t h :
  truthy n = true ->
  SymbolTable.declareSymbol (Some n) k p t h =
  match entry k n t with
  | Some s => (s, (SymbolTable.getSymbols k true t).2, set_parent s p h)
  | None =>
      let s := S (nextSymbolId h) in
      (s, SymbolTable.setSymbol k n s (SymbolTable.getSymbols k true t).2,
       set_parent s p (new_Symbol k n h).2)
  end.
Proof.
  intros Hn. unfold SymbolTable.declareSymbol. rewrite Hn.
  destruct (SymbolTable.getSymbols k true t) as [symbols t1] eqn:E.
  replace symbols with (SymbolTable.getSymbols k true t).1 by (rewrite E; done).
  rewrite getSymbols_lookup.
  destruct (entry k n t); simpl; done.
Qed.

(** ... and for a missing one. *)
Lemma declareSymbol_unnamed name k p t h :
  truthy_opt name = false ->
  SymbolTable.declareSymbol name k p t h =
  (S (nextSymbolId h), t, set_parent (S (nextSymbolId h)) p (new_Symbol k "*missing*" h).2).
Proof.
  intros Hn. unfold SymbolTable.declareSymbol.
  destruct name as [n|]; simpl in *; [rewrite Hn|]; done.
Qed.

Lemma declareSymbol_entry name k p t h k' n' :
  entry k' n' (SymbolTable.declareSymbol name k p t h).1.2 =
  match entry k' n' t with
  | Some s => Some s
  | None =>
      if decide (truthy_opt name = true /\ k = k' /\ name = Some n')
      then Some (S (nextSymbolId h)) else None
  end.
Proof.
  destruct (truthy_opt name) eqn:Hn.
  - destruct name as [n|]; [|done]. simpl in Hn.
    rewrite declareSymbol_named by done.
    destruct (entry k n t) as [s|] eqn:E; simpl.
    + rewrite entry_getSymbols.
      destruct (entry k' n' t) eqn:E'; [done|].
      case_decide as Hd; [|done]. destruct Hd as (_ & -> & [= ->]). congruence.
    + rewrite entry_setSymbol by apply getSymbols_create_nameMap.
      rewrite entry_getSymbols.
      destruct (decide (k = k' /\ n = n')) as [[-> ->]|Hne].
      * rewrite E. case_decide as Hd; [done|]. tauto.
      * destruct (entry k' n' t); [done|].
        case_decide as Hd; [|done]. destruct Hd as (_ & -> & [= ->]). tauto.
  - rewrite declareSymbol_unnamed by done. simpl.
    destruct (entry k' n' t); done.
Qed.

Lemma declareSymbol_counter name k p t h :
  nextSymbolId h <= nextSymbolId (SymbolTable.declareSymbol name k p t h).2.
Proof.
  destruct (truthy_opt name) eqn:Hn.
  - destruct name as [n|]; [|done]. simpl in Hn.
    rewrite declareSymbol_named by done.
    destruct (entry k n t); simpl; lia.
  - rewrite declareSymbol_unnamed by done. simpl. lia.
Qed.

Lemma entry_copyFrom k n other t :
  entry k n (SymbolTable.copyFrom other t) =
  match entry k n other with Some s => Some s | None => entry k n t end.
Proof.
  unfold SymbolTable.copyFrom, entry.
  destruct other as [[onm|]]; simpl; [|done].
  apply (map_fold_weak_ind (fun r m =>
    (r ≫= fun nm => nm !! k ≫= (.!! n)) =
    match m !! k ≫= (.!! n) with
    | Some s => Some s
    | None => SymbolTable.nameMap t ≫= fun nm => nm !! k ≫= (.!! n)
    end)).
  - rewrite lookup_empty. done.
  - intros i x m r Hi IH. cbv zeta. simpl.
    destruct (decide (i = k)) as [->|Hne].
    + rewrite !lookup_insert_eq. simpl. rewrite lookup_union.
      rewrite Hi in IH. simpl in IH.
      destruct (x !! n) eqn:Ex; simpl.
      * destruct (default ∅ (default ∅ r !! k) !! n); done.
      * rewrite (left_id_L None _). rewrite <- IH.
        destruct r as [nm|]; simpl; [destruct (nm !! k); done|done].
    + rewrite !lookup_insert_ne by done.
      rewrite <- IH. destruct r as [nm|]; simpl; [done|]. rewrite lookup_empty. done.
Qed.

End SymbolTableFacts.

Section AnonymousSymbols.
Implicit Types (t : SymbolTable) (h : SymbolHeap) (ts : list SymbolTable).

Lemma unlisted_step s w op : unlisted s w -> unlisted s (runTableOp w op).
Proof.
  destruct w as [ts h]. intros [Hts Hs]. unfold unlisted. simpl in *.
  destruct op as [i name kind parent|i j|]; simpl.
  - destruct (ts !! i) as [t|] eqn:Ei; [|by split].
    pose proof (declareSymbol_counter name kind parent t h) as Hc.
    pose proof (fun k n => declareSymbol_entry name kind parent t h k n) as He.
    destruct (SymbolTable.declareSymbol name kind parent t h) as [[s' t'] h'].
    simpl in *. split; [|lia].
    apply Forall_insert; [done|].
    intros (k & n & Hm). rewrite He in Hm.
    pose proof (Forall_lookup_1 _ _ _ _ Hts Ei) as Ht. simpl in Ht.
    destruct (entry k n t) eqn:E.
    + apply Ht. exists k, n. congruence.
    + case_decide; [|done]. injection Hm as <-. lia.
  - destruct (ts !! i) as [t|] eqn:Ei; [|by split].
    destruct (ts !! j) as [o|] eqn:Ej; [|by split].
    simpl. split; [|done].
    apply Forall_insert; [done|].
    intros (k & n & Hm). rewrite entry_copyFrom in Hm.
    destruct (entry k n o) eqn:E.
    + eapply (Forall_lookup_1 _ _ _ _ Hts Ej). exists k, n. congruence.
    + eapply (Forall_lookup_1 _ _ _ _ Hts Ei). exists k, n. done.
  - split; [|done]. apply Forall_app. split; [done|].
    apply Forall_singleton. intros (k & n & Hm). done.
Qed.

Lemma unlisted_run s ops w : unlisted s w -> unlisted s (runTableOps ops w).
Proof.
  revert w. induction ops as [|op ops IH]; intros w Hw; [done|].
  simpl. apply IH, unlisted_step, Hw.
Qed.

End AnonymousSymbols.

(** C10.  [declareSymbol] with an undefined or empty name returns a fresh
    symbol named "*missing*" whose id is new, and leaves the table as it
    was.  In any family of tables built by the module, whatever is declared
    or copied afterwards, no table resolves any name to that symbol, and no
    later anonymous declaration returns it again. *)
Theorem declareSymbol_missing_name
    (ts : list SymbolTable) (h : SymbolHeap) (i : nat) (t : SymbolTable)
    (name : option string) (kind : SymbolKind) (parent : option nat) :
  heap_wf h ->
  Forall (table_allocated h) ts ->
  ts !! i = Some t ->
  truthy_opt name = false ->
  let r := SymbolTable.declareSymbol name kind parent t h in
  let s := r.1.1 in
  r.1.2 = t /\
  s = S (nextSymbolId h) /\
  symbolObjects h !! s = None /\
  symbolObjects r.2 !! s = Some (Symbol.mk s "*missing*" kind parent) /\
  forall ops,
    let w := runTableOps ops (ts, r.2) in
    (forall j tj n k, w.1 !! j = Some tj -> SymbolTable.resolveSymbol n k tj <> Some s) /\
    (forall name' kind' parent' t',
        truthy_opt name' = false ->
        (SymbolTable.declareSymbol name' kind' parent' t' w.2).1.1 <> s).
Proof.
  intros Hh Hts Hi Hname. rewrite declareSymbol_unnamed by done. simpl.
  split; [done|]. split; [done|]. split.
  { destruct (symbolObjects h !! S (nextSymbolId h)) eqn:E; [|done].
    specialize (Hh (S (nextSymbolId h))). rewrite E in Hh.
    specialize (Hh (mk_is_Some _ _ eq_refl)). lia. }
  split.
  { unfold set_parent. simpl. rewrite lookup_alter_eq, lookup_insert_eq. done. }
  intros ops.
  set (h' := set_parent _ _ _).
  assert (Hun : unlisted (S (nextSymbolId h)) (ts, h')).
  { split; simpl; [|lia].
    eapply Forall_impl; [exact Hts|]. intros t0 Ht0 Hm. apply Ht0 in Hm. lia. }
  apply (unlisted_run _ ops) in Hun. destruct Hun as [Hts' Hc]. split.
  - intros j tj n k Hj Hr. rewrite resolveSymbol_entry in Hr.
    destruct (truthy n); [|done].
    eapply (Forall_lookup_1 _ _ _ _ Hts' Hj). exists k, n. done.
  - intros name' kind' parent' t' Hn'. rewrite declareSymbol_unnamed by done.
    simpl. lia.
Qed.

Lemma declareSymbol_missing_name_witness :
  let r := SymbolTable.declareSymbol None SymbolKind.Production None SymbolTable.new initialSymbolHeap in
  r.1.2 = SymbolTable.new /\ r.1.1 = 1.
Proof.
  pose proof (declareSymbol_missing_name [SymbolTable.new] initialSymbolHeap 0 SymbolTable.new
                None SymbolKind.Production None) as H.
  simpl in H. destruct H as (H1 & H2 & _).
  - intros i [x Hx]. unfold initialSymbolHeap in Hx. simpl in Hx.
    rewrite lookup_empty in Hx. done.
  - apply Forall_singleton. intros s (k & n & Hm). done.
  - reflexivity.
  - reflexivity.
  - split; [exact H1 | exact H2].
Defined.

(** * Properties of the binding table *)

Section BindingTableFacts.
Implicit Types (bt : BindingTable) (s : nat) (n : Node).

Lemma getReferences_setParent node parent bt s :
  BindingTable.getReferences (Some s) (BindingTable.setParent node parent bt) =
  BindingTable.getReferences (Some s) bt.
Proof. destruct node, parent; done. Qed.

Lemma getDeclarations_setParent node parent bt s :
  BindingTable.getDeclarations (Some s) (BindingTable.setParent node parent bt) =
  BindingTable.getDeclarations (Some s) bt.
Proof. destruct node, parent; done. Qed.

Lemma getReferences_addReference s n bt s' :
  BindingTable.getReferences (Some s') (BindingTable.addReferenceToSymbol s n bt) =
  if decide (s = s') then
    let old := BindingTable.getReferences (Some s) bt in
    if BindingTable.indexOf_is_minus1 n old then old ++ [n] else old
  else BindingTable.getReferences (Some s') bt.
Proof.
  unfold BindingTable.getReferences, BindingTable.addReferenceToSymbol. simpl.
  destruct (decide (s = s')) as [->|Hne].
  - rewrite lookup_insert_eq. simpl.
    destruct (BindingTable.symbolReferences bt); simpl; [done|].
    rewrite lookup_empty. done.
  - rewrite lookup_insert_ne by done.
    destruct (BindingTable.symbolReferences bt); simpl; [done|].
    rewrite lookup_empty. done.
Qed.

Lemma indexOf_is_minus1_spec n (l : list Node) :
  BindingTable.indexOf_is_minus1 n l = true <-> Node.id n ∉ Node.id <$> l.
Proof.
  unfold BindingTable.indexOf_is_minus1. rewrite negb_true_iff.
  induction l as [|x l IH]; simpl.
  - split; [intros _; apply not_elem_of_nil | done].
  - rewrite orb_false_iff, IH, not_elem_of_cons.
    unfold Node.same. rewrite Nat.eqb_neq. tauto.
Qed.

Lemma NoDup_addReference s n bt s' :
  NoDup (Node.id <$> BindingTable.getReferences (Some s') bt) ->
  NoDup (Node.id <$> BindingTable.getReferences (Some s) bt) ->
  NoDup (Node.id <$> BindingTable.getReferences (Some s')
                       (BindingTable.addReferenceToSymbol s n bt)).
Proof.
  intros Hs' Hs. rewrite getReferences_addReference.
  case_decide; [|done]. simpl.
  destruct (BindingTable.indexOf_is_minus1 n _) eqn:E; [|done].
  apply indexOf_is_minus1_spec in E.
  rewrite fmap_app. apply NoDup_app. split; [done|]. split.
  - intros x Hx Hx'. apply list_elem_of_singleton in Hx'. by subst.
  - apply NoDup_singleton.
Qed.

Lemma getDeclarations_addReference s n bt s' :
  BindingTable.getDeclarations (Some s') (BindingTable.addReferenceToSymbol s n bt) =
  BindingTable.getDeclarations (Some s') bt.
Proof. done. Qed.

Lemma getDeclarations_addDeclaration s n bt s' :
  BindingTable.getDeclarations (Some s')
    (BindingTable.addDeclarationToSymbol (Some s) (Some n) bt) =
  BindingTable.getDeclarations (Some s') bt ++ (if Nat.eqb s' s then [n] else []).
Proof.
  unfold BindingTable.addDeclarationToSymbol.
  set (bt1 := BindingTable.mk _ _ _ _ _ _).
  assert (H1 : BindingTable.getDeclarations (Some s') bt1 =
               BindingTable.getDeclarations (Some s') bt ++ (if Nat.eqb s' s then [n] else [])).
  { unfold BindingTable.getDeclarations, bt1. simpl.
    destruct (Nat.eqb_spec s' s) as [->|Hne].
    - rewrite lookup_insert_eq. simpl.
      destruct (BindingTable.symbolDeclarations bt); simpl; [done|].
      rewrite lookup_empty. done.
    - rewrite lookup_insert_ne by done. rewrite app_nil_r.
      destruct (BindingTable.symbolDeclarations bt); simpl; [done|].
      rewrite lookup_empty. done. }
  destruct (negb _); [destruct (Node.name n)|]; exact H1.
Qed.

Lemma NoDup_addDeclaration symbol node bt s' :
  (forall s, NoDup (Node.id <$> BindingTable.getReferences (Some s) bt)) ->
  NoDup (Node.id <$> BindingTable.getReferences (Some s')
                       (BindingTable.addDeclarationToSymbol symbol node bt)).
Proof.
  intros H. destruct symbol as [s|], node as [n|]; try apply H.
  unfold BindingTable.addDeclarationToSymbol.
  destruct (negb _); [destruct (Node.name n)|]; try apply H.
  apply NoDup_addReference; apply H.
Qed.

Lemma NoDup_step op bt :
  (forall s, NoDup (Node.id <$> BindingTable.getReferences (Some s) bt)) ->
  forall s, NoDup (Node.id <$> BindingTable.getReferences (Some s) (runBindingOp bt op)).
Proof.
  intros H s. destruct op as [node parent|node symbol|symbol node|c|r t];
    unfold runBindingOp.
  - rewrite getReferences_setParent. apply H.
  - destruct node as [n|], symbol as [s0|]; try apply H.
    unfold BindingTable.setSymbol.
    apply NoDup_addReference; apply H.
  - apply NoDup_addDeclaration, H.
  - unfold BindingTable.getScope. destruct (_ !! c); apply H.
  - destruct r; apply H.
Qed.

Lemma getDeclarations_step op bt s :
  BindingTable.getDeclarations (Some s) (runBindingOp bt op) =
  BindingTable.getDeclarations (Some s) bt ++ declarationSites s [op].
Proof.
  destruct op as [node parent|node symbol|symbol node|c|r t];
    unfold runBindingOp, declarationSites, flat_map; rewrite ?app_nil_r.
  - apply getDeclarations_setParent.
  - destruct node, symbol; done.
  - destruct symbol as [s0|], node as [n|]; rewrite ?app_nil_r; try done.
    rewrite getDeclarations_addDeclaration.
    destruct (Nat.eqb s s0); simpl; done.
  - unfold BindingTable.getScope. destruct (_ !! c); done.
  - destruct r; done.
Qed.

End BindingTableFacts.

(** C9.  After any sequence of operations on a fresh binding table: a node
    has one owning symbol, the one set last; no symbol lists a node twice
    among its references; and the declarations of a symbol are exactly its
    declaration sites in order, one entry per site, repeated sites
    included. *)
Theorem binding_table_invariants (ops : list BindingOp) :
  let bt := runBindingOps ops BindingTable.new in
  (forall node s1 s2,
      BindingTable.getSymbol node bt = Some s1 ->
      BindingTable.getSymbol node bt = Some s2 -> s1 = s2) /\
  (forall n s, BindingTable.getSymbol (Some n)
                 (BindingTable.setSymbol (Some n) (Some s) bt) = Some s) /\
  (forall s, NoDup (Node.id <$> BindingTable.getReferences (Some s) bt)) /\
  (forall s, BindingTable.getDeclarations (Some s) bt = declarationSites s ops) /\
  (forall s n, BindingTable.getDeclarations (Some s)
                 (BindingTable.addDeclarationToSymbol (Some s) (Some n) bt) =
               BindingTable.getDeclarations (Some s) bt ++ [n]).
Proof.
  cbv zeta. split; [congruence|]. split.
  { intros n s. unfold BindingTable.getSymbol. simpl. apply lookup_insert_eq. }
  assert (Hgen : forall bt,
    (forall s, NoDup (Node.id <$> BindingTable.getReferences (Some s) bt)) ->
    (forall s, NoDup (Node.id <$> BindingTable.getReferences (Some s) (runBindingOps ops bt))) /\
    (forall s, BindingTable.getDeclarations (Some s) (runBindingOps ops bt) =
               BindingTable.getDeclarations (Some s) bt ++ declarationSites s ops)).
  { induction ops as [|op ops IH]; intros bt H.
    - split; [done|]. intros s. simpl. by rewrite app_nil_r.
    - destruct (IH (runBindingOp bt op) (NoDup_step op bt H)) as [IH1 IH2].
      change (runBindingOps (op :: ops) bt) with (runBindingOps ops (runBindingOp bt op)).
      split; [done|]. intros s. rewrite IH2, getDeclarations_step.
      rewrite <- app_assoc. f_equal.
      unfold declarationSites. simpl. by rewrite app_nil_r. }
  destruct (Hgen BindingTable.new) as [H1 H2].
  { intros s. simpl. apply NoDup_nil_2. }
  split; [done|]. split; [done|].
  intros s n. rewrite getDeclarations_addDeclaration. by rewrite Nat.eqb_refl.
Qed.

(** * Properties of the binder *)

Section BinderFacts.
Implicit Types (b : Binder) (bt : BindingTable).

Lemma readScope_writeScope r table bt :
  BindingTable.readScope r (BindingTable.writeScope r table bt) = Some table.
Proof.
  destruct r as [|i]; simpl; [done|]. apply lookup_insert_eq.
Qed.

Lemma readScope_addDeclaration r symbol node bt :
  BindingTable.readScope r (BindingTable.addDeclarationToSymbol symbol node bt) =
  BindingTable.readScope r bt.
Proof.
  destruct symbol as [s|], node as [n|]; try done.
  unfold BindingTable.addDeclarationToSymbol.
  destruct (negb _); [destruct (Node.name n)|]; destruct r; done.
Qed.

Lemma getDeclarations_writeScope r table bt s :
  BindingTable.getDeclarations s (BindingTable.writeScope r table bt) =
  BindingTable.getDeclarations s bt.
Proof. destruct r; done. Qed.

Lemma Binder_declareSymbol_eq name declaration kind b table :
  BindingTable.readScope (Binder.scope b) (Binder.bindings b) = Some table ->
  Binder.declareSymbol name declaration kind b =
  let r := SymbolTable.declareSymbol name kind (Binder.parentSymbol b) table (Binder.symbolHeap b) in
  (Ok r.1.1,
   Binder.mk (Binder.parentNode b) (Binder.parentSymbol b)
     (BindingTable.addDeclarationToSymbol (Some r.1.1) (Some declaration)
        (BindingTable.writeScope (Binder.scope b) r.1.2 (Binder.bindings b)))
     (Binder.scope b) (Binder.cancellationToken b) r.2 (Binder.polls b)).
Proof.
  intros H. unfold Binder.declareSymbol. rewrite H.
  destruct (SymbolTable.declareSymbol _ _ _ _ _) as [[s t'] h']. done.
Qed.

End BinderFacts.

(** C4, as the code has it.  In any scope, for a non-empty name that the
    scope does not yet resolve, two production declarations return the same
    symbol; the second creates no symbol and leaves the symbol's [id] as it
    was; afterwards the declarations of the symbol are the two declaration
    sites. *)
Theorem production_declared_twice
    (b : Binder) (name : string) (n1 n2 : Node) (table : SymbolTable) :
  truthy name = true ->
  BindingTable.readScope (Binder.scope b) (Binder.bindings b) = Some table ->
  SymbolTable.resolveSymbol name SymbolKind.Production table = None ->
  declarations_allocated b ->
  exists s b1 b2,
    Binder.declareSymbol (Some name) n1 SymbolKind.Production b = (Ok s, b1) /\
    Binder.declareSymbol (Some name) n2 SymbolKind.Production b1 = (Ok s, b2) /\
    Binder.scopeResolves name SymbolKind.Production b2 = Some s /\
    Symbol.id <$> symbolObjects (Binder.symbolHeap b1) !! s = Some s /\
    Symbol.id <$> symbolObjects (Binder.symbolHeap b2) !! s = Some s /\
    nextSymbolId (Binder.symbolHeap b2) = nextSymbolId (Binder.symbolHeap b1) /\
    BindingTable.getDeclarations (Some s) (Binder.bindings b2) = [n1; n2].
Proof.
  intros Hname Hscope Hfresh Halloc.
  rewrite resolveSymbol_entry, Hname in Hfresh.
  set (s := S (nextSymbolId (Binder.symbolHeap b))).
  pose proof (Binder_declareSymbol_eq (Some name) n1 SymbolKind.Production b table Hscope) as E1.
  rewrite declareSymbol_named in E1 by done. rewrite Hfresh in E1. cbv zeta in E1. cbn [fst snd] in E1.
  fold s in E1.
  set (t1 := SymbolTable.setSymbol _ _ _ _) in E1.
  set (b1 := Binder.mk _ _ _ _ _ _ _) in E1.
  assert (Hscope1 : BindingTable.readScope (Binder.scope b1) (Binder.bindings b1) = Some t1).
  { unfold b1; cbn [Binder.scope Binder.bindings Binder.symbolHeap]. rewrite readScope_addDeclaration. apply readScope_writeScope. }
  assert (Hentry1 : entry SymbolKind.Production name t1 = Some s).
  { unfold t1. rewrite entry_setSymbol by apply getSymbols_create_nameMap.
    rewrite decide_True by done. done. }
  pose proof (Binder_declareSymbol_eq (Some name) n2 SymbolKind.Production b1 t1 Hscope1) as E2.
  rewrite declareSymbol_named in E2 by done. rewrite Hentry1 in E2. cbv zeta in E2. cbn [fst snd] in E2.
  set (b2 := Binder.mk _ _ _ _ _ _ _) in E2.
  exists s, b1, b2. split; [exact E1|]. split; [exact E2|]. split.
  { unfold Binder.scopeResolves, b2; cbn [Binder.scope Binder.bindings Binder.symbolHeap].
    rewrite readScope_addDeclaration, readScope_writeScope.
    cbn [mbind option_bind].
    rewrite resolveSymbol_entry, Hname, entry_getSymbols. exact Hentry1. }
  split.
  { unfold b1, set_parent. simpl. rewrite lookup_alter_eq, lookup_insert_eq. done. }
  split.
  { unfold b2, b1, set_parent. simpl.
    rewrite !lookup_alter_eq, lookup_insert_eq. done. }
  split; [done|].
  unfold b2; cbn [Binder.scope Binder.bindings Binder.symbolHeap]. rewrite getDeclarations_addDeclaration, Nat.eqb_refl.
  rewrite getDeclarations_writeScope.
  unfold b1; cbn [Binder.scope Binder.bindings Binder.symbolHeap]. rewrite getDeclarations_addDeclaration, Nat.eqb_refl.
  rewrite getDeclarations_writeScope.
  rewrite (Halloc s) by (unfold s; lia). done.
Qed.

Lemma production_declared_twice_witness :
  exists s b1 b2,
    Binder.declareSymbol (Some "A") (production 1 (identifier 2 (Some "A")))
      SymbolKind.Production freshBinder = (Ok s, b1) /\
    Binder.declareSymbol (Some "A") (production 3 (identifier 4 (Some "A")))
      SymbolKind.Production b1 = (Ok s, b2) /\
    BindingTable.getDeclarations (Some s) (Binder.bindings b2) =
      [production 1 (identifier 2 (Some "A")); production 3 (identifier 4 (Some "A"))].
Proof.
  destruct (production_declared_twice freshBinder "A"
              (production 1 (identifier 2 (Some "A")))
              (production 3 (identifier 4 (Some "A"))) SymbolTable.new)
    as (s & b1 & b2 & H1 & H2 & _ & _ & _ & _ & H3).
  - reflexivity.
  - reflexivity.
  - reflexivity.
  - intros i _. reflexivity.
  - exists s, b1, b2. split; [exact H1|]. split; [exact H2|exact H3].
Defined.

(** C4 as stated fails for a missing name: with an empty or undefined name
    the two declarations get two different symbols, each with a single
    declaration. *)
Lemma production_declared_twice_unnamed :
  let p1 := production 1 (identifier 2 (Some EmptyString)) in
  let p2 := production 3 (identifier 4 (Some EmptyString)) in
  let r1 := Binder.declareSymbol (Some EmptyString) p1 SymbolKind.Production freshBinder in
  let r2 := Binder.declareSymbol (Some EmptyString) p2 SymbolKind.Production r1.2 in
  let u1 := Binder.declareSymbol None p1 SymbolKind.Production freshBinder in
  let u2 := Binder.declareSymbol None p2 SymbolKind.Production u1.2 in
  r1.1 = Ok 1 /\ r2.1 = Ok 2 /\
  BindingTable.getDeclarations (Some 1) (Binder.bindings r2.2) = [p1] /\
  BindingTable.getDeclarations (Some 2) (Binder.bindings r2.2) = [p2] /\
  u1.1 = Ok 1 /\ u2.1 = Ok 2 /\
  ~ (forall (b : Binder) (name : option string) (n1 n2 : Node) s1 s2 b1 b2,
       Binder.declareSymbol name n1 SymbolKind.Production b = (Ok s1, b1) ->
       Binder.declareSymbol name n2 SymbolKind.Production b1 = (Ok s2, b2) ->
       s1 = s2 /\ length (BindingTable.getDeclarations (Some s1) (Binder.bindings b2)) = 2).
Proof.
  cbv zeta. repeat (split; [vm_compute; reflexivity|]).
  intros H.
  specialize (H freshBinder None (production 1 (identifier 2 None))
                (production 3 (identifier 4 None)) 1 2 _ _ eq_refl eq_refl).
  destruct H as [H _]. discriminate H.
Qed.

(** C5, as the code has it.  Once a local scope exists in the binding table,
    [resolveSymbol] returns the first match along the walk from [location]
    upward: the private local scope of each visited node's symbol, and the
    file-global scope at the [SourceFile] node, where the walk ends.  While
    no local scope has been created it returns none without looking. *)
Theorem resolveSymbol_walk
    (bt : BindingTable) (location : option Node) (name : string) (meaning : SymbolKind)
    (path : list Node) (fuel : nat) :
  walk bt location path ->
  length path < fuel ->
  BindingTable.resolveSymbol fuel location name meaning bt =
  Ok (match BindingTable.symbolLocals bt with
      | Some _ => firstMatch bt path name meaning
      | None => None
      end).
Proof.
  intros Hwalk. unfold BindingTable.resolveSymbol.
  destruct (BindingTable.symbolLocals bt) as [locals|] eqn:Hlocals; [|done].
  revert fuel. induction Hwalk as [|n Hk|n path Hk Hwalk IH]; intros fuel Hfuel;
    (destruct fuel as [|fuel]; [simpl in Hfuel; lia|]); simpl.
  - done.
  - rewrite Hk. unfold scopeAt. rewrite Hk. simpl.
    destruct (SymbolTable.resolveSymbol name meaning (BindingTable.globals bt)); done.
  - rewrite Hk. unfold scopeAt. rewrite Hk, Hlocals.
    replace (BindingTable.getSymbol (Some n) bt ≫= _)
      with (match BindingTable.getSymbol (Some n) bt with
            | Some s => locals !! s | None => None end)
      by (destruct (BindingTable.getSymbol (Some n) bt); done).
    destruct (_ ≫= SymbolTable.resolveSymbol name meaning) as [s|]; [done|].
    apply IH. simpl in Hfuel. lia.
Qed.

(** In the bound tree of [A(a) : ...] the walk from the name of the parameter
    finds [a] in the private scope of the production, three parents up. *)
Lemma resolveSymbol_walk_witness :
  let bt := Binder.bindings (Binder.bindSourceFile sampleTree freshBinder).2 in
  BindingTable.resolveSymbol 6 (Some sampleParameterName) "a" SymbolKind.Parameter_ bt
  = Ok (Some 3).
Proof.
  intros bt. vm_compute in bt.
  rewrite (resolveSymbol_walk bt (Some sampleParameterName) "a" SymbolKind.Parameter_
             [sampleParameterName; sampleParameter; sampleParameterList; sampleProduction;
              SourceFile.node sampleTree]).
  - vm_compute. reflexivity.
  - repeat (apply walk_up; [reflexivity|]). apply walk_file. reflexivity.
  - simpl. lia.
Defined.

(** C5 as stated fails while the table of local scopes does not exist: after
    binding a file without productions the file-global scope lists the
    file's symbol, the walk from the file node reaches that scope, and
    [resolveSymbol] still returns none. *)
Lemma resolveSymbol_without_locals :
  let file := emptyFile 1 "a.grammar" in
  let bt := Binder.bindings (Binder.bindSourceFile file freshBinder).2 in
  walk bt (Some (SourceFile.node file)) [SourceFile.node file] /\
  firstMatch bt [SourceFile.node file] "a.grammar" SymbolKind.SourceFile = Some 1 /\
  (forall fuel, BindingTable.resolveSymbol fuel (Some (SourceFile.node file))
                  "a.grammar" SymbolKind.SourceFile bt = Ok None).
Proof.
  cbv zeta. split; [apply walk_file; reflexivity|].
  split; [vm_compute; reflexivity|].
  intros fuel. reflexivity.
Qed.

(** * Binding a source file *)

Section MonadFacts.
Context {S A B : Type}.

Lemma bind_inv (m : M S A) (f : A -> M S B) s r s' :
  bind m f s = (r, s') ->
  (exists a s1, m s = (Ok a, s1) /\ f a s1 = (r, s')) \/
  (exists e, m s = (Throw e, s') /\ r = Throw e).
Proof.
  unfold bind. destruct (m s) as [[a|e] s1]; intros H.
  - left. eauto.
  - right. injection H as <- <-. eauto.
Qed.

Lemma bind_Ok_inv (m : M S A) (f : A -> M S B) s b s' :
  bind m f s = (Ok b, s') ->
  exists a s1, m s = (Ok a, s1) /\ f a s1 = (Ok b, s').
Proof.
  intros H. apply bind_inv in H as [H|(e & _ & H)]; [done|discriminate].
Qed.
End MonadFacts.

Lemma Node_ind_forall (P : Node -> Prop) :
  (forall i k p e x l r cs, Forall P cs -> P (Node.mk i k p e x l r cs)) ->
  forall n, P n.
Proof.
  intros H. fix IH 1. intros [i k p e x l r cs]. apply H.
  induction cs as [|c cs IHcs]; constructor; [apply IH | exact IHcs].
Qed.

Section BindFacts.
Implicit Types (b : Binder) (bt : BindingTable).

Lemma keeps_files_ret {A} (a : A) : keeps_files (ret a).
Proof. intros b r b' [= <- <-] fn. done. Qed.

Lemma keeps_files_throw {A} e : keeps_files (@throw Binder A e).
Proof. intros b r b' [= <- <-] fn. done. Qed.

Lemma keeps_files_gets {A} (f : Binder -> A) : keeps_files (gets f).
Proof. intros b r b' [= <- <-] fn. done. Qed.

Lemma keeps_files_modify (f : Binder -> Binder) :
  (forall b fn, fileEntry fn (f b) = fileEntry fn b) -> keeps_files (modify f).
Proof. intros Hf b r b' [= <- <-] fn. apply Hf. Qed.

Lemma keeps_files_bind {A B} (m : M Binder A) (f : A -> M Binder B) :
  keeps_files m -> (forall a, keeps_files (f a)) -> keeps_files (bind m f).
Proof.
  intros Hm Hf b r b' H fn.
  apply bind_inv in H as [(a & b1 & H1 & H2)|(e & H1 & _)].
  - rewrite (Hf a _ _ _ H2), (Hm _ _ _ H1). done.
  - apply (Hm _ _ _ H1).
Qed.

Lemma globals_addDeclaration symbol node bt :
  BindingTable.globals (BindingTable.addDeclarationToSymbol symbol node bt) =
  BindingTable.globals bt.
Proof.
  destruct symbol as [s|], node as [n|]; try done.
  unfold BindingTable.addDeclarationToSymbol.
  destruct (negb _); [destruct (Node.name n)|]; done.
Qed.

Lemma keeps_files_declareSymbol name declaration kind :
  kind <> SymbolKind.SourceFile ->
  keeps_files (Binder.declareSymbol name declaration kind).
Proof.
  intros Hkind b r b' H fn.
  destruct (BindingTable.readScope (Binder.scope b) (Binder.bindings b))
    as [table|] eqn:Hscope.
  2:{ unfold Binder.declareSymbol in H. rewrite Hscope in H.
      injection H as <- <-. done. }
  rewrite (Binder_declareSymbol_eq _ _ _ _ _ Hscope) in H. cbv zeta in H.
  pose proof (declareSymbol_entry name kind (Binder.parentSymbol b) table
                (Binder.symbolHeap b) SymbolKind.SourceFile fn) as He.
  apply pair_equal_spec in H as [_ <-].
  unfold fileEntry. cbn [Binder.bindings].
  rewrite globals_addDeclaration.
  destruct (Binder.scope b); cbn [BindingTable.writeScope BindingTable.globals]; [|done].
  simpl in Hscope. injection Hscope as <-. rewrite He. clear He.
  destruct (entry SymbolKind.SourceFile fn _) as [s|]; [reflexivity|].
  case_decide as Hd; [|reflexivity]. destruct Hd as (_ & Hd & _). contradiction.
Qed.

Lemma keeps_files_forEachChild node (cb : Node -> M Binder unit) :
  Forall (fun c => keeps_files (cb c)) (Node.children node) ->
  keeps_files (Binder.forEachChild node cb).
Proof.
  unfold Binder.forEachChild. induction 1 as [|c cs Hc _ IH].
  - apply keeps_files_ret.
  - apply keeps_files_bind; [exact Hc | intros _; exact IH].
Qed.

Lemma keeps_files_bindChildren (f : Node -> M Binder unit) node ps sc :
  Forall (fun c => keeps_files (f c)) (Node.children node) ->
  keeps_files (Binder.bindChildren f node ps sc).
Proof.
  intros Hc. unfold Binder.bindChildren.
  repeat (apply keeps_files_bind; [try apply keeps_files_gets | intros]).
  - apply keeps_files_modify. done.
  - apply keeps_files_forEachChild, Hc.
  - apply keeps_files_modify. done.
Qed.

Lemma keeps_files_getScope container : keeps_files (Binder.getScope container).
Proof.
  intros b r b' H fn. unfold Binder.getScope, BindingTable.getScope in H.
  destruct (_ !! _); apply pair_equal_spec in H as [_ <-]; done.
Qed.

Lemma keeps_files_setParent node parent :
  keeps_files (modify (Binder.with_bindings (BindingTable.setParent node parent))).
Proof.
  apply keeps_files_modify. intros b fn. unfold fileEntry.
  destruct node, parent; done.
Qed.

(** [bind] by the three cases of its [switch]. *)
Lemma bind_unfold node :
  Binder.bind node =
  (let* parent := gets Binder.parentNode in
   modify (Binder.with_bindings (BindingTable.setParent (Some node) parent)) ;;
   if Node.kind node =k SyntaxKind.Production then Binder.bindProduction Binder.bind node
   else if Node.kind node =k SyntaxKind.ParameterNode then Binder.bindParameter Binder.bind node
   else bindOther node).
Proof. destruct node as [i k p e x l r cs]. destruct k; reflexivity. Qed.

Lemma keeps_files_bind_node node : keeps_files (Binder.bind node).
Proof.
  induction node as [i k p e x l r cs IH] using Node_ind_forall.
  set (node := Node.mk i k p e x l r cs).
  assert (Hch : forall ps sc, keeps_files (Binder.bindChildren Binder.bind node ps sc)).
  { intros. apply keeps_files_bindChildren. exact IH. }
  assert (Hname : keeps_files (Binder.name_text node)).
  { unfold Binder.name_text. destruct (Node.name _);
      [apply keeps_files_ret | apply keeps_files_throw]. }
  rewrite bind_unfold.
  apply keeps_files_bind; [apply keeps_files_gets|intros parent].
  apply keeps_files_bind; [apply keeps_files_setParent|intros _].
  destruct (Node.kind node =k SyntaxKind.Production);
    [|destruct (Node.kind node =k SyntaxKind.ParameterNode)].
  - unfold Binder.bindProduction.
    apply keeps_files_bind; [exact Hname|intros name].
    apply keeps_files_bind; [apply keeps_files_declareSymbol; discriminate|intros symbol].
    apply keeps_files_bind; [apply keeps_files_getScope|intros scope].
    apply Hch.
  - unfold Binder.bindParameter.
    apply keeps_files_bind; [exact Hname|intros name].
    apply keeps_files_bind; [apply keeps_files_declareSymbol; discriminate|intros symbol].
    apply keeps_files_bind; [apply keeps_files_gets|intros ps].
    apply keeps_files_bind; [apply keeps_files_gets|intros sc].
    apply Hch.
  - unfold bindOther.
    apply keeps_files_bind; [apply keeps_files_gets|intros ps].
    apply keeps_files_bind; [apply keeps_files_gets|intros sc].
    apply Hch.
Qed.

Lemma bindChildren_restores (f : Node -> M Binder unit) node ps sc b b' :
  Binder.bindChildren f node ps sc b = (Ok tt, b') ->
  Binder.scope b' = Binder.scope b /\
  Binder.parentNode b' = Binder.parentNode b /\
  Binder.parentSymbol b' = Binder.parentSymbol b.
Proof.
  unfold Binder.bindChildren. intros H.
  apply bind_Ok_inv in H as (pn & b1 & E1 & H).
  apply bind_Ok_inv in H as (ps' & b2 & E2 & H).
  apply bind_Ok_inv in H as (sc' & b3 & E3 & H).
  apply bind_Ok_inv in H as (? & b4 & _ & H).
  apply bind_Ok_inv in H as (? & b5 & _ & H).
  unfold gets in E1, E2, E3. unfold modify in H.
  apply pair_equal_spec in E1 as [E1 <-]. apply pair_equal_spec in E2 as [E2 <-].
  apply pair_equal_spec in E3 as [E3 <-]. apply pair_equal_spec in H as [_ <-].
  injection E1 as <-. injection E2 as <-. injection E3 as <-. done.
Qed.

End BindFacts.

Section BindSourceFileFacts.
Implicit Types (b : Binder) (file : SourceFile).

Lemma throwIfCancellationRequested_same b r b' :
  Binder.throwIfCancellationRequested b = (r, b') ->
  sameBinding b b' /\ (r = Ok tt \/ r = Throw OperationCanceled).
Proof.
  unfold Binder.throwIfCancellationRequested, CancellationToken.throwIfCancellationRequested.
  destruct (Binder.cancellationToken b) as [|i]; [|destruct (_ !! i) as [[|n]|]];
    intros H; apply pair_equal_spec in H as [<- <-]; (split; [done|]); eauto.
Qed.

Lemma bindSourceFile_bound file b s :
  Binder.scopeResolves (SourceFile.filename file) SymbolKind.SourceFile b = Some s ->
  forall r b', Binder.bindSourceFile file b = (r, b') ->
  sameBinding b b' /\ (r = Ok tt \/ r = Throw OperationCanceled).
Proof.
  intros Hres r b' H. unfold Binder.bindSourceFile in H.
  apply bind_inv in H as [(u & b1 & Hpoll & H)|(e & Hpoll & ->)].
  - apply throwIfCancellationRequested_same in Hpoll as [Hsame _].
    apply bind_inv in H as [(bound & b2 & Hg & H)|(e & Hg & _)]; [|discriminate Hg].
    apply pair_equal_spec in Hg as [Hg <-]. injection Hg as <-.
    assert (Hres1 : Binder.scopeResolves (SourceFile.filename file) SymbolKind.SourceFile b1
                    = Some s).
    { unfold Binder.scopeResolves in *. destruct Hsame as (-> & _ & -> & _). done. }
    rewrite Hres1 in H. apply pair_equal_spec in H as [<- <-]. eauto.
  - apply throwIfCancellationRequested_same in Hpoll as [Hsame [?|?]]; [done|eauto].
Qed.

End BindSourceFileFacts.

(** C3.  A call of [bindSourceFile] with a file whose name the global scope
    already resolves to a file symbol changes nothing the binder owns:
    symbols, declarations, references, parent links and scopes are as
    before.  In particular, when a first call for a non-empty file name has
    returned, a second call for that file changes nothing. *)
Theorem bindSourceFile_idempotent (b : Binder) (file : SourceFile) :
  Binder.scope b = GlobalScope ->
  (forall s r b',
      SymbolTable.resolveSymbol (SourceFile.filename file) SymbolKind.SourceFile
        (BindingTable.globals (Binder.bindings b)) = Some s ->
      Binder.bindSourceFile file b = (r, b') ->
      sameBinding b b' /\ (r = Ok tt \/ r = Throw OperationCanceled)) /\
  (forall b1 r b2,
      truthy (SourceFile.filename file) = true ->
      Binder.bindSourceFile file b = (Ok tt, b1) ->
      Binder.bindSourceFile file b1 = (r, b2) ->
      sameBinding b1 b2 /\ (r = Ok tt \/ r = Throw OperationCanceled)).
Proof.
  intros Hscope. split.
  - intros s r b' Hres. apply (bindSourceFile_bound file b s).
    unfold Binder.scopeResolves. rewrite Hscope. exact Hres.
  - intros b1 r b2 Hname H1.
    assert (Hb1 : exists s, Binder.scopeResolves (SourceFile.filename file)
                              SymbolKind.SourceFile b1 = Some s).
    { destruct (Binder.scopeResolves (SourceFile.filename file) SymbolKind.SourceFile b)
        as [s|] eqn:Hres.
      { destruct (bindSourceFile_bound file b s Hres _ _ H1) as [(Hb & _ & Hs & _) _].
        exists s. unfold Binder.scopeResolves in *. rewrite Hb, Hs. exact Hres. }
      unfold Binder.bindSourceFile in H1.
      apply bind_Ok_inv in H1 as (u & b0 & Hpoll & H1).
      apply throwIfCancellationRequested_same in Hpoll as [(Hb0 & Hh0 & Hs0 & _) _].
      apply bind_Ok_inv in H1 as (bound & b0' & Hg & H1).
      apply pair_equal_spec in Hg as [Hg <-]. injection Hg as <-.
      assert (Hres0 : Binder.scopeResolves (SourceFile.filename file) SymbolKind.SourceFile b0
                      = None).
      { unfold Binder.scopeResolves in *. rewrite Hb0, Hs0. exact Hres. }
      rewrite Hres0 in H1.
      apply bind_Ok_inv in H1 as (symbol & b3 & Hdecl & H1).
      apply bind_Ok_inv in H1 as (sc & b3' & Hg & H1).
      apply pair_equal_spec in Hg as [Hg <-]. injection Hg as <-.
      assert (Hscope0 : Binder.scope b0 = GlobalScope) by congruence.
      assert (Hread : BindingTable.readScope (Binder.scope b0) (Binder.bindings b0)
                      = Some (BindingTable.globals (Binder.bindings b0))).
      { rewrite Hscope0. done. }
      rewrite (Binder_declareSymbol_eq _ _ _ _ _ Hread) in Hdecl. cbv zeta in Hdecl.
      apply pair_equal_spec in Hdecl as [Hsym Hb3].
      pose proof (declareSymbol_entry (Some (SourceFile.filename file)) SymbolKind.SourceFile
                    (Binder.parentSymbol b0) (BindingTable.globals (Binder.bindings b0))
                    (Binder.symbolHeap b0) SymbolKind.SourceFile (SourceFile.filename file))
        as He.
      assert (Hfile3 : is_Some (fileEntry (SourceFile.filename file) b3)).
      { rewrite <- Hb3. unfold fileEntry. cbn [Binder.bindings].
        rewrite globals_addDeclaration, Hscope0.
        cbn [BindingTable.writeScope BindingTable.globals]. rewrite He. clear He.
        destruct (entry _ _ (BindingTable.globals (Binder.bindings b0)));
          [eexists; reflexivity|].
        rewrite decide_True; [eexists; reflexivity|]. split; [exact Hname | done]. }
      assert (Hscope3 : Binder.scope b3 = GlobalScope) by (rewrite <- Hb3; exact Hscope0).
      pose proof (keeps_files_bindChildren Binder.bind (SourceFile.node file) (Some symbol)
                    (Binder.scope b3)) as Hkeep.
      specialize (Hkeep ltac:(apply Forall_forall; intros; apply keeps_files_bind_node)).
      specialize (Hkeep _ _ _ H1 (SourceFile.filename file)).
      apply bindChildren_restores in H1 as (Hs1 & _).
      destruct Hfile3 as [s Hs]. exists s.
      unfold Binder.scopeResolves. rewrite Hs1, Hscope3. simpl.
      rewrite resolveSymbol_entry, Hname. unfold fileEntry in Hkeep, Hs.
      rewrite Hkeep. exact Hs. }
    destruct Hb1 as [s Hs]. apply (bindSourceFile_bound file b1 s Hs).
Qed.

(** Binding the tree of [A(a) : ...] a second time. *)
Lemma bindSourceFile_idempotent_witness :
  let b1 := (Binder.bindSourceFile sampleTree freshBinder).2 in
  sameBinding b1 (Binder.bindSourceFile sampleTree b1).2.
Proof.
  cbv zeta.
  destruct (bindSourceFile_idempotent freshBinder sampleTree eq_refl) as [_ H].
  destruct (H (Binder.bindSourceFile sampleTree freshBinder).2
              (Binder.bindSourceFile sampleTree
                 (Binder.bindSourceFile sampleTree freshBinder).2).1
              (Binder.bindSourceFile sampleTree
                 (Binder.bindSourceFile sampleTree freshBinder).2).2)
    as [Hsame _].
  - reflexivity.
  - vm_compute. reflexivity.
  - apply surjective_pairing.
  - exact Hsame.
Defined.

(** * Properties of the parser *)

(** ** Text ranges (C8) *)

(** C8 fails on the code.  For the text [A : [junk]] the parser returns a
    tree in which the invalid assertion occupies [5 .. 5) while its child,
    the open bracket, occupies [3 .. 5): [parseInvalidAssertionTail] starts
    the node at the scanner position after the bracket, where the other
    assertion tails start theirs at [openBracketToken.pos]. *)
Theorem invalid_assertion_excludes_its_bracket :
  exists sourceFile p parent child,
    parseSourceFile 20 sampleLexer "a.grammar" "A : [junk]" CancellationToken.none
      (Parser.new ∅) = (Ok sourceFile, p) /\
    parent ∈ subnodes (SourceFile.node sourceFile) /\
    child ∈ Node.children parent /\
    Node.kind parent = SyntaxKind.InvalidAssertion /\
    Node.kind child = SyntaxKind.OpenBracketToken /\
    (Node.pos parent, Node.end_ parent) = (5, 5) /\
    (Node.pos child, Node.end_ child) = (3, 5) /\
    rangeWithin parent child = false /\
    wellRanged (SourceFile.node sourceFile) = false.
Proof.
  eexists _, _, _, _. split; [vm_compute; reflexivity|].
  split.
  { do 6 apply list_elem_of_further. apply list_elem_of_here. }
  split; [apply list_elem_of_here|].
  repeat split; vm_compute; reflexivity.
Qed.

(** ** Entry and exit of [parseSourceFile] (C6, C7) *)

Section ParseSourceFileFacts.
Implicit Types (p : Parser).

Lemma set_polls_same p : Parser.set_polls (Parser.polls p) p = p.
Proof. destruct p; reflexivity. Qed.

Lemma throwIfCancellationRequested_cancelled tok p :
  cancellationRequested tok p ->
  throwIfCancellationRequested tok p = (Throw OperationCanceled, p).
Proof.
  destruct tok as [|i]; [done|]. simpl. intros H.
  unfold throwIfCancellationRequested. simpl. rewrite H.
  by rewrite set_polls_same.
Qed.

Lemma throwIfCancellationRequested_inv tok p r p' :
  throwIfCancellationRequested tok p = (r, p') ->
  (r = Throw OperationCanceled /\ p' = p /\ cancellationRequested tok p) \/
  (r = Ok tt /\ exists polls', p' = Parser.set_polls polls' p).
Proof.
  unfold throwIfCancellationRequested, CancellationToken.throwIfCancellationRequested.
  destruct tok as [|i]; simpl.
  - intros [= <- <-]. right. eauto.
  - destruct (Parser.polls p !! i) as [[|n]|] eqn:E; intros [= <- <-].
    + left. by rewrite set_polls_same.
    + right. eauto.
    + right. eauto.
Qed.

(** On every exit, normal or not, the seven saved fields are as they were at
    the call. *)
Lemma parseSourceFile_restores_saved_fields fuel lex filename text tok p r p' :
  parseSourceFile fuel lex filename text tok p = (r, p') ->
  savedFields p' = savedFields p.
Proof.
  unfold parseSourceFile. intros H.
  apply bind_inv in H as [(u & p1 & Hpoll & H)|(e & Hpoll & _)].
  - apply throwIfCancellationRequested_inv in Hpoll
      as [(? & _)|(_ & polls' & ->)]; [discriminate|].
    unfold bind, gets, finally in H. simpl in H.
    destruct (parse _ _ _ _ _ _) as [r0 p2]. injection H as _ <-.
    reflexivity.
  - apply throwIfCancellationRequested_inv in Hpoll
      as [(_ & -> & _)|(? & _)]; [done|discriminate].
Qed.

(** An exception of [parse] leaves [parseSourceFile] as it is. *)
Lemma parseSourceFile_propagates fuel lex filename text tok p p1 e p2 :
  throwIfCancellationRequested tok p = (Ok tt, p1) ->
  parse fuel lex filename text tok p1 = (Throw e, p2) ->
  exists p', parseSourceFile fuel lex filename text tok p = (Throw e, p') /\
             Parser.sinks p' = Parser.sinks p2.
Proof.
  intros Hpoll Hparse. unfold parseSourceFile, bind at 1. rewrite Hpoll.
  unfold bind, gets, finally. simpl. rewrite Hparse. eexists. split; reflexivity.
Qed.

(** The first step of a list iteration is the poll. *)
Lemma parseList_loop_cancelled fuel parseElement listContext hasClose hasSep consume ws result p :
  (Parser.token p =k SyntaxKind.EndOfFileToken) = false ->
  cancellationRequested (Parser.cancellationToken p) p ->
  parseList_loop (S fuel) parseElement listContext hasClose hasSep consume ws result p
  = (Throw OperationCanceled, p).
Proof.
  intros Heof Hc. simpl. unfold bind at 1, isEOF, gets. rewrite Heof.
  unfold parseList_iteration, bind, gets.
  rewrite (throwIfCancellationRequested_cancelled _ _ Hc). reflexivity.
Qed.

Lemma parseList_with_cancelled fuel parseElement listContext result p :
  (Parser.token p =k SyntaxKind.EndOfFileToken) = false ->
  cancellationRequested (Parser.cancellationToken p) p ->
  parseList_with (S fuel) parseElement listContext result p
  = (Throw OperationCanceled, Parser.set_parsingContext listContext p).
Proof.
  intros Heof Hc. unfold parseList_with.
  unfold bind at 1, gets. unfold bind at 1, modify.
  unfold hasCloseToken, hasSeparator, shouldConsumeCloseToken, shouldSkipWhitespace.
  unfold bind at 1, gets. unfold bind at 1, gets. unfold bind at 1, gets.
  unfold bind at 1, gets. unfold bind at 1.
  rewrite parseList_loop_cancelled; [reflexivity| |].
  - destruct p; exact Heof.
  - destruct p. exact Hc.
Qed.

End ParseSourceFileFacts.

(** C6 fails on the code.  [parseSourceFile] saves and restores seven
    fields, on every exit; the current token is not among them.  A call
    made while the parser is at the colon of [A : `x`] returns with the
    scanner back at the colon and the current token left at the end-of-file
    token of the nested parse.  The [Map] held in [tags] is restored as a
    reference only: [parse] does not replace it, so the nested parse writes
    its own markup into the map of the enclosing parse. *)
Theorem parseSourceFile_leaves_token :
  Parser.token midParse = SyntaxKind.ColonToken /\
  Scanner.token (Parser.scanner midParse) = SyntaxKind.ColonToken /\
  (exists sourceFile p',
      parseSourceFile 5 sampleLexer "b.grammar" EmptyString CancellationToken.none midParse
      = (Ok sourceFile, p') /\
      savedFields p' = savedFields midParse /\
      Scanner.token (Parser.scanner p') = SyntaxKind.ColonToken /\
      Parser.token p' = SyntaxKind.EndOfFileToken) /\
  (let outer := Parser.set_tags (Some 0) (Parser.set_tagMaps {[0 := ∅]} midParse) in
   exists sourceFile p',
      parseSourceFile 5 sampleLexer "c.grammar" "<ins>B" CancellationToken.none outer
      = (Ok sourceFile, p') /\
      Parser.tags p' = Parser.tags outer /\
      Parser.tagMaps outer !! 0 = Some ∅ /\
      Parser.tagMaps p' !! 0 = Some {[0 := []]}).
Proof.
  split; [vm_compute; reflexivity|].
  split; [vm_compute; reflexivity|].
  split.
  - eexists _, _. split; [vm_compute; reflexivity|].
    split; [|split]; vm_compute; reflexivity.
  - cbv zeta. eexists _, _. split; [vm_compute; reflexivity|].
    repeat split; vm_compute; reflexivity.
Qed.

Section CancellationFacts.
Implicit Types (p : Parser).

Lemma parseSourceFile_cancelled_at_call fuel lex filename text tok p :
  cancellationRequested tok p ->
  parseSourceFile fuel lex filename text tok p = (Throw OperationCanceled, p).
Proof.
  intros Hc. unfold parseSourceFile, bind at 1.
  rewrite (throwIfCancellationRequested_cancelled _ _ Hc). reflexivity.
Qed.

(** The first [nextToken] of a parse whose scanner may still poll once. *)
Lemma nextToken_passes p i n tk rest :
  Scanner.rest (Parser.scanner p) = tk :: rest ->
  Scanner.cancellationToken (Parser.scanner p) = CancellationToken.source i ->
  Parser.polls p !! i = Some (S n) ->
  exists p',
    nextToken p = (Ok (ScannedToken.kind tk), p') /\
    Parser.token p' = ScannedToken.kind tk /\
    Parser.cancellationToken p' = Parser.cancellationToken p /\
    Parser.polls p' = <[i := n]> (Parser.polls p).
Proof.
  intros Hrest Htok Hpolls.
  unfold nextToken, scan, bind at 1, bind at 1, gets.
  unfold bind at 1, throwIfCancellationRequested.
  rewrite Htok. simpl. rewrite Hpolls.
  unfold Scanner.advance. rewrite Hrest.
  unfold bind at 1, modify. unfold ret at 1.
  unfold bind at 1, modify.
  unfold bind at 1, getHtmlTrivia, bind at 1, gets. unfold bind at 1, modify, ret.
  destruct (trimTrivia _) as [htmlTrivia|].
  - unfold bind at 1, gets. simpl.
    destruct (Parser.tags p) as [ref|]; unfold bind, gets, getStartPos, modify; simpl;
      eexists; (split; [reflexivity|]); simpl; done.
  - unfold gets. simpl. eexists. split; [reflexivity|]. simpl. done.
Qed.

Lemma parse_cancelled_at_first_iteration fuel lex filename text i p tk rest :
  lex text = tk :: rest ->
  (ScannedToken.kind tk =k SyntaxKind.EndOfFileToken) = false ->
  Parser.polls p !! i = Some 1 ->
  exists p', parse (S fuel) lex filename text (CancellationToken.source i) p
             = (Throw OperationCanceled, p').
Proof.
  intros Hlex Hkind Hpolls. unfold parse.
  unfold bind at 1, new_node. unfold bind at 1, modify.
  unfold bind at 1, new_DiagnosticMessages.
  do 5 (unfold bind at 1, modify).
  set (p0 := Parser.set_scanner _ _).
  destruct (nextToken_passes p0 i 0 tk rest) as (p1 & E & Htok & Hct & Hp).
  { unfold p0. simpl. exact Hlex. }
  { reflexivity. }
  { unfold p0. simpl. exact Hpolls. }
  unfold bind at 1. rewrite E.
  unfold parseSourceElementList, parseList. unfold bind at 1.
  rewrite parseList_with_cancelled.
  - eexists. reflexivity.
  - rewrite Htok. exact Hkind.
  - rewrite Hct. unfold p0. simpl. rewrite Hp. apply lookup_insert_eq.
Qed.

End CancellationFacts.

(** C7.  A call of [parseSourceFile] with a token whose request is already
    visible throws before anything is constructed: the parser state, the
    node counter and every diagnostic sink included, is untouched.  Inside a
    parse every list iteration starts with the poll and throws at once when
    the request is visible, in every context and whatever has been parsed so
    far; an exception of [parse] leaves [parseSourceFile] as the same
    exception and the clean-up records nothing.  For every text with at
    least one token, a request that becomes visible after the first token
    has been scanned aborts the parse at the first list iteration. *)
Theorem cancellation_aborts_parse :
  (forall fuel lex filename text tok p,
      cancellationRequested tok p ->
      parseSourceFile fuel lex filename text tok p = (Throw OperationCanceled, p)) /\
  (forall fuel parseElement listContext hasClose hasSep consume ws result p,
      (Parser.token p =k SyntaxKind.EndOfFileToken) = false ->
      cancellationRequested (Parser.cancellationToken p) p ->
      parseList_loop (S fuel) parseElement listContext hasClose hasSep consume ws result p
      = (Throw OperationCanceled, p)) /\
  (forall fuel lex filename text tok p p1 e p2,
      throwIfCancellationRequested tok p = (Ok tt, p1) ->
      parse fuel lex filename text tok p1 = (Throw e, p2) ->
      exists p', parseSourceFile fuel lex filename text tok p = (Throw e, p') /\
                 Parser.sinks p' = Parser.sinks p2) /\
  (forall fuel lex filename text i p tk rest,
      lex text = tk :: rest ->
      (ScannedToken.kind tk =k SyntaxKind.EndOfFileToken) = false ->
      Parser.polls p !! i = Some 2 ->
      exists p', parseSourceFile (S fuel) lex filename text (CancellationToken.source i) p
                 = (Throw OperationCanceled, p')).
Proof.
  split; [exact parseSourceFile_cancelled_at_call|].
  split; [exact parseList_loop_cancelled|].
  split; [exact parseSourceFile_propagates|].
  intros fuel lex filename text i p tk rest Hlex Hkind Hpolls.
  set (p1 := Parser.set_polls (<[i := 1]> (Parser.polls p)) p).
  assert (Hpoll : throwIfCancellationRequested (CancellationToken.source i) p = (Ok tt, p1)).
  { unfold throwIfCancellationRequested. simpl. rewrite Hpolls. reflexivity. }
  destruct (parse_cancelled_at_first_iteration fuel lex filename text i p1 tk rest Hlex Hkind)
    as (p2 & Hparse).
  { unfold p1. destruct p; simpl. apply lookup_insert_eq. }
  destruct (parseSourceFile_propagates _ _ _ _ _ _ _ _ _ Hpoll Hparse) as (p' & H & _).
  eauto.
Qed.

(** A request that becomes visible while the parameter list of
    [A(a, b) : B[a]] is being parsed aborts the whole parse; the sink of the
    abandoned file holds no diagnostic. *)
Lemma cancellation_aborts_parse_witness :
  (exists p',
      parseSourceFile 20 sampleLexer "a.grammar" "A(a, b) : B[a]" (CancellationToken.source 0)
        (Parser.new {[0 := 2]}) = (Throw OperationCanceled, p')) /\
  (let r := parseSourceFile 20 sampleLexer "a.grammar" "A(a, b) : B[a]"
              (CancellationToken.source 0) (Parser.new {[0 := 6]}) in
   r.1 = Throw OperationCanceled /\ Parser.sinks r.2 = {[0 := []]}) /\
  parseSourceFile 20 sampleLexer "a.grammar" "A(a, b) : B[a]" (CancellationToken.source 0)
    (Parser.new {[0 := 0]}) = (Throw OperationCanceled, Parser.new {[0 := 0]}).
Proof.
  destruct cancellation_aborts_parse as (Ha & _ & _ & Hd).
  split.
  { eapply (Hd 19 sampleLexer "a.grammar" "A(a, b) : B[a]" 0 (Parser.new {[0 := 2]})).
    - reflexivity.
    - reflexivity.
    - reflexivity. }
  split; [split; vm_compute; reflexivity|].
  apply Ha. reflexivity.
Defined.

(** ** Properties that every method of the grammar keeps

    For relations that compose, [ensures R Rt] passes from the primitive
    steps of the parser to every method built from them. *)

Section Ensures.
Variables R Rt : Parser -> Parser -> Prop.
Hypothesis R_refl : forall p, R p p.
Hypothesis R_trans : forall p q r, R p q -> R q r -> R p r.
Hypothesis Rt_refl : forall p, Rt p p.
Hypothesis Rt_trans : forall p q r, R p q -> Rt q r -> Rt p r.

Local Abbreviation ensures := (ensures R Rt).

Lemma ensures_ret {A} (a : A) : ensures (ret a).
Proof using R_refl. intros p r p' [= <- <-]. apply R_refl. Qed.

Lemma ensures_gets {A} (f : Parser -> A) : ensures (gets f).
Proof using R_refl. intros p r p' [= <- <-]. apply R_refl. Qed.

Lemma ensures_throw {A} e : ensures (@throw Parser A e).
Proof using Rt_refl. intros p r p' [= <- <-]. apply Rt_refl. Qed.

Lemma ensures_bind {A B} (m : P A) (f : A -> P B) :
  ensures m -> (forall a, ensures (f a)) -> ensures (bind m f).
Proof using R_trans Rt_trans.
  intros Hm Hf p r p' H.
  apply bind_inv in H as [(a & p1 & H1 & H2)|(e & H1 & ->)].
  - specialize (Hm _ _ _ H1). specialize (Hf a _ _ _ H2). simpl in Hm.
    destruct r; [eapply R_trans | eapply Rt_trans]; eauto.
  - apply (Hm _ _ _ H1).
Qed.

(** The steps that touch the state. *)
Hypothesis H_nextToken : ensures nextToken.
Hypothesis H_finishNode : forall node fullStart, ensures (finishNode node fullStart).
Hypothesis H_new_node : forall kind text children, ensures (new_node kind text children).
Hypothesis H_report : forall pos message, ensures (report pos message).
Hypothesis H_addImport :
  forall text, ensures (modify (fun p => Parser.set_imports (Parser.imports p ++ [text]) p)).
Hypothesis H_parseList_with :
  forall fuel parseElement listContext result,
    (forall c, ensures (parseElement c)) ->
    ensures (parseList_with fuel parseElement listContext result).
Hypothesis H_lookahead :
  forall (fn : P bool), ensures fn -> ensures (lookahead fn).

Hypothesis H_poll : forall tok, ensures (throwIfCancellationRequested tok).

Collection Basic := R_refl R_trans Rt_refl Rt_trans H_nextToken H_finishNode H_new_node
  H_report H_poll.

Create HintDb ens discriminated.

Ltac ens :=
  repeat lazymatch goal with
    | |- ensures (ret _) => apply ensures_ret
    | |- ensures (gets _) => apply ensures_gets
    | |- ensures (throw _) => apply ensures_throw
    | |- ensures (bind _ _) => apply ensures_bind; [|intros ?]
    | |- ensures (match ?x with _ => _ end) => destruct x
    | |- ensures (let _ := _ in _) => cbv zeta
    | |- ensures nextToken => apply H_nextToken
    | |- ensures (finishNode _ _) => apply H_finishNode
    | |- ensures (new_node _ _ _) => apply H_new_node
    | |- ensures (report _ _) => apply H_report
    | |- ensures getStartPos => apply ensures_gets
    | |- ensures getTokenPos => apply ensures_gets
    | |- ensures getTokenValue => apply ensures_gets
    | |- ensures getTokenText => apply ensures_gets
    | |- ensures isEOF => apply ensures_gets
    | |- ensures (isWhitespace _) => apply ensures_gets
    | |- ensures shouldParseElement => apply ensures_gets
    | |- ensures isOnCloseToken => apply ensures_gets
    | |- ensures isOnSeparator => apply ensures_gets
    | |- _ => solve [eauto 2 with ens nocore]
    end.

Lemma skipUntil_ensures isRecoveryToken : ensures (skipUntil isRecoveryToken).
Proof using Basic.
  unfold skipUntil. ens. generalize (S (length (Scanner.rest a))). intros n.
  induction n as [|n IH]; simpl; ens.
Qed.

Lemma skipWhitespace_ensures skip : ensures (skipWhitespace skip).
Proof using Basic.
  unfold skipWhitespace. ens. generalize (S (length (Scanner.rest a))). intros n.
  induction n as [|n IH]; simpl; ens.
Qed.

Lemma readTokenValue_ensures token : ensures (readTokenValue token).
Proof using Basic. unfold readTokenValue. ens. Qed.

Lemma readTokenText_ensures token : ensures (readTokenText token).
Proof using Basic. unfold readTokenText. ens. Qed.

Lemma parseToken_ensures token : ensures (parseToken token).
Proof using Basic. unfold parseToken. ens. Qed.

Lemma parseAnyToken_ensures predicate : ensures (parseAnyToken predicate).
Proof using Basic. unfold parseAnyToken. ens. Qed.

Lemma parseOptional_ensures token : ensures (parseOptional token).
Proof using Basic. unfold parseOptional. ens. Qed.

Hint Resolve skipUntil_ensures skipWhitespace_ensures readTokenValue_ensures
  readTokenText_ensures parseToken_ensures parseAnyToken_ensures parseOptional_ensures : ens.

Lemma skipLineTerminator_ensures : ensures skipLineTerminator.
Proof using Basic. unfold skipLineTerminator. ens. Qed.
Hint Resolve skipLineTerminator_ensures : ens.

Lemma recover_ensures : ensures recover.
Proof using Basic. unfold recover. ens. Qed.

Lemma reportDiagnostics_ensures : ensures reportDiagnostics.
Proof using Basic. unfold reportDiagnostics. ens. Qed.

Lemma parseCloseToken_ensures : ensures parseCloseToken.
Proof using Basic. unfold parseCloseToken. ens. Qed.

Lemma parseSeparator_ensures : ensures parseSeparator.
Proof using Basic. unfold parseSeparator. ens. Qed.

Hint Resolve recover_ensures reportDiagnostics_ensures parseCloseToken_ensures
  parseSeparator_ensures : ens.

Lemma parseList_iteration_ensures parseElement listContext hasClose hasSep consume ws result :
  (forall c, ensures (parseElement c)) ->
  ensures (parseList_iteration parseElement listContext hasClose hasSep consume ws result).
Proof using Basic. intros Hpe. unfold parseList_iteration. ens. Qed.

Lemma parseList_loop_ensures fuel parseElement listContext hasClose hasSep consume ws result :
  (forall c, ensures (parseElement c)) ->
  ensures (parseList_loop fuel parseElement listContext hasClose hasSep consume ws result).
Proof using Basic.
  intros Hpe. revert result.
  induction fuel as [|n IH]; intros result; simpl; ens.
  apply parseList_iteration_ensures, Hpe.
Qed.

Lemma parseList_with_ensures_from_steps fuel parseElement listContext result :
  (forall c, ensures (modify (Parser.set_parsingContext c))) ->
  (forall c, ensures (parseElement c)) ->
  ensures (parseList_with fuel parseElement listContext result).
Proof using Basic.
  intros Hctx Hpe. unfold parseList_with, hasCloseToken, hasSeparator,
    shouldConsumeCloseToken, shouldSkipWhitespace.
  pose proof (parseList_loop_ensures fuel parseElement listContext) as Hloop.
  ens.
Qed.

Section Level.
Variable fuel : nat.
Variable K : Knots.
Hypothesis K_parseElement : forall c, ensures (k_parseElement K c).
Hypothesis K_parseSymbol : ensures (k_parseSymbol K).
Hypothesis K_parseSymbolSpanRest : ensures (k_parseSymbolSpanRest K).

Lemma parseList_ensures c result : ensures (parseList fuel K c result).
Proof using All. unfold parseList. apply H_parseList_with. exact K_parseElement. Qed.
Hint Resolve parseList_ensures : ens.

Ltac ensK :=
  repeat lazymatch goal with
    | |- ensures (k_parseSymbol K) => exact K_parseSymbol
    | |- ensures (k_parseSymbolSpanRest K) => exact K_parseSymbolSpanRest
    | |- ensures (parseList _ _ _ _) => apply parseList_ensures
    | |- _ => progress ens
    end.

Lemma parseIdentifier_ensures : ensures parseIdentifier.
Proof using All. unfold parseIdentifier. ensK. Qed.
Hint Resolve parseIdentifier_ensures : ens.

Lemma parseUnicodeCharacterLiteral_ensures b : ensures (parseUnicodeCharacterLiteral b).
Proof using All. unfold parseUnicodeCharacterLiteral. ensK. Qed.

Lemma parseProseFragmentLiteral_ensures t : ensures (parseProseFragmentLiteral t).
Proof using All. unfold parseProseFragmentLiteral. ensK. Qed.

Lemma parseTerminal_ensures b : ensures (parseTerminal b).
Proof using All. unfold parseTerminal. ensK. Qed.

Lemma parseParameter_ensures : ensures parseParameter.
Proof using All. unfold parseParameter. ensK. Qed.

Lemma parseArgument_ensures : ensures parseArgument.
Proof using All. unfold parseArgument. ensK. Qed.

Hint Resolve parseUnicodeCharacterLiteral_ensures parseProseFragmentLiteral_ensures
  parseTerminal_ensures parseParameter_ensures parseArgument_ensures : ens.

Lemma parseParameterListTail_ensures o c k : ensures (parseParameterListTail fuel K o c k).
Proof using All. unfold parseParameterListTail. ensK. Qed.
Hint Resolve parseParameterListTail_ensures : ens.

Lemma tryParseParameterList_ensures : ensures (tryParseParameterList fuel K).
Proof using All. unfold tryParseParameterList. ensK. Qed.

Lemma parseOneOfList_ensures o : ensures (parseOneOfList fuel K o).
Proof using All. unfold parseOneOfList. ensK. Qed.

Lemma parseSymbolSetTail_ensures o : ensures (parseSymbolSetTail fuel K o).
Proof using All. unfold parseSymbolSetTail. ensK. Qed.
Hint Resolve tryParseParameterList_ensures parseOneOfList_ensures
  parseSymbolSetTail_ensures : ens.

Lemma parseSymbolSpanRestOrSymbolSet_ensures : ensures (parseSymbolSpanRestOrSymbolSet fuel K).
Proof using All. unfold parseSymbolSpanRestOrSymbolSet. ensK. Qed.
Hint Resolve parseSymbolSpanRestOrSymbolSet_ensures : ens.

Lemma parseAssertion_ensures o : ensures (parseAssertion fuel K o).
Proof using All.
  unfold parseAssertion, parseEmptyAssertionTail, parseLookaheadAssertionTail,
    parseNoSymbolHereAssertionTail, parseLexicalGoalAssertionTail,
    parseParameterValueAssertionTail, parseInvalidAssertionTail.
  ensK.
Qed.
Hint Resolve parseAssertion_ensures : ens.

Lemma parseArgumentListTail_ensures o c k : ensures (parseArgumentListTail fuel K o c k).
Proof using All. unfold parseArgumentListTail. ensK. Qed.
Hint Resolve parseArgumentListTail_ensures : ens.

Lemma isStartOfArgumentList_ensures : ensures isStartOfArgumentList.
Proof using All.
  unfold isStartOfArgumentList. ensK. apply H_lookahead. unfold nextTokenIsArgument. ensK.
Qed.
Hint Resolve isStartOfArgumentList_ensures : ens.

Lemma tryParseArgumentList_ensures : ensures (tryParseArgumentList fuel K).
Proof using All. unfold tryParseArgumentList. ensK. Qed.
Hint Resolve tryParseArgumentList_ensures : ens.

Lemma parseNonterminal_ensures a b : ensures (parseNonterminal fuel K a b).
Proof using All. unfold parseNonterminal. ensK. Qed.
Hint Resolve parseNonterminal_ensures : ens.

Lemma parseProseFragments_ensures : ensures (parseProseFragments fuel K).
Proof using All.
  unfold parseProseFragments. generalize (@None (list Node)) as fragments.
  generalize fuel at 2 as n.
  induction n as [|n IH]; intros fragments; simpl; ensK.
Qed.
Hint Resolve parseProseFragments_ensures : ens.

Lemma parseProse_ensures g : ensures (parseProse fuel K g).
Proof using All. unfold parseProse. ensK. Qed.

Lemma parseProseAssertion_ensures o : ensures (parseProseAssertion fuel K o).
Proof using All. unfold parseProseAssertion. ensK. Qed.

Lemma parseOneOfSymbol_ensures o : ensures (parseOneOfSymbol fuel K o).
Proof using All. unfold parseOneOfSymbol. ensK. Qed.
Hint Resolve parseProse_ensures parseProseAssertion_ensures parseOneOfSymbol_ensures : ens.

Lemma parsePrimarySymbol_ensures b : ensures (parsePrimarySymbol fuel K b).
Proof using All.
  unfold parsePrimarySymbol, parseUnicodeCharacterRangeOrHigher,
    parseUnicodeCharacterRangeTail, parsePlaceholderSymbol, parseInvalidSymbol.
  apply ensures_bind; [apply ensures_gets|intros token].
  assert (Hother : ensures (
    let* placeholderToken := parseToken SyntaxKind.AtToken in
    match placeholderToken with
    | Some placeholderToken =>
        let* node := new_node SyntaxKind.PlaceholderSymbol None [placeholderToken] in
        finishNode node (Node.pos placeholderToken)
    | None =>
        let* fullStart := getStartPos in
        let* node := new_node SyntaxKind.InvalidSymbol None [] in
        skipUntil isInvalidSymbolRecoveryToken ;; finishNode node fullStart
    end)) by ensK.
  destruct token; try exact Hother; ensK.
Qed.
Hint Resolve parsePrimarySymbol_ensures : ens.

Lemma parseSymbol_ensures : ensures (parseSymbol fuel K).
Proof using All.
  unfold parseSymbol, parseUnarySymbol, parseButNotSymbolTail. ensK.
Qed.
Hint Resolve parseSymbol_ensures : ens.

Lemma parseSymbolSpanRest_ensures : ensures (parseSymbolSpanRest fuel K).
Proof using All. unfold parseSymbolSpanRest, tryParseSymbolSpan. ensK. Qed.
Hint Resolve parseSymbolSpanRest_ensures : ens.

Lemma parseSymbolSpan_ensures : ensures (parseSymbolSpan fuel K).
Proof using All. unfold parseSymbolSpan. ensK. Qed.
Hint Resolve parseSymbolSpan_ensures : ens.

Lemma parseRightHandSide_ensures : ensures (parseRightHandSide fuel K).
Proof using All. unfold parseRightHandSide, parseLinkReference. ensK. Qed.
Hint Resolve parseRightHandSide_ensures : ens.

Lemma parseBody_ensures : ensures (parseBody fuel K).
Proof using All. unfold parseBody, parseRightHandSideList. ensK. Qed.
Hint Resolve parseBody_ensures : ens.

Lemma parseProduction_ensures : ensures (parseProduction fuel K).
Proof using All. unfold parseProduction. ensK. Qed.
Hint Resolve parseProduction_ensures : ens.

Lemma parseSourceElement_ensures : ensures (parseSourceElement fuel K).
Proof using All.
  unfold parseSourceElement, parseMetaElement, parseImport, parseDefine, parseStringLiteral.
  ensK.
Qed.
Hint Resolve parseSourceElement_ensures : ens.

Lemma parseElement_ensures c : ensures (parseElement fuel K c).
Proof using All. unfold parseElement. destruct c; ensK. Qed.

End Level.

(** Every method of the grammar, at every depth. *)
Lemma parser_ensures n :
  (forall c, ensures (k_parseElement (parser n) c)) /\
  ensures (k_parseSymbol (parser n)) /\
  ensures (k_parseSymbolSpanRest (parser n)).
Proof using All.
  induction n as [|n (IH1 & IH2 & IH3)]; simpl.
  - repeat split; intros; apply ensures_throw.
  - split; [intros c; apply parseElement_ensures; assumption|].
    split; [apply parseSymbol_ensures | apply parseSymbolSpanRest_ensures]; assumption.
Qed.


End Ensures.

(** ** The steps that touch the parser state, for any pair of relations *)

Section StepFacts.
Variables R Rt : Parser -> Parser -> Prop.
Hypothesis R_refl : forall p, R p p.
Hypothesis R_trans : forall p q r, R p q -> R q r -> R p r.
Hypothesis Rt_refl : forall p, Rt p p.
Hypothesis Rt_trans : forall p q r, R p q -> Rt q r -> Rt p r.

Lemma ensures_modify (f : Parser -> Parser) :
  (forall p, R p (f p)) -> ensures R Rt (modify f).
Proof. intros Hf p r p' [= <- <-]. apply Hf. Qed.

Lemma ensures_step {A} (f : Parser -> A) (g : Parser -> Parser) :
  (forall p, R p (g p)) -> ensures R Rt (fun p => (Ok (f p), g p)).
Proof. intros Hg p r p' [= <- <-]. apply Hg. Qed.

Lemma ensures_poll tok :
  (forall p polls', R p (Parser.set_polls polls' p)) ->
  ensures R Rt (throwIfCancellationRequested tok).
Proof using Rt_refl.
  intros H p r p' Hp.
  apply throwIfCancellationRequested_inv in Hp as [(-> & -> & _)|(-> & polls' & ->)].
  - apply Rt_refl.
  - apply H.
Qed.

Lemma scan_inv p r p' :
  scan p = (r, p') ->
  (r = Throw OperationCanceled /\ p' = p) \/
  (exists polls',
      let q := Parser.set_polls polls' p in
      let sc := (Scanner.advance (Parser.scanner p)).1 in
      let errors := (Scanner.advance (Parser.scanner p)).2 in
      r = Ok (Scanner.token sc) /\
      p' = Parser.set_sinks
             (fold_left (fun sinks e => DiagnosticMessages.report (Scanner.diagnostics sc)
                                          (Scanner.tokenPos sc) e sinks)
                        errors (Parser.sinks q))
             (Parser.set_scanner sc q)).
Proof.
  unfold scan. unfold bind at 1, gets. intros H.
  apply bind_inv in H as [(u & q & Hpoll & H)|(e & Hpoll & ->)].
  - apply throwIfCancellationRequested_inv in Hpoll as [(? & _)|(_ & polls' & ->)];
      [discriminate|].
    right. exists polls'. cbv zeta.
    destruct (Scanner.advance (Parser.scanner p)) as [sc errors].
    unfold bind, modify, ret in H. injection H as <- <-. split; reflexivity.
  - apply throwIfCancellationRequested_inv in Hpoll as [(? & -> & _)|(? & _)];
      [|discriminate].
    left. split; [congruence|reflexivity].
Qed.

(** [nextToken], from what its assignments do to the state. *)
Lemma ensures_nextToken :
  (forall p polls', R p (Parser.set_polls polls' p)) ->
  (forall p,
      let sc := (Scanner.advance (Parser.scanner p)).1 in
      R p (Parser.set_sinks
             (fold_left (fun sinks e => DiagnosticMessages.report (Scanner.diagnostics sc)
                                          (Scanner.tokenPos sc) e sinks)
                        (Scanner.advance (Parser.scanner p)).2 (Parser.sinks p))
             (Parser.set_scanner sc p))) ->
  (forall p token, R p (Parser.set_token token p)) ->
  (forall p, R p (Parser.set_scanner (Scanner.drainHtmlTrivia (Parser.scanner p)) p)) ->
  (forall p,
      R p (Parser.mk (Parser.scanner p) (Parser.token p) (Parser.imports p)
             (Parser.diagnostics p) (Parser.parsingContext p) (Parser.cancellationToken p)
             (Some (Parser.nextTagMap p)) (Parser.tagsOffset p) (Parser.sinks p)
             (Parser.nextSink p) (<[Parser.nextTagMap p := ∅]> (Parser.tagMaps p))
             (S (Parser.nextTagMap p)) (Parser.polls p) (Parser.nextNodeId p))) ->
  (forall p m, R p (Parser.set_tagMaps m p)) ->
  ensures R Rt nextToken.
Proof using R_refl R_trans Rt_refl Rt_trans.
  intros Hpolls Hscan Htoken Hdrain Hnew Htags.
  assert (Hb : forall A B (m : P A) (f : A -> P B),
             ensures R Rt m -> (forall a, ensures R Rt (f a)) -> ensures R Rt (bind m f)).
  { intros. apply ensures_bind; assumption. }
  unfold nextToken, getStartPos.
  apply Hb.
  { intros p r p' H. apply scan_inv in H as [(-> & ->)|(polls' & -> & ->)].
    - apply Rt_refl.
    - eapply R_trans; [apply (Hpolls p polls')|].
      apply (Hscan (Parser.set_polls polls' p)). }
  intros token. apply Hb; [apply ensures_modify; intros q; apply Htoken|intros _].
  apply Hb.
  { intros p r p' H. unfold getHtmlTrivia, bind, gets, modify, ret in H.
    injection H as <- <-. apply Hdrain. }
  intros raw. destruct (trimTrivia raw) as [htmlTrivia|];
    [|apply ensures_gets; assumption].
  apply Hb; [apply ensures_gets; assumption|intros tags].
  apply Hb.
  { destruct tags; [apply ensures_ret; assumption|].
    intros p r p' [= <- <-]. apply Hnew. }
  intros ref. apply Hb; [apply ensures_gets; assumption|intros startPos].
  apply Hb; [|intros _; apply ensures_gets; assumption].
  apply ensures_modify. intros p. apply Htags.
Qed.

(** [finishNode] only writes to the tag maps. *)
Lemma ensures_finishNode node fullStart :
  (forall p m, R p (Parser.set_tagMaps m p)) ->
  ensures R Rt (finishNode node fullStart).
Proof using R_refl R_trans Rt_refl Rt_trans.
  intros Htags. unfold finishNode, getStartPos.
  apply ensures_bind; try assumption; [apply ensures_gets; assumption|intros end_].
  apply ensures_bind; try assumption; [apply ensures_gets; assumption|intros tags].
  apply ensures_bind; try assumption; [|intros; apply ensures_ret; assumption].
  destruct tags as [ref|]; [|apply ensures_ret; assumption].
  intros p r p' H. destruct (attachHtmlTrivia _ _) as [n' m'].
  injection H as <- <-. apply Htags.
Qed.

End StepFacts.

(** ** The parsing context is kept by every method that returns *)

Lemma keepsContext_refl p : keepsContext p p.
Proof. reflexivity. Qed.

Lemma keepsContext_trans p q r : keepsContext p q -> keepsContext q r -> keepsContext p r.
Proof. unfold keepsContext. congruence. Qed.

Lemma anyState_refl p : anyState p p.
Proof. exact I. Qed.

Lemma anyState_trans p q r : keepsContext p q -> anyState q r -> anyState p r.
Proof. intros _ _. exact I. Qed.

Create HintDb kctx discriminated.
#[local] Hint Resolve keepsContext_refl keepsContext_trans anyState_refl anyState_trans : kctx.

(** Steps through a computation that returned: each [gets] and [modify] is
    replaced by what it did. *)
Ltac step_Ok H :=
  repeat match type of H with
    | bind _ _ _ = (Ok _, _) =>
        let a := fresh "a" in let q := fresh "q" in let E := fresh "E" in
        apply bind_Ok_inv in H as (a & q & E & H);
        try (unfold gets, modify, ret in E; injection E as <- <-)
    end.

Lemma nextToken_keepsContext : ensures keepsContext anyState nextToken.
Proof. apply ensures_nextToken; eauto with kctx; intros; reflexivity. Qed.

Lemma finishNode_keepsContext node fullStart :
  ensures keepsContext anyState (finishNode node fullStart).
Proof. apply ensures_finishNode; eauto with kctx; intros; reflexivity. Qed.

Lemma new_node_keepsContext kind text children :
  ensures keepsContext anyState (new_node kind text children).
Proof. intros p r p' [= <- <-]. reflexivity. Qed.

Lemma report_keepsContext pos message : ensures keepsContext anyState (report pos message).
Proof. intros p r p' [= <- <-]. reflexivity. Qed.

Lemma addImport_keepsContext text :
  ensures keepsContext anyState
    (modify (fun p => Parser.set_imports (Parser.imports p ++ [text]) p)).
Proof. intros p r p' [= <- <-]. reflexivity. Qed.

Lemma poll_keepsContext tok :
  ensures keepsContext anyState (throwIfCancellationRequested tok).
Proof. apply ensures_poll; eauto with kctx; intros; reflexivity. Qed.

(** [parseList] puts back the context it found, whatever the elements did
    to it. *)
Lemma parseList_with_keepsContext fuel parseElement listContext result :
  ensures keepsContext anyState (parseList_with fuel parseElement listContext result).
Proof.
  intros p r p' H. destruct r as [a|e]; [|exact I].
  unfold parseList_with in H. step_Ok H.
  unfold ret in H. injection H as _ <-. reflexivity.
Qed.

(** So does [lookahead]. *)
Lemma lookahead_keepsContext {T} `{JsTruthy T} (fn : P T) :
  ensures keepsContext anyState (lookahead fn).
Proof.
  intros p r p' H0. destruct r as [a|e]; [|exact I].
  unfold lookahead, speculate in H0. step_Ok H0.
  unfold ret in H0. injection H0 as _ <-.
  rewrite orb_true_r in E0. unfold when, bind, modify in E0.
  injection E0 as _ <-. reflexivity.
Qed.

#[local] Hint Resolve nextToken_keepsContext finishNode_keepsContext new_node_keepsContext
  report_keepsContext addImport_keepsContext poll_keepsContext : kctx.

Lemma parser_keepsContext n c :
  ensures keepsContext anyState (k_parseElement (parser n) c).
Proof.
  apply parser_ensures; eauto with kctx.
  - intros. apply parseList_with_keepsContext.
  - intros. apply lookahead_keepsContext.
Qed.

(** ** Every method reports through the parser's and the scanner's sink only *)

Lemma withinTargets_refl p : withinTargets p p.
Proof. split; [intros ref _ _; reflexivity|split; reflexivity]. Qed.

Lemma withinTargets_trans p q r : withinTargets p q -> withinTargets q r -> withinTargets p r.
Proof.
  intros [Hpq [Hd Hs]] [Hqr [Hd' Hs']]. split.
  - intros ref H1 H2. rewrite Hqr, Hpq; congruence.
  - split; congruence.
Qed.

Lemma sinkFrame_refl p : sinkFrame p p.
Proof. intros ref _ _. reflexivity. Qed.

Lemma sinkFrame_trans p q r : withinTargets p q -> sinkFrame q r -> sinkFrame p r.
Proof.
  intros [Hpq [Hd Hs]] Hqr ref H1 H2. rewrite Hqr, Hpq; congruence.
Qed.

Create HintDb targets discriminated.
#[local] Hint Resolve withinTargets_refl withinTargets_trans sinkFrame_refl sinkFrame_trans
  : targets.

(** A step that leaves the sinks and both targets alone. *)
Lemma withinTargets_same p p' :
  Parser.sinks p' = Parser.sinks p ->
  Parser.diagnostics p' = Parser.diagnostics p ->
  Scanner.diagnostics (Parser.scanner p') = Scanner.diagnostics (Parser.scanner p) ->
  withinTargets p p'.
Proof.
  intros Hs Hd Hsc. split; [|split; assumption]. intros ref _ _. rewrite Hs. reflexivity.
Qed.

Lemma report_other d pos message sinks ref :
  d <> DiagnosticMessages.Sink ref ->
  DiagnosticMessages.report d pos message sinks !! ref = sinks !! ref.
Proof.
  destruct d as [|r]; simpl; [reflexivity|]. intros Hne.
  apply lookup_insert_ne. congruence.
Qed.

Lemma report_all_other d pos errors sinks ref :
  d <> DiagnosticMessages.Sink ref ->
  fold_left (fun sinks e => DiagnosticMessages.report d pos e sinks) errors sinks !! ref
  = sinks !! ref.
Proof.
  intros Hne. revert sinks. induction errors as [|e errors IH]; intros sinks; simpl.
  - reflexivity.
  - rewrite IH. apply report_other, Hne.
Qed.

Lemma advance_diagnostics sc :
  Scanner.diagnostics (Scanner.advance sc).1 = Scanner.diagnostics sc.
Proof. unfold Scanner.advance. destruct (Scanner.rest sc); reflexivity. Qed.

Lemma nextToken_reportsToTargets : reportsToTargets nextToken.
Proof.
  apply ensures_nextToken; eauto with targets;
    try (intros; apply withinTargets_same; reflexivity).
  intros p sc. split.
  - intros ref _ Hsc. simpl. apply report_all_other.
    subst sc. rewrite advance_diagnostics. exact Hsc.
  - split; [reflexivity|]. simpl. apply advance_diagnostics.
Qed.

Lemma finishNode_reportsToTargets node fullStart : reportsToTargets (finishNode node fullStart).
Proof.
  apply ensures_finishNode; eauto with targets.
  intros; apply withinTargets_same; reflexivity.
Qed.

Lemma new_node_reportsToTargets kind text children :
  reportsToTargets (new_node kind text children).
Proof. intros p r p' [= <- <-]. apply withinTargets_same; reflexivity. Qed.

Lemma report_reportsToTargets pos message : reportsToTargets (report pos message).
Proof.
  intros p r p' [= <- <-]. split; [|split; reflexivity].
  intros ref Hd _. simpl. apply report_other, Hd.
Qed.

Lemma addImport_reportsToTargets text :
  reportsToTargets (modify (fun p => Parser.set_imports (Parser.imports p ++ [text]) p)).
Proof. intros p r p' [= <- <-]. apply withinTargets_same; reflexivity. Qed.

Lemma poll_reportsToTargets tok : reportsToTargets (throwIfCancellationRequested tok).
Proof.
  apply ensures_poll; eauto with targets. intros; apply withinTargets_same; reflexivity.
Qed.

Ltac targets_step :=
  lazymatch goal with
  | |- ensures _ _ nextToken => apply nextToken_reportsToTargets
  | |- ensures _ _ (finishNode _ _) => apply finishNode_reportsToTargets
  | |- ensures _ _ (new_node _ _ _) => apply new_node_reportsToTargets
  | |- ensures _ _ (report _ _) => apply report_reportsToTargets
  | |- ensures _ _ (throwIfCancellationRequested _) => apply poll_reportsToTargets
  | |- ensures _ _ (modify _) => apply addImport_reportsToTargets
  | |- withinTargets _ _ =>
      first [ apply withinTargets_refl | eapply withinTargets_trans; eassumption ]
  | |- sinkFrame _ _ =>
      first [ apply sinkFrame_refl | eapply sinkFrame_trans; eassumption ]
  end.
Ltac targets := first [ targets_step | intro; targets ].

Lemma parseList_with_reportsToTargets fuel parseElement listContext result :
  (forall c, reportsToTargets (parseElement c)) ->
  reportsToTargets (parseList_with fuel parseElement listContext result).
Proof.
  intros Hpe. apply parseList_with_ensures_from_steps; try targets.
  - intros c p r p' [= <- <-]. apply withinTargets_same; reflexivity.
  - apply Hpe.
Qed.

(** What is reported while both targets are the discard sink reaches no
    sink at all. *)
Lemma speculationStart_sinks p q :
  sinkFrame (speculationStart p) q -> Parser.sinks q = Parser.sinks p.
Proof.
  intros Hq. apply map_eq. intros ref. apply (Hq ref); simpl; discriminate.
Qed.

(** The run of [speculate] around a callback that returns. *)
Lemma speculate_returns {T} `{JsTruthy T} (fn : P T) isLookahead p result p1 :
  fn (speculationStart p) = (Ok result, p1) ->
  exists p',
    speculate fn isLookahead p = (Ok result, p') /\
    Parser.sinks p' = Parser.sinks p1 /\
    sameTargets p p' /\
    (if negb (js_truthy result) || isLookahead
     then Parser.token p' = Parser.token p /\
          Parser.parsingContext p' = Parser.parsingContext p /\
          scannerPosition p' = scannerPosition p
     else Parser.token p' = Parser.token p1 /\
          Parser.parsingContext p' = Parser.parsingContext p1 /\
          scannerPosition p' = scannerPosition p1).
Proof.
  intros Hfn. unfold speculate, Scanner_speculate, bind, gets, modify, ret.
  match goal with |- context [fn ?s] => change s with (speculationStart p) end.
  rewrite Hfn. unfold when.
  destruct (negb (js_truthy result) || isLookahead) eqn:Eb;
    cbv beta iota delta [ret]; rewrite ?Eb; cbv beta iota delta [ret];
    eexists; (split; [reflexivity|]); repeat split.
Qed.

(** A callback that throws: the exception passes through [speculate], which
    has no handler. *)
Lemma speculate_throws {T} `{JsTruthy T} (fn : P T) isLookahead p e p1 :
  fn (speculationStart p) = (Throw e, p1) ->
  speculate fn isLookahead p = (Throw e, p1).
Proof.
  intros Hfn. unfold speculate, Scanner_speculate, bind, gets, modify, ret.
  match goal with |- context [fn ?s] => change s with (speculationStart p) end.
  rewrite Hfn. reflexivity.
Qed.

Lemma lookahead_reportsToTargets {T} `{JsTruthy T} (fn : P T) :
  reportsToTargets fn -> reportsToTargets (lookahead fn).
Proof.
  intros Hfn p r p' Hrun. unfold lookahead in Hrun.
  destruct (fn (speculationStart p)) as [[result|e] p1] eqn:E.
  - destruct (speculate_returns fn true p result p1 E) as (q & Hq & Hsinks & Htargets & _).
    rewrite Hq in Hrun. injection Hrun as <- <-.
    split; [|exact Htargets]. intros ref _ _. rewrite Hsinks.
    rewrite (speculationStart_sinks p p1); [reflexivity|].
    apply (Hfn _ _ _ E).
  - rewrite (speculate_throws fn true p e p1 E) in Hrun. injection Hrun as <- <-.
    intros ref _ _. rewrite (speculationStart_sinks p p1); [reflexivity|].
    apply (Hfn _ _ _ E).
Qed.

Lemma parser_reportsToTargets n c : reportsToTargets (k_parseElement (parser n) c).
Proof.
  apply parser_ensures; try targets.
  - intros. apply parseList_with_reportsToTargets. assumption.
  - intros. apply lookahead_reportsToTargets. assumption.
Qed.

Lemma nextTokenIsArgument_reportsToTargets : reportsToTargets nextTokenIsArgument.
Proof.
  unfold nextTokenIsArgument. apply ensures_bind; try targets.
  intros _. apply ensures_bind; try targets.
  - apply ensures_gets. targets.
  - intros token. apply ensures_ret. targets.
Qed.

(** C1.  [lookahead(fn)] and [tryParse(fn)] run [fn] with both diagnostics
    targets, the parser's and the scanner's, set to the discard sink.  For
    every callback that reports through these targets and every parser
    state in which it returns: after [lookahead(fn)] the current token, the
    parsing context and the scanner position are the ones before the call;
    after [tryParse(fn)] they are the ones before the call when the result
    is falsy and the ones the callback left when it is truthy; in both, the
    result is the callback's, every diagnostic sink holds what it held
    before the call, and the two targets are back in place. *)
Theorem speculation_is_discarded {T} `{JsTruthy T} (fn : P T) (p p1 : Parser) (result : T) :
  reportsToTargets fn ->
  fn (speculationStart p) = (Ok result, p1) ->
  (exists p',
      lookahead fn p = (Ok result, p') /\
      Parser.token p' = Parser.token p /\
      Parser.parsingContext p' = Parser.parsingContext p /\
      scannerPosition p' = scannerPosition p /\
      Parser.sinks p' = Parser.sinks p /\
      sameTargets p p') /\
  (exists p',
      tryParse fn p = (Ok result, p') /\
      (if js_truthy result
       then Parser.token p' = Parser.token p1 /\
            Parser.parsingContext p' = Parser.parsingContext p1 /\
            scannerPosition p' = scannerPosition p1
       else Parser.token p' = Parser.token p /\
            Parser.parsingContext p' = Parser.parsingContext p /\
            scannerPosition p' = scannerPosition p) /\
      Parser.sinks p' = Parser.sinks p /\
      sameTargets p p').
Proof.
  intros Hfn Hrun.
  pose proof (speculationStart_sinks p p1) as Hsinks.
  specialize (Hfn _ _ _ Hrun). simpl in Hfn. destruct Hfn as [Hframe _].
  specialize (Hsinks Hframe).
  split.
  - destruct (speculate_returns fn true p result p1 Hrun) as (p' & Hp' & Hs & Ht & Hrest).
    rewrite orb_true_r in Hrest. destruct Hrest as (Htok & Hctx & Hpos).
    exists p'. unfold lookahead. repeat split; try assumption; try apply Ht.
    congruence.
  - destruct (speculate_returns fn false p result p1 Hrun) as (p' & Hp' & Hs & Ht & Hrest).
    rewrite orb_false_r in Hrest.
    exists p'. unfold tryParse. split; [exact Hp'|].
    split; [destruct (js_truthy result); exact Hrest|].
    split; [congruence|exact Ht].
Qed.

Lemma speculation_is_discarded_witness :
  let p := midParse in
  let p1 := (nextTokenIsArgument (speculationStart p)).2 in
  (exists p',
      lookahead nextTokenIsArgument p = (Ok false, p') /\
      Parser.token p' = Parser.token p /\
      Parser.parsingContext p' = Parser.parsingContext p /\
      scannerPosition p' = scannerPosition p /\
      Parser.sinks p' = Parser.sinks p /\
      sameTargets p p') /\
  (exists p',
      tryParse nextTokenIsArgument p = (Ok false, p') /\
      (if js_truthy false
       then Parser.token p' = Parser.token p1 /\
            Parser.parsingContext p' = Parser.parsingContext p1 /\
            scannerPosition p' = scannerPosition p1
       else Parser.token p' = Parser.token p /\
            Parser.parsingContext p' = Parser.parsingContext p /\
            scannerPosition p' = scannerPosition p) /\
      Parser.sinks p' = Parser.sinks p /\
      sameTargets p p').
Proof.
  intros p p1.
  apply (speculation_is_discarded nextTokenIsArgument p p1 false).
  - exact nextTokenIsArgument_reportsToTargets.
  - vm_compute. reflexivity.
Defined.

(** ** The list loop follows the policy of its context *)

Lemma agree_refl {A} c (m : P A) : agree c m m.
Proof. intros p _. reflexivity. Qed.

Lemma agree_bind {A B} c (m m' : P A) (f f' : A -> P B) :
  agree c m m' ->
  ensures keepsContext anyState m ->
  (forall a, agree c (f a) (f' a)) ->
  agree c (bind m f) (bind m' f').
Proof.
  intros Hm Hkeeps Hf p Hp. unfold bind. rewrite <- (Hm p Hp).
  destruct (m p) as [[a|e] q] eqn:E; [|reflexivity].
  apply Hf. specialize (Hkeeps _ _ _ E). simpl in Hkeeps.
  unfold keepsContext in Hkeeps. congruence.
Qed.

(** The per-context methods read the table. *)
Lemma shouldParseElement_policy c : agree c shouldParseElement (elementStarts (policy_of c)).
Proof.
  intros p <-. unfold shouldParseElement, elementStarts, gets.
  destruct (Parser.parsingContext p); reflexivity.
Qed.

Lemma recover_policy c : agree c recover (skipToRecovery (policy_of c)).
Proof.
  intros p <-. unfold recover. unfold bind at 1. unfold gets at 1. cbv beta iota.
  destruct (Parser.parsingContext p); reflexivity.
Qed.

Lemma reportDiagnostics_policy c : agree c reportDiagnostics (reportExpected (policy_of c)).
Proof.
  intros p <-. unfold reportDiagnostics. unfold bind at 1. unfold gets at 1. cbv beta iota.
  destruct (Parser.parsingContext p); reflexivity.
Qed.

Lemma closeToken_policy c :
  agree c
    (if match ListPolicy.closeToken (policy_of c) with Some _ => true | None => false end
     then if ListPolicy.consumesCloseToken (policy_of c) then parseCloseToken
          else isOnCloseToken
     else ret false)
    (matchCloseToken (policy_of c)).
Proof.
  intros p <-. unfold matchCloseToken, parseCloseToken, isOnCloseToken, bind, gets.
  destruct (Parser.parsingContext p) eqn:E;
    cbv beta iota zeta delta [policy_of ListPolicy.closeToken ListPolicy.consumesCloseToken];
    rewrite ?E; reflexivity.
Qed.

Lemma separator_policy c parsed :
  agree c
    (if match ListPolicy.separator (policy_of c) with Some _ => true | None => false end
     then parseSeparator else ret parsed)
    (match ListPolicy.separator (policy_of c) with
     | Some separator => matchSeparator separator
     | None => ret parsed
     end).
Proof.
  intros p <-. unfold matchSeparator, parseSeparator, isOnSeparator, bind, gets.
  destruct (Parser.parsingContext p) eqn:E;
    cbv beta iota zeta delta [policy_of ListPolicy.separator];
    rewrite ?E; reflexivity.
Qed.

(** The steps of the loop keep the parsing context. *)
Ltac keeps :=
  lazymatch goal with
  | |- ensures _ _ (gets _) => apply ensures_gets
  | |- ensures _ _ (ret _) => apply ensures_ret
  | |- ensures _ _ shouldParseElement => apply ensures_gets
  | |- ensures _ _ isOnCloseToken => apply ensures_gets
  | |- ensures _ _ isEOF => apply ensures_gets
  | |- ensures _ _ (bind _ _) => apply ensures_bind
  | |- ensures _ _ (skipWhitespace _) => apply skipWhitespace_ensures
  | |- ensures _ _ recover => apply recover_ensures
  | |- ensures _ _ reportDiagnostics => apply reportDiagnostics_ensures
  | |- ensures _ _ parseCloseToken => apply parseCloseToken_ensures
  | |- ensures _ _ parseSeparator => apply parseSeparator_ensures
  | |- ensures _ _ (parseList_iteration _ _ _ _ _ _ _) => apply parseList_iteration_ensures
  | |- ensures _ _ (if ?b then _ else _) => destruct b
  | |- ensures _ _ (match ?x with _ => _ end) => destruct x
  | |- forall _, _ => intro
  | |- _ => solve [eauto with kctx]
  end.

Lemma parseList_iteration_by_policy c parseElement result :
  (forall c', ensures keepsContext anyState (parseElement c')) ->
  agree c
    (parseList_iteration parseElement c
       match ListPolicy.closeToken (policy_of c) with Some _ => true | None => false end
       match ListPolicy.separator (policy_of c) with Some _ => true | None => false end
       (ListPolicy.consumesCloseToken (policy_of c))
       (ListPolicy.insignificant (policy_of c)) result)
    (iteration_by_policy (policy_of c) (parseElement c) result).
Proof.
  intros Hpe.
  unfold parseList_iteration, iteration_by_policy, iteration_upto_close.
  apply agree_bind; [apply agree_refl|solve [repeat keeps]|intros ct].
  apply agree_bind; [apply agree_refl|solve [repeat keeps]|intros _].
  apply agree_bind; [apply agree_refl|solve [repeat keeps]|intros _].
  apply agree_bind; [apply shouldParseElement_policy|solve [repeat keeps]|intros starts].
  apply agree_bind.
  - destruct starts; [|apply agree_refl].
    apply agree_bind; [apply agree_refl|apply Hpe|intros [element|]].
    + apply agree_refl.
    + apply agree_bind; [apply recover_policy|solve [repeat keeps]|intros _; apply agree_refl].
  - solve [repeat keeps].
  - intros [parsed result'].
    apply agree_bind; [apply closeToken_policy|solve [repeat keeps]|intros closed].
    destruct closed; [apply agree_refl|]. unfold rest_by_policy.
    apply agree_bind; [apply separator_policy|solve [repeat keeps]|intros separated].
    destruct separated; [apply agree_refl|]. cbn [negb].
    destruct (ListPolicy.closeToken (policy_of c)); [|apply agree_refl]. cbn [negb].
    apply agree_bind; [apply reportDiagnostics_policy|solve [repeat keeps]|intros _].
    apply agree_bind; [apply recover_policy|solve [repeat keeps]|intros _; apply agree_refl].
Qed.

Lemma parseList_loop_by_policy fuel c parseElement result :
  (forall c', ensures keepsContext anyState (parseElement c')) ->
  agree c
    (parseList_loop fuel parseElement c
       match ListPolicy.closeToken (policy_of c) with Some _ => true | None => false end
       match ListPolicy.separator (policy_of c) with Some _ => true | None => false end
       (ListPolicy.consumesCloseToken (policy_of c))
       (ListPolicy.insignificant (policy_of c)) result)
    (loop_by_policy fuel (policy_of c) (parseElement c) result).
Proof.
  intros Hpe. revert result. induction fuel as [|fuel IH]; intros result; simpl.
  - apply agree_refl.
  - apply agree_bind; [apply agree_refl|solve [repeat keeps]|intros eof].
    destruct eof; [apply agree_refl|].
    apply agree_bind;
      [apply parseList_iteration_by_policy, Hpe|solve [repeat keeps]|intros [result' continue]].
    destruct continue; [apply IH|apply agree_refl].
Qed.

Lemma parseList_with_by_policy fuel parseElement c result p :
  (forall c', ensures keepsContext anyState (parseElement c')) ->
  parseList_with fuel parseElement c result p
  = parseList_by_policy fuel (policy_of c) (parseElement c) c result p.
Proof.
  intros Hpe.
  pose proof (parseList_loop_by_policy fuel c parseElement result Hpe
                (Parser.set_parsingContext c p) eq_refl) as Hloop.
  unfold parseList_with, parseList_by_policy, hasCloseToken, hasSeparator,
    shouldConsumeCloseToken, shouldSkipWhitespace.
  unfold bind at 1 2 3 4 5 6 7. unfold bind at 3 4 5. unfold gets, modify. cbv beta iota.
  cbn [Parser.parsingContext Parser.set_parsingContext].
  destruct c; cbn in Hloop |- *; rewrite Hloop; reflexivity.
Qed.

(** C2.  For every parsing context, [parseList] runs the loop told by the
    policy of that context: each iteration skips the whitespace the policy
    marks insignificant; if the token starts an element it parses the
    element, appends it on success and skips to the context's recovery
    tokens on failure; it stops at the context's close token, consuming it
    exactly when the policy says so; otherwise it goes on after a separator
    (or, in a context without separator, after an element), and else ends
    the list silently in a context without close token and, in a context
    with one, reports the context's expected-tokens diagnostic and skips to
    the recovery tokens. *)
Theorem parseList_follows_policy fuel n c result p :
  parseList fuel (parser n) c result p
  = parseList_by_policy fuel (policy_of c) (k_parseElement (parser n) c) c result p.
Proof.
  unfold parseList. apply parseList_with_by_policy. intros c'. apply parser_keepsContext.
Qed.

(** C2, as the specification words it, fails in the context of a one-of
    symbol list, which has no close token.  At the colon of
    "A :: one of B or : C" no element, separator or close token matches:
    the parser leaves the loop and its state is untouched, with nothing
    reported and nothing skipped, where the specification has it skip to
    the identifier and go on. *)
Theorem oneOfSymbolList_ends_silently :
  let p := atColonInOneOfSymbolList in
  let parseElement := k_parseElement (parser 3) in
  Parser.token p = SyntaxKind.ColonToken /\
  parseList_iteration parseElement ParsingContext.OneOfSymbolList false true true
    SkipWhitespace.None_ None p = (Ok (None, false), p) /\
  (exists p',
      iteration_as_claimed (policy_of ParsingContext.OneOfSymbolList)
        (parseElement ParsingContext.OneOfSymbolList) None p = (Ok (None, true), p') /\
      Parser.token p' = SyntaxKind.Identifier) /\
  parseList_iteration parseElement ParsingContext.OneOfSymbolList false true true
    SkipWhitespace.None_ None p
  <> iteration_as_claimed (policy_of ParsingContext.OneOfSymbolList)
       (parseElement ParsingContext.OneOfSymbolList) None p.
Proof.
  cbv zeta. split; [vm_compute; reflexivity|].
  split; [vm_compute; reflexivity|].
  split; [eexists; split; vm_compute; reflexivity|].
  vm_compute. discriminate.
Qed.

(** * Further properties of the symbol tables *)

Section MoreSymbolTableFacts.
Implicit Types (t : SymbolTable) (h : SymbolHeap) (k : SymbolKind) (n : string).

Lemma isEmpty_getSymbols_create k t :
  SymbolTable.isEmpty (SymbolTable.getSymbols k true t).2 = false.
Proof.
  destruct (getSymbols_create_nameMap k t) as [nm Hnm].
  unfold SymbolTable.isEmpty. rewrite Hnm. done.
Qed.

Lemma isEmpty_setSymbol k n s t :
  SymbolTable.isEmpty (SymbolTable.setSymbol k n s t) = SymbolTable.isEmpty t.
Proof. unfold SymbolTable.isEmpty, SymbolTable.setSymbol. destruct t as [[nm|]]; done. Qed.

(** A second look-up with [create] finds the maps the first one made. *)
Lemma getSymbols_again k n s t :
  (SymbolTable.getSymbols k true
     (SymbolTable.setSymbol k n s (SymbolTable.getSymbols k true t).2)).2
  = SymbolTable.setSymbol k n s (SymbolTable.getSymbols k true t).2.
Proof.
  unfold SymbolTable.getSymbols, SymbolTable.setSymbol.
  destruct t as [[nm|]]; simpl.
  - destruct (nm !! k) eqn:E; simpl.
    + rewrite E. simpl. rewrite lookup_insert_eq. done.
    + rewrite lookup_insert_eq. simpl. rewrite lookup_insert_eq. done.
  - rewrite lookup_singleton_eq. simpl. rewrite lookup_insert_eq. done.
Qed.

Lemma getSymbols_listed k n s t :
  entry k n t = Some s -> (SymbolTable.getSymbols k true t).2 = t.
Proof.
  unfold entry, SymbolTable.getSymbols. destruct t as [[nm|]]; simpl; [|done].
  destruct (nm !! k); simpl; done.
Qed.

Lemma symbolObjects_set_parent s p h s' :
  symbolObjects (set_parent s p h) !! s' =
  if decide (s = s') then Symbol.with_parent p <$> symbolObjects h !! s
  else symbolObjects h !! s'.
Proof.
  unfold set_parent. simpl. destruct (decide (s = s')) as [->|Hne].
  - apply lookup_alter_eq.
  - apply lookup_alter_ne. done.
Qed.

Lemma heap_wf_initial : heap_wf initialSymbolHeap.
Proof. intros i [x Hx]. unfold initialSymbolHeap in Hx. simpl in Hx. done. Qed.

Lemma heap_wf_set_parent s p h : heap_wf h -> heap_wf (set_parent s p h).
Proof.
  intros Hwf i [x Hx]. rewrite symbolObjects_set_parent in Hx. apply Hwf.
  destruct (decide (s = i)) as [->|_]; [|eauto].
  destruct (symbolObjects h !! i); [eauto|done].
Qed.

Lemma heap_wf_new_Symbol k n h : heap_wf h -> heap_wf (new_Symbol k n h).2.
Proof.
  intros Hwf i [x Hx]. unfold new_Symbol in *. simpl in *.
  destruct (decide (i = S (nextSymbolId h))) as [->|Hne]; [lia|].
  rewrite lookup_insert_ne in Hx by done. specialize (Hwf i (mk_is_Some _ _ Hx)). lia.
Qed.

Lemma heap_wf_declareSymbol name k p t h :
  heap_wf h -> heap_wf (SymbolTable.declareSymbol name k p t h).2.
Proof.
  intros Hwf. destruct (truthy_opt name) eqn:Hname.
  - destruct name as [n|]; [|done]. simpl in Hname.
    rewrite (declareSymbol_named _ _ _ _ _ Hname).
    destruct (entry k n t); cbn [snd]; apply heap_wf_set_parent;
      [exact Hwf|apply heap_wf_new_Symbol, Hwf].
  - rewrite (declareSymbol_unnamed _ _ _ _ _ Hname). cbn [snd].
    apply heap_wf_set_parent, heap_wf_new_Symbol, Hwf.
Qed.

End MoreSymbolTableFacts.

(** X1.  After [declareSymbol] with a usable name the table resolves that
    name and kind to the returned symbol and is no longer empty, every other
    name or kind resolves as before, and a second declaration of the name
    returns the same symbol without changing the table or creating a
    symbol. *)
Theorem declareSymbol_then_resolveSymbol
    (name : string) (kind : SymbolKind) (parent parent' : option nat)
    (t : SymbolTable) (h : SymbolHeap) :
  truthy name = true ->
  let r := SymbolTable.declareSymbol (Some name) kind parent t h in
  let r' := SymbolTable.declareSymbol (Some name) kind parent' r.1.2 r.2 in
  SymbolTable.resolveSymbol name kind r.1.2 = Some r.1.1 /\
  SymbolTable.isEmpty r.1.2 = false /\
  (forall name' kind',
      (kind', name') <> (kind, name) ->
      SymbolTable.resolveSymbol name' kind' r.1.2 = SymbolTable.resolveSymbol name' kind' t) /\
  r'.1.1 = r.1.1 /\
  r'.1.2 = r.1.2 /\
  nextSymbolId r'.2 = nextSymbolId r.2.
Proof.
  intros Hname. cbv zeta.
  assert (Hres : entry kind name (SymbolTable.declareSymbol (Some name) kind parent t h).1.2
                 = Some (SymbolTable.declareSymbol (Some name) kind parent t h).1.1).
  { rewrite declareSymbol_entry. rewrite (declareSymbol_named _ _ _ _ _ Hname).
    destruct (entry kind name t) as [s|] eqn:E; simpl; [done|].
    rewrite decide_True; [done|]. simpl. rewrite Hname. done. }
  split; [rewrite resolveSymbol_entry, Hname; exact Hres|].
  split.
  { rewrite (declareSymbol_named _ _ _ _ _ Hname).
    destruct (entry kind name t); simpl;
      [|rewrite isEmpty_setSymbol]; apply isEmpty_getSymbols_create. }
  split.
  { intros name' kind' Hne. rewrite !resolveSymbol_entry.
    destruct (truthy name'); [|done]. rewrite declareSymbol_entry.
    destruct (entry kind' name' t); [done|].
    rewrite decide_False; [done|]. intros (_ & -> & [= ->]). done. }
  rewrite (declareSymbol_named name kind parent' _ _ Hname), Hres. simpl.
  split; [done|]. split; [|done].
  rewrite (declareSymbol_named _ _ _ _ _ Hname).
  destruct (entry kind name t) as [s|] eqn:E; simpl.
  - rewrite (getSymbols_listed _ _ _ _ E). apply (getSymbols_listed _ _ _ _ E).
  - apply getSymbols_again.
Qed.

Lemma declareSymbol_then_resolveSymbol_witness :
  let r := SymbolTable.declareSymbol (Some "A") SymbolKind.Production None
             SymbolTable.new initialSymbolHeap in
  SymbolTable.resolveSymbol "A" SymbolKind.Production r.1.2 = Some 1 /\
  SymbolTable.resolveSymbol "A" SymbolKind.Parameter_ r.1.2 = None /\
  (SymbolTable.declareSymbol (Some "A") SymbolKind.Production (Some 7) r.1.2 r.2).1.1 = 1.
Proof.
  cbv zeta.
  destruct (declareSymbol_then_resolveSymbol "A" SymbolKind.Production None (Some 7)
              SymbolTable.new initialSymbolHeap eq_refl) as (H1 & _ & H3 & H4 & _).
  split; [exact H1|]. split; [|exact H4].
  rewrite (H3 "A" SymbolKind.Parameter_); [reflexivity|discriminate].
Defined.

(** X2.  [declareSymbol] writes one symbol object only.  A symbol that
    existed keeps its id, name and kind and ends with the [parent] passed
    in, whatever parent it had; a symbol that is created carries the name
    (or "*missing*"), the kind and the parent; every other symbol object is
    left as it was. *)
Theorem declareSymbol_sets_parent
    (name : option string) (kind : SymbolKind) (parent : option nat)
    (t : SymbolTable) (h : SymbolHeap) :
  heap_wf h ->
  (forall n s, SymbolTable.resolveSymbol n kind t = Some s -> is_Some (symbolObjects h !! s)) ->
  let r := SymbolTable.declareSymbol name kind parent t h in
  (forall old, symbolObjects h !! r.1.1 = Some old ->
               symbolObjects r.2 !! r.1.1 = Some (Symbol.with_parent parent old)) /\
  (symbolObjects h !! r.1.1 = None ->
   r.1.1 = S (nextSymbolId h) /\
   symbolObjects r.2 !! r.1.1 =
     Some (Symbol.mk r.1.1 (if truthy_opt name then default "*missing*" name else "*missing*")
             kind parent)) /\
  (forall s, s <> r.1.1 -> symbolObjects r.2 !! s = symbolObjects h !! s).
Proof.
  intros Hwf Hlisted. cbv zeta.
  assert (Hfresh : symbolObjects h !! S (nextSymbolId h) = None).
  { destruct (symbolObjects h !! S (nextSymbolId h)) eqn:E; [|done].
    specialize (Hwf (S (nextSymbolId h)) (mk_is_Some _ _ E)). lia. }
  assert (Hnew : forall n,
    let h' := set_parent (S (nextSymbolId h)) parent (new_Symbol kind n h).2 in
    symbolObjects h' !! S (nextSymbolId h)
      = Some (Symbol.mk (S (nextSymbolId h)) n kind parent) /\
    forall s, s <> S (nextSymbolId h) -> symbolObjects h' !! s = symbolObjects h !! s).
  { intros n. cbv zeta. split.
    - rewrite symbolObjects_set_parent, decide_True by done. simpl.
      rewrite lookup_insert_eq. done.
    - intros s Hs. rewrite symbolObjects_set_parent, decide_False by done. simpl.
      rewrite lookup_insert_ne by done. done. }
  assert (Hcreated : forall (n : string) (t' : SymbolTable),
    let r := (S (nextSymbolId h), t',
              set_parent (S (nextSymbolId h)) parent (new_Symbol kind n h).2) in
    (forall old, symbolObjects h !! r.1.1 = Some old ->
                 symbolObjects r.2 !! r.1.1 = Some (Symbol.with_parent parent old)) /\
    (symbolObjects h !! r.1.1 = None ->
     r.1.1 = S (nextSymbolId h) /\
     symbolObjects r.2 !! r.1.1 = Some (Symbol.mk r.1.1 n kind parent)) /\
    (forall s, s <> r.1.1 -> symbolObjects r.2 !! s = symbolObjects h !! s)).
  { intros n t'. cbv zeta. cbn [fst snd]. destruct (Hnew n) as [H1 H2].
    split; [intros old Hold; congruence|]. split; [done|exact H2]. }
  destruct (truthy_opt name) eqn:Hname.
  - destruct name as [n|]; [|done]. simpl in Hname.
    rewrite (declareSymbol_named _ _ _ _ _ Hname).
    destruct (entry kind n t) as [s|] eqn:E; [|apply Hcreated].
    cbn [fst snd].
    destruct (Hlisted n s) as [old Hold].
    { rewrite resolveSymbol_entry, Hname. exact E. }
    split; [|split].
    + intros old' Hold'. rewrite symbolObjects_set_parent, decide_True by done.
      rewrite Hold'. done.
    + congruence.
    + intros s' Hne. rewrite symbolObjects_set_parent, decide_False by done. done.
  - rewrite (declareSymbol_unnamed _ _ _ _ _ Hname). apply Hcreated.
Qed.

(** A production [A] declared under symbol 7 and again under symbol 8. *)
Lemma declareSymbol_sets_parent_witness :
  let r := SymbolTable.declareSymbol (Some "A") SymbolKind.Production (Some 7)
             SymbolTable.new initialSymbolHeap in
  let r' := SymbolTable.declareSymbol (Some "A") SymbolKind.Production (Some 8) r.1.2 r.2 in
  symbolObjects r.2 !! 1 = Some (Symbol.mk 1 "A" SymbolKind.Production (Some 7)) /\
  symbolObjects r'.2 !! 1 = Some (Symbol.mk 1 "A" SymbolKind.Production (Some 8)).
Proof.
  cbv zeta. split; [reflexivity|].
  destruct (declareSymbol_sets_parent (Some "A") SymbolKind.Production (Some 8)
              (SymbolTable.declareSymbol (Some "A") SymbolKind.Production (Some 7)
                 SymbolTable.new initialSymbolHeap).1.2
              (SymbolTable.declareSymbol (Some "A") SymbolKind.Production (Some 7)
                 SymbolTable.new initialSymbolHeap).2) as (H & _ & _).
  - apply heap_wf_declareSymbol, heap_wf_initial.
  - intros n s Hres. rewrite resolveSymbol_entry in Hres.
    destruct (truthy n); [|done]. rewrite declareSymbol_entry in Hres.
    change (entry SymbolKind.Production n SymbolTable.new) with (@None nat) in Hres.
    cbv beta iota in Hres. destruct (decide _) in Hres; [|done].
    injection Hres as <-. vm_compute. eauto.
  - exact (H _ eq_refl).
Defined.

(** X3.  After [copyFrom(other)] a name and kind that [other] resolves
    resolves to [other]'s symbol and every other one as before; copying an
    empty table, or a table into itself, changes no resolution; and the
    table is empty afterwards only if it was empty before. *)
Theorem copyFrom_resolveSymbol (other t : SymbolTable) :
  (forall name kind,
      SymbolTable.resolveSymbol name kind (SymbolTable.copyFrom other t) =
      match SymbolTable.resolveSymbol name kind other with
      | Some s => Some s
      | None => SymbolTable.resolveSymbol name kind t
      end) /\
  SymbolTable.copyFrom SymbolTable.new t = t /\
  (forall name kind,
      SymbolTable.resolveSymbol name kind (SymbolTable.copyFrom t t) =
      SymbolTable.resolveSymbol name kind t) /\
  (SymbolTable.isEmpty (SymbolTable.copyFrom other t) = true -> SymbolTable.isEmpty t = true).
Proof.
  assert (H : forall name kind,
      SymbolTable.resolveSymbol name kind (SymbolTable.copyFrom other t) =
      match SymbolTable.resolveSymbol name kind other with
      | Some s => Some s
      | None => SymbolTable.resolveSymbol name kind t
      end).
  { intros name kind. rewrite !resolveSymbol_entry.
    destruct (truthy name); [|done]. apply entry_copyFrom. }
  split; [exact H|]. split; [done|]. split.
  { intros name kind. rewrite !resolveSymbol_entry.
    destruct (truthy name); [|done]. rewrite entry_copyFrom.
    destruct (entry kind name t); done. }
  unfold SymbolTable.isEmpty, SymbolTable.copyFrom.
  destruct other as [[onm|]]; simpl; [|done].
  apply (map_fold_weak_ind (fun r _ =>
    match r with None => true | Some _ => false end = true ->
    match SymbolTable.nameMap t with None => true | Some _ => false end = true)).
  - done.
  - intros i x m r _ _. done.
Qed.

(** * Further properties of the binding table *)

Section MoreBindingTableFacts.
Implicit Types (bt : BindingTable) (s : nat) (n : Node) (sym : option nat).

Lemma getReferences_setSymbolForNode n s bt sym :
  BindingTable.getReferences sym (BindingTable.setSymbolForNode n s bt) =
  BindingTable.getReferences sym bt.
Proof. done. Qed.

Lemma getReferences_getScope c bt sym :
  BindingTable.getReferences sym (BindingTable.getScope c bt).2 =
  BindingTable.getReferences sym bt.
Proof. unfold BindingTable.getScope. destruct (_ !! c); done. Qed.

Lemma getReferences_writeScope r table bt sym :
  BindingTable.getReferences sym (BindingTable.writeScope r table bt) =
  BindingTable.getReferences sym bt.
Proof. destruct r; done. Qed.

Lemma getReferences_addReference_prefix s n bt s' :
  BindingTable.getReferences (Some s') bt
  `prefix_of` BindingTable.getReferences (Some s') (BindingTable.addReferenceToSymbol s n bt).
Proof.
  rewrite getReferences_addReference. destruct (decide (s = s')) as [->|]; [|done].
  cbv zeta. destruct (BindingTable.indexOf_is_minus1 _ _); [|done].
  apply prefix_app_r. done.
Qed.

Lemma getReferences_addDeclaration_prefix symbol node bt s' :
  BindingTable.getReferences (Some s') bt
  `prefix_of` BindingTable.getReferences (Some s')
                (BindingTable.addDeclarationToSymbol symbol node bt).
Proof.
  destruct symbol as [s|], node as [n|]; try done.
  unfold BindingTable.addDeclarationToSymbol.
  destruct (negb _); [|done]. destruct (Node.name n) as [name|]; [|done].
  etrans; [|apply getReferences_addReference_prefix]. done.
Qed.

Lemma getReferences_step_prefix op bt s :
  BindingTable.getReferences (Some s) bt
  `prefix_of` BindingTable.getReferences (Some s) (runBindingOp bt op).
Proof.
  destruct op as [node parent|node symbol|symbol node|c|r table]; cbn [runBindingOp].
  - rewrite getReferences_setParent. done.
  - destruct node as [n|], symbol as [s'|]; try done.
    unfold BindingTable.setSymbol.
    etrans; [|apply getReferences_addReference_prefix]. done.
  - apply getReferences_addDeclaration_prefix.
  - rewrite getReferences_getScope. done.
  - rewrite getReferences_writeScope. done.
Qed.

Lemma hasParent_step op bt node :
  BindingTable.hasParent node bt = true ->
  BindingTable.hasParent node (runBindingOp bt op) = true.
Proof.
  intros H.
  destruct op as [node' parent|node' symbol|symbol node'|c|r table]; cbn [runBindingOp].
  - destruct node' as [n'|], parent as [p|]; try done.
    unfold BindingTable.hasParent, BindingTable.setParent in *. simpl.
    destruct node as [n|]; [|done].
    apply bool_decide_eq_true. destruct (decide (Node.id n' = Node.id n)) as [->|Hne].
    + rewrite lookup_insert_eq. eauto.
    + rewrite lookup_insert_ne by done.
      destruct (BindingTable.parentNodes bt); [|done].
      apply bool_decide_eq_true in H. done.
  - destruct node' as [n'|], symbol as [s'|]; done.
  - destruct symbol as [s'|], node' as [n'|]; try done.
    unfold BindingTable.addDeclarationToSymbol.
    destruct (negb _); [|done]. destruct (Node.name n'); done.
  - unfold BindingTable.getScope. destruct (_ !! c); done.
  - destruct r; done.
Qed.

Lemma hasSymbol_setSymbolForNode n s bt node :
  BindingTable.hasSymbol node bt = true ->
  BindingTable.hasSymbol node (BindingTable.setSymbolForNode n s bt) = true.
Proof.
  unfold BindingTable.hasSymbol, BindingTable.setSymbolForNode. simpl.
  destruct node as [n'|]; [|done]. intros H.
  apply bool_decide_eq_true. destruct (decide (Node.id n = Node.id n')) as [->|Hne].
  - rewrite lookup_insert_eq. eauto.
  - rewrite lookup_insert_ne by done.
    destruct (BindingTable.nodeMap bt); [|done].
    apply bool_decide_eq_true in H. done.
Qed.

Lemma hasSymbol_step op bt node :
  BindingTable.hasSymbol node bt = true ->
  BindingTable.hasSymbol node (runBindingOp bt op) = true.
Proof.
  intros H.
  destruct op as [node' parent|node' symbol|symbol node'|c|r table]; cbn [runBindingOp].
  - destruct node' as [n'|], parent as [p|]; done.
  - destruct node' as [n'|], symbol as [s'|]; try done.
    apply (hasSymbol_setSymbolForNode n' s') in H. done.
  - destruct symbol as [s'|], node' as [n'|]; try done.
    unfold BindingTable.addDeclarationToSymbol.
    set (bt1 := BindingTable.mk _ _ _ _ _ _).
    assert (H1 : BindingTable.hasSymbol node bt1 = true) by done.
    apply (hasSymbol_setSymbolForNode n' s') in H1.
    destruct (negb _); [|done]. destruct (Node.name n'); done.
  - unfold BindingTable.getScope. destruct (_ !! c); done.
  - destruct r; done.
Qed.

End MoreBindingTableFacts.

(** X4.  No operation on a binding table takes anything back: whatever
    sequence of operations follows, the references and the declarations of
    every symbol keep what they held, in order, as a prefix, and a node that
    has a parent or a symbol keeps having one. *)
Theorem binding_table_only_grows (ops : list BindingOp) (bt : BindingTable) :
  let bt' := runBindingOps ops bt in
  (forall s, BindingTable.getReferences (Some s) bt
             `prefix_of` BindingTable.getReferences (Some s) bt') /\
  (forall s, BindingTable.getDeclarations (Some s) bt' =
             BindingTable.getDeclarations (Some s) bt ++ declarationSites s ops) /\
  (forall node, BindingTable.hasParent node bt = true ->
                BindingTable.hasParent node bt' = true) /\
  (forall node, BindingTable.hasSymbol node bt = true ->
                BindingTable.hasSymbol node bt' = true).
Proof.
  cbv zeta. revert bt. induction ops as [|op ops IH]; intros bt.
  - simpl. repeat split; try done. intros s. by rewrite app_nil_r.
  - change (runBindingOps (op :: ops) bt) with (runBindingOps ops (runBindingOp bt op)).
    destruct (IH (runBindingOp bt op)) as (H1 & H2 & H3 & H4).
    split; [|split; [|split]].
    + intros s. etrans; [apply getReferences_step_prefix|apply H1].
    + intros s. rewrite H2, getDeclarations_step, <- app_assoc. f_equal.
      unfold declarationSites. simpl. by rewrite app_nil_r.
    + intros node H. apply H3, hasParent_step, H.
    + intros node H. apply H4, hasSymbol_step, H.
Qed.

Lemma setParent_getParent_eq (node parent : Node) (bt : BindingTable) (n : Node) :
  BindingTable.getParent (Some n) (BindingTable.setParent (Some node) (Some parent) bt) =
  if Nat.eqb (Node.id n) (Node.id node) then Some parent
  else BindingTable.getParent (Some n) bt.
Proof.
  unfold BindingTable.getParent, BindingTable.setParent. simpl.
  destruct (Nat.eqb_spec (Node.id n) (Node.id node)) as [->|Hne].
  - apply lookup_insert_eq.
  - rewrite lookup_insert_ne by done.
    destruct (BindingTable.parentNodes bt); [done|apply lookup_empty].
Qed.

(** X5.  [setParent] and [getParent] round trip, by node id: afterwards the
    node (and any node object with its id) has the new parent and every
    other node the parent it had; [hasParent] answers accordingly; with an
    undefined node or parent [setParent] does nothing; and symbols,
    references, declarations and scopes are not touched. *)
Theorem setParent_getParent (node parent : Node) (bt : BindingTable) :
  let bt' := BindingTable.setParent (Some node) (Some parent) bt in
  (forall n, BindingTable.getParent (Some n) bt' =
             if Nat.eqb (Node.id n) (Node.id node) then Some parent
             else BindingTable.getParent (Some n) bt) /\
  (forall n, BindingTable.hasParent (Some n) bt' =
             Nat.eqb (Node.id n) (Node.id node) || BindingTable.hasParent (Some n) bt) /\
  (forall n, BindingTable.hasParent n bt' = true <-> is_Some (BindingTable.getParent n bt')) /\
  (forall p, BindingTable.setParent None p bt = bt) /\
  (forall n, BindingTable.setParent n None bt = bt) /\
  (forall n s r,
      BindingTable.getSymbol n bt' = BindingTable.getSymbol n bt /\
      BindingTable.getReferences s bt' = BindingTable.getReferences s bt /\
      BindingTable.getDeclarations s bt' = BindingTable.getDeclarations s bt /\
      BindingTable.readScope r bt' = BindingTable.readScope r bt).
Proof.
  cbv zeta. split; [|split; [|split; [|split; [|split]]]].
  - intros n. unfold BindingTable.getParent, BindingTable.setParent. simpl.
    destruct (Nat.eqb_spec (Node.id n) (Node.id node)) as [->|Hne].
    + apply lookup_insert_eq.
    + rewrite lookup_insert_ne by done.
      destruct (BindingTable.parentNodes bt); [done|apply lookup_empty].
  - intros n. unfold BindingTable.hasParent, BindingTable.setParent. simpl.
    destruct (Nat.eqb_spec (Node.id n) (Node.id node)) as [->|Hne].
    + rewrite lookup_insert_eq. apply bool_decide_eq_true. eauto.
    + rewrite lookup_insert_ne by done. simpl.
      destruct (BindingTable.parentNodes bt); [done|].
      simpl. rewrite lookup_empty. apply bool_decide_eq_false. by intros [? ?].
  - intros [n|]; unfold BindingTable.hasParent, BindingTable.getParent; simpl.
    + apply bool_decide_eq_true.
    + split; [done|]. by intros [? ?].
  - done.
  - by intros [n|].
  - intros n s r. repeat split; try done; by destruct r.
Qed.

Section AncestorFacts.
Implicit Types (bt : BindingTable) (path : list Node).

Lemma getAncestor_loop_spec bt kind path :
  forall p fuel,
    ancestors bt (Some p) path ->
    length (p :: path) < fuel ->
    exists result,
      BindingTable.getAncestor_loop fuel (Some p) kind bt = Ok result /\
      match result with
      | Some a =>
          exists before after,
            p :: path = before ++ a :: after /\
            (Node.kind a =k kind) = true /\
            Forall (fun q => (Node.kind q =k kind) = false) before
      | None => Forall (fun q => (Node.kind q =k kind) = false) (p :: path)
      end.
Proof.
  induction path as [|q path IH]; intros p fuel Hanc Hfuel;
    (destruct fuel as [|fuel]; [simpl in Hfuel; lia|]);
    cbn [BindingTable.getAncestor_loop];
    destruct (Node.kind p =k kind) eqn:Hk;
    try (exists (Some p); split; [done|]; eexists [], _;
         split; [reflexivity|]; split; [exact Hk|constructor]).
  - inversion Hanc as [node Hnone|]; subst. rewrite Hnone.
    destruct fuel as [|fuel]; [simpl in Hfuel; lia|]. cbn [BindingTable.getAncestor_loop].
    exists None. split; [done|]. apply Forall_cons. done.
  - inversion Hanc as [|node q' path' Hq Hanc']; subst. rewrite Hq.
    destruct (IH q fuel Hanc') as (result & Hres & Hspec); [simpl in *; lia|].
    exists result. split; [exact Hres|].
    destruct result as [a|].
    + destruct Hspec as (before & after & Heq & Ha & Hbefore).
      exists (p :: before), after. rewrite Heq. split; [done|]. split; [done|].
      apply Forall_cons. done.
    + apply Forall_cons. done.
Qed.

End AncestorFacts.

(** X6.  [getAncestor(node, kind)] returns the nearest node of that kind on
    the chain of parents of [node]: the node it returns is on the chain and
    has the kind, no node before it on the chain has, and it returns none
    exactly when no node on the chain has the kind.  The node itself is not
    looked at. *)
Theorem getAncestor_nearest
    (bt : BindingTable) (node : option Node) (kind : SyntaxKind) (path : list Node)
    (fuel : nat) :
  ancestors bt node path ->
  length path < fuel ->
  exists result,
    BindingTable.getAncestor fuel node kind bt = Ok result /\
    match result with
    | Some a =>
        exists before after,
          path = before ++ a :: after /\
          (Node.kind a =k kind) = true /\
          Forall (fun q => (Node.kind q =k kind) = false) before
    | None => Forall (fun q => (Node.kind q =k kind) = false) path
    end.
Proof.
  intros Hanc Hfuel. unfold BindingTable.getAncestor.
  inversion Hanc as [node' Hnone|node' p path' Hp Hanc']; subst.
  - rewrite Hnone. destruct fuel as [|fuel]; [simpl in Hfuel; lia|].
    cbn [BindingTable.getAncestor_loop]. exists None. done.
  - rewrite Hp. apply getAncestor_loop_spec; done.
Qed.

(** In the bound tree of [A(a) : ...]: the production is the nearest
    ancestor of its kind of the parameter's name, three parents up. *)
Lemma getAncestor_nearest_witness :
  let bt := Binder.bindings (Binder.bindSourceFile sampleTree freshBinder).2 in
  BindingTable.getAncestor 5 (Some sampleParameterName) SyntaxKind.Production bt
  = Ok (Some sampleProduction).
Proof.
  intros bt. vm_compute in bt.
  destruct (getAncestor_nearest bt (Some sampleParameterName) SyntaxKind.Production
              [sampleParameter; sampleParameterList; sampleProduction;
               SourceFile.node sampleTree] 5) as (result & Hres & _).
  - repeat (eapply ancestors_parent; [reflexivity|]). apply ancestors_none. reflexivity.
  - simpl. lia.
  - rewrite Hres. vm_compute in Hres. injection Hres as <-. reflexivity.
Defined.

Section SetSymbolFacts.
Implicit Types (bt : BindingTable) (n : Node).

Lemma getSymbol_setSymbolForNode node symbol bt n :
  BindingTable.getSymbol (Some n) (BindingTable.setSymbolForNode node symbol bt) =
  if Nat.eqb (Node.id n) (Node.id node) then Some symbol
  else BindingTable.getSymbol (Some n) bt.
Proof.
  unfold BindingTable.getSymbol, BindingTable.setSymbolForNode. simpl.
  destruct (Nat.eqb_spec (Node.id n) (Node.id node)) as [->|Hne].
  - apply lookup_insert_eq.
  - rewrite lookup_insert_ne by done.
    destruct (BindingTable.nodeMap bt); [done|apply lookup_empty].
Qed.

Lemma getSymbol_addReference symbol node bt sym :
  BindingTable.getSymbol sym (BindingTable.addReferenceToSymbol symbol node bt) =
  BindingTable.getSymbol sym bt.
Proof. done. Qed.

Lemma indexOf_is_minus1_app node (l : list Node) :
  BindingTable.indexOf_is_minus1 node (l ++ [node]) = false.
Proof.
  unfold BindingTable.indexOf_is_minus1. rewrite existsb_app. simpl.
  unfold Node.same at 2. rewrite Nat.eqb_refl. rewrite orb_true_r. done.
Qed.

Lemma addReference_again symbol node bt :
  BindingTable.addReferenceToSymbol symbol node
    (BindingTable.addReferenceToSymbol symbol node bt)
  = BindingTable.addReferenceToSymbol symbol node bt.
Proof.
  unfold BindingTable.addReferenceToSymbol. cbn -[BindingTable.indexOf_is_minus1].
  rewrite lookup_insert_eq. cbn -[BindingTable.indexOf_is_minus1].
  f_equal. f_equal. rewrite insert_insert_eq. f_equal.
  set (old := default [] _).
  destruct (BindingTable.indexOf_is_minus1 node old) eqn:E.
  - rewrite indexOf_is_minus1_app. done.
  - rewrite E. done.
Qed.

End SetSymbolFacts.

(** X7.  [setSymbol] and [getSymbol] round trip, by node id: afterwards the
    node has the symbol and every other node the symbol it had; the node is
    appended to the references of the symbol unless a node with its id is
    already among them; the references of other symbols and all
    declarations, parents and scopes stay; a second identical call changes
    nothing; and with an undefined node or symbol nothing happens at
    all. *)
Theorem setSymbol_getSymbol (node : Node) (symbol : nat) (bt : BindingTable) :
  let bt' := BindingTable.setSymbol (Some node) (Some symbol) bt in
  (forall n, BindingTable.getSymbol (Some n) bt' =
             if Nat.eqb (Node.id n) (Node.id node) then Some symbol
             else BindingTable.getSymbol (Some n) bt) /\
  BindingTable.hasSymbol (Some node) bt' = true /\
  BindingTable.getReferences (Some symbol) bt' =
    (let old := BindingTable.getReferences (Some symbol) bt in
     if existsb (Node.same node) old then old else old ++ [node]) /\
  (forall s, s <> symbol ->
             BindingTable.getReferences (Some s) bt' = BindingTable.getReferences (Some s) bt) /\
  (forall n s r,
      BindingTable.getParent n bt' = BindingTable.getParent n bt /\
      BindingTable.getDeclarations s bt' = BindingTable.getDeclarations s bt /\
      BindingTable.readScope r bt' = BindingTable.readScope r bt) /\
  BindingTable.setSymbol (Some node) (Some symbol) bt' = bt' /\
  (forall s, BindingTable.setSymbol None s bt = bt) /\
  (forall n, BindingTable.setSymbol n None bt = bt).
Proof.
  cbv zeta. unfold BindingTable.setSymbol.
  split; [|split; [|split; [|split; [|split; [|split; [|split]]]]]].
  - intros n. rewrite getSymbol_addReference. apply getSymbol_setSymbolForNode.
  - unfold BindingTable.hasSymbol. simpl. rewrite lookup_insert_eq.
    apply bool_decide_eq_true. eauto.
  - rewrite getReferences_addReference, decide_True by done. cbv zeta.
    rewrite getReferences_setSymbolForNode. unfold BindingTable.indexOf_is_minus1.
    destruct (existsb _ _); done.
  - intros s Hne. rewrite getReferences_addReference, decide_False by done. done.
  - intros n s r. repeat split; try done; by destruct r.
  - set (bt1 := BindingTable.setSymbolForNode node symbol bt).
    assert (H1 : BindingTable.setSymbolForNode node symbol
                   (BindingTable.addReferenceToSymbol symbol node bt1)
                 = BindingTable.addReferenceToSymbol symbol node bt1).
    { unfold BindingTable.setSymbolForNode, BindingTable.addReferenceToSymbol, bt1.
      simpl. f_equal. f_equal. apply insert_insert_eq. }
    rewrite H1. apply addReference_again.
  - done.
  - by intros [n|].
Qed.

(** X8.  [getScope(container)] creates the container's local scope, empty,
    on first use and returns the existing one afterwards, so a second call
    changes nothing; the scopes of other containers, the global scope,
    parents, symbols, references and declarations are untouched.  From the
    first call on the table of local scopes exists. *)
Theorem getScope_creates_once (container : nat) (bt : BindingTable) :
  let r := BindingTable.getScope container bt in
  r.1 = LocalScope container /\
  BindingTable.readScope (LocalScope container) r.2 =
    Some (default SymbolTable.new (BindingTable.readScope (LocalScope container) bt)) /\
  (forall c, c <> container ->
             BindingTable.readScope (LocalScope c) r.2 = BindingTable.readScope (LocalScope c) bt) /\
  BindingTable.getScope container r.2 = r /\
  is_Some (BindingTable.symbolLocals r.2) /\
  BindingTable.globals r.2 = BindingTable.globals bt /\
  (forall n s,
      BindingTable.getParent n r.2 = BindingTable.getParent n bt /\
      BindingTable.getSymbol n r.2 = BindingTable.getSymbol n bt /\
      BindingTable.getReferences s r.2 = BindingTable.getReferences s bt /\
      BindingTable.getDeclarations s r.2 = BindingTable.getDeclarations s bt).
Proof.
  cbv zeta. unfold BindingTable.getScope, BindingTable.readScope.
  destruct (BindingTable.symbolLocals bt) as [locals|] eqn:Hl; simpl.
  - destruct (locals !! container) as [table|] eqn:E; simpl.
    + rewrite E. repeat split; eauto.
    + rewrite lookup_insert_eq. repeat split; eauto.
      intros c Hne. rewrite lookup_insert_ne by done. done.
  - rewrite lookup_empty. simpl. rewrite lookup_insert_eq. repeat split; eauto.
    intros c Hne. rewrite lookup_insert_ne by done. done.
Qed.

(** X9.  [addDeclarationToSymbol] makes the symbol the owner of the declared
    node and appends the node to the symbol's declarations, duplicates
    included; the name of a production or parameter becomes a reference of
    the symbol (once), while a source file adds no reference; parents and
    scopes are untouched, and with an undefined symbol or node nothing
    happens. *)
Theorem addDeclarationToSymbol_owns (symbol : nat) (node : Node) (bt : BindingTable) :
  let bt' := BindingTable.addDeclarationToSymbol (Some symbol) (Some node) bt in
  BindingTable.getSymbol (Some node) bt' = Some symbol /\
  BindingTable.getDeclarations (Some symbol) bt' =
    BindingTable.getDeclarations (Some symbol) bt ++ [node] /\
  ((Node.kind node =k SyntaxKind.SourceFile) = true ->
   forall s, BindingTable.getReferences s bt' = BindingTable.getReferences s bt) /\
  ((Node.kind node =k SyntaxKind.SourceFile) = false ->
   forall name, Node.name node = Some name ->
     BindingTable.getReferences (Some symbol) bt' =
       (let old := BindingTable.getReferences (Some symbol) bt in
        if existsb (Node.same name) old then old else old ++ [name])) /\
  (forall n r,
      BindingTable.getParent n bt' = BindingTable.getParent n bt /\
      BindingTable.readScope r bt' = BindingTable.readScope r bt) /\
  (forall n, BindingTable.addDeclarationToSymbol None n bt = bt) /\
  (forall s, BindingTable.addDeclarationToSymbol s None bt = bt).
Proof.
  cbv zeta.
  split; [|split; [|split; [|split; [|split; [|split]]]]].
  - unfold BindingTable.addDeclarationToSymbol.
    destruct (negb _); [destruct (Node.name node)|];
      rewrite ?getSymbol_addReference, getSymbol_setSymbolForNode, Nat.eqb_refl; done.
  - rewrite getDeclarations_addDeclaration, Nat.eqb_refl. done.
  - intros Hk s. unfold BindingTable.addDeclarationToSymbol. rewrite Hk. done.
  - intros Hk name Hname. unfold BindingTable.addDeclarationToSymbol.
    rewrite Hk, Hname. cbn [negb].
    rewrite getReferences_addReference, decide_True by done. cbv zeta.
    unfold BindingTable.indexOf_is_minus1.
    change (BindingTable.getReferences (Some symbol) (BindingTable.setSymbolForNode _ _ _))
      with (BindingTable.getReferences (Some symbol) bt).
    destruct (existsb _ _); done.
  - intros n r. rewrite readScope_addDeclaration. split; [|done].
    unfold BindingTable.addDeclarationToSymbol.
    destruct (negb _); [destruct (Node.name node)|]; done.
  - done.
  - by intros [s|].
Qed.

Lemma addDeclarationToSymbol_owns_witness :
  let bt := BindingTable.addDeclarationToSymbol (Some 2) (Some sampleProduction)
              BindingTable.new in
  BindingTable.getSymbol (Some sampleProduction) bt = Some 2 /\
  BindingTable.getDeclarations (Some 2) bt = [sampleProduction] /\
  BindingTable.getReferences (Some 2) bt = [identifier 3 (Some "A")].
Proof.
  cbv zeta.
  destruct (addDeclarationToSymbol_owns 2 sampleProduction BindingTable.new)
    as (H1 & H2 & _ & H4 & _).
  split; [exact H1|]. split; [exact H2|].
  exact (H4 eq_refl (identifier 3 (Some "A")) eq_refl).
Defined.

(** * Further properties of the binder *)

(** ** What every step of [bind] preserves *)

Section Preserves.
Variable R : Binder -> Binder -> Prop.
Hypothesis R_refl : forall b, R b b.
Hypothesis R_trans : forall b1 b2 b3, R b1 b2 -> R b2 b3 -> R b1 b3.

Lemma preserves_ret {A} (a : A) : preserves R (ret a).
Proof using R_refl. intros b r b' [= <- <-]. apply R_refl. Qed.

Lemma preserves_throw {A} e : preserves R (@throw Binder A e).
Proof using R_refl. intros b r b' [= <- <-]. apply R_refl. Qed.

Lemma preserves_gets {A} (f : Binder -> A) : preserves R (gets f).
Proof using R_refl. intros b r b' [= <- <-]. apply R_refl. Qed.

Lemma preserves_modify (f : Binder -> Binder) :
  (forall b, R b (f b)) -> preserves R (modify f).
Proof. intros Hf b r b' [= <- <-]. apply Hf. Qed.

Lemma preserves_bind {A B} (m : M Binder A) (f : A -> M Binder B) :
  preserves R m -> (forall a, preserves R (f a)) -> preserves R (bind m f).
Proof using R_trans.
  intros Hm Hf b r b' H.
  apply bind_inv in H as [(a & b1 & H1 & H2)|(e & H1 & ->)].
  - eapply R_trans; [apply (Hm _ _ _ H1)|apply (Hf a _ _ _ H2)].
  - apply (Hm _ _ _ H1).
Qed.

Hypothesis H_setParent :
  forall node parent b, R b (Binder.with_bindings (BindingTable.setParent node parent) b).
Hypothesis H_context : forall pn ps sc b, R b (Binder.with_context pn ps sc b).
Hypothesis H_declareSymbol :
  forall name declaration kind, preserves R (Binder.declareSymbol name declaration kind).
Hypothesis H_getScope : forall container, preserves R (Binder.getScope container).

Lemma preserves_forEachChild node (cb : Node -> M Binder unit) :
  Forall (fun c => preserves R (cb c)) (Node.children node) ->
  preserves R (Binder.forEachChild node cb).
Proof using R_refl R_trans.
  unfold Binder.forEachChild. induction 1 as [|c cs Hc _ IH].
  - apply preserves_ret.
  - apply preserves_bind; [exact Hc | intros _; exact IH].
Qed.

Lemma preserves_bindChildren (f : Node -> M Binder unit) node ps sc :
  Forall (fun c => preserves R (f c)) (Node.children node) ->
  preserves R (Binder.bindChildren f node ps sc).
Proof using R_refl R_trans H_context.
  intros Hc. unfold Binder.bindChildren.
  repeat (apply preserves_bind; [try apply preserves_gets | intros]).
  - apply preserves_modify. intros b. apply H_context.
  - apply preserves_forEachChild, Hc.
  - apply preserves_modify. intros b. apply H_context.
Qed.

Lemma preserves_bind_node node : preserves R (Binder.bind node).
Proof using All.
  induction node as [i k p e x l r cs IH] using Node_ind_forall.
  set (node := Node.mk i k p e x l r cs).
  assert (Hch : forall ps sc, preserves R (Binder.bindChildren Binder.bind node ps sc)).
  { intros. apply preserves_bindChildren. exact IH. }
  assert (Hname : preserves R (Binder.name_text node)).
  { unfold Binder.name_text. destruct (Node.name _);
      [apply preserves_ret | apply preserves_throw]. }
  rewrite bind_unfold.
  apply preserves_bind; [apply preserves_gets|intros parent].
  apply preserves_bind; [apply preserves_modify; intros b; apply H_setParent|intros _].
  destruct (Node.kind node =k SyntaxKind.Production);
    [|destruct (Node.kind node =k SyntaxKind.ParameterNode)].
  - unfold Binder.bindProduction.
    apply preserves_bind; [exact Hname|intros name].
    apply preserves_bind; [apply H_declareSymbol|intros symbol].
    apply preserves_bind; [apply H_getScope|intros scope].
    apply Hch.
  - unfold Binder.bindParameter.
    apply preserves_bind; [exact Hname|intros name].
    apply preserves_bind; [apply H_declareSymbol|intros symbol].
    apply preserves_bind; [apply preserves_gets|intros ps].
    apply preserves_bind; [apply preserves_gets|intros sc].
    apply Hch.
  - unfold bindOther.
    apply preserves_bind; [apply preserves_gets|intros ps].
    apply preserves_bind; [apply preserves_gets|intros sc].
    apply Hch.
Qed.

Hypothesis H_poll : preserves R Binder.throwIfCancellationRequested.

Lemma preserves_bindSourceFile file : preserves R (Binder.bindSourceFile file).
Proof using All.
  unfold Binder.bindSourceFile.
  apply preserves_bind; [exact H_poll|intros _].
  apply preserves_bind; [apply preserves_gets|intros bound].
  destruct bound; [apply preserves_ret|].
  apply preserves_bind; [apply H_declareSymbol|intros symbol].
  apply preserves_bind; [apply preserves_gets|intros sc].
  apply preserves_bindChildren.
  apply Forall_forall. intros c _. apply preserves_bind_node.
Qed.

End Preserves.

(** ** The binder changes the table through the table's operations *)

Section TableOperations.
Implicit Types (b : Binder) (bt : BindingTable).

Lemma runBindingOps_app ops1 ops2 bt :
  runBindingOps (ops1 ++ ops2) bt = runBindingOps ops2 (runBindingOps ops1 bt).
Proof. apply fold_left_app. Qed.

Lemma byTableOperations_refl b : byTableOperations b b.
Proof. exists []. done. Qed.

Lemma byTableOperations_trans b1 b2 b3 :
  byTableOperations b1 b2 -> byTableOperations b2 b3 -> byTableOperations b1 b3.
Proof.
  intros [ops1 H1] [ops2 H2]. exists (ops1 ++ ops2).
  rewrite runBindingOps_app, <- H1. exact H2.
Qed.

Lemma byTableOperations_bindSourceFile file :
  preserves byTableOperations (Binder.bindSourceFile file).
Proof.
  apply preserves_bindSourceFile.
  - apply byTableOperations_refl.
  - apply byTableOperations_trans.
  - intros node parent b. exists [OpSetParent node parent]. done.
  - intros pn ps sc b. exists []. done.
  - intros name declaration kind b r b' H. unfold Binder.declareSymbol in H.
    destruct (BindingTable.readScope _ _) as [table|];
      [|injection H as <- <-; apply byTableOperations_refl].
    destruct (SymbolTable.declareSymbol _ _ _ _ _) as [[symbol table'] h'].
    injection H as <- <-.
    exists [OpWriteScope (Binder.scope b) table'; OpAddDeclaration (Some symbol) (Some declaration)].
    done.
  - intros container b r b' H. unfold Binder.getScope in H.
    destruct (BindingTable.getScope container (Binder.bindings b)) as [sc bt'] eqn:E.
    injection H as <- <-. exists [OpGetScope container]. simpl. rewrite E. done.
  - intros b r b' H. apply throwIfCancellationRequested_same in H as [(Hb & _) _].
    exists []. exact Hb.
Qed.

Lemma runBindingOps_references ops bt :
  (forall s, NoDup (Node.id <$> BindingTable.getReferences (Some s) bt)) ->
  forall s,
    NoDup (Node.id <$> BindingTable.getReferences (Some s) (runBindingOps ops bt)) /\
    BindingTable.getReferences (Some s) bt
    `prefix_of` BindingTable.getReferences (Some s) (runBindingOps ops bt).
Proof.
  revert bt. induction ops as [|op ops IH]; intros bt H s.
  - done.
  - change (runBindingOps (op :: ops) bt) with (runBindingOps ops (runBindingOp bt op)).
    destruct (IH (runBindingOp bt op) (NoDup_step op bt H) s) as [H1 H2].
    split; [exact H1|]. etrans; [apply getReferences_step_prefix|exact H2].
Qed.

Lemma runBindingOps_declarations ops bt s :
  BindingTable.getDeclarations (Some s) bt
  `prefix_of` BindingTable.getDeclarations (Some s) (runBindingOps ops bt).
Proof.
  revert bt. induction ops as [|op ops IH]; intros bt; [done|].
  change (runBindingOps (op :: ops) bt) with (runBindingOps ops (runBindingOp bt op)).
  etrans; [|apply IH]. rewrite getDeclarations_step. apply prefix_app_r. done.
Qed.

End TableOperations.

(** X10.  However [bindSourceFile] ends, by returning or by an exception
    from the middle of a tree, what it did to the binding table keeps the
    table's invariants: if no symbol listed a node twice among its
    references before the call, none does after it, and the references and
    declarations of every symbol still begin with what they held before, in
    the same order. *)
Theorem bindSourceFile_keeps_table_invariants
    (file : SourceFile) (b b' : Binder) (r : Result unit) :
  (forall s, NoDup (Node.id <$> BindingTable.getReferences (Some s) (Binder.bindings b))) ->
  Binder.bindSourceFile file b = (r, b') ->
  forall s,
    NoDup (Node.id <$> BindingTable.getReferences (Some s) (Binder.bindings b')) /\
    BindingTable.getReferences (Some s) (Binder.bindings b)
    `prefix_of` BindingTable.getReferences (Some s) (Binder.bindings b') /\
    BindingTable.getDeclarations (Some s) (Binder.bindings b)
    `prefix_of` BindingTable.getDeclarations (Some s) (Binder.bindings b').
Proof.
  intros Hnodup Hrun s.
  destruct (byTableOperations_bindSourceFile file b r b' Hrun) as [ops ->].
  destruct (runBindingOps_references ops _ Hnodup s) as [H1 H2].
  split; [exact H1|]. split; [exact H2|]. apply runBindingOps_declarations.
Qed.

Lemma bindSourceFile_keeps_table_invariants_witness :
  let b' := (Binder.bindSourceFile sampleTree freshBinder).2 in
  NoDup (Node.id <$> BindingTable.getReferences (Some 2) (Binder.bindings b')) /\
  BindingTable.getReferences (Some 2) (Binder.bindings b') = [identifier 3 (Some "A")].
Proof.
  cbv zeta. split; [|vm_compute; reflexivity].
  apply (bindSourceFile_keeps_table_invariants sampleTree freshBinder
           (Binder.bindSourceFile sampleTree freshBinder).2
           (Binder.bindSourceFile sampleTree freshBinder).1).
  - intros s. simpl. apply NoDup_nil_2.
  - apply surjective_pairing.
Defined.

(** X11.  [bindSourceFile] polls the cancellation token first: when the
    request is visible it throws the cancellation signal and the binder,
    its symbols and its binding table are exactly as before. *)
Theorem bindSourceFile_cancelled (file : SourceFile) (b : Binder) :
  bindingCancelled b ->
  Binder.bindSourceFile file b = (Throw OperationCanceled, b).
Proof.
  unfold bindingCancelled, Binder.bindSourceFile. intros Hc.
  unfold bind at 1, Binder.throwIfCancellationRequested,
    CancellationToken.throwIfCancellationRequested.
  destruct (Binder.cancellationToken b) as [|i] eqn:E; [done|].
  rewrite Hc. destruct b; simpl in *. rewrite E. done.
Qed.

Lemma bindSourceFile_cancelled_witness :
  let b := Binder.new BindingTable.new (CancellationToken.source 0) initialSymbolHeap
             {[0 := 0]} in
  Binder.bindSourceFile sampleTree b = (Throw OperationCanceled, b).
Proof. cbv zeta. apply bindSourceFile_cancelled. reflexivity. Defined.

(** ** Parent links of a bound tree *)

Section ParentLinks.
Implicit Types (b : Binder) (bt : BindingTable) (n c p : Node).

Lemma forEachChild_bindEach node cb :
  Binder.forEachChild node cb = bindEach cb (Node.children node).
Proof.
  unfold Binder.forEachChild. induction (Node.children node) as [|c cs IH]; [done|].
  simpl. rewrite IH. done.
Qed.

Lemma descendants_unfold n :
  descendants n = n :: flat_map descendants (Node.children n).
Proof. destruct n. done. Qed.

Lemma descendants_self n : n ∈ descendants n.
Proof. rewrite descendants_unfold. apply list_elem_of_here. Qed.

Lemma elem_of_flat_map {A B} (f : A -> list B) (l : list A) (y : B) :
  y ∈ flat_map f l <-> exists x, x ∈ l /\ y ∈ f x.
Proof.
  rewrite list_elem_of_In, in_flat_map. split; intros (x & H1 & H2); exists x;
    rewrite ?list_elem_of_In in *; done.
Qed.

Lemma descendants_child : forall n p c,
  p ∈ descendants n -> c ∈ Node.children p -> c ∈ descendants n.
Proof.
  induction n as [i k po e x l r cs IH] using Node_ind_forall. intros p c Hp Hc.
  rewrite descendants_unfold in Hp |- *. cbn [Node.children] in *.
  apply list_elem_of_further, elem_of_flat_map.
  apply elem_of_cons in Hp as [->|Hp].
  - exists c. split; [exact Hc|apply descendants_self].
  - apply elem_of_flat_map in Hp as (c0 & Hc0 & Hp).
    exists c0. split; [exact Hc0|].
    rewrite Forall_forall in IH. apply (IH c0 Hc0 p c Hp Hc).
Qed.

Lemma getParent_declareSymbol name declaration kind b r b' :
  Binder.declareSymbol name declaration kind b = (r, b') ->
  (forall node, BindingTable.getParent node (Binder.bindings b') =
                BindingTable.getParent node (Binder.bindings b)) /\
  bindingContext b' = bindingContext b.
Proof.
  unfold Binder.declareSymbol. intros H.
  destruct (BindingTable.readScope _ _) as [table|]; [|injection H as <- <-; done].
  destruct (SymbolTable.declareSymbol _ _ _ _ _) as [[symbol table'] h'].
  injection H as <- <-. split; [|done]. intros node. simpl.
  unfold BindingTable.addDeclarationToSymbol.
  destruct (negb _); [destruct (Node.name _)|]; destruct (Binder.scope b); done.
Qed.

Lemma getParent_getScope container b r b' :
  Binder.getScope container b = (r, b') ->
  (forall node, BindingTable.getParent node (Binder.bindings b') =
                BindingTable.getParent node (Binder.bindings b)) /\
  bindingContext b' = bindingContext b.
Proof.
  unfold Binder.getScope, BindingTable.getScope. intros H.
  destruct (_ !! container); injection H as <- <-; done.
Qed.

Lemma bindChildren_inv (f : Node -> M Binder unit) node ps sc b b' :
  Binder.bindChildren f node ps sc b = (Ok tt, b') ->
  exists b4,
    bindEach f (Node.children node) (Binder.with_context (Some node) ps sc b) = (Ok tt, b4) /\
    b' = Binder.with_context (Binder.parentNode b) (Binder.parentSymbol b) (Binder.scope b) b4.
Proof.
  unfold Binder.bindChildren. rewrite forEachChild_bindEach. intros H.
  unfold bind, gets, modify in H. cbv beta iota in H.
  destruct (bindEach f (Node.children node) _) as [[[]|e] b4] eqn:E; [|discriminate].
  exists b4. split; [done|]. by injection H as <-.
Qed.

(** [bind] up to the call of [bindChildren]: the parent of the node is set
    and nothing else about parents or the context has changed. *)
Lemma bind_reaches_bindChildren node b b' :
  Binder.bind node b = (Ok tt, b') ->
  exists b2 ps sc,
    Binder.bindChildren Binder.bind node ps sc b2 = (Ok tt, b') /\
    bindingContext b2 = bindingContext b /\
    forall o, BindingTable.getParent o (Binder.bindings b2) =
              BindingTable.getParent o
                (BindingTable.setParent (Some node) (Binder.parentNode b) (Binder.bindings b)).
Proof.
  rewrite bind_unfold. intros H.
  unfold bind at 1 2, gets, modify in H. cbv beta iota in H.
  set (b1 := Binder.with_bindings _ b) in H.
  assert (Hc1 : bindingContext b1 = bindingContext b) by done.
  assert (Hname : forall (k : option string -> M Binder unit),
             bind (Binder.name_text node) k b1 = (Ok tt, b') ->
             exists name, k name b1 = (Ok tt, b')).
  { intros k Hk. unfold Binder.name_text in Hk.
    destruct (Node.name node) as [name|]; unfold bind, ret, throw in Hk;
      [eauto|discriminate]. }
  destruct (Node.kind node =k SyntaxKind.Production);
    [|destruct (Node.kind node =k SyntaxKind.ParameterNode)].
  - apply Hname in H as [name H].
    apply bind_Ok_inv in H as (symbol & b2 & Hdecl & H).
    apply bind_Ok_inv in H as (sc & b3 & Hscope & H).
    apply getParent_declareSymbol in Hdecl as [Hp2 Hc2].
    apply getParent_getScope in Hscope as [Hp3 Hc3].
    exists b3, (Some symbol), sc. split; [exact H|]. split; [congruence|].
    intros o. rewrite Hp3, Hp2. done.
  - apply Hname in H as [name H].
    apply bind_Ok_inv in H as (symbol & b2 & Hdecl & H).
    apply getParent_declareSymbol in Hdecl as [Hp2 Hc2].
    unfold bind at 1 2, gets in H. cbv beta iota in H.
    exists b2, (Binder.parentSymbol b2), (Binder.scope b2).
    split; [exact H|]. split; [congruence|]. intros o. rewrite Hp2. done.
  - unfold bindOther in H. unfold bind at 1 2, gets in H. cbv beta iota in H.
    exists b1, (Binder.parentSymbol b1), (Binder.scope b1). done.
Qed.

Lemma bindEach_parents parent cs :
  Forall bindsParents cs ->
  forall b b',
    bindEach Binder.bind cs b = (Ok tt, b') ->
    Binder.parentNode b = Some parent ->
    NoDup (Node.id <$> flat_map descendants cs) ->
    (forall c, c ∈ cs ->
               BindingTable.getParent (Some c) (Binder.bindings b') = Some parent) /\
    (forall p c, p ∈ flat_map descendants cs -> c ∈ Node.children p ->
                 BindingTable.getParent (Some c) (Binder.bindings b') = Some p) /\
    (forall n, Node.id n ∉ Node.id <$> flat_map descendants cs ->
               BindingTable.getParent (Some n) (Binder.bindings b') =
               BindingTable.getParent (Some n) (Binder.bindings b)) /\
    bindingContext b' = bindingContext b.
Proof.
  induction 1 as [|c cs Hc _ IH]; intros b b' Hrun Hparent Hnodup.
  - injection Hrun as <-. split; [|split; [|split]]; try done.
    + intros c Hin. by apply elem_of_nil in Hin.
    + intros p c Hin. by apply elem_of_nil in Hin.
  - simpl in Hrun. apply bind_Ok_inv in Hrun as ([] & b1 & Hbind & Hrest).
    simpl in Hnodup. rewrite fmap_app in Hnodup.
    apply NoDup_app in Hnodup as (Hnd1 & Hdisj & Hnd2).
    destruct (Hc b b1 Hbind Hnd1) as (A1 & A2 & A3 & A4).
    assert (Hparent1 : Binder.parentNode b1 = Some parent).
    { unfold bindingContext in A4. congruence. }
    destruct (IH b1 b' Hrest Hparent1 Hnd2) as (B1 & B2 & B3 & B4).
    assert (Hkeep : forall n, n ∈ descendants c ->
              BindingTable.getParent (Some n) (Binder.bindings b') =
              BindingTable.getParent (Some n) (Binder.bindings b1)).
    { intros n Hn. apply B3, Hdisj, list_elem_of_fmap_2, Hn. }
    split; [|split; [|split]].
    + intros c' Hin. apply elem_of_cons in Hin as [->|Hin]; [|apply B1, Hin].
      rewrite Hkeep by apply descendants_self. apply A1, Hparent.
    + intros p c' Hp Hc'. simpl in Hp. apply elem_of_app in Hp as [Hp|Hp].
      * rewrite Hkeep by (eapply descendants_child; eassumption). apply A2; done.
      * apply B2; done.
    + intros n Hn. simpl in Hn. rewrite fmap_app in Hn.
      rewrite B3, A3; [done| |]; intros Hin; apply Hn, elem_of_app; eauto.
    + congruence.
Qed.

Lemma bind_bindsParents node : bindsParents node.
Proof.
  induction node as [i k po e x l r cs IH] using Node_ind_forall.
  set (node := Node.mk i k po e x l r cs). intros b b' Hrun Hnodup.
  apply bind_reaches_bindChildren in Hrun as (b2 & ps & sc & Hrun & Hc2 & Hp2).
  apply bindChildren_inv in Hrun as (b4 & Hrun & ->).
  rewrite descendants_unfold in Hnodup. cbn [Node.children node] in Hnodup, Hrun.
  rewrite fmap_cons in Hnodup. apply NoDup_cons in Hnodup as [Hfresh Hnodup].
  destruct (bindEach_parents node cs IH _ _ Hrun eq_refl Hnodup) as (B1 & B2 & B3 & B4).
  cbn [Binder.bindings Binder.with_context] in *.
  assert (Hself : forall o, BindingTable.getParent o (Binder.bindings b2) =
                    BindingTable.getParent o
                      (BindingTable.setParent (Some node) (Binder.parentNode b)
                         (Binder.bindings b))) by exact Hp2.
  split; [|split; [|split]].
  - intros pn Hpn. rewrite B3 by exact Hfresh.
    change (Binder.bindings (Binder.with_context (Some node) ps sc b2))
      with (Binder.bindings b2).
    rewrite Hself, Hpn.
    rewrite (setParent_getParent_eq node pn (Binder.bindings b) node).
    rewrite Nat.eqb_refl. done.
  - intros p c Hp Hc. rewrite descendants_unfold in Hp. cbn [Node.children node] in Hp.
    apply elem_of_cons in Hp as [->|Hp]; [apply B1, Hc|apply B2; done].
  - intros n Hn. rewrite descendants_unfold in Hn. cbn [Node.children node] in Hn.
    rewrite fmap_cons in Hn. apply not_elem_of_cons in Hn as [Hne Hn].
    rewrite B3 by exact Hn.
    change (Binder.bindings (Binder.with_context (Some node) ps sc b2))
      with (Binder.bindings b2).
    rewrite Hself. destruct (Binder.parentNode b) as [pn|]; [|done].
    rewrite (setParent_getParent_eq node pn (Binder.bindings b) n).
    destruct (Nat.eqb_spec (Node.id n) (Node.id node)); [congruence|done].
  - unfold bindingContext in *. cbn. congruence.
Qed.

End ParentLinks.

(** X12.  When [bindSourceFile] returns for a file that was not bound yet
    and whose nodes have distinct ids, the side table holds the tree: every
    node below the root has its tree parent as parent, and the parent of no
    node outside the tree below the root was touched. *)
Theorem bindSourceFile_parent_links (file : SourceFile) (b b' : Binder) :
  NoDup (Node.id <$> descendants (SourceFile.node file)) ->
  Binder.scopeResolves (SourceFile.filename file) SymbolKind.SourceFile b = None ->
  Binder.bindSourceFile file b = (Ok tt, b') ->
  (forall p c, p ∈ descendants (SourceFile.node file) -> c ∈ Node.children p ->
               BindingTable.getParent (Some c) (Binder.bindings b') = Some p) /\
  (forall n, Node.id n ∉ Node.id <$> flat_map descendants (Node.children (SourceFile.node file)) ->
             BindingTable.getParent (Some n) (Binder.bindings b') =
             BindingTable.getParent (Some n) (Binder.bindings b)).
Proof.
  intros Hnodup Hnew Hrun. unfold Binder.bindSourceFile in Hrun.
  apply bind_Ok_inv in Hrun as ([] & b0 & Hpoll & Hrun).
  apply throwIfCancellationRequested_same in Hpoll as [(Hb0 & _ & Hs0 & _) _].
  unfold bind at 1, gets in Hrun. cbv beta iota in Hrun.
  assert (Hnew0 : Binder.scopeResolves (SourceFile.filename file) SymbolKind.SourceFile b0 = None).
  { unfold Binder.scopeResolves in *. rewrite Hb0, Hs0. exact Hnew. }
  rewrite Hnew0 in Hrun.
  apply bind_Ok_inv in Hrun as (symbol & b1 & Hdecl & Hrun).
  apply getParent_declareSymbol in Hdecl as [Hp1 _].
  unfold bind at 1, gets in Hrun. cbv beta iota in Hrun.
  apply bindChildren_inv in Hrun as (b4 & Hrun & ->).
  rewrite descendants_unfold, fmap_cons in Hnodup.
  apply NoDup_cons in Hnodup as [_ Hnodup].
  destruct (bindEach_parents (SourceFile.node file) (Node.children (SourceFile.node file))
              ltac:(apply Forall_forall; intros; apply bind_bindsParents)
              _ _ Hrun eq_refl Hnodup) as (B1 & B2 & B3 & _).
  cbn [Binder.bindings Binder.with_context] in *.
  split.
  - intros p c Hp Hc. rewrite descendants_unfold in Hp.
    apply elem_of_cons in Hp as [->|Hp]; [apply B1, Hc|apply B2; done].
  - intros n Hn. rewrite B3 by exact Hn.
    change (Binder.bindings (Binder.with_context _ _ _ b1)) with (Binder.bindings b1).
    rewrite Hp1, Hb0. done.
Qed.

Lemma bindSourceFile_parent_links_witness :
  let bt := Binder.bindings (Binder.bindSourceFile sampleTree freshBinder).2 in
  BindingTable.getParent (Some sampleParameterName) bt = Some sampleParameter /\
  BindingTable.getParent (Some sampleProduction) bt = Some (SourceFile.node sampleTree).
Proof.
  cbv zeta.
  destruct (bindSourceFile_parent_links sampleTree freshBinder
              (Binder.bindSourceFile sampleTree freshBinder).2) as [H _].
  - apply (bool_decide_unpack (NoDup _)). vm_compute. exact I.
  - reflexivity.
  - vm_compute. reflexivity.
  - split; apply H.
    + do 4 apply list_elem_of_further. apply list_elem_of_here.
    + apply list_elem_of_here.
    + apply list_elem_of_here.
    + apply list_elem_of_here.
Defined.

Lemma bind_context node b b' :
  Binder.bind node b = (Ok tt, b') -> bindingContext b' = bindingContext b.
Proof.
  intros Hrun.
  apply bind_reaches_bindChildren in Hrun as (b2 & ps & sc & Hrun & Hc2 & _).
  apply bindChildren_restores in Hrun as (H1 & H2 & H3).
  unfold bindingContext in *. congruence.
Qed.

Lemma bindEach_context cs : forall b b',
  bindEach Binder.bind cs b = (Ok tt, b') -> bindingContext b' = bindingContext b.
Proof.
  induction cs as [|c cs IH]; intros b b' Hrun.
  - by injection Hrun as <-.
  - simpl in Hrun. apply bind_Ok_inv in Hrun as ([] & b1 & Hbind & Hrest).
    rewrite (IH _ _ Hrest). apply (bind_context _ _ _ Hbind).
Qed.

(** X13.  [bindSourceFile] and [bind] return with the binder in the context
    they were called in: the parent node, the parent symbol and the scope
    are the ones before the call, whatever the depth of the tree. *)
Theorem bind_restores_context (b b' : Binder) :
  (forall node, Binder.bind node b = (Ok tt, b') -> bindingContext b' = bindingContext b) /\
  (forall file, Binder.bindSourceFile file b = (Ok tt, b') ->
                bindingContext b' = bindingContext b).
Proof.
  split; [intros node; apply bind_context|].
  intros file Hrun. unfold Binder.bindSourceFile in Hrun.
  apply bind_Ok_inv in Hrun as ([] & b0 & Hpoll & Hrun).
  apply throwIfCancellationRequested_same in Hpoll as [(_ & _ & Hs0 & Hn0 & Hp0) _].
  unfold bind at 1, gets in Hrun. cbv beta iota in Hrun.
  destruct (Binder.scopeResolves _ _ b0).
  - injection Hrun as <-. unfold bindingContext. congruence.
  - apply bind_Ok_inv in Hrun as (symbol & b1 & Hdecl & Hrun).
    apply getParent_declareSymbol in Hdecl as [_ Hc1].
    unfold bind at 1, gets in Hrun. cbv beta iota in Hrun.
    apply bindChildren_restores in Hrun as (H1 & H2 & H3).
    unfold bindingContext in *. congruence.
Qed.

Lemma bind_restores_context_witness :
  bindingContext (Binder.bindSourceFile sampleTree freshBinder).2 = bindingContext freshBinder.
Proof.
  destruct (bind_restores_context freshBinder (Binder.bindSourceFile sampleTree freshBinder).2)
    as [_ H].
  apply (H sampleTree). vm_compute. reflexivity.
Defined.

(** ** What binding leaves in the scopes *)

Section ScopesGrow.
Implicit Types (b : Binder) (bt : BindingTable).

Lemma scopesGrow_refl b : scopesGrow b b.
Proof. split; [eauto|done]. Qed.

Lemma scopesGrow_trans b1 b2 b3 : scopesGrow b1 b2 -> scopesGrow b2 b3 -> scopesGrow b1 b3.
Proof.
  intros [H1 D1] [H2 D2]. split.
  - intros r table Hr. destruct (H1 r table Hr) as (t2 & Hr2 & E2).
    destruct (H2 r t2 Hr2) as (t3 & Hr3 & E3). eauto.
  - intros s. etrans; [apply D1|apply D2].
Qed.

Lemma ScopeRef_eq_or (r r' : ScopeRef) : r = r' \/ r <> r'.
Proof.
  destruct r as [|i], r' as [|j]; [by left|by right|by right|].
  destruct (decide (i = j)) as [->|Hne]; [by left|right; congruence].
Qed.

Lemma readScope_writeScope_ne r r' table bt :
  r <> r' ->
  is_Some (BindingTable.readScope r' bt) ->
  BindingTable.readScope r' (BindingTable.writeScope r table bt) = BindingTable.readScope r' bt.
Proof.
  intros Hne Hsome. destruct r as [|i], r' as [|j]; try done.
  - simpl in *. destruct (BindingTable.symbolLocals bt); [|by destruct Hsome].
    simpl. rewrite lookup_insert_ne by congruence. done.
Qed.

Lemma scopesGrow_declareSymbol name declaration kind :
  preserves scopesGrow (Binder.declareSymbol name declaration kind).
Proof.
  intros b r b' H.
  destruct (BindingTable.readScope (Binder.scope b) (Binder.bindings b)) as [table|] eqn:Hscope.
  - rewrite (Binder_declareSymbol_eq _ _ _ _ _ Hscope) in H. cbv zeta in H.
    apply pair_equal_spec in H as [_ <-].
    pose proof (declareSymbol_entry name kind (Binder.parentSymbol b) table
                  (Binder.symbolHeap b)) as Hentry.
    set (d := SymbolTable.declareSymbol _ _ _ _ _) in *.
    split; cbn [Binder.bindings].
    + intros r0 t0 Hr0. rewrite readScope_addDeclaration.
      destruct (ScopeRef_eq_or (Binder.scope b) r0) as [<-|Hne].
      * rewrite readScope_writeScope. exists d.1.2. split; [done|].
        intros k n s Hs. rewrite Hentry. rewrite Hscope in Hr0. injection Hr0 as <-.
        rewrite Hs. done.
      * rewrite readScope_writeScope_ne by (rewrite ?Hr0; eauto). eauto.
    + intros s. rewrite getDeclarations_addDeclaration, getDeclarations_writeScope.
      apply prefix_app_r. done.
  - unfold Binder.declareSymbol in H. rewrite Hscope in H. injection H as <- <-.
    apply scopesGrow_refl.
Qed.

Lemma scopesGrow_getScope container : preserves scopesGrow (Binder.getScope container).
Proof.
  intros b r b' H. unfold Binder.getScope in H.
  destruct (BindingTable.getScope container (Binder.bindings b)) as [sc bt'] eqn:E.
  injection H as <- <-. split; cbn [Binder.bindings Binder.with_bindings].
  - intros r0 t0 Hr0. exists t0. split; [|done].
    unfold BindingTable.getScope in E.
    destruct (default ∅ (BindingTable.symbolLocals (Binder.bindings b)) !! container)
      as [t|] eqn:Ec; injection E as <- <-.
    + destruct r0 as [|i]; [done|]. simpl in *.
      destruct (BindingTable.symbolLocals (Binder.bindings b)); done.
    + destruct r0 as [|i]; [done|]. simpl in *.
      destruct (BindingTable.symbolLocals (Binder.bindings b)) as [locals|]; [|done].
      simpl in *. rewrite lookup_insert_ne; [done|]. intros ->. congruence.
  - intros s. unfold BindingTable.getScope in E.
    destruct (_ !! container); injection E as <- <-; done.
Qed.

Lemma scopesGrow_bind node : preserves scopesGrow (Binder.bind node).
Proof.
  apply preserves_bind_node.
  - apply scopesGrow_refl.
  - apply scopesGrow_trans.
  - intros n parent b. split; cbn [Binder.bindings Binder.with_bindings];
      [|intros s; rewrite getDeclarations_setParent; done].
    intros r table Hr. exists table. split; [|done].
    destruct n, parent, r; done.
  - intros pn ps sc b. split; cbn [Binder.bindings Binder.with_context]; [eauto|done].
  - apply scopesGrow_declareSymbol.
  - apply scopesGrow_getScope.
Qed.

Lemma scopesGrow_bindEach cs : preserves scopesGrow (bindEach Binder.bind cs).
Proof.
  induction cs as [|c cs IH].
  - intros b r b' [= <- <-]. apply scopesGrow_refl.
  - simpl. apply preserves_bind; [apply scopesGrow_trans|apply scopesGrow_bind|intros _; exact IH].
Qed.

Lemma bindEach_split (f : Node -> M Binder unit) pre c post : forall b b',
  bindEach f (pre ++ c :: post) b = (Ok tt, b') ->
  exists b1 b2,
    bindEach f pre b = (Ok tt, b1) /\ f c b1 = (Ok tt, b2) /\
    bindEach f post b2 = (Ok tt, b').
Proof.
  induction pre as [|x pre IH]; intros b b' H; simpl in H.
  - apply bind_Ok_inv in H as ([] & b2 & H1 & H2). exists b, b2. done.
  - apply bind_Ok_inv in H as ([] & b0 & H1 & H2).
    destruct (IH _ _ H2) as (b1 & b2 & E1 & E2 & E3).
    exists b1, b2. split; [|done]. simpl. unfold bind. rewrite H1. exact E1.
Qed.

(** What a declaration leaves in the scope of the binder. *)
Lemma declareSymbol_listed name declaration kind b symbol b' :
  truthy name = true ->
  Binder.declareSymbol (Some name) declaration kind b = (Ok symbol, b') ->
  Binder.scopeResolves name kind b' = Some symbol /\
  declaration ∈ BindingTable.getDeclarations (Some symbol) (Binder.bindings b') /\
  bindingContext b' = bindingContext b.
Proof.
  intros Hname H.
  destruct (BindingTable.readScope (Binder.scope b) (Binder.bindings b)) as [table|] eqn:Hscope;
    [|unfold Binder.declareSymbol in H; rewrite Hscope in H; discriminate].
  rewrite (Binder_declareSymbol_eq _ _ _ _ _ Hscope) in H. cbv zeta in H.
  apply pair_equal_spec in H as [Hsym <-]. injection Hsym as <-.
  pose proof (declareSymbol_entry (Some name) kind (Binder.parentSymbol b) table
                (Binder.symbolHeap b) kind name) as Hentry.
  pose proof (declareSymbol_named name kind (Binder.parentSymbol b) table
                (Binder.symbolHeap b) Hname) as Hnamed.
  set (d := SymbolTable.declareSymbol _ _ _ _ _) in *.
  split; [|split; [|done]].
  - unfold Binder.scopeResolves. cbn [Binder.scope Binder.bindings].
    rewrite readScope_addDeclaration, readScope_writeScope. simpl.
    rewrite resolveSymbol_entry, Hname, Hentry.
    destruct (entry kind name table) as [s0|] eqn:E; rewrite Hnamed; simpl; [done|].
    rewrite decide_True; [done|]. simpl. rewrite Hname. done.
  - cbn [Binder.bindings]. rewrite getDeclarations_addDeclaration, Nat.eqb_refl.
    apply elem_of_app. right. apply list_elem_of_here.
Qed.


Lemma scopesGrow_resolves name kind b b' symbol :
  scopesGrow b b' ->
  Binder.scope b' = Binder.scope b ->
  Binder.scopeResolves name kind b = Some symbol ->
  Binder.scopeResolves name kind b' = Some symbol.
Proof.
  intros [Hs _] Hscope. unfold Binder.scopeResolves. rewrite Hscope.
  destruct (BindingTable.readScope _ (Binder.bindings b)) as [table|] eqn:E; [|done].
  destruct (Hs _ _ E) as (table' & -> & Hentries). simpl.
  rewrite !resolveSymbol_entry. destruct (truthy name); [apply Hentries|done].
Qed.

Lemma scopesGrow_declares (node : Node) b b' symbol :
  scopesGrow b b' ->
  node ∈ BindingTable.getDeclarations (Some symbol) (Binder.bindings b) ->
  node ∈ BindingTable.getDeclarations (Some symbol) (Binder.bindings b').
Proof.
  intros [_ Hd] Hin. destruct (Hd symbol) as [rest ->]. apply elem_of_app. by left.
Qed.

(** A production that [bind] reaches stays resolvable, in the scope [bind]
    was called in, to a symbol that lists it. *)
Lemma bind_production_listed c name b b' :
  Node.kind c = SyntaxKind.Production ->
  declaredName c = Some name ->
  truthy name = true ->
  Binder.bind c b = (Ok tt, b') ->
  exists symbol,
    Binder.scopeResolves name SymbolKind.Production b' = Some symbol /\
    c ∈ BindingTable.getDeclarations (Some symbol) (Binder.bindings b').
Proof.
  intros Hkind Hdecl Hname Hrun.
  pose proof (bind_context _ _ _ Hrun) as Hctx.
  rewrite bind_unfold, Hkind in Hrun. simpl in Hrun.
  unfold bind at 1 2, gets, modify in Hrun. cbv beta iota in Hrun.
  set (b1 := Binder.with_bindings _ b) in Hrun.
  assert (Hc1 : bindingContext b1 = bindingContext b) by done.
  unfold Binder.bindProduction, Binder.name_text in Hrun.
  unfold declaredName in Hdecl.
  destruct (Node.name c) as [nm|]; [|discriminate]. simpl in Hdecl.
  unfold bind at 1, ret in Hrun. cbv beta iota in Hrun. rewrite Hdecl in Hrun.
  apply bind_Ok_inv in Hrun as (symbol & b2 & Hsym & Hrun).
  apply declareSymbol_listed in Hsym as (Hres & Hin & Hc2); [|exact Hname].
  assert (Hgrow : scopesGrow b2 b').
  { revert Hrun. generalize b2 (Ok tt : Result unit) b'.
    change (preserves scopesGrow
              (let* scope := Binder.getScope symbol in
               Binder.bindChildren Binder.bind c (Some symbol) scope)).
    apply preserves_bind; [apply scopesGrow_trans|apply scopesGrow_getScope|intros scope].
    apply preserves_bindChildren.
    - apply scopesGrow_refl.
    - apply scopesGrow_trans.
    - intros pn ps sc b0. split; cbn [Binder.bindings Binder.with_context]; [eauto|done].
    - apply Forall_forall. intros; apply scopesGrow_bind. }
  exists symbol. split.
  - apply (scopesGrow_resolves _ _ _ _ _ Hgrow); [|exact Hres].
    unfold bindingContext in *. congruence.
  - apply (scopesGrow_declares _ _ _ _ Hgrow Hin).
Qed.

End ScopesGrow.

(** X14.  After [bindSourceFile] returns for a file with a non-empty name
    that was not bound yet, the file name resolves in the scope of the binder
    to a symbol whose declarations contain the root node of the file. *)
Theorem bindSourceFile_declares_file (file : SourceFile) (b b' : Binder) :
  truthy (SourceFile.filename file) = true ->
  Binder.scopeResolves (SourceFile.filename file) SymbolKind.SourceFile b = None ->
  Binder.bindSourceFile file b = (Ok tt, b') ->
  exists symbol,
    Binder.scopeResolves (SourceFile.filename file) SymbolKind.SourceFile b' = Some symbol /\
    SourceFile.node file ∈ BindingTable.getDeclarations (Some symbol) (Binder.bindings b').
Proof.
  intros Hname Hnew Hrun. unfold Binder.bindSourceFile in Hrun.
  apply bind_Ok_inv in Hrun as ([] & b0 & Hpoll & Hrun).
  apply throwIfCancellationRequested_same in Hpoll as [(Hb0 & _ & Hs0 & _) _].
  unfold bind at 1, gets in Hrun. cbv beta iota in Hrun.
  assert (Hnew0 : Binder.scopeResolves (SourceFile.filename file) SymbolKind.SourceFile b0 = None).
  { unfold Binder.scopeResolves in *. rewrite Hb0, Hs0. exact Hnew. }
  rewrite Hnew0 in Hrun.
  apply bind_Ok_inv in Hrun as (symbol & b1 & Hdecl & Hrun).
  apply declareSymbol_listed in Hdecl as (Hres & Hin & Hc1); [|exact Hname].
  unfold bind at 1, gets in Hrun. cbv beta iota in Hrun.
  pose proof (bindChildren_restores _ _ _ _ _ _ Hrun) as (Hscope & _ & _).
  assert (Hgrow : scopesGrow b1 b').
  { revert Hrun. generalize (Ok tt : Result unit).
    generalize (Binder.scope b1) at 1. intros sc r Hrun. revert Hrun.
    generalize b1 r b'.
    change (preserves scopesGrow
              (Binder.bindChildren Binder.bind (SourceFile.node file) (Some symbol) sc)).
    apply preserves_bindChildren.
    - apply scopesGrow_refl.
    - apply scopesGrow_trans.
    - intros pn ps sc0 b2. split; cbn [Binder.bindings Binder.with_context]; [eauto|done].
    - apply Forall_forall. intros; apply scopesGrow_bind. }
  exists symbol. split.
  - apply (scopesGrow_resolves _ _ _ _ _ Hgrow Hscope Hres).
  - apply (scopesGrow_declares _ _ _ _ Hgrow Hin).
Qed.

Lemma bindSourceFile_declares_file_witness :
  exists symbol,
    Binder.scopeResolves "a.grammar" SymbolKind.SourceFile
      (Binder.bindSourceFile sampleTree freshBinder).2 = Some symbol /\
    SourceFile.node sampleTree ∈
      BindingTable.getDeclarations (Some symbol)
        (Binder.bindings (Binder.bindSourceFile sampleTree freshBinder).2).
Proof.
  apply (bindSourceFile_declares_file sampleTree freshBinder).
  - reflexivity.
  - reflexivity.
  - vm_compute. reflexivity.
Defined.

(** X15.  After [bindSourceFile] returns for a file that was not bound yet,
    every production among the children of the root whose name has a
    non-empty text resolves, in the scope of the binder, to a symbol whose
    declarations contain that production; two productions of the same name
    share the symbol. *)
Theorem bindSourceFile_declares_productions (file : SourceFile) (b b' : Binder)
    (c : Node) (name : string) :
  Binder.scopeResolves (SourceFile.filename file) SymbolKind.SourceFile b = None ->
  Binder.bindSourceFile file b = (Ok tt, b') ->
  c ∈ Node.children (SourceFile.node file) ->
  Node.kind c = SyntaxKind.Production ->
  declaredName c = Some name ->
  truthy name = true ->
  exists symbol,
    Binder.scopeResolves name SymbolKind.Production b' = Some symbol /\
    c ∈ BindingTable.getDeclarations (Some symbol) (Binder.bindings b').
Proof.
  intros Hnew Hrun Hc Hkind Hdecl Hname. unfold Binder.bindSourceFile in Hrun.
  apply bind_Ok_inv in Hrun as ([] & b0 & Hpoll & Hrun).
  apply throwIfCancellationRequested_same in Hpoll as [(Hb0 & _ & Hs0 & _) _].
  unfold bind at 1, gets in Hrun. cbv beta iota in Hrun.
  assert (Hnew0 : Binder.scopeResolves (SourceFile.filename file) SymbolKind.SourceFile b0 = None).
  { unfold Binder.scopeResolves in *. rewrite Hb0, Hs0. exact Hnew. }
  rewrite Hnew0 in Hrun.
  apply bind_Ok_inv in Hrun as (fileSymbol & b1 & _ & Hrun).
  unfold bind at 1, gets in Hrun. cbv beta iota in Hrun.
  apply bindChildren_inv in Hrun as (b4 & Hrun & ->).
  apply list_elem_of_split in Hc as (pre & post & Hcs). rewrite Hcs in Hrun.
  apply bindEach_split in Hrun as (bA & bB & Hpre & Hbind & Hpost).
  pose proof (scopesGrow_bindEach post _ _ _ Hpost) as Hgrow.
  apply bindEach_context in Hpre. apply bindEach_context in Hpost.
  pose proof (bind_context _ _ _ Hbind) as HcB.
  destruct (bind_production_listed _ _ _ _ Hkind Hdecl Hname Hbind) as (symbol & Hres & Hin).
  exists symbol. split.
  - unfold Binder.scopeResolves. cbn [Binder.scope Binder.bindings Binder.with_context].
    assert (Hsc : Binder.scope b4 = Binder.scope bB)
      by (unfold bindingContext in *; congruence).
    assert (Hsc1 : Binder.scope b1 = Binder.scope bB).
    { unfold bindingContext in *. cbn [Binder.scope Binder.with_context] in *. congruence. }
    rewrite Hsc1, <- Hsc.
    apply (scopesGrow_resolves _ _ _ _ _ Hgrow Hsc Hres).
  - cbn [Binder.bindings Binder.with_context].
    apply (scopesGrow_declares _ _ _ _ Hgrow Hin).
Qed.

Lemma bindSourceFile_declares_productions_witness :
  exists symbol,
    Binder.scopeResolves "A" SymbolKind.Production
      (Binder.bindSourceFile sampleTree freshBinder).2 = Some symbol /\
    sampleProduction ∈
      BindingTable.getDeclarations (Some symbol)
        (Binder.bindings (Binder.bindSourceFile sampleTree freshBinder).2).
Proof.
  apply (bindSourceFile_declares_productions sampleTree freshBinder _ sampleProduction).
  - reflexivity.
  - vm_compute. reflexivity.
  - apply list_elem_of_here.
  - reflexivity.
  - reflexivity.
  - reflexivity.
Defined.

(** * Further properties of the parser *)

(** ** Reading tokens *)

Section TokenFacts.
Implicit Types (p : Parser).

(** What one [nextToken] does: it is cancelled before anything moved, or
    the scanner is one token further and [token] is the token it is at. *)
Lemma nextToken_inv p r p' :
  nextToken p = (r, p') ->
  (r = Throw OperationCanceled /\ p' = p) \/
  (let sc := (Scanner.advance (Parser.scanner p)).1 in
   r = Ok (Scanner.token sc) /\
   Parser.token p' = Scanner.token sc /\
   Parser.scanner p' = Scanner.drainHtmlTrivia sc /\
   Parser.parsingContext p' = Parser.parsingContext p /\
   Parser.diagnostics p' = Parser.diagnostics p /\
   Parser.cancellationToken p' = Parser.cancellationToken p /\
   Parser.imports p' = Parser.imports p).
Proof.
  intros H. unfold nextToken in H.
  apply bind_inv in H as [(tok & q & Hscan & H)|(e & Hscan & ->)].
  - apply scan_inv in Hscan as [(? & _)|(polls' & Htok & ->)]; [discriminate|].
    injection Htok as ->. right. cbv zeta.
    unfold bind at 1, modify at 1 in H. cbv beta iota in H.
    unfold getHtmlTrivia, getStartPos, bind, gets, modify, ret in H. cbv beta iota in H.
    destruct (trimTrivia _); [destruct (Parser.tags _)|];
      injection H as <- <-; simpl; done.
  - apply scan_inv in Hscan as [(-> & ->)|(? & ? & _)]; [left; done|discriminate].
Qed.

Lemma advance_rest sc :
  length (Scanner.rest (Scanner.advance sc).1) = pred (length (Scanner.rest sc)).
Proof. unfold Scanner.advance. destruct (Scanner.rest sc); reflexivity. Qed.

Lemma advance_eof sc :
  Scanner.rest sc = [] -> Scanner.token (Scanner.advance sc).1 = SyntaxKind.EndOfFileToken.
Proof. unfold Scanner.advance. intros ->. reflexivity. Qed.

(** A skipping loop with a test that fails at the end of the file ends
    within as many steps as the scanner has tokens left, plus one. *)
Lemma skip_loop_stops (stop : Parser -> bool) (loop : nat -> P unit) :
  (forall n p, loop n p =
     if stop p then (Ok tt, p)
     else match n with
          | 0 => (Throw OutOfFuel, p)
          | S n' => (nextToken ;; loop n') p
          end) ->
  (forall p, Parser.token p = SyntaxKind.EndOfFileToken -> stop p = true) ->
  (forall p q, Parser.token p = Parser.token q -> stop p = stop q) ->
  forall n p r p',
    (length (Scanner.rest (Parser.scanner p)) < n \/ stop p = true) ->
    loop n p = (r, p') ->
    (r = Ok tt /\ stop p' = true) \/ r = Throw OperationCanceled.
Proof.
  intros Hloop Heof Htok. induction n as [|n IH]; intros p r p' Hn H; rewrite Hloop in H.
  - destruct (stop p) eqn:Es; [injection H as <- <-; by left|].
    destruct Hn as [Hn|Hn]; [lia|congruence].
  - destruct (stop p) eqn:Es; [injection H as <- <-; by left|].
    destruct Hn as [Hn|Hn]; [|congruence].
    apply bind_inv in H as [(tok & q & Hnext & H)|(e & Hnext & ->)];
      apply nextToken_inv in Hnext as [(Hr & ->)|(Hr & Ht & Hs & _)]; try discriminate.
    + apply (IH _ _ _) in H; [exact H|].
      rewrite Hs. simpl. change (Scanner.rest (Scanner.drainHtmlTrivia ?s)) with (Scanner.rest s).
      rewrite advance_rest.
      destruct (Scanner.rest (Parser.scanner p)) eqn:Er.
      * right. apply Heof. rewrite Ht. apply advance_eof, Er.
      * left. simpl in *. lia.
    + right. congruence.
Qed.

Lemma skipUntil_loop_unfold isRecoveryToken n p :
  skipUntil_loop n isRecoveryToken p =
  if isRecoveryToken (Parser.token p) || (Parser.token p =k SyntaxKind.EndOfFileToken)
  then (Ok tt, p)
  else match n with
       | 0 => (Throw OutOfFuel, p)
       | S n' => (nextToken ;; skipUntil_loop n' isRecoveryToken) p
       end.
Proof.
  destruct n; simpl; unfold isEOF, bind, gets, ret, throw; cbv beta iota;
    destruct (isRecoveryToken _), (_ =k _); reflexivity.
Qed.

Lemma skipWhitespace_loop_unfold skip n p :
  skipWhitespace_loop n skip p =
  if negb (isWhitespaceToken skip (Parser.token p))
  then (Ok tt, p)
  else match n with
       | 0 => (Throw OutOfFuel, p)
       | S n' => (nextToken ;; skipWhitespace_loop n' skip) p
       end.
Proof.
  destruct n; simpl; unfold isWhitespace, bind, gets, ret, throw; cbv beta iota;
    destruct (isWhitespaceToken _ _); reflexivity.
Qed.

End TokenFacts.

(** X16.  The two skipping loops end.  [skipUntil] returns on a recovery
    token or at the end of the file and [skipWhitespace] on a token that is
    not whitespace to skip, unless a scan is cancelled; neither moves when the
    parser is already on such a token. *)
Theorem skipping_stops (isRecoveryToken : SyntaxKind -> bool) (skip : SkipWhitespace)
    (p : Parser) :
  let recovered q :=
    isRecoveryToken (Parser.token q) || (Parser.token q =k SyntaxKind.EndOfFileToken) in
  let skipped q := negb (isWhitespaceToken skip (Parser.token q)) in
  (forall r p', skipUntil isRecoveryToken p = (r, p') ->
                (r = Ok tt /\ recovered p' = true) \/ r = Throw OperationCanceled) /\
  (recovered p = true -> skipUntil isRecoveryToken p = (Ok tt, p)) /\
  (forall r p', skipWhitespace skip p = (r, p') ->
                (r = Ok tt /\ skipped p' = true) \/ r = Throw OperationCanceled) /\
  (skipped p = true -> skipWhitespace skip p = (Ok tt, p)).
Proof.
  cbv zeta. repeat split.
  - intros r p' H. unfold skipUntil, bind at 1, gets in H.
    revert H.
    apply (skip_loop_stops
             (fun q => isRecoveryToken (Parser.token q)
                       || (Parser.token q =k SyntaxKind.EndOfFileToken))
             (fun n => skipUntil_loop n isRecoveryToken)).
    + intros. apply skipUntil_loop_unfold.
    + intros q ->. apply orb_true_r.
    + intros q q' ->. reflexivity.
    + left. lia.
  - intros H. unfold skipUntil, bind at 1, gets.
    rewrite skipUntil_loop_unfold, H. reflexivity.
  - intros r p' H. unfold skipWhitespace, bind at 1, gets in H.
    revert H.
    apply (skip_loop_stops (fun q => negb (isWhitespaceToken skip (Parser.token q)))
             (fun n => skipWhitespace_loop n skip)).
    + intros. apply skipWhitespace_loop_unfold.
    + intros q ->. reflexivity.
    + intros q q' ->. reflexivity.
    + left. lia.
  - intros H. unfold skipWhitespace, bind at 1, gets.
    rewrite skipWhitespace_loop_unfold, H. reflexivity.
Qed.

Lemma skipping_stops_witness :
  let p' := (skipUntil isSourceElementsRecoveryToken midParse).2 in
  (skipUntil isSourceElementsRecoveryToken midParse).1 = Ok tt /\
  Parser.token p' = SyntaxKind.EndOfFileToken.
Proof.
  cbv zeta.
  destruct (skipping_stops isSourceElementsRecoveryToken SkipWhitespace.All midParse)
    as (H & _).
  destruct (H _ _ (surjective_pairing _)) as [[Hr Hp]|Hr].
  - split; [exact Hr|]. vm_compute. reflexivity.
  - vm_compute in Hr. discriminate.
Defined.

Section NodeShape.

Lemma length_removelast' {A} (l : list A) : length (removelast l) = pred (length l).
Proof.
  induction l as [|x [|y l] IH]; [done|done|].
  change (removelast (x :: y :: l)) with (x :: removelast (y :: l)).
  cbn [length] in *. rewrite IH. done.
Qed.

Lemma attachHtmlTrivia_shape node tags :
  sameShape node (attachHtmlTrivia node tags).1 /\
  Node.children (attachHtmlTrivia node tags).1 = Node.children node.
Proof.
  unfold attachHtmlTrivia, sameShape.
  destruct (tags !! Node.pos node) as [leadingTags|].
  - destruct (attachLeading _ _) as [revRest leading].
    destruct (_ !! Node.end_ _) as [trailingTags|]; [|done].
    destruct (attachTrailing _ _) as [rest trailing]. done.
  - destruct (_ !! Node.end_ _) as [trailingTags|]; [|done].
    destruct (attachTrailing _ _) as [rest trailing]. done.
Qed.

Lemma promoteHtmlTrivia_shape node : sameShape node (promoteHtmlTrivia node).
Proof.
  unfold promoteHtmlTrivia, sameShape.
  destruct (Node.children node) as [|c [|c' cs]] eqn:E; [rewrite E; done|done|].
  destruct (promoteLeadingHtmlTrivia _ _) as [leading firstChild'].
  destruct (promoteTrailingHtmlTrivia _ _) as [trailing lastChild'].
  cbn -[removelast]. repeat split; try done.
  rewrite length_app, length_removelast'. simpl. lia.
Qed.

Lemma finishNode_inv node fullStart p r p' :
  finishNode node fullStart p = (r, p') ->
  exists node' tagMaps,
    r = Ok node' /\ p' = Parser.set_tagMaps tagMaps p /\
    Node.id node' = Node.id node /\ Node.kind node' = Node.kind node /\
    Node.text node' = Node.text node /\
    length (Node.children node') = length (Node.children node) /\
    Node.pos node' = fullStart /\
    Node.end_ node' = Scanner.startPos (Parser.scanner p).
Proof.
  unfold finishNode, getStartPos, bind, gets, ret. cbv beta iota.
  set (node1 := with_range _ _ node).
  destruct (Parser.tags p) as [ref|].
  - pose proof (attachHtmlTrivia_shape node1 (default ∅ (Parser.tagMaps p !! ref)))
      as [(S1 & S2 & S3 & S4 & S5 & S6) _].
    destruct (attachHtmlTrivia _ _) as [n' m']. intros [= <- <-].
    destruct (promoteHtmlTrivia_shape n') as (T1 & T2 & T3 & T4 & T5 & T6).
    eexists _, _. split; [reflexivity|]. split; [reflexivity|].
    unfold node1, Scanner.getStartPos in *. simpl in *. repeat split; congruence.
  - intros [= <- <-].
    destruct (promoteHtmlTrivia_shape node1) as (T1 & T2 & T3 & T4 & T5 & T6).
    exists (promoteHtmlTrivia node1), (Parser.tagMaps p).
    split; [reflexivity|]. split; [by destruct p|].
    unfold node1, Scanner.getStartPos in *. simpl in *. repeat split; congruence.
Qed.

End NodeShape.

(** X17.  [parseToken] and [parseOptional] consume a token exactly when the
    parser is on the token asked for.  Otherwise they return [undefined] and
    [false] and leave the parser as it is.  On the token, unless the scan is
    cancelled, the scanner moves one token on, and the node [parseToken]
    returns is a leaf of that kind that spans from the start of the scan of
    the token to its end. *)
Theorem parseToken_consumes (token : SyntaxKind) (p : Parser) :
  let next := (Scanner.advance (Parser.scanner p)).1 in
  let moved q :=
    Parser.scanner q = Scanner.drainHtmlTrivia next /\ Parser.token q = Scanner.token next /\
    Parser.parsingContext q = Parser.parsingContext p /\
    Parser.diagnostics q = Parser.diagnostics p in
  (forall r p', parseToken token p = (r, p') ->
     if Parser.token p =k token then
       (r = Throw OperationCanceled /\ p' = p) \/
       (exists node, r = Ok (Some node) /\ moved p' /\
          Node.kind node = token /\ Node.children node = [] /\
          Node.pos node = Scanner.startPos (Parser.scanner p) /\
          Node.end_ node = Scanner.pos (Parser.scanner p))
     else r = Ok None /\ p' = p) /\
  (forall r p', parseOptional token p = (r, p') ->
     if Parser.token p =k token then
       (r = Throw OperationCanceled /\ p' = p) \/ (r = Ok true /\ moved p')
     else r = Ok false /\ p' = p).
Proof.
  cbv zeta. split; intros r p' H.
  - unfold parseToken, bind at 1, gets in H. cbv beta iota in H.
    destruct (Parser.token p =k token); [|by injection H as <- <-].
    unfold bind at 1, getStartPos, gets in H. cbv beta iota in H.
    apply bind_inv in H as [(tok & q & Hnext & H)|(e & Hnext & ->)];
      apply nextToken_inv in Hnext
        as [(Hr & ->)|(Hr & Ht & Hs & Hc & Hd & _)]; try discriminate;
      [|left; split; congruence].
    right.
    unfold bind at 1, new_node in H. cbv beta iota in H.
    apply bind_inv in H as [(node & q1 & Hfin & H)|(e & Hfin & ->)];
      apply finishNode_inv in Hfin
        as (node' & tagMaps & Hr' & -> & _ & Hk & _ & Hch & Hpos & Hend);
      [|discriminate].
    injection Hr' as ->. injection H as <- <-.
    exists node'. split; [reflexivity|]. simpl in *.
    split; [done|]. split; [exact Hk|]. split; [by destruct (Node.children node')|].
    split; [exact Hpos|]. rewrite Hend, Hs.
    unfold Scanner.advance. destruct (Scanner.rest _); reflexivity.
  - unfold parseOptional, bind at 1, gets in H. cbv beta iota in H.
    destruct (Parser.token p =k token); [|by injection H as <- <-].
    apply bind_inv in H as [(tok & q & Hnext & H)|(e & Hnext & ->)];
      apply nextToken_inv in Hnext
        as [(Hr & ->)|(Hr & Ht & Hs & Hc & Hd & _)]; try discriminate;
      [|left; split; congruence].
    right. injection H as <- <-. done.
Qed.

Lemma parseToken_consumes_witness :
  exists node,
    (parseToken SyntaxKind.ColonToken midParse).1 = Ok (Some node) /\
    (Node.kind node, Node.pos node, Node.end_ node) = (SyntaxKind.ColonToken, 1, 3).
Proof.
  destruct (parseToken_consumes SyntaxKind.ColonToken midParse) as [H _].
  specialize (H _ _ (surjective_pairing _)).
  change (Parser.token midParse =k SyntaxKind.ColonToken) with true in H.
  destruct H as [[Hr _]|(node & Hr & _ & Hk & _ & Hpos & Hend)].
  - vm_compute in Hr. discriminate.
  - exists node. split; [exact Hr|]. rewrite Hk, Hpos, Hend. reflexivity.
Defined.

(** ** A list that does not end *)

Section ParameterLists.
Implicit Types (p : Parser).

Lemma isProductionSeparatorToken_inv tok :
  isProductionSeparatorToken tok = true ->
  tok = SyntaxKind.ColonToken \/ tok = SyntaxKind.ColonColonToken \/
  tok = SyntaxKind.ColonColonColonToken.
Proof. destruct tok; try discriminate; auto. Qed.

(** On a production separator, one run of the body of the loop of
    [parseList] for a parameter list reports what it expected and leaves the
    parser on the same token. *)
Lemma parseList_iteration_on_separator parseElement c result p r p' :
  c = ParsingContext.Parameters \/ c = ParsingContext.BracketedParameters ->
  Parser.parsingContext p = c ->
  isProductionSeparatorToken (Parser.token p) = true ->
  parseList_iteration parseElement c true true false SkipWhitespace.All result p = (r, p') ->
  (r = Throw OperationCanceled /\ cancellationRequested (Parser.cancellationToken p) p) \/
  (r = Ok (result, true) /\
   Parser.token p' = Parser.token p /\
   Parser.parsingContext p' = Parser.parsingContext p /\
   Parser.cancellationToken p' = Parser.cancellationToken p).
Proof.
  intros Hc Hctx Htok.
  destruct p as [sc tok imports diag ctx ct tags off sinks ns tm ntm polls nid].
  simpl in Hctx, Htok. subst ctx.
  apply isProductionSeparatorToken_inv in Htok as Htok3.
  unfold parseList_iteration, bind at 1, gets. cbv beta iota.
  unfold bind at 1, throwIfCancellationRequested, CancellationToken.throwIfCancellationRequested.
  cbn [Parser.cancellationToken Parser.polls].
  destruct ct as [|i]; [|destruct (polls !! i) as [[|n]|] eqn:Ep];
    try (intros [= <- <-]; left; split; [reflexivity|exact Ep]);
    destruct Hc as [->| ->]; destruct Htok3 as [->|[->| ->]];
    intros H; cbv -[insert DiagnosticMessages.report] in H; injection H as <- <-; right; done.
Qed.

Lemma parseList_loop_on_separator parseElement c result fuel : forall p r p',
  c = ParsingContext.Parameters \/ c = ParsingContext.BracketedParameters ->
  Parser.parsingContext p = c ->
  isProductionSeparatorToken (Parser.token p) = true ->
  parseList_loop fuel parseElement c true true false SkipWhitespace.All result p = (r, p') ->
  (r = Throw OutOfFuel \/ r = Throw OperationCanceled) /\
  (Parser.cancellationToken p = CancellationToken.none -> r = Throw OutOfFuel).
Proof.
  induction fuel as [|fuel IH]; intros p r p' Hc Hctx Htok H; simpl in H;
    unfold bind at 1, isEOF, gets in H; cbv beta iota in H;
    (assert (Heof : (Parser.token p =k SyntaxKind.EndOfFileToken) = false)
       by (destruct (isProductionSeparatorToken_inv _ Htok) as [->|[->| ->]]; reflexivity));
    rewrite Heof in H.
  - injection H as <- <-. auto.
  - apply bind_inv in H as [([res continue] & q & Hit & H)|(e & Hit & ->)];
      apply (parseList_iteration_on_separator _ _ _ _ _ _ Hc Hctx Htok) in Hit
        as [(Hr & Hreq)|(Hr & Ht & Hx & Hct)]; try discriminate.
    + injection Hr as -> ->.
      apply IH in H as [H1 H2]; [|exact Hc|congruence|congruence].
      split; [exact H1|]. intros Hnone. apply H2. congruence.
    + injection Hr as ->. split; [auto|]. intros Hnone.
      rewrite Hnone in Hreq. destruct Hreq.
Qed.

End ParameterLists.

(** X18.  [parseList] does not return from a parameter list when the parser
    is on a production separator ([:], [::] or [:::]): the separator is a
    recovery token of the list but neither starts a parameter nor separates
    or closes the list, so each run of the loop reports the expected tokens
    and stays where it is.  The loop goes on until it is cancelled; with a
    token that cannot be cancelled it exhausts any number of iterations. *)
Theorem parseList_parameters_never_returns (fuel : nat)
    (parseElement : ParsingContext -> P (option Node)) (listContext : ParsingContext)
    (result : option (list Node)) (p p' : Parser) (r : Result (option (list Node))) :
  listContext = ParsingContext.Parameters \/
  listContext = ParsingContext.BracketedParameters ->
  isProductionSeparatorToken (Parser.token p) = true ->
  parseList_with fuel parseElement listContext result p = (r, p') ->
  (r = Throw OutOfFuel \/ r = Throw OperationCanceled) /\
  (Parser.cancellationToken p = CancellationToken.none -> r = Throw OutOfFuel).
Proof.
  intros Hc Htok H. unfold parseList_with in H.
  unfold bind at 1, gets in H. cbv beta iota in H.
  unfold bind at 1, modify in H. cbv beta iota in H.
  set (q := Parser.set_parsingContext listContext p) in H.
  assert (Hflags :
    hasCloseToken q = (Ok true, q) /\ hasSeparator q = (Ok true, q) /\
    shouldConsumeCloseToken q = (Ok false, q) /\
    shouldSkipWhitespace q = (Ok SkipWhitespace.All, q)).
  { unfold hasCloseToken, hasSeparator, shouldConsumeCloseToken, shouldSkipWhitespace, gets.
    unfold q. cbn [Parser.parsingContext Parser.set_parsingContext].
    destruct Hc as [->| ->]; done. }
  destruct Hflags as (F1 & F2 & F3 & F4).
  unfold bind at 1 in H. rewrite F1 in H.
  unfold bind at 1 in H. rewrite F2 in H.
  unfold bind at 1 in H. rewrite F3 in H.
  unfold bind at 1 in H. rewrite F4 in H.
  apply bind_inv in H as [(res & q1 & Hloop & H)|(e & Hloop & ->)];
    apply parseList_loop_on_separator in Hloop as [H1 H2]; try done.
  destruct H1; discriminate.
Qed.

Lemma parseList_parameters_never_returns_witness :
  (parseList_with 50 (fun _ => ret None) ParsingContext.Parameters None midParse).1
  = Throw OutOfFuel.
Proof.
  destruct (parseList_parameters_never_returns 50 (fun _ => ret None)
              ParsingContext.Parameters None midParse _ _
              (or_introl eq_refl) eq_refl (surjective_pairing _)) as [_ H].
  apply H. reflexivity.
Defined.

(** ** The diagnostics of a file *)

Section FileSinks.
Implicit Types (p : Parser).

(** The state in which [parse] reads its first token. *)
Lemma parse_unfold fuel lex filename text tok p :
  let r := Parser.nextSink p in
  let d := DiagnosticMessages.Sink r in
  let q0 :=
    Parser.mk (Scanner.new lex filename text d tok) (Parser.token p) [] d
      ParsingContext.SourceElements tok (Parser.tags p) 0
      (<[r := []]> (Parser.sinks p)) (S r) (Parser.tagMaps p) (Parser.nextTagMap p)
      (Parser.polls p) (S (Parser.nextNodeId p)) in
  parse fuel lex filename text tok p =
  (nextToken ;;
   let* elements := parseSourceElementList fuel (parser fuel) (Some []) in
   let* imports := gets Parser.imports in
   ret (SourceFile.mk
          (with_children (default [] elements)
             (with_range 0 (String.length text)
                (Node.mk (S (Parser.nextNodeId p)) SyntaxKind.SourceFile 0 0 None None None [])))
          filename text imports (Some r))) q0.
Proof. reflexivity. Qed.



End FileSinks.



(** ** Reported diagnostics stay *)

Section SinksGrow.
Implicit Types (p : Parser).

Lemma sinksGrow_refl p : sinksGrow p p.
Proof. intros ref messages H. exists []. by rewrite app_nil_r. Qed.

Lemma sinksGrow_trans p q r : sinksGrow p q -> sinksGrow q r -> sinksGrow p r.
Proof.
  intros H1 H2 ref messages H. destruct (H1 _ _ H) as (m1 & E1).
  destruct (H2 _ _ E1) as (m2 & E2). exists (m1 ++ m2). by rewrite app_assoc.
Qed.

Lemma sinksGrow_same p p' : Parser.sinks p' = Parser.sinks p -> sinksGrow p p'.
Proof. intros E ref messages H. exists []. by rewrite E, app_nil_r. Qed.

Lemma report_grows d pos message sinks ref messages :
  sinks !! ref = Some messages ->
  exists more, DiagnosticMessages.report d pos message sinks !! ref = Some (messages ++ more).
Proof.
  intros H. destruct d as [|r]; simpl; [exists []; by rewrite app_nil_r|].
  destruct (decide (r = ref)) as [->|Hne].
  - rewrite lookup_insert_eq, H. eauto.
  - rewrite lookup_insert_ne by done. exists []. by rewrite app_nil_r.
Qed.

Lemma report_all_grows d pos errors : forall sinks ref messages,
  sinks !! ref = Some messages ->
  exists more,
    fold_left (fun sinks e => DiagnosticMessages.report d pos e sinks) errors sinks !! ref
    = Some (messages ++ more).
Proof.
  induction errors as [|e errors IH]; intros sinks ref messages H; simpl.
  - exists []. by rewrite app_nil_r.
  - destruct (report_grows d pos e _ _ _ H) as (m1 & E1).
    destruct (IH _ _ _ E1) as (m2 & E2). exists (m1 ++ m2). by rewrite app_assoc.
Qed.

Create HintDb grows discriminated.
#[local] Hint Resolve sinksGrow_refl sinksGrow_trans : grows.

Lemma nextToken_sinksGrow : ensures sinksGrow sinksGrow nextToken.
Proof.
  apply ensures_nextToken; eauto with grows; intros;
    try (apply sinksGrow_same; reflexivity).
  intros ref messages H. cbn [Parser.sinks Parser.set_sinks]. apply report_all_grows, H.
Qed.

Lemma finishNode_sinksGrow node fullStart :
  ensures sinksGrow sinksGrow (finishNode node fullStart).
Proof.
  apply ensures_finishNode; eauto with grows. intros. apply sinksGrow_same. reflexivity.
Qed.

Lemma new_node_sinksGrow kind text children :
  ensures sinksGrow sinksGrow (new_node kind text children).
Proof. intros p r p' [= <- <-]. apply sinksGrow_same. reflexivity. Qed.

Lemma report_sinksGrow pos message : ensures sinksGrow sinksGrow (report pos message).
Proof.
  intros p r p' [= <- <-] ref messages H. cbn [Parser.sinks Parser.set_sinks].
  apply report_grows, H.
Qed.

Lemma modify_sinksGrow (f : Parser -> Parser) :
  (forall p, Parser.sinks (f p) = Parser.sinks p) ->
  ensures sinksGrow sinksGrow (modify f).
Proof. intros Hf p r p' [= <- <-]. apply sinksGrow_same, Hf. Qed.

Lemma poll_sinksGrow tok : ensures sinksGrow sinksGrow (throwIfCancellationRequested tok).
Proof.
  apply ensures_poll; eauto with grows. intros. apply sinksGrow_same. reflexivity.
Qed.

Lemma speculate_sinksGrow {T} `{JsTruthy T} (fn : P T) isLookahead :
  ensures sinksGrow sinksGrow fn -> ensures sinksGrow sinksGrow (speculate fn isLookahead).
Proof.
  intros Hfn.
  assert (Hb : forall A B (m : P A) (f : A -> P B),
             ensures sinksGrow sinksGrow m -> (forall a, ensures sinksGrow sinksGrow (f a)) ->
             ensures sinksGrow sinksGrow (bind m f)).
  { intros. apply ensures_bind; eauto with grows. }
  assert (Hg : forall A (f : Parser -> A), ensures sinksGrow sinksGrow (gets f)).
  { intros. apply ensures_gets; eauto with grows. }
  assert (Hr : forall A (a : A), ensures sinksGrow sinksGrow (ret a)).
  { intros. apply ensures_ret; eauto with grows. }
  unfold speculate, Scanner_speculate, when.
  repeat first
    [ apply Hb; [|intros ?]
    | apply Hg | apply Hr | exact Hfn
    | apply modify_sinksGrow; intros; reflexivity
    | match goal with |- ensures _ _ (if ?b then _ else _) => destruct b end ].
Qed.

Lemma parseList_with_sinksGrow fuel parseElement listContext result :
  (forall c, ensures sinksGrow sinksGrow (parseElement c)) ->
  ensures sinksGrow sinksGrow (parseList_with fuel parseElement listContext result).
Proof.
  intros Hpe. apply parseList_with_ensures_from_steps; eauto with grows.
  - apply nextToken_sinksGrow.
  - apply finishNode_sinksGrow.
  - apply new_node_sinksGrow.
  - apply report_sinksGrow.
  - apply poll_sinksGrow.
  - intros c. apply modify_sinksGrow. reflexivity.
Qed.

End SinksGrow.

(** X20.  No method of the grammar takes back a diagnostic: whether an
    element parser or the parse of the source elements returns or throws,
    every sink holds the messages it held before, in the same order,
    followed by the ones reported since. *)
Theorem reported_diagnostics_stay (fuel n : nat) (c : ParsingContext)
    (elements : option (list Node)) (p : Parser) :
  sinksGrow p (k_parseElement (parser n) c p).2 /\
  sinksGrow p (parseSourceElementList fuel (parser fuel) elements p).2.
Proof.
  assert (Hall : forall n c, ensures sinksGrow sinksGrow (k_parseElement (parser n) c)).
  { intros n0 c0.
    apply parser_ensures;
      eauto using sinksGrow_refl, sinksGrow_trans, nextToken_sinksGrow, finishNode_sinksGrow,
        new_node_sinksGrow, report_sinksGrow, poll_sinksGrow, parseList_with_sinksGrow.
    - intros. apply modify_sinksGrow. reflexivity.
    - intros. apply speculate_sinksGrow. assumption. }
  split.
  - specialize (Hall n c p _ _ (surjective_pairing _)).
    destruct (k_parseElement (parser n) c p).1; exact Hall.
  - pose proof (parseList_with_sinksGrow fuel (k_parseElement (parser fuel))
                  ParsingContext.SourceElements elements (Hall fuel) p _ _
                  (surjective_pairing _)) as H.
    unfold parseSourceElementList, parseList.
    destruct (parseList_with _ _ _ _ _).1; exact H.
Qed.

(** X21.  A text without tokens parses, with any bound on the loops, from
    any parser state and with a token that is never cancelled, to a source
    file without elements and without imports; nothing is reported: the sink
    of the file is empty. *)
Theorem parseSourceFile_empty (fuel : nat) (lex : Lexer) (filename text : string)
    (p : Parser) :
  lex text = [] ->
  exists sourceFile p',
    parseSourceFile fuel lex filename text CancellationToken.none p = (Ok sourceFile, p') /\
    Node.children (SourceFile.node sourceFile) = [] /\
    SourceFile.imports sourceFile = [] /\
    SourceFile.parseDiagnostics sourceFile = Some (Parser.nextSink p) /\
    Parser.sinks p' !! Parser.nextSink p = Some [].
Proof.
  intros Hlex. unfold parseSourceFile.
  unfold bind at 1, throwIfCancellationRequested. cbn [CancellationToken.throwIfCancellationRequested].
  rewrite set_polls_same.
  unfold bind, gets, finally. cbv beta iota.
  rewrite parse_unfold. cbv zeta.
  unfold bind at 1, nextToken, bind at 1, scan, bind at 1, gets. cbv beta iota.
  unfold Scanner.new at 1 2 3. rewrite Hlex.
  destruct fuel;
    cbv -[insert lookup String.length Nat.eq_dec nat_countable map_insert gmap_lookup
          gmap_partial_alter];
    (eexists _, _; split; [reflexivity|]);
    cbn [SourceFile.node SourceFile.imports SourceFile.parseDiagnostics Node.children
         Parser.sinks];
    repeat split; apply lookup_insert_eq.
Qed.

Lemma parseSourceFile_empty_witness :
  exists sourceFile p',
    parseSourceFile 3 sampleLexer "empty.grammar" EmptyString CancellationToken.none
      (Parser.new ∅) = (Ok sourceFile, p') /\
    Node.children (SourceFile.node sourceFile) = [].
Proof.
  destruct (parseSourceFile_empty 3 sampleLexer "empty.grammar" EmptyString (Parser.new ∅)
              eq_refl) as (sourceFile & p' & H & Hc & _).
  exists sourceFile, p'. split; [exact H|exact Hc].
Defined.

(** * Markup trivia *)

Section TrimTrivia.

Lemma trimTrivia_loop_some l : forall before r,
  trimTrivia_loop before l (Some r) = Some (r ++ unmatchedHeads l).
Proof.
  induction l as [|a [|b tl] IH]; intros before r.
  - simpl. by rewrite app_nil_r.
  - simpl. by rewrite app_nil_r.
  - change (trimTrivia_loop before (a :: b :: tl) (Some r))
      with (if matched a b then trimTrivia_loop (a :: before) (b :: tl) (Some r)
            else trimTrivia_loop (a :: before) (b :: tl) (Some (r ++ [a]))).
    change (unmatchedHeads (a :: b :: tl))
      with (if matched a b then unmatchedHeads (b :: tl) else a :: unmatchedHeads (b :: tl)).
    destruct (matched a b); rewrite IH; [done|]. by rewrite <- app_assoc.
Qed.

Lemma trimTrivia_loop_none l : forall before,
  trimTrivia_loop before l None =
  if hasMatchedPair l then Some (rev before ++ unmatchedHeads l) else None.
Proof.
  induction l as [|a [|b tl] IH]; intros before; [done|done|].
  change (trimTrivia_loop before (a :: b :: tl) None)
    with (if matched a b then trimTrivia_loop (a :: before) (b :: tl) (Some (rev before))
          else trimTrivia_loop (a :: before) (b :: tl) None).
  change (unmatchedHeads (a :: b :: tl))
    with (if matched a b then unmatchedHeads (b :: tl) else a :: unmatchedHeads (b :: tl)).
  change (hasMatchedPair (a :: b :: tl)) with (matched a b || hasMatchedPair (b :: tl)).
  destruct (matched a b).
  - rewrite trimTrivia_loop_some. done.
  - rewrite IH. cbn [orb rev]. destruct (hasMatchedPair (b :: tl)); [|done].
    by rewrite <- app_assoc.
Qed.

Lemma unmatchedHeads_sublist l : unmatchedHeads l `sublist_of` l.
Proof.
  induction l as [|a [|b tl] IH]; [done|by apply sublist_nil_l|].
  change (unmatchedHeads (a :: b :: tl))
    with (if matched a b then unmatchedHeads (b :: tl) else a :: unmatchedHeads (b :: tl)).
  destruct (matched a b); [by apply sublist_cons|by apply sublist_skip].
Qed.

Lemma unmatchedHeads_length l :
  hasMatchedPair l = true -> 2 + length (unmatchedHeads l) <= length l.
Proof.
  assert (Hle : forall l, l <> [] -> 1 + length (unmatchedHeads l) <= length l).
  { clear l. induction l as [|a [|b tl] IH]; intros Hne; [done|simpl; lia|].
    change (unmatchedHeads (a :: b :: tl))
      with (if matched a b then unmatchedHeads (b :: tl) else a :: unmatchedHeads (b :: tl)).
    specialize (IH ltac:(done)).
    destruct (matched a b); cbn [length] in *; lia. }
  induction l as [|a [|b tl] IH]; intros Hpair; [done|done|].
  change (unmatchedHeads (a :: b :: tl))
    with (if matched a b then unmatchedHeads (b :: tl) else a :: unmatchedHeads (b :: tl)).
  change (hasMatchedPair (a :: b :: tl)) with (matched a b || hasMatchedPair (b :: tl)) in Hpair.
  destruct (matched a b).
  - specialize (Hle (b :: tl) ltac:(done)). cbn [length] in *. lia.
  - specialize (IH Hpair). cbn [length] in *. lia.
Qed.

End TrimTrivia.

(** X22.  [trimTrivia] returns the array it is given unless some tag in it
    is directly followed by its close tag.  If one is, the result is a new
    array without the tags that are so followed and without the last tag of
    the array, whatever that tag is: it is at least two tags shorter and a
    subsequence of the argument.  [undefined] stays [undefined]. *)
Theorem trimTrivia_drops (trivia : list HtmlTrivia) :
  trimTrivia None = None /\
  trimTrivia (Some trivia) =
    Some (if hasMatchedPair trivia then unmatchedHeads trivia else trivia) /\
  (hasMatchedPair trivia = true ->
   unmatchedHeads trivia `sublist_of` trivia /\
   2 + length (unmatchedHeads trivia) <= length trivia).
Proof.
  split; [reflexivity|]. split.
  - unfold trimTrivia. rewrite trimTrivia_loop_none.
    destruct (hasMatchedPair trivia); reflexivity.
  - intros Hpair. split; [apply unmatchedHeads_sublist|apply unmatchedHeads_length, Hpair].
Qed.

Lemma trimTrivia_drops_witness :
  trimTrivia (Some [sampleOpen; sampleClose; sampleOther]) = Some [sampleClose] /\
  [sampleClose] `sublist_of` [sampleOpen; sampleClose; sampleOther].
Proof.
  destruct (trimTrivia_drops [sampleOpen; sampleClose; sampleOther]) as (_ & H & Hsub).
  split; [exact H|]. apply (Hsub eq_refl).
Defined.

Section Promotion.

Lemma promoteLeading_loop_keeps rest : forall leadingTag trailingTag parentLeading,
  let '(stopped, rest', parentLeading') :=
    promoteLeading_loop leadingTag rest trailingTag parentLeading in
  default [] parentLeading' ++ (match stopped with Some t => t :: rest' | None => rest' end)
  = default [] parentLeading ++ leadingTag :: rest.
Proof.
  induction rest as [|next rest IH]; intros leadingTag trailingTag parentLeading;
    cbn [promoteLeading_loop];
    destruct (match trailingTag with None => true | Some t => negb (matched leadingTag t) end);
    try done.
  - unfold push_opt. simpl. by rewrite app_nil_r.
  - specialize (IH next trailingTag (push_opt leadingTag parentLeading)).
    destruct (promoteLeading_loop next rest trailingTag _) as [[stopped rest'] pl'].
    rewrite IH. unfold push_opt. simpl. by rewrite <- app_assoc.
Qed.

Lemma promoteTrailing_loop_keeps revRest : forall trailingTag leadingTag parentTrailing,
  let '(stopped, revRest', parentTrailing') :=
    promoteTrailing_loop trailingTag revRest leadingTag parentTrailing in
  rev revRest' ++ (match stopped with Some t => [t] | None => [] end)
    ++ default [] parentTrailing'
  = rev revRest ++ trailingTag :: default [] parentTrailing.
Proof.
  induction revRest as [|next revRest IH]; intros trailingTag leadingTag parentTrailing;
    cbn [promoteTrailing_loop];
    destruct (match leadingTag with None => true | Some l => negb (matched l trailingTag) end);
    try done.
  specialize (IH next leadingTag (unshift_opt trailingTag parentTrailing)).
  destruct (promoteTrailing_loop next revRest leadingTag _) as [[stopped revRest'] pt'].
  rewrite IH. unfold unshift_opt. simpl. by rewrite <- app_assoc.
Qed.

Lemma rotate_last (l : list HtmlTrivia) :
  match last l with Some t => t :: removelast l | None => removelast l end ≡ₚ l.
Proof.
  destruct (last l) as [t|] eqn:E.
  - apply last_Some in E as [l' ->]. rewrite removelast_last.
    apply Permutation_cons_append.
  - apply last_None in E as ->. done.
Qed.

Lemma head_tail (l : list HtmlTrivia) :
  match head l with Some t => t :: tail l | None => tail l end = l.
Proof. by destruct l. Qed.

Lemma with_trivia_shape leading trailing n : sameShape n (with_trivia leading trailing n).
Proof. by destruct n. Qed.

Lemma sameShape_refl n : sameShape n n.
Proof. done. Qed.

Lemma promoteLeadingHtmlTrivia_keeps parentLeading child :
  let r := promoteLeadingHtmlTrivia parentLeading child in
  default [] r.1 ++ leadingOf r.2 = default [] parentLeading ++ leadingOf child /\
  trailingOf r.2 ≡ₚ trailingOf child /\
  sameShape child r.2 /\ Node.children r.2 = Node.children child.
Proof.
  cbv zeta. unfold promoteLeadingHtmlTrivia, leadingOf, trailingOf.
  destruct (Node.leadingHtmlTrivia child) as [leading|] eqn:El;
    [|simpl; rewrite ?El; done].
  destruct (Node.trailingHtmlTrivia child) as [trailing|] eqn:Et.
  - destruct leading as [|leadingTag rest].
    + destruct child. simpl. split; [done|]. split; [apply rotate_last|done].
    + pose proof (promoteLeading_loop_keeps rest leadingTag (last trailing) parentLeading) as H.
      destruct (promoteLeading_loop _ _ _ _) as [[stopped rest'] pl'].
      destruct child. simpl. split; [exact H|]. split; [apply rotate_last|done].
  - destruct child. simpl in *. subst. split; [|done].
    destruct parentLeading; simpl; by rewrite ?app_nil_r.
Qed.

Lemma promoteTrailingHtmlTrivia_keeps parentTrailing child :
  let r := promoteTrailingHtmlTrivia parentTrailing child in
  trailingOf r.2 ++ default [] r.1 ≡ₚ trailingOf child ++ default [] parentTrailing /\
  leadingOf r.2 = leadingOf child /\
  sameShape child r.2 /\ Node.children r.2 = Node.children child.
Proof.
  cbv zeta. unfold promoteTrailingHtmlTrivia, leadingOf, trailingOf.
  destruct (Node.trailingHtmlTrivia child) as [trailing|] eqn:Et;
    [|simpl; rewrite ?Et; done].
  destruct (Node.leadingHtmlTrivia child) as [leading|] eqn:El.
  - destruct (rev trailing) as [|trailingTag revRest] eqn:Er.
    + assert (trailing = []) as -> by (by destruct trailing using rev_ind;
                                          [|rewrite rev_app_distr in Er]).
      destruct child. simpl. by rewrite head_tail.
    + pose proof (promoteTrailing_loop_keeps revRest trailingTag (head leading) parentTrailing)
        as H.
      destruct (promoteTrailing_loop _ _ _ _) as [[stopped revRest'] pt'].
      assert (Ht : trailing = rev revRest ++ [trailingTag]).
      { rewrite <- (rev_involutive trailing), Er. done. }
      destruct child. simpl. rewrite head_tail. split; [|done].
      rewrite Ht, <- app_assoc. simpl. rewrite <- H.
      destruct stopped as [t|]; simpl; [|done].
      rewrite (Permutation_middle (rev revRest') (default [] pt') t). done.
  - destruct child. simpl in *. subst. split; [|done].
    destruct parentTrailing; simpl; by rewrite ?app_nil_r.
Qed.

End Promotion.

(** X23.  Promoting trivia from a child to its parent loses no tag and
    makes none up.  The leading tags of parent and first child stay the same
    sequence, split at another place; the trailing tags of last child and
    parent stay the same tags, and so do the trailing tags of the first
    child, though not in the same order: the tag popped off for the
    comparison is put back at the front.  An only child hands all its trivia
    to the parent.  Kind, range, text and children of the nodes are left
    alone. *)
Theorem promotion_keeps_tags (parentTrivia : option (list HtmlTrivia)) (parent child : Node) :
  (let r := promoteLeadingHtmlTrivia parentTrivia child in
   default [] r.1 ++ leadingOf r.2 = default [] parentTrivia ++ leadingOf child /\
   trailingOf r.2 ≡ₚ trailingOf child /\
   sameShape child r.2 /\ Node.children r.2 = Node.children child) /\
  (let r := promoteTrailingHtmlTrivia parentTrivia child in
   trailingOf r.2 ++ default [] r.1 ≡ₚ trailingOf child ++ default [] parentTrivia /\
   leadingOf r.2 = leadingOf child /\
   sameShape child r.2 /\ Node.children r.2 = Node.children child) /\
  (let parent' := promoteAllHtmlTrivia parent child in
   leadingOf parent' = leadingOf parent ++ leadingOf child /\
   trailingOf parent' = trailingOf child ++ trailingOf parent /\
   Node.children parent' = [with_trivia None None child] /\
   Node.kind parent' = Node.kind parent /\
   (Node.pos parent', Node.end_ parent') = (Node.pos parent, Node.end_ parent)).
Proof.
  split; [apply promoteLeadingHtmlTrivia_keeps|].
  split; [apply promoteTrailingHtmlTrivia_keeps|].
  cbv zeta. unfold promoteAllHtmlTrivia, leadingOf, trailingOf.
  destruct parent as [i k ps e x pl pt cs], child as [i' k' ps' e' x' cl ct cs']. simpl.
  destruct cl, pl, ct, pt; simpl; rewrite ?app_nil_r; done.
Qed.

Section Attach.

Lemma eqb_open tag :
  (HtmlTrivia.kind tag =k SyntaxKind.HtmlOpenTagTrivia) = true <-> isOpenTag tag.
Proof.
  unfold isOpenTag. split; [|by intros ->].
  destruct (HtmlTrivia.kind tag); try discriminate; done.
Qed.

Lemma eqb_close tag :
  (HtmlTrivia.kind tag =k SyntaxKind.HtmlCloseTagTrivia) = true <-> isCloseTag tag.
Proof.
  unfold isCloseTag. split; [|by intros ->].
  destruct (HtmlTrivia.kind tag); try discriminate; done.
Qed.

Lemma last_rev_head (l : list HtmlTrivia) : last (rev l) = head l.
Proof. destruct l as [|a l]; [done|]. simpl. apply last_snoc. Qed.

Lemma attachLeading_moves revTags : forall leading,
  exists opened,
    Forall isOpenTag opened /\
    default [] (attachLeading revTags leading).2 = opened ++ default [] leading /\
    revTags = rev opened ++ (attachLeading revTags leading).1 /\
    (forall t, head (attachLeading revTags leading).1 = Some t -> ~ isOpenTag t).
Proof.
  induction revTags as [|tag revTags IH]; intros leading; cbn [attachLeading].
  - exists []. done.
  - destruct (HtmlTrivia.kind tag =k SyntaxKind.HtmlOpenTagTrivia) eqn:E.
    + destruct (IH (unshift_opt tag leading)) as (opened & Ho & Hl & Hr & Hh).
      exists (opened ++ [tag]). split; [|split; [|split]].
      * apply Forall_app. split; [done|]. constructor; [by apply eqb_open|done].
      * rewrite Hl. unfold unshift_opt. simpl. by rewrite <- app_assoc.
      * rewrite rev_app_distr. simpl. by f_equal.
      * exact Hh.
    + exists []. repeat split; try done.
      intros t [= <-] Ht. apply eqb_open in Ht. congruence.
Qed.

Lemma attachTrailing_moves tags : forall trailing,
  exists closed,
    Forall isCloseTag closed /\
    default [] (attachTrailing tags trailing).2 = default [] trailing ++ closed /\
    tags = closed ++ (attachTrailing tags trailing).1 /\
    (forall t, head (attachTrailing tags trailing).1 = Some t -> ~ isCloseTag t).
Proof.
  induction tags as [|tag tags IH]; intros trailing; cbn [attachTrailing].
  - exists []. by rewrite app_nil_r.
  - destruct (HtmlTrivia.kind tag =k SyntaxKind.HtmlCloseTagTrivia) eqn:E.
    + destruct (IH (push_opt tag trailing)) as (closed & Ho & Hl & Hr & Hh).
      exists (tag :: closed). split; [|split; [|split]].
      * constructor; [by apply eqb_close|done].
      * rewrite Hl. unfold push_opt. simpl. by rewrite <- app_assoc.
      * simpl. by f_equal.
      * exact Hh.
    + exists []. rewrite app_nil_r. repeat split; try done.
      intros t [= <-] Ht. apply eqb_close in Ht. congruence.
Qed.

End Attach.

(** X24.  [attachHtmlTrivia] moves tags from the arrays recorded at the
    start and at the end of a node to the node and changes nothing else.
    For a node that is not empty, the open tags at the end of the array at
    [node.pos] go, in their order, before the leading trivia of the node,
    and the close tags at the front of the array at [node.end] after its
    trailing trivia; the arrays keep the rest, which neither ends in an open
    tag nor starts with a close tag. *)
Theorem attachHtmlTrivia_moves_tags (node : Node) (tags : gmap nat (list HtmlTrivia)) :
  let node' := (attachHtmlTrivia node tags).1 in
  let tags' := (attachHtmlTrivia node tags).2 in
  sameShape node node' /\ Node.children node' = Node.children node /\
  (forall k, k <> Node.pos node -> k <> Node.end_ node -> tags' !! k = tags !! k) /\
  (Node.pos node <> Node.end_ node ->
   exists opened closed,
     Forall isOpenTag opened /\ Forall isCloseTag closed /\
     leadingOf node' = opened ++ leadingOf node /\
     default [] (tags !! Node.pos node) = default [] (tags' !! Node.pos node) ++ opened /\
     trailingOf node' = trailingOf node ++ closed /\
     default [] (tags !! Node.end_ node) = closed ++ default [] (tags' !! Node.end_ node) /\
     (forall t, last (default [] (tags' !! Node.pos node)) = Some t -> ~ isOpenTag t) /\
     (forall t, head (default [] (tags' !! Node.end_ node)) = Some t -> ~ isCloseTag t)).
Proof.
  cbv zeta. split; [apply attachHtmlTrivia_shape|]. split; [apply attachHtmlTrivia_shape|].
  unfold attachHtmlTrivia, leadingOf, trailingOf.
  destruct node as [i k ps e x l t cs]. cbn [Node.pos Node.end_ Node.leadingHtmlTrivia
    Node.trailingHtmlTrivia].
  destruct (tags !! ps) as [leadingTags|] eqn:Ep.
  - destruct (attachLeading_moves (rev leadingTags) l) as (opened & Ho & Hl & Hr & Hh).
    destruct (attachLeading (rev leadingTags) l) as [revRest leading]. simpl in Hl, Hr, Hh.
    cbn [with_trivia Node.pos Node.end_ Node.leadingHtmlTrivia Node.trailingHtmlTrivia
         Node.id Node.kind Node.text Node.children].
    assert (HL : leadingTags = rev revRest ++ opened).
    { rewrite <- (rev_involutive leadingTags), Hr, rev_app_distr, rev_involutive. done. }
    assert (Hlast : forall t0, last (rev revRest) = Some t0 -> ~ isOpenTag t0).
    { intros t0 Ht0. apply Hh. rewrite <- Ht0. by rewrite last_rev_head. }
    destruct (<[ps := rev revRest]> tags !! e) as [trailingTags|] eqn:Ee.
    + destruct (attachTrailing_moves trailingTags t) as (closed & Hc & Ht & Hr' & Hh').
      destruct (attachTrailing trailingTags t) as [rest trailing]. simpl in Ht, Hr', Hh'.
      simpl. split.
      * intros k0 H1 H2. by rewrite !lookup_insert_ne.
      * intros Hne. rewrite lookup_insert_ne in Ee by done.
        exists opened, closed. rewrite lookup_insert_ne, !lookup_insert_eq, Ee by done.
        simpl. repeat split; done.
    + simpl. split.
      * intros k0 H1 H2. by rewrite lookup_insert_ne.
      * intros Hne. rewrite lookup_insert_ne in Ee by done.
        exists opened, []. rewrite lookup_insert_eq, lookup_insert_ne, Ee by done.
        simpl. rewrite app_nil_r. repeat split; done.
  - cbn [Node.pos Node.end_ Node.leadingHtmlTrivia Node.trailingHtmlTrivia].
    destruct (tags !! e) as [trailingTags|] eqn:Ee.
    + destruct (attachTrailing_moves trailingTags t) as (closed & Hc & Ht & Hr' & Hh').
      destruct (attachTrailing trailingTags t) as [rest trailing]. simpl in Ht, Hr', Hh'.
      simpl. split.
      * intros k0 H1 H2. by rewrite lookup_insert_ne.
      * intros Hne. exists [], closed.
        rewrite lookup_insert_ne, Ep, lookup_insert_eq by done. simpl.
        repeat split; done.
    + simpl. split; [done|]. intros Hne. exists [], []. rewrite Ep, Ee. simpl.
      rewrite !app_nil_r. repeat split; done.
Qed.

Lemma attachHtmlTrivia_moves_tags_witness :
  let node := Node.mk 1 SyntaxKind.Identifier 0 1 (Some "B") None None [] in
  let tags : gmap nat (list HtmlTrivia) := {[0 := [sampleClose; sampleOpen]; 1 := [sampleClose]]} in
  exists opened closed,
    leadingOf (attachHtmlTrivia node tags).1 = opened ++ [] /\
    [sampleClose; sampleOpen] = default [] ((attachHtmlTrivia node tags).2 !! 0) ++ opened /\
    trailingOf (attachHtmlTrivia node tags).1 = [] ++ closed.
Proof.
  cbv zeta.
  destruct (attachHtmlTrivia_moves_tags
              (Node.mk 1 SyntaxKind.Identifier 0 1 (Some "B") None None [])
              {[0 := [sampleClose; sampleOpen]; 1 := [sampleClose]]})
    as (_ & _ & _ & H).
  destruct (H ltac:(simpl; lia)) as (opened & closed & _ & _ & H1 & H2 & H3 & _).
  exists opened, closed. split; [exact H1|]. split; [exact H2|exact H3].
Defined.

(** * Helpers of the core module *)

(** ** Positions and ranges *)

Section PositionFacts.
Implicit Types (l m r : Position).

Lemma Position_compare_cases l r :
  (Position.compare l r = (-1)%Z /\
   ((Position.line l < Position.line r)%Z \/
    (Position.line l = Position.line r /\ (Position.character l < Position.character r)%Z))) \/
  (Position.compare l r = 0%Z /\ l = r) \/
  (Position.compare l r = 1%Z /\
   ((Position.line r < Position.line l)%Z \/
    (Position.line l = Position.line r /\ (Position.character r < Position.character l)%Z))).
Proof.
  destruct l as [ll lc], r as [rl rc]. unfold Position.compare. simpl.
  rewrite !Z.gtb_ltb. repeat case Z.ltb_spec; intros; try (left; split; [done|lia]).
  - right. right. split; [done|lia].
  - right. right. split; [done|lia].
  - right. left. split; [done|]. f_equal; lia.
Qed.

Lemma Position_compare_le l r :
  (Position.compare l r <= 0)%Z <->
  (Position.line l < Position.line r)%Z \/
  (Position.line l = Position.line r /\ (Position.character l <= Position.character r)%Z).
Proof.
  destruct (Position_compare_cases l r) as [[-> H]|[[-> ->]|[-> H]]]; split; try lia.
Qed.

Lemma Position_compare_antisym l r : Position.compare r l = (- Position.compare l r)%Z.
Proof.
  destruct (Position_compare_cases l r) as [[E H]|[[E H]|[E H]]];
    destruct (Position_compare_cases r l) as [[E' H']|[[E' H']|[E' H']]];
    rewrite E, E'; try done; try lia; subst; lia.
Qed.

Lemma Position_compare_ge l r :
  (Position.compare l r >=? 0)%Z = (Position.compare r l <=? 0)%Z.
Proof.
  rewrite (Position_compare_antisym l r).
  destruct (Z.geb_spec (Position.compare l r) 0), (Z.leb_spec (- Position.compare l r) 0); lia.
Qed.

Lemma Position_le_trans l m r :
  (Position.compare l m <= 0)%Z -> (Position.compare m r <= 0)%Z ->
  (Position.compare l r <= 0)%Z.
Proof. rewrite !Position_compare_le. lia. Qed.

End PositionFacts.

(** X25.  [Position.compare] orders positions by line, then by character:
    it returns [-1], [0] or [+1], returns [0] exactly for equal positions,
    which are the ones [Position.equals] accepts, changes sign when its
    arguments are swapped, and is transitive.  [Position.clone] returns an
    equal position. *)
Theorem Position_compare_is_an_order (l m r : Position) :
  (Position.compare l r = (-1)%Z \/ Position.compare l r = 0%Z \/
   Position.compare l r = 1%Z) /\
  (Position.compare l r = 0%Z <-> l = r) /\
  (Position.equals l r = true <-> l = r) /\
  Position.compare r l = (- Position.compare l r)%Z /\
  ((Position.compare l m <= 0)%Z -> (Position.compare m r <= 0)%Z ->
   (Position.compare l r <= 0)%Z) /\
  Position.compare l (Position.clone l) = 0%Z.
Proof.
  split; [destruct (Position_compare_cases l r) as [[-> _]|[[-> _]|[-> _]]]; auto|].
  split.
  { destruct (Position_compare_cases l r) as [[-> H]|[[-> ->]|[-> H]]]; split; try done;
      intros ->; lia. }
  split.
  { destruct l as [ll lc], r as [rl rc]. unfold Position.equals. simpl.
    rewrite andb_true_iff, !Z.eqb_eq. split; [intros [-> ->]; done|intros [= -> ->]; done]. }
  split; [apply Position_compare_antisym|].
  split; [apply Position_le_trans|].
  destruct l as [ll lc]. unfold Position.clone, Position.create, Position.compare. simpl.
  rewrite !Z.gtb_ltb, !Z.ltb_irrefl. done.
Qed.

Lemma Position_compare_is_an_order_witness :
  Position.compare (Position.mk 1 4) (Position.mk 3 0) = (-1)%Z /\
  (Position.compare (Position.mk 1 4) (Position.mk 3 0) <= 0)%Z.
Proof.
  destruct (Position_compare_is_an_order (Position.mk 1 4) (Position.mk 2 9) (Position.mk 3 0))
    as (_ & _ & _ & _ & H & _).
  split; [reflexivity|]. apply H; vm_compute; discriminate.
Defined.

Section RangeFacts.
Implicit Types (a b c : Range) (p q : Position).

Lemma contains_spec a b :
  Range.contains a b = true <->
  notAfter (Range.start a) (Range.start b) /\ notAfter (Range.end_ b) (Range.end_ a).
Proof.
  unfold Range.contains, notAfter. rewrite Position_compare_ge, andb_true_iff, !Z.leb_le. done.
Qed.

Lemma containsPosition_spec a p :
  Range.containsPosition a p = true <->
  notAfter (Range.start a) p /\ notAfter p (Range.end_ a).
Proof.
  unfold Range.containsPosition, notAfter.
  rewrite Position_compare_ge, andb_true_iff, !Z.leb_le. done.
Qed.

Lemma notAfter_refl p : notAfter p p.
Proof.
  unfold notAfter. destruct (Position_compare_cases p p) as [[-> _]|[[-> _]|[E H]]]; lia.
Qed.

Lemma notAfter_trans p q r' : notAfter p q -> notAfter q r' -> notAfter p r'.
Proof. apply Position_le_trans. Qed.

Lemma strictlyBefore_not p q : strictlyBefore p q <-> ~ notAfter q p.
Proof.
  unfold strictlyBefore, notAfter. rewrite (Position_compare_antisym p q).
  destruct (Position_compare_cases p q) as [[-> _]|[[-> _]|[-> _]]]; lia.
Qed.

Lemma isCollapsed_spec a :
  Range.isCollapsed a = true <-> notAfter (Range.end_ a) (Range.start a).
Proof. unfold Range.isCollapsed, notAfter. rewrite Position_compare_ge, Z.leb_le. done. Qed.

End RangeFacts.

(** X26.  [Range.contains] is a preorder on ranges that
    [Range.containsPosition] extends to positions: a position is in a range
    exactly when the range contains the empty range at that position.
    [collapseToStart] and [collapseToEnd] give collapsed ranges, which a
    range whose start is not after its end contains.  [isCollapsed] also
    accepts a range whose start is after its end, so that
    [TextChange.isUnchanged] holds of every change with an empty text whose
    range does not start strictly before its end. *)
Theorem Range_contains_is_a_preorder (a b c : Range) (p : Position) (text : string) :
  Range.contains a a = true /\
  (Range.contains a b = true -> Range.contains b c = true -> Range.contains a c = true) /\
  Range.containsPosition a p = Range.contains a (Range.create p p) /\
  (Range.contains a b = true -> Range.containsPosition b p = true ->
   Range.containsPosition a p = true) /\
  Range.isCollapsed (Range.collapseToStart a) = true /\
  Range.isCollapsed (Range.collapseToEnd a) = true /\
  (notAfter (Range.start a) (Range.end_ a) ->
   Range.contains a (Range.collapseToStart a) = true /\
   Range.contains a (Range.collapseToEnd a) = true) /\
  (Range.isCollapsed a = false <-> strictlyBefore (Range.start a) (Range.end_ a)) /\
  (TextChange.isUnchanged (TextChange.create text a) = true <->
   text = EmptyString /\ ~ strictlyBefore (Range.start a) (Range.end_ a)).
Proof.
  split; [apply contains_spec; split; apply notAfter_refl|].
  split.
  { rewrite !contains_spec. intros [H1 H2] [H3 H4]. split; eapply notAfter_trans; eauto. }
  split; [reflexivity|].
  split.
  { rewrite contains_spec, !containsPosition_spec. intros [H1 H2] [H3 H4].
    split; eapply notAfter_trans; eauto. }
  split; [apply isCollapsed_spec, notAfter_refl|].
  split; [apply isCollapsed_spec, notAfter_refl|].
  split.
  { intros H. rewrite !contains_spec. simpl.
    repeat split; try apply notAfter_refl; exact H. }
  assert (Hc : Range.isCollapsed a = false <-> strictlyBefore (Range.start a) (Range.end_ a)).
  { rewrite strictlyBefore_not, <- isCollapsed_spec.
    destruct (Range.isCollapsed a); split; try done. }
  split; [exact Hc|].
  unfold TextChange.isUnchanged, TextChange.create. simpl.
  rewrite andb_true_iff, Nat.eqb_eq, <- Hc. split.
  - intros [Hlen ->]. split; [by destruct text|done].
  - intros [-> H]. split; [done|]. by destruct (Range.isCollapsed a).
Qed.

Lemma Range_contains_is_a_preorder_witness :
  let outer := Range.mk (Position.mk 0 0) (Position.mk 9 0) in
  let inner := Range.mk (Position.mk 2 0) (Position.mk 2 5) in
  Range.containsPosition outer (Position.mk 2 3) = true.
Proof.
  cbv zeta.
  destruct (Range_contains_is_a_preorder
              (Range.mk (Position.mk 0 0) (Position.mk 9 0))
              (Range.mk (Position.mk 2 0) (Position.mk 2 5))
              (Range.mk (Position.mk 2 0) (Position.mk 2 5))
              (Position.mk 2 3) EmptyString) as (_ & _ & _ & H & _).
  apply H; reflexivity.
Defined.

(** X27.  [Range.intersects] looks for an end of its second argument in its
    first, so it is one-sided: a range that lies strictly inside another
    does not intersect it, though the other intersects the range.  A range
    intersects every range it contains whose start is not after its end. *)
Theorem Range_intersects_is_one_sided (inner outer : Range) :
  (strictlyBefore (Range.start outer) (Range.start inner) ->
   strictlyBefore (Range.end_ inner) (Range.end_ outer) ->
   notAfter (Range.start inner) (Range.end_ inner) ->
   Range.intersects inner outer = false /\ Range.intersects outer inner = true) /\
  (Range.contains outer inner = true ->
   notAfter (Range.start inner) (Range.end_ inner) ->
   Range.intersects outer inner = true).
Proof.
  assert (Hin : Range.contains outer inner = true ->
                notAfter (Range.start inner) (Range.end_ inner) ->
                Range.intersects outer inner = true).
  { rewrite contains_spec. intros [H1 H2] H3. unfold Range.intersects.
    apply orb_true_iff. left. apply containsPosition_spec. split; [exact H1|].
    eapply notAfter_trans; eauto. }
  split; [|exact Hin].
  intros Hs He Hw. split.
  - unfold Range.intersects. apply orb_false_iff. split.
    + apply not_true_iff_false. rewrite containsPosition_spec. intros [H _].
      apply strictlyBefore_not in Hs. done.
    + apply not_true_iff_false. rewrite containsPosition_spec. intros [_ H].
      apply strictlyBefore_not in He. done.
  - apply Hin; [|exact Hw]. apply contains_spec.
    unfold strictlyBefore, notAfter in *. lia.
Qed.

Lemma Range_intersects_is_one_sided_witness :
  let outer := Range.mk (Position.mk 0 0) (Position.mk 9 0) in
  let inner := Range.mk (Position.mk 2 0) (Position.mk 2 5) in
  Range.intersects inner outer = false /\ Range.intersects outer inner = true.
Proof.
  cbv zeta.
  destruct (Range_intersects_is_one_sided
              (Range.mk (Position.mk 2 0) (Position.mk 2 5))
              (Range.mk (Position.mk 0 0) (Position.mk 9 0))) as [H _].
  apply H; vm_compute; first [reflexivity | discriminate].
Defined.

(** ** Binary search *)

Lemma toInt32_small x : (- 2 ^ 31 <= x < 2 ^ 31)%Z -> Core.toInt32 x = x.
Proof. intros H. unfold Core.toInt32. rewrite Z.mod_small; lia. Qed.

Section BinarySearch.
Variable array : list Z.
Variable value : Z.
Hypothesis Hlen : (Z.of_nat (length array) < 2 ^ 31)%Z.

Lemma element_inside i :
  (0 <= i < Z.of_nat (length array))%Z ->
  exists x, Core.element array i = Some x /\ array !! Z.to_nat i = Some x.
Proof using Type.
  clear Hlen. intros H. unfold Core.element. destruct (Z.leb_spec 0 i); [|lia].
  destruct (lookup_lt_is_Some_2 array (Z.to_nat i)) as [x Hx]; [lia|]. eauto.
Qed.

Lemma binarySearch_loop_spec fuel : forall low high,
  (0 <= low)%Z -> (high < Z.of_nat (length array))%Z -> (low <= high + 1)%Z ->
  (high - low + 1 <= Z.of_nat fuel)%Z ->
  exists result,
    Core.binarySearch_loop fuel array value low high = Some result /\
    ((0 <= result)%Z ->
     (low <= result <= high)%Z /\ array !! Z.to_nat result = Some value) /\
    ((result < 0)%Z ->
     (low <= - result - 1 <= high + 1)%Z /\
     (sortedAscending array ->
      (forall i x, array !! i = Some x -> (Z.of_nat i < low)%Z -> (x < value)%Z) ->
      (forall i x, array !! i = Some x -> (high < Z.of_nat i)%Z -> (value < x)%Z) ->
      (forall i x, array !! i = Some x -> (Z.of_nat i < - result - 1)%Z -> (x < value)%Z) /\
      (forall i x, array !! i = Some x -> (- result - 1 <= Z.of_nat i)%Z -> (value < x)%Z))).
Proof using Hlen.
  induction fuel as [|fuel IH]; intros low high Hlow Hhigh Hord Hfuel;
    cbn [Core.binarySearch_loop]; destruct (Z.leb_spec low high) as [Hle|Hgt].
  - lia.
  - exists (Z.lnot (Core.toInt32 low)). rewrite toInt32_small by lia. unfold Z.lnot.
    split; [done|]. split; [lia|]. intros _. split; [lia|].
    intros _ Hbelow Habove. split; intros i x Hx Hi; [apply (Hbelow i x Hx)|apply (Habove i x Hx)]; lia.
  - cbv zeta. rewrite toInt32_small by lia. rewrite Z.shiftr_div_pow2 by lia.
    change (2 ^ 1)%Z with 2%Z.
    set (middle := (low + (high - low) / 2)%Z).
    assert (Hmid : (low <= middle <= high)%Z).
    { unfold middle. pose proof (Z.div_pos (high - low) 2 ltac:(lia) ltac:(lia)).
      pose proof (Z.div_le_upper_bound (high - low) 2 (high - low) ltac:(lia) ltac:(lia)). lia. }
    destruct (element_inside middle ltac:(lia)) as (midValue & -> & Hmv).
    destruct (Z.eqb_spec midValue value) as [->|Hne].
    + exists middle. split; [done|]. split; [intros _; split; [lia|exact Hmv]|lia].
    + rewrite Z.gtb_ltb. destruct (Z.ltb_spec value midValue) as [Hgt|Hlt].
      * destruct (IH low (middle - 1)%Z) as (result & -> & Hpos & Hneg); try lia.
        exists result. split; [done|]. split.
        { intros H. destruct (Hpos H) as [? ?]. split; [lia|done]. }
        intros H. destruct (Hneg H) as [? Hins]. split; [lia|].
        intros Hsorted Hbelow Habove. apply Hins; [exact Hsorted|exact Hbelow|].
        intros i x Hx Hi.
        destruct (decide (i = Z.to_nat middle)) as [->|Hi'].
        { rewrite Hmv in Hx. injection Hx as <-. exact Hgt. }
        pose proof (Hsorted (Z.to_nat middle) i midValue x ltac:(lia) Hmv Hx). lia.
      * destruct (IH (middle + 1)%Z high) as (result & -> & Hpos & Hneg); try lia.
        exists result. split; [done|]. split.
        { intros H. destruct (Hpos H) as [? ?]. split; [lia|done]. }
        intros H. destruct (Hneg H) as [? Hins]. split; [lia|].
        intros Hsorted Hbelow Habove. apply Hins; [exact Hsorted| |exact Habove].
        intros i x Hx Hi.
        destruct (decide (i = Z.to_nat middle)) as [->|Hi'].
        { rewrite Hmv in Hx. injection Hx as <-. lia. }
        pose proof (Hsorted i (Z.to_nat middle) x midValue ltac:(lia) Hx Hmv). lia.
  - exists (Z.lnot (Core.toInt32 low)). rewrite toInt32_small by lia. unfold Z.lnot.
    split; [done|]. split; [lia|]. intros _. split; [lia|].
    intros _ Hbelow Habove. split; intros i x Hx Hi; [apply (Hbelow i x Hx)|apply (Habove i x Hx)]; lia.
Qed.

End BinarySearch.

(** X28.  [binarySearch] ends on every array of less than 2^31 numbers.
    A result that is not negative is an index at which the array holds the
    value.  On an array in ascending order a negative result is the
    complement [~k] of the insertion point: all elements before index [k]
    are smaller and all from [k] on are larger than the value, so the value
    is not in the array. *)
Theorem binarySearch_finds (array : list Z) (value : Z) :
  (Z.of_nat (length array) < 2 ^ 31)%Z ->
  exists result,
    Core.binarySearch array value = Some result /\
    (- Z.of_nat (length array) - 1 <= result < Z.of_nat (length array))%Z /\
    ((0 <= result)%Z -> array !! Z.to_nat result = Some value) /\
    (sortedAscending array -> (result < 0)%Z ->
     (forall i x, array !! i = Some x -> (Z.of_nat i < Z.lnot result)%Z -> (x < value)%Z) /\
     (forall i x, array !! i = Some x -> (Z.lnot result <= Z.of_nat i)%Z -> (value < x)%Z) /\
     value ∉ array).
Proof.
  intros Hlen. unfold Core.binarySearch.
  destruct (binarySearch_loop_spec array value Hlen (S (length array)) 0
              (Z.of_nat (length array) - 1)) as (result & Hrun & Hpos & Hneg); try lia.
  exists result. split; [exact Hrun|]. split.
  { destruct (Z.lt_ge_cases result 0) as [H|H];
      [destruct (Hneg H) as [? _]|destruct (Hpos H) as [? _]]; lia. }
  split; [intros H; apply (Hpos H)|].
  intros Hsorted H. destruct (Hneg H) as [Hb Hins].
  destruct Hins as [Hbelow Habove]; [exact Hsorted| | |].
  { intros i x _ Hi. lia. }
  { intros i x Hx Hi. apply lookup_lt_Some in Hx. lia. }
  unfold Z.lnot. replace (Z.pred (- result)) with (- result - 1)%Z by lia.
  split; [exact Hbelow|]. split; [exact Habove|].
  intros Hin. apply list_elem_of_lookup in Hin as [i Hi].
  destruct (Z.lt_ge_cases (Z.of_nat i) (- result - 1)) as [Hlt|Hge].
  - pose proof (Hbelow i value Hi Hlt). lia.
  - pose proof (Habove i value Hi ltac:(lia)). lia.
Qed.

Lemma binarySearch_finds_witness :
  Core.binarySearch [1; 3; 5; 7]%Z 5%Z = Some 2%Z /\
  Core.binarySearch [1; 3; 5; 7]%Z 4%Z = Some (-3)%Z /\
  exists result, Core.binarySearch [1; 3; 5; 7]%Z 4%Z = Some result /\
                 (- 4 - 1 <= result < 4)%Z.
Proof.
  split; [reflexivity|]. split; [reflexivity|].
  destruct (binarySearch_finds [1; 3; 5; 7]%Z 4%Z) as (result & H & Hb & _).
  - vm_compute. reflexivity.
  - exists result. split; [exact H|exact Hb].
Defined.

(** ** First, last and only item *)

Section Iterables.
Context {T : Type}.
Implicit Types (items : list T).

Lemma last_loop_spec items : forall acc,
  Core.last_loop items acc = match last items with Some x => Some x | None => acc end.
Proof.
  induction items as [|item [|next rest] IH]; intros acc; [done|done|].
  change (Core.last_loop (item :: next :: rest) acc)
    with (Core.last_loop (next :: rest) (Some item)).
  rewrite IH. change (last (item :: next :: rest)) with (last (next :: rest)).
  destruct (last (next :: rest)) eqn:E; [done|]. by apply last_None in E.
Qed.

Lemma only_loop_spec items : forall acc,
  Core.only_loop items acc true = Core.last_loop items acc.
Proof. induction items as [|item rest IH]; intros acc; [done|]. simpl. apply IH. Qed.

End Iterables.

(** X29.  On arrays [first], [last] and [only] return the first item, the
    last item, and the item of an array of length one; without items they
    return [undefined].  On other iterables [first] and [last] do the same,
    but [only] returns the last item however many there are: the flag that
    should end its loop at the second item is never cleared. *)
Theorem only_returns_the_last_item {T : Type} (items : list T) :
  Core.first (Iterable.Array items) = head items /\
  Core.first (Iterable.Other items) = head items /\
  Core.last (Iterable.Array items) = last items /\
  Core.last (Iterable.Other items) = last items /\
  Core.only (Iterable.Array items) = match items with [item] => Some item | _ => None end /\
  Core.only (Iterable.Other items) = last items /\
  Core.first (@Iterable.Undefined T) = None /\ Core.first (@Iterable.EmptyIterable T) = None /\
  Core.last (@Iterable.Undefined T) = None /\ Core.last (@Iterable.EmptyIterable T) = None /\
  Core.only (@Iterable.Undefined T) = None /\ Core.only (@Iterable.EmptyIterable T) = None.
Proof.
  split; [by destruct items|]. split; [by destruct items|].
  split.
  { unfold Core.last. destruct items as [|item rest]; [done|].
    cbn [length Nat.ltb Nat.leb]. rewrite last_lookup. f_equal. simpl. lia. }
  split.
  { unfold Core.last. rewrite last_loop_spec. by destruct (last items). }
  split; [by destruct items as [|item [|next rest]]|].
  split; [|done].
  unfold Core.only. rewrite only_loop_spec, last_loop_spec. by destruct (last items).
Qed.
